(** * mergeSTR: merging sorted tandem-repeat VCF streams

    A shallow embedding of [trtools/mergeSTR/mergeSTR.py] and the
    properties of its merge cursor ([RecordIterator]), allele and field
    reconcilers ([GetRefAllele], [GetAltAlleles], [GetInfoItem]) and
    record emitter ([MergeRecords], [WriteSampleData]).

    Conventions of the embedding:
    - Python [int] positions are [Z]; [np.inf] and [-np.inf] are the two
      extra points of [ExtZ].
    - [str] is [string]; [upper] and [lower] act on the ASCII letters,
      which is all that allele strings and header keywords contain.
    - a raised exception is the [Raise] case of [result]; output written
      to [vcfw] and messages given to [common.WARNING] are collected, in
      program order, in the event log of the monad [M].
    - a Python [set] that is iterated is enumerated by [set_iter] (a set
      of strings) or [idx_iter] (a set of indices, with the proof that
      it enumerates), an arbitrary enumeration of the set: Python fixes
      no iteration order.
    - [float] is the parameter [pyfloat]; its values are those of
      [PyFloat], among them NaN and the two infinities. [sorted] on keys
      that [<] orders totally is the stable sort [sort_keyed]; on float
      keys it is the parameter [sort_floats], which is known to be that
      sort only where no key is NaN.
    - [mergeutils.DebugPrintRecordLocations] is the parameter
      [DebugPrintRecordLocations]. *)

From Stdlib Require Import ZArith QArith String Ascii List Lia Bool Sorted Permutation.
From Stdlib Require Import OrderedTypeEx.
From stdpp Require Import base option list gmap strings pretty sorting.

Open Scope string_scope.
Open Scope Z_scope.
Open Scope list_scope.

(** ** Strings *)

Definition upper_ascii (c : ascii) : ascii :=
  let n := nat_of_ascii c in
  if ((97 <=? n) && (n <=? 122))%nat then ascii_of_nat (n - 32) else c.

Definition lower_ascii (c : ascii) : ascii :=
  let n := nat_of_ascii c in
  if ((65 <=? n) && (n <=? 90))%nat then ascii_of_nat (n + 32) else c.

Fixpoint map_string (f : ascii -> ascii) (s : string) : string :=
  match s with
  | EmptyString => EmptyString
  | String c s' => String (f c) (map_string f s')
  end.

(** [s.upper()] and [s.lower()] *)
Definition upper : string -> string := map_string upper_ascii.
Definition lower : string -> string := map_string lower_ascii.

(** [s[a:-1]] *)
Definition slice_to_last (a : nat) (s : string) : string :=
  substring a (String.length s - 1 - a) s.

(** [s[:n]] *)
Definition slice_prefix (n : nat) (s : string) : string := substring 0 n s.

(** [sub in s] *)
Fixpoint contains (sub s : string) : bool :=
  String.prefix sub s ||
  match s with
  | EmptyString => false
  | String _ s' => contains sub s'
  end.

(** [s.split(sep)] for a one-character separator *)
Fixpoint split_on (sep : ascii) (s : string) : list string :=
  match s with
  | EmptyString => [EmptyString]
  | String c s' =>
      if Ascii.eqb c sep then EmptyString :: split_on sep s'
      else match split_on sep s' with
           | [] => [String c EmptyString]
           | w :: ws => String c w :: ws
           end
  end.

Definition tab : string := String (ascii_of_nat 9) EmptyString.
Definition newline_char : ascii := ascii_of_nat 10.
Definition newline : string := String newline_char EmptyString.

(** [sep.join(l)] *)
Definition join (sep : string) (l : list string) : string := String.concat sep l.

Definition digit_of_ascii (c : ascii) : option Z :=
  let n := nat_of_ascii c in
  if ((48 <=? n) && (n <=? 57))%nat then Some (Z.of_nat (n - 48)) else None.

(** The blanks that [int] skips at both ends of its argument: tab, line
    feed, vertical tab, form feed, carriage return and space. *)
Definition is_space (c : ascii) : bool :=
  let n := nat_of_ascii c in
  ((9 <=? n) && (n <=? 13))%nat || (n =? 32)%nat.

Fixpoint lstrip (s : string) : string :=
  match s with
  | EmptyString => EmptyString
  | String c s' => if is_space c then lstrip s' else s
  end.

(** Where the reading of the digits stands: a digit must come; a digit
    has just been read; only blanks may follow. *)
Inductive int_state : Set := NeedDigit | AfterDigit | Trailing.

(** Digits, with single underscores between them, and then blanks to
    the end of the text. *)
Fixpoint parse_digits (st : int_state) (acc : Z) (s : string) : option Z :=
  match s with
  | EmptyString =>
      match st with
      | NeedDigit => None
      | _ => Some acc
      end
  | String c s' =>
      match st with
      | NeedDigit =>
          match digit_of_ascii c with
          | Some d => parse_digits AfterDigit (10 * acc + d) s'
          | None => None
          end
      | AfterDigit =>
          match digit_of_ascii c with
          | Some d => parse_digits AfterDigit (10 * acc + d) s'
          | None =>
              if Ascii.eqb c "_"%char then parse_digits NeedDigit acc s'
              else if is_space c then parse_digits Trailing acc s'
              else None
          end
      | Trailing => if is_space c then parse_digits Trailing acc s' else None
      end
  end.

(** [int(s)] for a string of ASCII characters: blanks, an optional sign,
    decimal digits with single underscores between them, blanks. [None]
    is [ValueError]. *)
Definition pyint (s : string) : option Z :=
  match lstrip s with
  | EmptyString => None
  | String c s' =>
      if Ascii.eqb c "-"%char then Z.opp <$> parse_digits NeedDigit 0 s'
      else if Ascii.eqb c "+"%char then parse_digits NeedDigit 0 s'
      else parse_digits NeedDigit 0 (String c s')
  end.

(** [str(n)] for an integer *)
Definition str_Z (z : Z) : string := pretty z.
Definition str_nat (n : nat) : string := pretty n.

(** ** Exceptions, results, and the output monad *)

Inductive exn : Set :=
| BadOrderException
| ValueError
| IndexError
| KeyError
| AttributeError
| TypeError
| AssertionError
| StopIteration.

Inductive result (A : Type) : Type :=
| Ok (a : A)
| Raise (e : exn).
Arguments Ok {A} a.
Arguments Raise {A} e.

Definition rbind {A B} (r : result A) (f : A -> result B) : result B :=
  match r with
  | Ok a => f a
  | Raise e => Raise e
  end.

(** What [common.WARNING] is told. The texts are fixed by the call site;
    the constructors keep their arguments. *)
Inductive warning : Type :=
| ConflictingRefs (chrom pos : string)
| IncompatibleInfo (vals : gset string) (info_field chrom : string) (pos : Z)
| OverlapSkipping (chrom : string) (pos : Z) (file : nat)
| ChromNotInContigs (file : nat) (chrom : string) (chroms : list string)
| NeedContigHeader
| BcftoolsReheaderHint
| RecordOutOfOrder (file : nat) (chrom : string) (pos : Z)
| ExpectedInfoNotFound (field : string)
| TwoInfoLines (field : string)
| ExpectedFormatNotFound (field : string)
| TwoFormatLines (field : string)
| SampleError
| HeaderError
| TrimOnlyHipSTR.

Inductive event : Type :=
| VcfWrite (s : string)
| Warning (w : warning).

(** A computation that writes to [vcfw], warns, and returns or raises. *)
Definition M (A : Type) : Type := list event * result A.

Definition ret {A} (a : A) : M A := ([], Ok a).
Definition raise {A} (e : exn) : M A := ([], Raise e).
Definition bind {A B} (m : M A) (f : A -> M B) : M B :=
  match m with
  | (l, Ok a) => let '(l', r) := f a in (l ++ l', r)
  | (l, Raise e) => (l, Raise e)
  end.
Definition lift {A} (r : result A) : M A := ([], r).
Definition write (s : string) : M unit := ([VcfWrite s], Ok tt).
Definition WARNING (w : warning) : M unit := ([Warning w], Ok tt).

Declare Scope M_scope.
Delimit Scope M_scope with M.
Notation "x <- m ;; k" := (bind m (fun x => k))
  (at level 90, m at next level, right associativity) : M_scope.
Notation "m ;;; k" := (bind m (fun _ => k))
  (at level 90, right associativity) : M_scope.
Notation "x <~ r ;; k" := (rbind r (fun x => k))
  (at level 90, r at next level, right associativity) : M_scope.
Open Scope M_scope.

(** The text written to [vcfw] and the warnings, read off the log. *)
Fixpoint written (l : list event) : list string :=
  match l with
  | [] => []
  | VcfWrite s :: l' => s :: written l'
  | Warning _ :: l' => written l'
  end.

Fixpoint warned (l : list event) : list warning :=
  match l with
  | [] => []
  | VcfWrite _ :: l' => warned l'
  | Warning w :: l' => w :: warned l'
  end.

(** [for i in range(n)] threading a state, leaving at the first raise *)
Fixpoint for_from {S : Type} (i n : nat) (body : nat -> S -> result S) (s : S)
  : result S :=
  match n with
  | O => Ok s
  | Datatypes.S n' =>
      match body i s with
      | Ok s' => for_from (Datatypes.S i) n' body s'
      | Raise e => Raise e
      end
  end.

Definition for_range {S : Type} (n : nat) (body : nat -> S -> result S) (s : S)
  : result S := for_from 0 n body s.

(** the same loop for a body with output *)
Fixpoint forM_from {S : Type} (i n : nat) (body : nat -> S -> M S) (s : S)
  : M S :=
  match n with
  | O => ret s
  | Datatypes.S n' => s' <- body i s ;; forM_from (Datatypes.S i) n' body s'
  end.

Definition forM_range {S : Type} (n : nat) (body : nat -> S -> M S) (s : S)
  : M S := forM_from 0 n body s.

(** [l[i]]: [IndexError] past the end *)
Definition getitem {A} (l : list A) (i : nat) : result A :=
  match l !! i with
  | Some a => Ok a
  | None => Raise IndexError
  end.

(** ** Data model *)

Inductive VcfTypes : Set := gangstr | advntr | hipstr | eh | popstr.

Definition VcfTypes_eqb (a b : VcfTypes) : bool :=
  match a, b with
  | gangstr, gangstr | advntr, advntr | hipstr, hipstr | eh, eh
  | popstr, popstr => true
  | _, _ => false
  end.

(** One cell of a numeric FORMAT array: whether it is NaN, and its
    rendering by [astype(str)]. *)
Record NumCell : Type := { is_nan : bool; as_str : string }.

(** [record.format[fmt]]: one string per sample, or one row of numbers
    per sample. *)
Inductive FormatArray : Type :=
| StringArray (cells : list string)
| NumericArray (rows : list (list NumCell)).

(** A harmonized record ([trh.TRRecord]) together with the fields of its
    [vcfrecord] that the merge reads. A row of [genotypes] is one row of
    [GetGenotypeIndicies()]: the allele indices and the phasing flag of
    its last column. *)
Record TRRecord : Type := {
  chrom : string;
  pos : Z;
  end_pos : Z;
  trimmed_pos : Z;
  trimmed_end_pos : Z;
  vcfrecord_REF : string;
  vcfrecord_ALT : list string;
  vcfrecord_ID : option string;
  ref_allele : string;
  alt_alleles : list string;
  info : gmap string string;
  genotypes : list (list Z * bool);
  format : gmap string FormatArray
}.

Definition NOCALLSTRING : string := ".".

Definition INFOFIELDS (vcftype : VcfTypes) : list (string * bool) :=
  match vcftype with
  | gangstr => [("END", true); ("RU", true); ("PERIOD", true); ("REF", true);
                ("EXPTHRESH", true); ("STUTTERUP", false);
                ("STUTTERDOWN", false); ("STUTTERP", false)]
  | hipstr => [("INFRAME_PGEOM", false); ("INFRAME_UP", false); ("INFRAME_DOWN", false);
               ("OUTFRAME_PGEOM", false); ("OUTFRAME_UP", false); ("OUTFRAME_DOWN", false);
               ("BPDIFFS", false); ("START", true); ("END", true); ("PERIOD", true);
               ("AN", false); ("REFAC", false); ("AC", false); ("NSKIP", false);
               ("NFILT", false); ("DP", false); ("DSNP", false); ("DSTUTTER", false);
               ("DFLANKINDEL", false)]
  | eh => [("END", true); ("REF", true); ("REPID", true); ("RL", true);
           ("RU", true); ("SVTYPE", false); ("VARID", true)]
  | popstr => [("Motif", true)]
  | advntr => [("END", true); ("VID", true); ("RU", true); ("RC", true)]
  end.

Definition FORMATFIELDS (vcftype : VcfTypes) : list string :=
  match vcftype with
  | gangstr => ["DP"; "Q"; "REPCN"; "REPCI"; "RC"; "ENCLREADS"; "FLNKREADS"; "ML";
                "INS"; "STDERR"; "QEXP"]
  | hipstr => ["GB"; "Q"; "PQ"; "DP"; "DSNP"; "PSNP"; "PDP"; "GLDIFF"; "DSTUTTER";
               "DFLANKINDEL"; "AB"; "FS"; "DAB"; "ALLREADS"; "MALLREADS"]
  | eh => ["ADFL"; "ADIR"; "ADSP"; "LC"; "REPCI"; "REPCN"; "SO"]
  | popstr => ["AD"; "DP"; "PL"]
  | advntr => ["DP"; "SR"; "FR"; "ML"]
  end.

(** [current_records[i]] used as a record: [None] has no attributes. *)
Definition record_at (current_records : list (option TRRecord)) (i : nat)
  : result TRRecord :=
  match current_records !! i with
  | Some (Some r) => Ok r
  | Some None => Raise AttributeError
  | None => Raise IndexError
  end.

(** ** GetRefAllele *)

Definition GetRefAllele_refs (current_records : list (option TRRecord))
    (mergelist : list bool) (trim : bool) : result (list string) :=
  for_range (length mergelist) (fun i refs =>
    if default false (mergelist !! i) then
      r <~ record_at current_records i ;;
      if negb trim then Ok (refs ++ [upper (vcfrecord_REF r)])
      else Ok (refs ++ [upper (ref_allele r)])
    else Ok refs) [].

Definition GetRefAllele (current_records : list (option TRRecord))
    (mergelist : list bool) (trim : bool) : result (option string) :=
  refs <~ GetRefAllele_refs current_records mergelist trim ;;
  if negb (size (list_to_set refs : gset string) =? 1)%nat then Ok None
  else Ok (head refs).

(** ** sorted(..., key=...) *)

Section Sorting.
Context {K : Type} (lt : K -> K -> bool).

(** Insertion behind every element that is not greater: equal keys
    keep the order in which they were met ([sorted] is stable and
    compares keys with [<] only). *)
Fixpoint insert_keyed (kx : K * string) (l : list (K * string))
  : list (K * string) :=
  match l with
  | [] => [kx]
  | ky :: l' =>
      if lt (fst kx) (fst ky) then kx :: ky :: l'
      else ky :: insert_keyed kx l'
  end.

Definition sort_keyed (l : list (K * string)) : list (K * string) :=
  foldl (fun acc kx => insert_keyed kx acc) [] l.

(** [sorted(l, key=key)] by the sort [sort] of the keyed items: every
    key is computed first; a key that raises makes the call raise
    [ValueError]. *)
Definition sorted_with (sort : list (K * string) -> list (K * string))
    (key : string -> option K) (l : list string) : result (list string) :=
  match mapM (fun x => (fun k => (k, x)) <$> key x) l with
  | Some kl => Ok (snd <$> sort kl)
  | None => Raise ValueError
  end.

(** [sorted(l, key=key)] for keys that [<] orders totally *)
Definition sorted (key : string -> option K) (l : list string)
  : result (list string) :=
  sorted_with sort_keyed key l.
End Sorting.

Definition Qlt_bool (a b : Q) : bool := negb (Qle_bool b a).

(** The values of a Python [float]. *)
Inductive PyFloat : Type :=
| NaN
| NegInfinity
| Finite (q : Q)
| Infinity.

(** [a < b] on floats: false as soon as one side is NaN *)
Definition float_lt (a b : PyFloat) : bool :=
  match a, b with
  | NaN, _ | _, NaN => false
  | _, NegInfinity => false
  | NegInfinity, _ => true
  | Infinity, _ => false
  | Finite _, Infinity => true
  | Finite x, Finite y => Qlt_bool x y
  end.

Definition is_NaN (a : PyFloat) : bool :=
  match a with
  | NaN => true
  | _ => false
  end.


(** [(len(x), x)] and the order of such pairs *)
Definition len_lex_key (x : string) : option (nat * string) :=
  Some (String.length x, x).

Definition len_lex_lt (a b : nat * string) : bool :=
  (fst a <? fst b)%nat || ((fst a =? fst b)%nat && String.ltb (snd a) (snd b)).

(** [l.index(x)]: [None] is [ValueError] *)
Fixpoint index_of (x : string) (l : list string) : option nat :=
  match l with
  | [] => None
  | y :: l' => if String.eqb y x then Some 0%nat else S <$> index_of x l'
  end.

Fixpoint forM_enumerate {A S : Type} (i : nat) (l : list A)
    (body : nat -> A -> S -> M S) (s : S) : M S :=
  match l with
  | [] => ret s
  | a :: l' => s' <- body i a s ;; forM_enumerate (Datatypes.S i) l' body s'
  end.

Fixpoint for_enumerate {A S : Type} (i : nat) (l : list A)
    (body : nat -> A -> S -> result S) (s : S) : result S :=
  match l with
  | [] => Ok s
  | a :: l' => s' <~ body i a s ;; for_enumerate (Datatypes.S i) l' body s'
  end.

Section Merge.
(** The order in which Python iterates a set of strings. *)
Context (set_iter : gset string -> list string).
(** [float(s)]: the value of the float, [None] for [ValueError]. *)
Context (pyfloat : string -> option PyFloat).
(** What [sorted] makes of items keyed by floats. *)
Context (sort_floats : list (PyFloat * string) -> list (PyFloat * string)).

(** ** GetAltAlleles *)

Definition get_alts (trim : bool) (record : TRRecord) : list string :=
  if negb trim then vcfrecord_ALT record else alt_alleles record.

Definition GetAltAlleles_alts (current_records : list (option TRRecord))
    (mergelist : list bool) (trim : bool) : result (gset string) :=
  for_range (length mergelist) (fun i alts =>
    if default false (mergelist !! i) then
      r <~ record_at current_records i ;;
      Ok (foldl (fun alts item => alts ∪ {[ upper item ]}) alts (get_alts trim r))
    else Ok alts) ∅.

Definition GetAltAlleles_out_alts (vcftype : VcfTypes) (alts : gset string)
  : result (list string) :=
  if VcfTypes_eqb vcftype eh then
    sorted Z.ltb (fun x => pyint (slice_to_last 4 x)) (set_iter alts)
  else if VcfTypes_eqb vcftype popstr then
    sorted_with sort_floats (fun x => pyfloat (slice_to_last 1 x)) (set_iter alts)
  else
    sorted len_lex_lt len_lex_key (set_iter alts).

Definition GetAltAlleles_mapping (out_alts ralts : list string)
  : result (list string) :=
  idxs <~ for_enumerate 0 ralts (fun _ ralt acc =>
            match index_of (upper ralt) out_alts with
            | Some k => Ok (acc ++ [(k + 1)%nat])
            | None => Raise ValueError
            end) [] ;;
  Ok (str_nat <$> (0%nat :: idxs)).

Definition GetAltAlleles (current_records : list (option TRRecord))
    (mergelist : list bool) (vcftype : VcfTypes) (trim : bool)
  : result (list string * list (list string)) :=
  alts <~ GetAltAlleles_alts current_records mergelist trim ;;
  out_alts <~ GetAltAlleles_out_alts vcftype alts ;;
  mappings <~ for_range (length mergelist) (fun i mappings =>
    if default false (mergelist !! i) then
      r <~ record_at current_records i ;;
      m <~ GetAltAlleles_mapping out_alts (get_alts trim r) ;;
      Ok (mappings ++ [m])
    else Ok mappings) [] ;;
  Ok (out_alts, mappings).

(** ** GetID *)

Definition GetID (idval : option string) : string :=
  match idval with
  | None => "."
  | Some i => i
  end.

(** ** GetInfoItem *)

Definition GetInfoItem (current_records : list (option TRRecord))
    (mergelist : list bool) (info_field : string) (fail : bool)
  : M (option string) :=
  if negb fail then ret None
  else
    st <- lift (for_range (length mergelist) (fun i st =>
            if default false (mergelist !! i) then
              r <~ record_at current_records i ;;
              match info r !! info_field with
              | Some v => Ok (fst st ∪ {[ v ]}, Some r)
              | None => Raise ValueError
              end
            else Ok st) ((∅ : gset string), None)) ;;
    let vals := fst st in
    let a_merged_rec := snd st in
    if (size vals =? 1)%nat then
      match elements vals with
      | v :: _ => ret (Some (info_field +:+ "=" +:+ v))
      | [] => raise KeyError
      end
    else
      match a_merged_rec with
      | Some r =>
          WARNING (IncompatibleInfo vals info_field (chrom r) (pos r)) ;;;
          ret None
      | None => raise AttributeError
      end.

(** ** WriteSampleData *)

Definition not_called (gt : list Z) : bool :=
  forallb (fun g => (g =? -1) || (g =? -2)) gt.

Definition phase_char (phased : bool) : string :=
  if phased then "|" else "/".

(** [mapping[g]] for one index of a numpy index array: a negative
    index counts from the end. *)
Definition take_index (mapping : list string) (g : Z) : result string :=
  let n := Z.of_nat (length mapping) in
  if (0 <=? g) && (g <? n) then getitem mapping (Z.to_nat g)
  else if (- n <=? g) && (g <? 0) then getitem mapping (Z.to_nat (n + g))
  else Raise IndexError.

Definition render_float (c : NumCell) : string :=
  if is_nan c then "." else as_str c.

Definition format_array_for (record : TRRecord) (ty fmt : string)
  : result FormatArray :=
  match format record !! fmt with
  | None => Raise KeyError
  | Some arr =>
      if String.eqb ty "String" then Ok arr
      else if String.eqb ty "Float" then
        match arr with
        | NumericArray rows =>
            Ok (NumericArray
                  (map (map (fun c => {| is_nan := is_nan c;
                                          as_str := render_float c |})) rows))
        | StringArray _ => Raise TypeError
        end
      else Ok arr
  end.

Definition WriteSampleData_formats (record : TRRecord)
    (formats format_type : list string) : result (gmap string FormatArray) :=
  for_enumerate 0 formats (fun format_idx fmt format_arrays =>
    ty <~ getitem format_type format_idx ;;
    arr <~ format_array_for record ty fmt ;;
    Ok (<[fmt := arr]> format_arrays)) ∅.

Definition WriteSampleData_cell (format_arrays : gmap string FormatArray)
    (ty fmt : string) (sample_idx : nat) : result string :=
  match format_arrays !! fmt with
  | None => Raise KeyError
  | Some arr =>
      if String.eqb ty "String" then
        match arr with
        | StringArray cells => getitem cells sample_idx
        | NumericArray _ => Raise TypeError
        end
      else
        match arr with
        | NumericArray rows =>
            row <~ getitem rows sample_idx ;;
            Ok (join "," (as_str <$> row))
        | StringArray _ => Raise IndexError
        end
  end.

Definition WriteSampleData (record : TRRecord) (alleles formats
    format_type mapping : list string) : M unit :=
  if bool_decide ("GT" ∈ formats) then raise AssertionError
  else
    let genotypes := genotypes record in
    format_arrays <- lift (WriteSampleData_formats record formats format_type) ;;
    forM_range (length genotypes) (fun sample_idx _ =>
      write tab ;;;
      row <- lift (getitem genotypes sample_idx) ;;
      if not_called (fst row) then write "."
      else
        gt <- lift (for_enumerate 0 (fst row) (fun _ g acc =>
                      a <~ take_index mapping g ;; Ok (acc ++ [a])) []) ;;
        write (join (phase_char (snd row)) gt) ;;;
        forM_enumerate 0 formats (fun fmt_idx fmt _ =>
          write ":" ;;;
          ty <- lift (getitem format_type fmt_idx) ;;
          cell <- lift (WriteSampleData_cell format_arrays ty fmt sample_idx) ;;
          write cell) tt) tt.

(** ** MergeRecords *)

(** lines 438-443: the body of the INFO loop; the state is [first] *)
Definition MergeRecords_info_item (current_records : list (option TRRecord))
    (mergelist : list bool) (fr : string * bool) (first : bool) : M bool :=
  inf <- GetInfoItem current_records mergelist (fst fr) (snd fr) ;;
  match inf with
  | Some inf =>
      (if negb first then write ";" else ret tt) ;;;
      write inf ;;;
      ret false
  | None => ret first
  end.

(** lines 436-443: the INFO loop *)
Definition MergeRecords_info (current_records : list (option TRRecord))
    (mergelist : list bool) (useinfo : list (string * bool)) : M bool :=
  forM_enumerate 0 useinfo (fun _ fr first =>
    MergeRecords_info_item current_records mergelist fr first) true.

(** the sample loop; the state is [map_iter] *)
Definition MergeRecords_samples (num_samples : list nat)
    (current_records : list (option TRRecord)) (mergelist : list bool)
    (alleles useformat format_type : list string)
    (mappings : list (list string)) : M (list (list string)) :=
  forM_range (length mergelist) (fun i map_iter =>
    if default false (mergelist !! i) then
      r <- lift (record_at current_records i) ;;
      match map_iter with
      | [] => raise StopIteration
      | m :: map_iter' =>
          WriteSampleData r alleles useformat format_type m ;;;
          ret map_iter'
      end
    else
      n <- lift (getitem num_samples i) ;;
      (if (0 <? n)%nat then
         write tab ;;;
         write (join tab (replicate n NOCALLSTRING))
       else ret tt) ;;;
      ret map_iter) mappings.

Definition MergeRecords (vcftype : VcfTypes) (num_samples : list nat)
    (current_records : list (option TRRecord)) (mergelist : list bool)
    (useinfo : list (string * bool)) (useformat format_type : list string)
    (trim : bool) : M unit :=
  let use_ind :=
    filter (fun i => default false (mergelist !! i) = true)
           (seq 0 (length mergelist)) in
  match use_ind with
  | [] => ret tt
  | i0 :: _ =>
      r0 <- lift (record_at current_records i0) ;;
      let chrom := chrom r0 in
      let pos := str_Z (pos r0) in
      ref_allele <- lift (GetRefAllele current_records mergelist trim) ;;
      match ref_allele with
      | None => WARNING (ConflictingRefs chrom pos)
      | Some ref_allele =>
          am <- lift (GetAltAlleles current_records mergelist vcftype false) ;;
          let alt_alleles := fst am in
          let mappings := snd am in
          write chrom ;;;
          write tab ;;;
          write pos ;;;
          write tab ;;;
          write (GetID (vcfrecord_ID r0)) ;;;
          write tab ;;;
          write ref_allele ;;;
          write tab ;;;
          (if (0 <? length alt_alleles)%nat then
             write (join "," alt_alleles) ;;;
             write tab
           else write ("." +:+ tab)) ;;;
          write ("." +:+ tab) ;;;
          write ("." +:+ tab) ;;;
          MergeRecords_info current_records mergelist useinfo ;;;
          write tab ;;;
          write (join ":" ("GT" :: useformat)) ;;;
          MergeRecords_samples num_samples current_records mergelist
            (ref_allele :: alt_alleles) useformat format_type mappings ;;;
          write newline
      end
  end.

End Merge.

(** ** WriteMergedHeader *)

(** What the merge reads of an opened input ([cyvcf2.VCF] wrapped in
    [trh.TRRecordHarmonizer]): the header text, the sample names, the
    declared type of each FORMAT field ([get_header_type(fmt)['Type']]),
    and the records it yields, in file order. *)
Record Reader : Type := {
  raw_header : string;
  samples : list string;
  get_header_type : string -> string;
  variants : list TRRecord
}.

Definition get_header_lines (field : string) (reader : Reader) : list string :=
  let compare_len := (3 + String.length field)%nat in
  let compare_start := "##" +:+ lower field +:+ "=" in
  List.filter (fun line => String.eqb (lower (slice_prefix compare_len line)) compare_start)
              (split_on newline_char (raw_header reader)).

(** The header lines that name [field]: ['ID=' + field + ',' in line]. *)
Definition lines_with_id (field : string) (lines : list string) : list string :=
  List.filter (fun line => contains ("ID=" +:+ field +:+ ",") line) lines.

Definition header_union (set_iter : gset string -> list string)
    (field : string) (readers : list Reader) : list string :=
  set_iter (foldl (fun acc reader => acc ∪ list_to_set (get_header_lines field reader))
                  ∅ readers).

Section Header.
Context (set_iter : gset string -> list string).
(** [mergeutils.GetSamples(readers, filenames)] *)
Context (GetSamples : list Reader -> option (list string) -> result (list string)).

Definition WriteMergedHeader_useinfo (infos : list string) (vcftype : VcfTypes)
  : M (list (string * bool)) :=
  forM_enumerate 0 (INFOFIELDS vcftype) (fun _ fr useinfo =>
    let this_info := lines_with_id (fst fr) infos in
    match this_info with
    | [] => WARNING (ExpectedInfoNotFound (fst fr)) ;;; ret useinfo
    | [line] => write (line +:+ newline) ;;; ret (useinfo ++ [fr])
    | _ => WARNING (TwoInfoLines (fst fr)) ;;; ret useinfo
    end) [].

Definition WriteMergedHeader_useformat (formats : list string) (vcftype : VcfTypes)
  : M (list string) :=
  forM_enumerate 0 (FORMATFIELDS vcftype) (fun _ field useformat =>
    let this_format := lines_with_id field formats in
    match this_format with
    | [] => WARNING (ExpectedFormatNotFound field) ;;; ret useformat
    | [line] => write (line +:+ newline) ;;; ret (useformat ++ [field])
    | _ => WARNING (TwoFormatLines field) ;;; ret useformat
    end) [].

Definition write_lines (lines : list string) : M unit :=
  forM_enumerate 0 lines (fun _ line _ => write (line +:+ newline)) tt.

(** [args.update_sample_from_file] and [args.vcfs] are the two options
    read here; [None] stands for the pair [(None, None)]. *)
Definition WriteMergedHeader (update_sample_from_file : bool) (vcfs : string)
    (readers : list Reader) (cmd : string) (vcftype : VcfTypes)
  : M (option (list (string * bool) * list string)) :=
  reader0 <- lift (getitem readers 0) ;;
  let contigs := get_header_lines "contig" reader0 in
  if negb (forallb (fun r => bool_decide (get_header_lines "contig" r = contigs))
                   (tail readers))
  then raise ValueError
  else
    write ("##fileformat=VCFv4.1" +:+ newline) ;;;
    forM_enumerate 0 readers (fun _ r _ =>
      write_lines (get_header_lines "command" r)) tt ;;;
    write ("##command=" +:+ cmd +:+ newline) ;;;
    write_lines (header_union set_iter "source" readers) ;;;
    write_lines contigs ;;;
    write_lines (header_union set_iter "alt" readers) ;;;
    useinfo <- WriteMergedHeader_useinfo (get_header_lines "info" reader0) vcftype ;;
    write ("##FORMAT=<ID=GT,Number=1,Type=String,Description=" +:+
           String (ascii_of_nat 34) "Genotype" +:+ String (ascii_of_nat 34) ">"
           +:+ newline) ;;;
    useformat <- WriteMergedHeader_useformat (get_header_lines "format" reader0) vcftype ;;
    let got :=
      if negb update_sample_from_file then GetSamples readers None
      else
        let filenames :=
          map (fun fname => List.last (split_on "/"%char fname) EmptyString)
              (split_on ","%char vcfs) in
        GetSamples readers (Some filenames) in
    match got with
    | Raise ValueError => WARNING SampleError ;;; ret None
    | Raise e => raise e
    | Ok samples =>
        match samples with
        | [] => ret None
        | _ =>
            let header_fields :=
              ["CHROM"; "POS"; "ID"; "REF"; "ALT"; "QUAL"; "FILTER"; "INFO"; "FORMAT"] in
            write ("#" +:+ join tab (header_fields ++ samples) +:+ newline) ;;;
            ret (Some (useinfo, useformat))
        end
    end.
End Header.

(** ** The merge cursor *)

(** Integers with [np.inf] and [-np.inf] *)
Inductive ExtZ : Set := NegInf | Fin (z : Z) | PosInf.

Definition ext_leb (a b : ExtZ) : bool :=
  match a, b with
  | NegInf, _ => true
  | _, PosInf => true
  | Fin x, Fin y => x <=? y
  | _, _ => false
  end.

Definition ext_ltb (a b : ExtZ) : bool := negb (ext_leb b a).

Definition ext_eqb (a b : ExtZ) : bool :=
  match a, b with
  | NegInf, NegInf | PosInf, PosInf => true
  | Fin x, Fin y => x =? y
  | _, _ => false
  end.

(** [max(a, b)] *)
Definition ext_max (a b : ExtZ) : ExtZ := if ext_ltb a b then b else a.

(** [chroms.index(c)]: [ValueError] for a name that is not listed *)
Definition chroms_index (chroms : list string) (c : string) : result nat :=
  match index_of c chroms with
  | Some i => Ok i
  | None => Raise ValueError
  end.

(** [(i1, p1) < (i2, p2)] *)
Definition order_lt (a b : nat * Z) : bool :=
  (fst a <? fst b)%nat || ((fst a =? fst b)%nat && (snd a <? snd b)).

(** The reader is a list of the records still to come; the result pairs
    what is left of it with the value returned. *)
Definition _next_assert_order (reader : list TRRecord) (record : option TRRecord)
    (chroms : list string) (idx : nat) : M (list TRRecord * option TRRecord) :=
  match reader with
  | [] => ret ([], None)
  | next_rec :: reader' =>
      if negb (bool_decide (chrom next_rec ∈ chroms)) then
        WARNING (ChromNotInContigs (idx + 1) (chrom next_rec) chroms) ;;;
        WARNING NeedContigHeader ;;;
        WARNING BcftoolsReheaderHint ;;;
        raise BadOrderException
      else
        match record with
        | None => ret (reader', Some next_rec)
        | Some record =>
            ni <- lift (chroms_index chroms (chrom next_rec)) ;;
            ri <- lift (chroms_index chroms (chrom record)) ;;
            if order_lt (ni, pos next_rec) (ri, pos record) then
              WARNING (RecordOutOfOrder (idx + 1) (chrom record) (pos record)) ;;;
              raise BadOrderException
            else ret (reader', Some next_rec)
        end
  end.

(** The variables of the generator that live across iterations. *)
Record Cursor : Type := {
  readers : list (list TRRecord);
  records : list (option TRRecord);
  is_min : list bool;
  curr_chrom_idx : nat;
  prev_pos_end : ExtZ
}.

(** The variables of one scan for the minimum. *)
Record Scan : Type := {
  min_pos : ExtZ;
  min_idxs : option (gset nat);
  overlap : bool;
  curr_pos_end : ExtZ
}.

Definition RecordIterator_init (readers : list (list TRRecord)) : Cursor :=
  {| readers := readers;
     records := replicate (length readers) None;
     is_min := replicate (length readers) true;
     curr_chrom_idx := 0;
     prev_pos_end := NegInf |}.

(** lines 561-569: pull the next record of every flagged reader *)
Definition RecordIterator_advance (chroms : list string) (st : Cursor) : M Cursor :=
  forM_range (length (readers st)) (fun idx st =>
    m <- lift (getitem (is_min st) idx) ;;
    if (m : bool) then
      reader <- lift (getitem (readers st) idx) ;;
      record <- lift (getitem (records st) idx) ;;
      rr <- _next_assert_order reader record chroms idx ;;
      ret {| readers := <[idx := fst rr]> (readers st);
             records := <[idx := snd rr]> (records st);
             is_min := <[idx := false]> (is_min st);
             curr_chrom_idx := curr_chrom_idx st;
             prev_pos_end := prev_pos_end st |}
    else ret st) st.

Definition scan_init : Scan :=
  {| min_pos := PosInf; min_idxs := None; overlap := false; curr_pos_end := NegInf |}.

(** lines 588-624: the body of the scan for one reader *)
Definition RecordIterator_scan_record (chroms : list string) (trim : bool)
    (curr_chrom_idx : nat) (prev_pos_end : ExtZ) (idx : nat)
    (rec : option TRRecord) (sc : Scan) : result Scan :=
  match rec with
  | None => Ok sc
  | Some rec =>
      chrom_idx <~ chroms_index chroms (chrom rec) ;;
      if (curr_chrom_idx <? chrom_idx)%nat then Ok sc
      else
        let pos := Fin (if trim then trimmed_pos rec else pos rec) in
        let end_pos := Fin (if trim then trimmed_end_pos rec else end_pos rec) in
        let overlap :=
          if ext_leb pos prev_pos_end then true
          else if ext_leb end_pos (min_pos sc)
                  || (ext_eqb pos (min_pos sc) && ext_eqb end_pos (curr_pos_end sc))
          then false
          else if (ext_leb pos (min_pos sc) && ext_leb (min_pos sc) end_pos)
                  || (ext_leb (min_pos sc) pos && ext_leb pos (curr_pos_end sc))
          then true
          else overlap sc in
        if ext_ltb pos (min_pos sc) then
          Ok {| min_pos := pos; min_idxs := Some {[ idx ]};
                overlap := overlap; curr_pos_end := end_pos |}
        else if ext_eqb pos (min_pos sc) && ext_eqb end_pos (curr_pos_end sc) then
          match min_idxs sc with
          | Some s =>
              Ok {| min_pos := min_pos sc; min_idxs := Some (s ∪ {[ idx ]});
                    overlap := overlap; curr_pos_end := curr_pos_end sc |}
          | None => Raise AttributeError
          end
        else
          Ok {| min_pos := min_pos sc; min_idxs := min_idxs sc;
                overlap := overlap; curr_pos_end := curr_pos_end sc |}
  end.

(** lines 587-624: one pass over the readers *)
Definition RecordIterator_scan (chroms : list string) (trim : bool)
    (n : nat) (records : list (option TRRecord))
    (curr_chrom_idx : nat) (prev_pos_end : ExtZ) (sc : Scan) : result Scan :=
  for_range n (fun idx sc =>
    rec <~ getitem records idx ;;
    RecordIterator_scan_record chroms trim curr_chrom_idx prev_pos_end idx rec sc) sc.

(** lines 585-628: [while not seen_chrom]. [None] when [fuel] passes did
    not find a record on the current chromosome. *)
Fixpoint RecordIterator_seek (fuel : nat) (chroms : list string) (trim : bool)
    (n : nat) (records : list (option TRRecord))
    (curr_chrom_idx : nat) (prev_pos_end : ExtZ) (sc : Scan)
  : option (result (Scan * nat * ExtZ)) :=
  match fuel with
  | O => None
  | S fuel' =>
      match RecordIterator_scan chroms trim n records curr_chrom_idx prev_pos_end sc with
      | Raise e => Some (Raise e)
      | Ok sc' =>
          if ext_eqb (min_pos sc') PosInf then
            RecordIterator_seek fuel' chroms trim n records (S curr_chrom_idx) NegInf sc'
          else Some (Ok (sc', curr_chrom_idx, prev_pos_end))
      end
  end.

(** What one turn of [while True] comes to. [StepNoFuel]: the seek for
    the current chromosome did not end. *)
Inductive Step : Type :=
| StepStop
| StepSkip (st : Cursor)
| StepYield (st : Cursor)
| StepNoFuel.

Definition all_none (records : list (option TRRecord)) : bool :=
  forallb (fun r => bool_decide (r = None)) records.

(** [for idx in min_idxs: is_min[idx] = True]. Setting flags comes to
    the same in whatever order the set is gone through. *)
Definition mark_min (idxs : gset nat) (is_min : list bool) : list bool :=
  foldl (fun f idx => <[idx := true]> f) is_min (elements idxs).

(** What the generator gives its caller, in order: the pairs it yields
    and, between them, what it logs. *)
Inductive GenItem : Type :=
| Yield (records : list (option TRRecord)) (is_min : list bool)
| Log (e : event).

(** How the generator ends: exhausted, by an exception, or [NoFuel]
    when the turns allowed did not reach its end. *)
Inductive GenEnd : Type :=
| Exhausted
| Raised (e : exn)
| NoFuel.

(** An order in which Python goes through the sets of indices: an
    enumeration of each set. *)
Record SetOrder : Type := {
  iterate :> gset nat -> list nat;
  iterate_perm : forall s, iterate s ≡ₚ elements s
}.

Section Generator.
(** The order in which Python iterates a set of indices. *)
Context (idx_iter : SetOrder).
(** [mergeutils.DebugPrintRecordLocations(vcfrecords, is_min)] *)
Context (DebugPrintRecordLocations : list TRRecord -> list bool -> M unit).

(** lines 634-639 *)
Definition RecordIterator_warn_overlap (records : list (option TRRecord))
    (idxs : gset nat) : M unit :=
  forM_enumerate 0 (idx_iter idxs) (fun _ idx _ =>
    r <- lift (record_at records idx) ;;
    WARNING (OverlapSkipping (chrom r) (pos r) (idx + 1))) tt.

(** [[record.vcfrecord for record in records]]: [None] has no
    attribute [vcfrecord]. *)
Definition vcfrecords (records : list (option TRRecord)) : result (list TRRecord) :=
  match mapM id records with
  | Some l => Ok l
  | None => Raise AttributeError
  end.

(** lines 641-645: what comes before a yield *)
Definition RecordIterator_debug (verbose : bool)
    (records : list (option TRRecord)) (is_min : list bool) : M unit :=
  if verbose then
    l <- lift (vcfrecords records) ;;
    DebugPrintRecordLocations l is_min
  else ret tt.

(** lines 556-646: one turn of [while True]. A chromosome index is
    below [len(chroms)], so [len(chroms)] passes of the seek reach the
    chromosome of any record that is present. *)
Definition RecordIterator_step (chroms : list string) (verbose trim : bool)
    (st : Cursor) : M Step :=
  st <- RecordIterator_advance chroms st ;;
  if all_none (records st) then ret StepStop
  else
    match RecordIterator_seek (length chroms) chroms trim (length (readers st))
            (records st) (curr_chrom_idx st) (prev_pos_end st) scan_init with
    | None => ret StepNoFuel
    | Some (Raise e) => raise e
    | Some (Ok (sc, cci, ppe)) =>
        match min_idxs sc with
        | None => raise TypeError
        | Some idxs =>
            let st' := {| readers := readers st;
                          records := records st;
                          is_min := mark_min idxs (is_min st);
                          curr_chrom_idx := cci;
                          prev_pos_end := ext_max ppe (curr_pos_end sc) |} in
            if overlap sc then
              RecordIterator_warn_overlap (records st) idxs ;;;
              ret (StepSkip st')
            else
              RecordIterator_debug verbose (records st') (is_min st') ;;;
              ret (StepYield st')
        end
    end.

Fixpoint RecordIterator_loop (fuel : nat) (chroms : list string)
    (verbose trim : bool) (st : Cursor) : list GenItem * GenEnd :=
  match fuel with
  | O => ([], NoFuel)
  | S fuel' =>
      match RecordIterator_step chroms verbose trim st with
      | (log, Raise e) => (Log <$> log, Raised e)
      | (log, Ok StepStop) => (Log <$> log, Exhausted)
      | (log, Ok StepNoFuel) => (Log <$> log, NoFuel)
      | (log, Ok (StepSkip st')) =>
          let '(items, fin) := RecordIterator_loop fuel' chroms verbose trim st' in
          ((Log <$> log) ++ items, fin)
      | (log, Ok (StepYield st')) =>
          let '(items, fin) := RecordIterator_loop fuel' chroms verbose trim st' in
          ((Log <$> log) ++ Yield (records st') (is_min st') :: items, fin)
      end
  end.

(** Every turn but the last pulls from at least one reader, and a
    reader is pulled once per record and once more at its end. *)
Definition RecordIterator_turns (readers : list (list TRRecord)) : nat :=
  (foldr (fun r n => length r + n) 0 readers + length readers + 1)%nat.

Definition RecordIterator (readers : list (list TRRecord)) (chroms : list string)
    (verbose trim : bool) : list GenItem * GenEnd :=
  RecordIterator_loop (RecordIterator_turns readers) chroms verbose trim
    (RecordIterator_init readers).

End Generator.

(** ** main *)

Section Main.
Context (set_iter : gset string -> list string).
Context (pyfloat : string -> option PyFloat).
Context (sort_floats : list (PyFloat * string) -> list (PyFloat * string)).
Context (idx_iter : SetOrder).
Context (DebugPrintRecordLocations : list TRRecord -> list bool -> M unit).
Context (GetSamples : list Reader -> option (list string) -> result (list string)).

(** lines 706-709: the [for] loop over the generator. It stops at the
    first exception of [MergeRecords]. *)
Fixpoint main_walk (vcftype : VcfTypes) (num_samples : list nat)
    (useinfo : list (string * bool)) (useformat format_type : list string)
    (trim : bool) (items : list GenItem) : M unit :=
  match items with
  | [] => ret tt
  | Log e :: items' =>
      ([e], Ok tt) ;;;
      main_walk vcftype num_samples useinfo useformat format_type trim items'
  | Yield records is_min :: items' =>
      MergeRecords set_iter pyfloat sort_floats vcftype num_samples records is_min
        useinfo useformat format_type trim ;;;
      main_walk vcftype num_samples useinfo useformat format_type trim items'
  end.

(** lines 704-713. The result is the return code; [None] when the
    generator was cut short by [NoFuel]. *)
Definition main_merge (vcftype : VcfTypes) (num_samples : list nat)
    (useinfo : list (string * bool)) (useformat format_type : list string)
    (verbose trim : bool) (vcfreaders : list (list TRRecord)) (chroms : list string)
  : M (option Z) :=
  let '(items, fin) :=
    RecordIterator idx_iter DebugPrintRecordLocations vcfreaders chroms verbose trim in
  main_walk vcftype num_samples useinfo useformat format_type trim items ;;;
  match fin with
  | Exhausted => ret (Some 0)
  | Raised BadOrderException => ret (Some 1)
  | Raised e => raise e
  | NoFuel => ret None
  end.

(** lines 666-713 of [main]: from the opened readers on. [chroms] is
    [utils.GetContigs(vcfreaders[0])] and [vcftype] the type found by
    [mergeutils.GetAndCheckVCFType]. *)
Definition main (verbose trim update_sample_from_file : bool) (vcfs cmd : string)
    (vcfreaders : list Reader) (chroms : list string) (vcftype : VcfTypes)
  : M (option Z) :=
  match vcfreaders with
  | [] => ret (Some 1)
  | reader0 :: _ =>
      let num_samples := map (fun reader => length (samples reader)) vcfreaders in
      if trim && negb (VcfTypes_eqb vcftype hipstr) then
        WARNING TrimOnlyHipSTR ;;; ret (Some 1)
      else
        hdr <- WriteMergedHeader set_iter GetSamples update_sample_from_file vcfs
                 vcfreaders cmd vcftype ;;
        match hdr with
        | None => WARNING HeaderError ;;; ret (Some 1)
        | Some (useinfo, useformat) =>
            let format_type := map (get_header_type reader0) useformat in
            main_merge vcftype num_samples useinfo useformat format_type
              verbose trim (map variants vcfreaders) chroms
        end
  end.
End Main.

(** ** Vocabulary of the statements *)

(** The records a group selects: [(i, current_records[i])] for the [i]
    with [mergelist[i]] set. *)
Definition participants (current_records : list (option TRRecord))
    (mergelist : list bool) : list (nat * TRRecord) :=
  omap (fun i =>
          if default false (mergelist !! i) then
            match current_records !! i with
            | Some (Some r) => Some (i, r)
            | _ => None
            end
          else None)
       (seq 0 (length mergelist)).

(** Every selected slot holds a record. *)
Definition group_ok (current_records : list (option TRRecord))
    (mergelist : list bool) : Prop :=
  forall i, mergelist !! i = Some true ->
            exists r, current_records !! i = Some (Some r).

Fixpoint fold_result {S : Type} (f : nat -> TRRecord -> S -> result S)
    (l : list (nat * TRRecord)) (s : S) : result S :=
  match l with
  | [] => Ok s
  | ir :: l' => s' <~ f (fst ir) (snd ir) s ;; fold_result f l' s'
  end.

(** The shape of the loops over a group. *)
Definition for_merged {S : Type} (current_records : list (option TRRecord))
    (mergelist : list bool) (f : nat -> TRRecord -> S -> result S) (s : S)
  : result S :=
  for_range (length mergelist) (fun i s =>
    if default false (mergelist !! i) then
      r <~ record_at current_records i ;; f i r s
    else Ok s) s.


(** The reference string [GetRefAllele] reads off a record. *)
Definition ref_used (trim : bool) (r : TRRecord) : string :=
  upper (if trim then ref_allele r else vcfrecord_REF r).

(** Order of keyed items under the comparison [lt] of [sorted]: the
    second is not less than the first. *)
Definition keyed_le {K : Type} (lt : K -> K -> bool) (a b : K * string) : Prop :=
  lt (fst b) (fst a) = false.

(** The same for strings whose keys are defined. *)
Definition key_le {K : Type} (lt : K -> K -> bool) (key : string -> option K)
    (a b : string) : Prop :=
  exists ka kb, key a = Some ka /\ key b = Some kb /\ lt kb ka = false.

(** What makes [lt] the strict part of a total preorder. *)
Definition lt_asym {K : Type} (lt : K -> K -> bool) : Prop :=
  forall a b, lt a b = true -> lt b a = false.
Definition le_trans {K : Type} (lt : K -> K -> bool) : Prop :=
  forall a b c, lt b a = false -> lt c b = false -> lt c a = false.

(** The set [alts] that [GetAltAlleles] collects from the participants. *)
Definition group_alts (trim : bool) (parts : list (nat * TRRecord)) : gset string :=
  list_to_set (upper <$> (parts ≫= fun ir => get_alts trim (snd ir))).

(** The sort key of [GetAltAlleles] does not tie two different members
    of [out]. *)
Definition no_ties (pyfloat : string -> option PyFloat) (vcftype : VcfTypes)
    (out : list string) : Prop :=
  match vcftype with
  | eh =>
      forall a b, a ∈ out -> b ∈ out ->
        pyint (slice_to_last 4 a) = pyint (slice_to_last 4 b) -> a = b
  | popstr =>
      forall a b qa qb, a ∈ out -> b ∈ out ->
        pyfloat (slice_to_last 1 a) = Some qa ->
        pyfloat (slice_to_last 1 b) = Some qb ->
        float_lt qa qb = false -> float_lt qb qa = false -> a = b
  | _ => True
  end.

(** An order of all floats that is [<] on those that are not NaN. *)
Definition float_lt_total (a b : PyFloat) : bool :=
  match a, b with
  | NaN, NaN => false
  | NaN, _ => true
  | _, NaN => false
  | _, _ => float_lt a b
  end.

(** What is known of [sorted] on float keys: it rearranges its items,
    and where no key is NaN it is the stable sort by [<]. *)
Definition sort_floats_ok
    (sort_floats : list (PyFloat * string) -> list (PyFloat * string)) : Prop :=
  (forall kl, sort_floats kl ≡ₚ kl) /\
  (forall kl, Forall (fun kx => is_NaN (fst kx) = false) kl ->
              sort_floats kl = sort_keyed float_lt kl).

(** No member of [out] has the key NaN. Only popSTR has float keys. *)
Definition no_NaN (pyfloat : string -> option PyFloat) (vcftype : VcfTypes)
    (out : list string) : Prop :=
  match vcftype with
  | popstr => forall a, a ∈ out -> pyfloat (slice_to_last 1 a) <> Some NaN
  | _ => True
  end.


(** What an AlleleMap [m] is for a record with alternates [ralts] in a
    group with unified alternates [out_alts]: entry 0 is ["0"], and the
    entry of the [j]-th alternate is the 1-based position at which its
    upper-cased string first stands in [out_alts]. *)
Definition mapping_ok (out_alts ralts m : list string) : Prop :=
  m !! 0%nat = Some "0" /\
  length m = S (length ralts) /\
  forall j ralt, ralts !! j = Some ralt ->
    exists p, m !! S j = Some (str_nat (S p)) /\
              out_alts !! p = Some (upper ralt) /\
              forall q, out_alts !! q = Some (upper ralt) -> (p <= q)%nat.

(** The exceptions a computation can raise all satisfy [P]. *)
Definition raises_in {A : Type} (P : exn -> Prop) (m : M A) : Prop :=
  forall e, snd m = Raise e -> P e.

Definition rraises_in {A : Type} (P : exn -> Prop) (r : result A) : Prop :=
  forall e, r = Raise e -> P e.

(** A record with other trimmed alternates and another untrimmed
    reference; everything else is kept. *)
Definition with_trimmed_alts_and_REF (new_alts : TRRecord -> list string)
    (new_REF : TRRecord -> string) (r : TRRecord) : TRRecord :=
  {| chrom := chrom r; pos := pos r; end_pos := end_pos r;
     trimmed_pos := trimmed_pos r; trimmed_end_pos := trimmed_end_pos r;
     vcfrecord_REF := new_REF r;
     vcfrecord_ALT := vcfrecord_ALT r;
     vcfrecord_ID := vcfrecord_ID r;
     ref_allele := ref_allele r;
     alt_alleles := new_alts r;
     info := info r;
     genotypes := genotypes r;
     format := format r |}.

Definition retrim_records (new_alts : TRRecord -> list string)
    (new_REF : TRRecord -> string) (current_records : list (option TRRecord))
  : list (option TRRecord) :=
  map (option_map (with_trimmed_alts_and_REF new_alts new_REF)) current_records.

(** The values of an INFO field over the participants. *)
Definition info_values (field : string) (parts : list (nat * TRRecord))
  : gset string :=
  list_to_set (omap (fun ir => info (snd ir) !! field) parts).

(** A field of [useinfo] marked as required. *)
Definition required_in (useinfo : list (string * bool)) (field : string) : Prop :=
  (field, true) ∈ useinfo.

(** A participant does not carry the field. *)
Definition missing_in (parts : list (nat * TRRecord)) (field : string) : Prop :=
  exists i r, (i, r) ∈ parts /\ info r !! field = None.

(** What [MergeRecords] writes before the INFO column: CHROM, POS, ID,
    REF, ALT, QUAL and FILTER, of the first participant [r0], the
    unified reference and the unified alternates. *)
Definition fixed_columns (r0 : TRRecord) (ref_allele : string)
    (alt_alleles : list string) : list event :=
  [VcfWrite (chrom r0); VcfWrite tab; VcfWrite (str_Z (pos r0)); VcfWrite tab;
   VcfWrite (GetID (vcfrecord_ID r0)); VcfWrite tab;
   VcfWrite ref_allele; VcfWrite tab]
  ++ (if (0 <? length alt_alleles)%nat
      then [VcfWrite (join "," alt_alleles); VcfWrite tab]
      else [VcfWrite ("." +:+ tab)])
  ++ [VcfWrite ("." +:+ tab); VcfWrite ("." +:+ tab)].

(** Counting columns: the tab characters of a text, and of what a log
    writes to the output. *)
Fixpoint count_tabs (s : string) : nat :=
  match s with
  | EmptyString => 0
  | String c s' => ((if Ascii.eqb c (ascii_of_nat 9) then 1 else 0) + count_tabs s')%nat
  end.

Definition tabs_written (l : list event) : nat :=
  sum_list (count_tabs <$> written l).

(** The text a log writes. *)
Definition text_written (l : list event) : string :=
  String.concat EmptyString (written l).

(** No string of a FORMAT array holds a tab. *)
Definition array_no_tab (arr : FormatArray) : Prop :=
  match arr with
  | StringArray cells => Forall (fun s => count_tabs s = 0%nat) cells
  | NumericArray rows =>
      Forall (Forall (fun c => count_tabs (as_str c) = 0%nat)) rows
  end.

Definition record_no_tab (r : TRRecord) : Prop :=
  forall fmt arr, format r !! fmt = Some arr -> array_no_tab arr.

(** The sample columns one source contributes to a record: [n] columns
    for a source that declares [n] samples, all of them no-calls when
    the source does not take part. *)
Definition source_columns (num_samples : list nat) (mergelist : list bool)
    (k : nat) (sec : list event) : Prop :=
  exists n, num_samples !! k = Some n /\
            tabs_written sec = n /\
            (mergelist !! k = Some false ->
             text_written sec = String.concat EmptyString (replicate n (tab +:+ NOCALLSTRING))).

(** ** Vocabulary of the cursor *)

(** The span the cursor compares: trimmed when [trim] is set. *)
Definition span_pos (trim : bool) (r : TRRecord) : Z :=
  if trim then trimmed_pos r else pos r.
Definition span_end (trim : bool) (r : TRRecord) : Z :=
  if trim then trimmed_end_pos r else end_pos r.

(** One source of the cursor: its reader, its current record, and its
    "needs advance" flag. *)
Definition slot_at (st : Cursor) (idx : nat)
  : option (list TRRecord * option TRRecord * bool) :=
  match readers st !! idx, records st !! idx, is_min st !! idx with
  | Some reader, Some record, Some flag => Some (reader, record, flag)
  | _, _, _ => None
  end.

(** The three lists of a cursor have one entry per source. *)
Definition cursor_lengths (st : Cursor) : Prop :=
  length (records st) = length (readers st) /\
  length (is_min st) = length (readers st).

(** What advancing does to the source [idx]: a flagged source takes the
    next record of its reader, through [_next_assert_order], and loses
    its flag; another source is left as it is. *)
Definition advanced (chroms : list string) (idx : nat)
    (s0 s1 : list TRRecord * option TRRecord * bool) : Prop :=
  if snd s0 then
    exists l, _next_assert_order (fst (fst s0)) (snd (fst s0)) chroms idx
              = (l, Ok (fst s1)) /\ snd s1 = false
  else s1 = s0.

(** The sort key of a record: the index of its chromosome and its
    position. *)
Definition order_key (chroms : list string) (r : TRRecord) : option (nat * Z) :=
  match index_of (chrom r) chroms with
  | Some i => Some (i, pos r)
  | None => None
  end.

(** A reader passes every check of [_next_assert_order], starting after
    the record [prev]. *)
Fixpoint stream_ok (chroms : list string) (prev : option TRRecord)
    (reader : list TRRecord) : bool :=
  match reader with
  | [] => true
  | r :: reader' =>
      match order_key chroms r with
      | None => false
      | Some k =>
          match prev with
          | None => true
          | Some p =>
              match order_key chroms p with
              | Some kp => negb (order_lt k kp)
              | None => false
              end
          end
          && stream_ok chroms (Some r) reader'
      end
  end.

(** Every current record of the cursor is on a listed chromosome. *)
Definition records_known (chroms : list string)
    (records : list (option TRRecord)) : Prop :=
  forall idx r, records !! idx = Some (Some r) -> chrom r ∈ chroms.

(** A record on the chromosome being processed (or an earlier one). *)
Definition in_scope (chroms : list string) (curr_chrom_idx : nat) (r : TRRecord)
  : Prop :=
  exists c, index_of (chrom r) chroms = Some c /\ (c <= curr_chrom_idx)%nat.

(** The overlap flag after one record with span [pos, end_pos]
    (lines 604-613). *)
Definition overlap_after (prev_pos_end : ExtZ) (sc : Scan) (pos end_pos : ExtZ)
  : bool :=
  if ext_leb pos prev_pos_end then true
  else if ext_leb end_pos (min_pos sc)
          || (ext_eqb pos (min_pos sc) && ext_eqb end_pos (curr_pos_end sc))
  then false
  else if (ext_leb pos (min_pos sc) && ext_leb (min_pos sc) end_pos)
          || (ext_leb (min_pos sc) pos && ext_leb pos (curr_pos_end sc))
  then true
  else overlap sc.

(** The spans of the current records are well formed. *)
Definition spans_ok (trim : bool) (records : list (option TRRecord)) : Prop :=
  forall idx r, records !! idx = Some (Some r) -> span_pos trim r <= span_end trim r.

(** What holds of the scan variables once the sources before [j] have
    been looked at: the candidate group is set exactly when a minimum
    has been found; its members are sources before [j] whose span is
    the candidate span; the minimum is at most the start of every
    in-scope record seen; and a well-formed in-scope record that starts
    at or before the frontier leaves the overlap flag set. *)
Definition scan_ok (chroms : list string) (trim : bool)
    (records : list (option TRRecord)) (curr : nat) (prev : ExtZ)
    (j : nat) (sc : Scan) : Prop :=
  (min_pos sc = PosInf <-> min_idxs sc = None) /\
  min_pos sc <> NegInf /\
  (forall idxs, min_idxs sc = Some idxs ->
     idxs <> ∅ /\
     forall idx, idx ∈ idxs ->
       (idx < j)%nat /\
       exists r, records !! idx = Some (Some r) /\
                 min_pos sc = Fin (span_pos trim r) /\
                 curr_pos_end sc = Fin (span_end trim r)) /\
  (forall idx r, (idx < j)%nat -> records !! idx = Some (Some r) ->
     in_scope chroms curr r ->
     exists m, min_pos sc = Fin m /\ m <= span_pos trim r) /\
  (spans_ok trim records ->
   (exists idx r, (idx < j)%nat /\ records !! idx = Some (Some r) /\
                  in_scope chroms curr r /\
                  ext_leb (Fin (span_pos trim r)) prev = true) ->
   overlap sc = true).




(** The state after a turn that found the group [idxs]. *)
Definition cursor_after (st1 : Cursor) (sc : Scan) (idxs : gset nat)
    (cci : nat) (ppe : ExtZ) : Cursor :=
  {| readers := readers st1;
     records := records st1;
     is_min := mark_min idxs (is_min st1);
     curr_chrom_idx := cci;
     prev_pos_end := ext_max ppe (curr_pos_end sc) |}.

(** The warnings of a dropped group: one for each member, in the order
    in which the set of the members is gone through. *)
Definition overlap_warnings (idx_iter : SetOrder)
    (records : list (option TRRecord)) (idxs : gset nat)
    (log : list event) : Prop :=
  Forall2 (fun idx e =>
             exists r, records !! idx = Some (Some r) /\
                       e = Warning (OverlapSkipping (chrom r) (pos r) (idx + 1)))
          (idx_iter idxs) log.

(** What is left to do for one source: the records still in its reader,
    its current record, and the pull that a flagged source without a
    record still owes. *)
Definition slot_weight (s : list TRRecord * option TRRecord * bool) : nat :=
  (length (fst (fst s))
   + (if snd (fst s) is Some _ then 1 else 0)
   + (if snd s then (if snd (fst s) is Some _ then 0 else 1) else 0))%nat.

Definition cursor_measure (st : Cursor) : nat :=
  sum_list_with (fun idx => from_option slot_weight 0%nat (slot_at st idx))
                (seq 0 (length (readers st))).

(** The states the generator goes through: one entry per source, known
    chromosomes, an unflagged source without a record is at the end of
    its reader, and some source is flagged unless no record is left. *)
Definition cursor_ok (chroms : list string) (st : Cursor) : Prop :=
  cursor_lengths st /\
  records_known chroms (records st) /\
  (forall idx, is_min st !! idx = Some false -> records st !! idx = Some None ->
               readers st !! idx = Some []) /\
  ((exists idx, is_min st !! idx = Some true) \/ all_none (records st) = true).

(** What a pull that fails has told [common.WARNING] before it raises. *)
Definition fault_log (chroms : list string) (log : list event) : Prop :=
  (exists file c p, log = [Warning (RecordOutOfOrder file c p)]) \/
  (exists file c,
     log = [Warning (ChromNotInContigs file c chroms); Warning NeedContigHeader;
            Warning BcftoolsReheaderHint]).

(** The exceptions of the debugging output before a yield:
    [AttributeError] for a source that holds no record, and whatever
    [DebugPrintRecordLocations] raises. *)
Definition debug_raised (debug : list TRRecord -> list bool -> M unit) (e : exn)
  : Prop :=
  e = AttributeError \/ exists l is_min, snd (debug l is_min) = Raise e.

(** [DebugPrintRecordLocations] reports neither to [vcfw] nor through
    [common.WARNING]. *)
Definition debug_silent (debug : list TRRecord -> list bool -> M unit) : Prop :=
  forall l is_min, fst (debug l is_min) = [].

(** It does so, and returns. *)
Definition debug_returns (debug : list TRRecord -> list bool -> M unit) : Prop :=
  forall l is_min, debug l is_min = ([], Ok tt).

(** The debugging output before the yield of a group passes unnoticed. *)
Definition item_debug_quiet (debug : list TRRecord -> list bool -> M unit)
    (verbose : bool) (item : GenItem) : Prop :=
  match item with
  | Yield recs m => RecordIterator_debug debug verbose recs m = ([], Ok tt)
  | Log _ => True
  end.

(** Every source passes the order checks from where it stands. *)
Definition all_streams_ok (chroms : list string) (st : Cursor) : Prop :=
  forall idx s, slot_at st idx = Some s ->
                stream_ok chroms (snd (fst s)) (fst (fst s)) = true.

(** The two faults of a reader that [_next_assert_order] checks for: a
    record on a chromosome that is not listed, and a record that sorts
    before the one that precedes it. *)
Inductive Fault : Type :=
| UnknownContig
| OrderViolation.

Definition has_fault (chroms : list string) (reader : list TRRecord) (f : Fault)
  : Prop :=
  match f with
  | UnknownContig =>
      exists pre r post, reader = pre ++ r :: post /\ chrom r ∉ chroms
  | OrderViolation =>
      exists pre r1 r2 post k1 k2,
        reader = pre ++ r1 :: r2 :: post /\
        order_key chroms r1 = Some k1 /\ order_key chroms r2 = Some k2 /\
        order_lt k2 k1 = true
  end.

(** ** Example inputs *)

(** A record at [c:p-e] with reference [r], alternates [alts] and INFO
    fields [fields], of one diploid sample called 0/1, with no trimming
    to do and no FORMAT field. *)
Definition example_record (c : string) (p e : Z) (r : string) (alts : list string)
    (fields : list (string * string)) : TRRecord :=
  {| chrom := c; pos := p; end_pos := e; trimmed_pos := p; trimmed_end_pos := e;
     vcfrecord_REF := r; vcfrecord_ALT := alts; vcfrecord_ID := None;
     ref_allele := r; alt_alleles := alts; info := list_to_map fields;
     genotypes := [([0; 1], false)]; format := ∅ |}.

(** The two sources of the TCTG example, and a third record at the same
    span that carries no INFO field. *)
Definition example_A : TRRecord :=
  example_record "chr1" 100 103 "TCTG" ["TCTGTCTG"] [("END", "103")].
Definition example_B : TRRecord :=
  example_record "chr1" 100 103 "TCTG" ["TCTGTCTGTCTG"] [("END", "103")].
Definition example_bare : TRRecord :=
  example_record "chr1" 100 103 "TCTG" ["TCTGTCTG"] [].
Definition example_later : TRRecord :=
  example_record "chr1" 200 203 "ACAC" ["ACACAC"] [("END", "203")].

Definition example_group : list (option TRRecord) := [Some example_A; Some example_B].
Definition example_bare_group : list (option TRRecord) :=
  [Some example_A; Some example_bare].

(** Python's float on no string at all: the examples are not popSTR.
    With it, a sort of float keys that has no NaN to deal with, sets of
    indices gone through in ascending order, and a debugging print that
    prints nothing. *)
Definition example_float : string -> option PyFloat := fun _ => None.
Definition example_sort : list (PyFloat * string) -> list (PyFloat * string) :=
  sort_keyed float_lt.
Definition ascending : SetOrder :=
  {| iterate := fun s => merge_sort le (elements s);
     iterate_perm := fun s => merge_sort_Permutation le (elements s) |}.
Definition example_debug (_ : list TRRecord) (_ : list bool) : M unit := ret tt.

(** Two records of chr1 whose spans overlap without being equal. *)
Definition example_left : TRRecord := example_record "chr1" 10 20 "A" ["AA"] [].
Definition example_right : TRRecord := example_record "chr1" 15 25 "A" ["AA"] [].
Definition example_overlap_readers : list (list TRRecord) :=
  [[example_left]; [example_right]].

(** The cursor over them after the first pull, and after the first turn. *)
Definition example_overlap_pulled : Cursor :=
  {| readers := [[]; []];
     records := [Some example_left; Some example_right];
     is_min := [false; false];
     curr_chrom_idx := 0;
     prev_pos_end := NegInf |}.
Definition example_overlap_turned : Cursor :=
  {| readers := [[]; []];
     records := [Some example_left; Some example_right];
     is_min := [true; false];
     curr_chrom_idx := 0;
     prev_pos_end := Fin 20 |}.

(** A reader out of order, and a reader with a record on a chromosome
    that the contig list does not have. *)
Definition example_early : TRRecord := example_record "chr1" 5 6 "A" ["AA"] [].
Definition example_elsewhere : TRRecord := example_record "chrX" 10 20 "A" ["AA"] [].
Definition example_disorder_readers : list (list TRRecord) :=
  [[example_left; example_early]].
Definition example_unknown_readers : list (list TRRecord) :=
  [[example_elsewhere]].


(** An ExpansionHunter record with two alternates of one repeat count,
    and the enumeration of a set against the order of [elements]. *)
Definition example_tied : TRRecord :=
  example_record "chr1" 100 103 "TCTG" ["<STR5>"; "<STR05>"] [].
Definition reversed (s : gset string) : list string := rev (elements s).

(** The same cursor after the pull of its second turn. *)
Definition example_overlap_retried : Cursor :=
  {| readers := [[]; []];
     records := [None; Some example_right];
     is_min := [false; false];
     curr_chrom_idx := 0;
     prev_pos_end := Fin 20 |}.

(** ** Vocabulary of the properties of the whole run *)

(** [a <= b] for the keys that [_next_assert_order] compares: [b] does
    not sort strictly before [a]. *)
Definition order_le (a b : nat * Z) : Prop := order_lt b a = false.

(** A reader in the order the merge requires: every record is on a
    listed chromosome, and no record sorts strictly before the one that
    precedes it. *)
Definition reader_sorted (chroms : list string) (reader : list TRRecord) : Prop :=
  exists keys,
    Forall2 (fun r k => order_key chroms r = Some k) reader keys /\
    Sorted order_le keys.

(** The records that an item of the generator disposes of: the marked
    records of a group it yields, and the one record that an overlap
    warning names. *)
Definition item_records (it : GenItem) : nat :=
  match it with
  | Yield _ is_min => sum_list_with (fun b : bool => if b then 1%nat else 0%nat) is_min
  | Log (Warning (OverlapSkipping _ _ _)) => 1%nat
  | Log _ => 0%nat
  end.

(** The records still to be disposed of in a state of the cursor: those
    left in the readers, and the current records that are not marked as
    done. *)
Definition slot_pending (s : list TRRecord * option TRRecord * bool) : nat :=
  (length (fst (fst s))
   + (if snd s then 0 else if snd (fst s) is Some _ then 1 else 0))%nat.

Definition cursor_pending (st : Cursor) : nat :=
  sum_list_with (fun idx => from_option slot_pending 0%nat (slot_at st idx))
                (seq 0 (length (readers st))).

(** A group as [RecordIterator] hands it to [MergeRecords]: one entry
    per reader, at least one marked entry, every marked entry holds a
    record, and the marked records have one span. *)
Definition group_well_formed (trim : bool) (n : nat)
    (records : list (option TRRecord)) (is_min : list bool) : Prop :=
  length records = n /\ length is_min = n /\
  (exists idx, is_min !! idx = Some true) /\
  group_ok records is_min /\
  forall i r j r',
    (i, r) ∈ participants records is_min -> (j, r') ∈ participants records is_min ->
    span_pos trim r = span_pos trim r' /\ span_end trim r = span_end trim r'.

Definition item_well_formed (trim : bool) (n : nat) (it : GenItem) : Prop :=
  match it with
  | Yield records is_min => group_well_formed trim n records is_min
  | Log _ => True
  end.

(** ** Vocabulary of the properties of the header *)

(** Exactly one of [lines] names [field] ([len(this_info) == 1]). *)
Definition named_once (lines : list string) (field : string) : bool :=
  (length (lines_with_id field lines) =? 1)%nat.

(** How many times the text [s] is written to [vcfw]. *)
Definition times_written (s : string) (log : list event) : nat :=
  length (List.filter (String.eqb s) (written log)).

(** The third character of a line, in lower case: of the lines of a
    header, only the ##source lines have an [s] there and only the
    ##ALT lines an [a]. *)
Definition header_tag (s : string) : option ascii := String.get 2 (lower s).

(** The sample names that [WriteMergedHeader] asks [mergeutils.GetSamples]
    for (lines 146-153). *)
Definition WriteMergedHeader_samples
    (GetSamples : list Reader -> option (list string) -> result (list string))
    (update_sample_from_file : bool) (vcfs : string) (readers : list Reader)
  : result (list string) :=
  if negb update_sample_from_file then GetSamples readers None
  else
    let filenames :=
      map (fun fname => List.last (split_on "/"%char fname) EmptyString)
          (split_on ","%char vcfs) in
    GetSamples readers (Some filenames).

(** The readers carry the same contig lines as the first of them. *)
Definition contigs_agree (readers : list Reader) : Prop :=
  forall reader0 r, readers !! 0%nat = Some reader0 -> r ∈ readers ->
    get_header_lines "contig" r = get_header_lines "contig" reader0.

(** ** Vocabulary of the properties of the emitted record *)

(** The INFO items of a group: for each field of [useinfo], in order,
    the [name=value] that [GetInfoItem] gives, when it gives one. *)
Definition info_items (current_records : list (option TRRecord))
    (mergelist : list bool) (useinfo : list (string * bool)) : list string :=
  omap (fun fr : string * bool =>
          match snd (GetInfoItem current_records mergelist (fst fr) (snd fr)) with
          | Ok (Some s) => Some s
          | _ => None
          end) useinfo.

(** What the FORMAT cells of one sample add to the log: each cell led
    by ":". *)
Definition cell_writes (cells : list string) : list event :=
  cells ≫= (fun c => [VcfWrite ":"; VcfWrite c]).

(** The column of one sample of a record, as [WriteSampleData] writes
    it: a tab and then, for a sample that is not called, a bare ".";
    for another sample, the entries of the allele map at its allele
    indices, joined by the phase character, and the FORMAT cells. *)
Definition sample_column (mapping formats : list string) (row : list Z * bool)
    (sec : list event) : Prop :=
  if not_called (fst row) then sec = [VcfWrite tab; VcfWrite "."]
  else
    exists gt cells,
      sec = VcfWrite tab :: VcfWrite (join (phase_char (snd row)) gt)
              :: cell_writes cells /\
      Forall2 (fun g a => take_index mapping g = Ok a) (fst row) gt /\
      length cells = length formats.

(** ** Vocabulary of the run over one reader *)

(** Two consecutive records of a reader that keep clear of each other:
    the second is on a later chromosome of the contig list, or on the
    same one and starts after the first ends. *)
Definition follows_clear (chroms : list string) (trim : bool) (r r' : TRRecord)
  : Prop :=
  exists c c',
    index_of (chrom r) chroms = Some c /\ index_of (chrom r') chroms = Some c' /\
    ((c < c')%nat \/ (c = c' /\ span_end trim r < span_pos trim r')).

(** A reader whose records are on listed chromosomes, end no earlier
    than they start, and keep clear of each other. *)
Definition reader_clear (chroms : list string) (trim : bool)
    (reader : list TRRecord) : Prop :=
  Forall (fun r => chrom r ∈ chroms /\ span_pos trim r <= span_end trim r) reader /\
  Sorted (follows_clear chroms trim) reader.

(** What the scan finds when source 0 alone holds a record in scope. *)
Definition scan_single (trim : bool) (r : TRRecord) (prev_pos_end : ExtZ) : Scan :=
  {| min_pos := Fin (span_pos trim r);
     min_idxs := Some {[ 0%nat ]};
     overlap := ext_leb (Fin (span_pos trim r)) prev_pos_end;
     curr_pos_end := Fin (span_end trim r) |}.

(** The state of the cursor over one reader between two turns, and the
    records still to come. *)
Definition single_ready (chroms : list string) (trim : bool)
    (prev : option TRRecord) (c : nat) (e : ExtZ) (rd : list TRRecord) : Prop :=
  stream_ok chroms prev rd = true /\
  reader_clear chroms trim rd /\
  match prev with
  | None => c = 0%nat /\ e = NegInf
  | Some p =>
      index_of (chrom p) chroms = Some c /\ e = Fin (span_end trim p) /\
      match rd with
      | [] => True
      | r :: _ => follows_clear chroms trim p r
      end
  end.

(** ** Vocabulary of the case of alleles *)

(** A record with the letters of its alleles in upper case; everything
    else is kept. *)
Definition with_upper_alleles (r : TRRecord) : TRRecord :=
  {| chrom := chrom r; pos := pos r; end_pos := end_pos r;
     trimmed_pos := trimmed_pos r; trimmed_end_pos := trimmed_end_pos r;
     vcfrecord_REF := upper (vcfrecord_REF r);
     vcfrecord_ALT := upper <$> vcfrecord_ALT r;
     vcfrecord_ID := vcfrecord_ID r;
     ref_allele := upper (ref_allele r);
     alt_alleles := upper <$> alt_alleles r;
     info := info r;
     genotypes := genotypes r;
     format := format r |}.

Definition upper_records (current_records : list (option TRRecord))
  : list (option TRRecord) :=
  option_map with_upper_alleles <$> current_records.

(** ** Vocabulary of the candidate group *)

(** What holds of the candidate group once the sources before [j] have
    been looked at: its members hold records in scope, and every source
    before [j] whose record is in scope and has the candidate span is a
    member. *)
Definition scan_complete (chroms : list string) (trim : bool)
    (records : list (option TRRecord)) (curr : nat) (j : nat) (sc : Scan) : Prop :=
  (forall idxs idx, min_idxs sc = Some idxs -> idx ∈ idxs ->
     exists r, records !! idx = Some (Some r) /\ in_scope chroms curr r) /\
  (forall idx r, (idx < j)%nat -> records !! idx = Some (Some r) ->
     in_scope chroms curr r ->
     min_pos sc = Fin (span_pos trim r) -> curr_pos_end sc = Fin (span_end trim r) ->
     exists idxs, min_idxs sc = Some idxs /\ idx ∈ idxs).

(** ** Further example inputs *)

(** A record whose only alternate is too short for an ExpansionHunter
    allele, a record without alternates, and a record whose sample has
    its second allele missing. *)
Definition example_short_alt : TRRecord :=
  example_record "chr1" 100 103 "TCTG" ["<DEL>"] [("END", "103")].
Definition example_no_alt : TRRecord :=
  example_record "chr1" 100 103 "TCTG" [] [("END", "103")].
Definition example_half_call : TRRecord :=
  {| chrom := "chr1"; pos := 100; end_pos := 103;
     trimmed_pos := 100; trimmed_end_pos := 103;
     vcfrecord_REF := "TCTG"; vcfrecord_ALT := ["TCTGTCTG"; "TCTGTCTGTCTG"];
     vcfrecord_ID := None;
     ref_allele := "TCTG"; alt_alleles := ["TCTGTCTG"; "TCTGTCTGTCTG"];
     info := ∅;
     genotypes := [([0; -1], false)]; format := ∅ |}.

(** Two inputs with one sample each and the same contig line, and a
    third one built against another reference. *)
Definition example_header (source contig : string) : string :=
  join newline
    ["##fileformat=VCFv4.1";
     "##command=HipSTR --bams a.bam";
     "##source=" +:+ source;
     "##contig=<ID=" +:+ contig +:+ ",length=1000>";
     "##INFO=<ID=START,Number=1,Type=Integer,Description=Start>";
     "##INFO=<ID=END,Number=1,Type=Integer,Description=End>";
     "##INFO=<ID=DP,Number=1,Type=Integer,Description=Reads>";
     "##FORMAT=<ID=GT,Number=1,Type=String,Description=Genotype>";
     "##FORMAT=<ID=DP,Number=1,Type=Integer,Description=Reads>";
     "#CHROM"].

Definition example_reader (source contig sample : string)
    (records : list TRRecord) : Reader :=
  {| raw_header := example_header source contig;
     samples := [sample];
     get_header_type := fun _ => "Integer";
     variants := records |}.

Definition example_reader_1 : Reader :=
  example_reader "HipSTR" "chr1" "S1" [example_A; example_later].
Definition example_reader_2 : Reader :=
  example_reader "HipSTR" "chr1" "S2" [example_B].
Definition example_reader_other : Reader :=
  example_reader "HipSTR" "chr2" "S3" [].

(** [mergeutils.GetSamples] on inputs with distinct sample names, and on
    inputs without samples. *)
Definition example_GetSamples (readers : list Reader) (_ : option (list string))
  : result (list string) :=
  Ok (readers ≫= samples).
Definition example_no_samples (readers : list Reader) (_ : option (list string))
  : result (list string) :=
  Ok [].

(** ** Vocabulary of the columns of a line *)

(** No text of the record that [MergeRecords] writes holds a tab. Tabs
    separate the fields of a VCF line, so the fields of a record that
    was read from one hold none. *)
Definition record_plain (r : TRRecord) : Prop :=
  count_tabs (chrom r) = 0%nat /\
  count_tabs (GetID (vcfrecord_ID r)) = 0%nat /\
  count_tabs (vcfrecord_REF r) = 0%nat /\
  count_tabs (ref_allele r) = 0%nat /\
  Forall (fun a => count_tabs a = 0%nat) (vcfrecord_ALT r) /\
  (forall f v, info r !! f = Some v -> count_tabs v = 0%nat) /\
  record_no_tab r.

(** ** Vocabulary of the order of the output *)

(** [k] is at or after the bound, when there is one. *)
Definition bound_le (lower : option (nat * Z)) (k : nat * Z) : Prop :=
  match lower with
  | None => True
  | Some k0 => order_le k0 k
  end.

(** The cursor stands at or after [lower], the key of the group of the
    turn before: every current record has a key at or after it, the
    chromosome being processed is that of [lower], and a source that
    must advance and has no record yet is only found before the first
    turn. *)
Definition cursor_above (chroms : list string) (lower : option (nat * Z))
    (st : Cursor) : Prop :=
  (forall idx r, records st !! idx = Some (Some r) ->
     exists k, order_key chroms r = Some k /\ bound_le lower k) /\
  curr_chrom_idx st = from_option fst 0%nat lower /\
  (forall idx, is_min st !! idx = Some true -> records st !! idx = Some None ->
               lower = None).

(** The groups among what the generator gives, in order. *)
Definition yielded (items : list GenItem)
  : list (list (option TRRecord) * list bool) :=
  omap (fun it => match it with
                  | Yield records is_min => Some (records, is_min)
                  | Log _ => None
                  end) items.

(** [k] is the key of the group: the group has a record to merge, and
    every record to merge is on the chromosome of [k], at its
    position. *)
Definition group_key (chroms : list string)
    (g : list (option TRRecord) * list bool) (k : nat * Z) : Prop :=
  participants (fst g) (snd g) <> [] /\
  forall ir, ir ∈ participants (fst g) (snd g) ->
             order_key chroms (snd ir) = Some k.
(** * Properties *)

(** ** The monad and the loops *)

Lemma bind_ret_l {A B} (a : A) (f : A -> M B) : bind (ret a) f = f a.
Proof. unfold bind, ret. destruct (f a) as [l r]. reflexivity. Qed.

Lemma bind_nil_ok {A B} (a : A) (f : A -> M B) : bind ([], Ok a) f = f a.
Proof. apply bind_ret_l. Qed.

Lemma bind_lift_ok {A B} (a : A) (f : A -> M B) : bind (lift (Ok a)) f = f a.
Proof. apply bind_ret_l. Qed.

Lemma bind_lift_raise {A B} (e : exn) (f : A -> M B) :
  bind (lift (Raise e)) f = ([], Raise e).
Proof. reflexivity. Qed.

Lemma bind_write {B} (s : string) (f : unit -> M B) :
  bind (write s) f = (VcfWrite s :: fst (f tt), snd (f tt)).
Proof. unfold bind, write. destruct (f tt) as [l r]. reflexivity. Qed.

Lemma bind_WARNING {B} (w : warning) (f : unit -> M B) :
  bind (WARNING w) f = (Warning w :: fst (f tt), snd (f tt)).
Proof. unfold bind, WARNING. destruct (f tt) as [l r]. reflexivity. Qed.

Lemma bind_pair {A B} (m : M A) (f : A -> M B) :
  bind m f =
  match snd m with
  | Ok a => (fst m ++ fst (f a), snd (f a))
  | Raise e => (fst m, Raise e)
  end.
Proof.
  destruct m as [l [a|e]]; simpl; [|reflexivity].
  destruct (f a); reflexivity.
Qed.

Lemma bind_assoc {A B C} (m : M A) (f : A -> M B) (g : B -> M C) :
  bind (bind m f) g = bind m (fun a => bind (f a) g).
Proof.
  destruct m as [l [a|e]]; simpl; [|reflexivity].
  destruct (f a) as [l1 [b|e1]]; simpl; [|reflexivity].
  destruct (g b) as [l2 r2]. rewrite app_assoc. reflexivity.
Qed.

Lemma written_app l1 l2 : written (l1 ++ l2) = written l1 ++ written l2.
Proof.
  induction l1 as [|[s|w] l1 IH]; simpl; rewrite ?IH; reflexivity.
Qed.

Lemma warned_app l1 l2 : warned (l1 ++ l2) = warned l1 ++ warned l2.
Proof.
  induction l1 as [|[s|w] l1 IH]; simpl; rewrite ?IH; reflexivity.
Qed.

Lemma participants_spec cr ml i r :
  (i, r) ∈ participants cr ml <->
  ml !! i = Some true /\ cr !! i = Some (Some r).
Proof.
  unfold participants. rewrite list_elem_of_omap. split.
  - intros (j & Hj & Hsome).
    apply list_elem_of_In, in_seq in Hj.
    destruct (ml !! j) as [[|]|] eqn:Hm; simpl in Hsome; try discriminate.
    destruct (cr !! j) as [[r'|]|] eqn:Hc; try discriminate.
    inversion Hsome; subst. auto.
  - intros [Hm Hc]. exists i. split.
    + apply list_elem_of_In, in_seq. apply lookup_lt_Some in Hm. lia.
    + rewrite Hm, Hc. reflexivity.
Qed.

Lemma for_merged_fold {S : Type} cr ml (f : nat -> TRRecord -> S -> result S) s :
  group_ok cr ml ->
  for_merged cr ml f s = fold_result f (participants cr ml) s.
Proof.
  intros Hok. unfold for_merged, for_range, participants.
  generalize (length ml) as n. generalize 0%nat as i. intros i n. revert i s.
  induction n as [|n IH]; intros i s; simpl; [reflexivity|].
  destruct (ml !! i) as [[|]|] eqn:Hm; simpl.
  - destruct (Hok i Hm) as [r Hr]. unfold record_at. rewrite Hr. simpl.
    destruct (f i r s) as [s'|e]; simpl; [apply IH | reflexivity].
  - apply IH.
  - apply IH.
Qed.

Lemma participants_nonempty cr ml :
  group_ok cr ml -> (exists i, ml !! i = Some true) -> participants cr ml <> [].
Proof.
  intros Hok [i Hi] Hnil. destruct (Hok i Hi) as [r Hr].
  assert (H : (i, r) ∈ participants cr ml) by (apply participants_spec; auto).
  rewrite Hnil in H. inversion H.
Qed.

(** [use_ind] lists the indices of the participants. *)
Lemma use_ind_participants cr ml :
  group_ok cr ml ->
  filter (fun i => default false (ml !! i) = true) (seq 0 (length ml))
  = fst <$> participants cr ml.
Proof.
  intros Hok. unfold participants.
  generalize (length ml) as n. generalize 0%nat as i. intros i n. revert i.
  induction n as [|n IH]; intros i; simpl; [reflexivity|].
  rewrite filter_cons. destruct (ml !! i) as [[|]|] eqn:Hm; simpl.
  - destruct (Hok i Hm) as [r Hr]. rewrite Hr. simpl.
    destruct (decide (true = true)); [|congruence]. f_equal. apply IH.
  - destruct (decide (false = true)); [discriminate|]. apply IH.
  - destruct (decide (false = true)); [discriminate|]. apply IH.
Qed.

(** ** GetRefAllele *)

Lemma fold_result_refs trim l acc :
  fold_result (fun (_ : nat) r refs =>
     if negb trim then Ok (refs ++ [upper (vcfrecord_REF r)])
     else Ok (refs ++ [upper (ref_allele r)])) l acc
  = Ok (acc ++ ((fun ir => ref_used trim (snd ir)) <$> l)).
Proof.
  revert acc. induction l as [|[i r] l IH]; intros acc; simpl.
  - rewrite app_nil_r. reflexivity.
  - unfold ref_used at 1. destruct trim; simpl; rewrite IH, <- app_assoc; reflexivity.
Qed.

Lemma GetRefAllele_refs_eq cr ml trim :
  group_ok cr ml ->
  GetRefAllele_refs cr ml trim
  = Ok ((fun ir => ref_used trim (snd ir)) <$> participants cr ml).
Proof.
  intros Hok.
  change (GetRefAllele_refs cr ml trim) with
    (for_merged cr ml (fun (_ : nat) r refs =>
       if negb trim then Ok (refs ++ [upper (vcfrecord_REF r)])
       else Ok (refs ++ [upper (ref_allele r)])) []).
  rewrite for_merged_fold by assumption.
  apply fold_result_refs.
Qed.

Lemma size_one_all_equal (refs : list string) (a : string) :
  refs <> [] -> (forall x, x ∈ refs -> x = a) ->
  size (list_to_set refs : gset string) = 1%nat /\ head refs = Some a.
Proof.
  intros Hne Hall. split.
  - assert (Heq : (list_to_set refs : gset string) = {[ a ]}).
    { apply set_eq. intros x. rewrite elem_of_list_to_set, elem_of_singleton.
      split; [apply Hall|]. intros ->. destruct refs as [|y refs]; [congruence|].
      rewrite (Hall y) by left. left. }
    rewrite Heq. apply size_singleton.
  - destruct refs as [|y refs]; [congruence|]. simpl. f_equal. apply Hall. left.
Qed.

Lemma size_two_distinct (refs : list string) (x y : string) :
  x ∈ refs -> y ∈ refs -> x <> y ->
  size (list_to_set refs : gset string) <> 1%nat.
Proof.
  intros Hx Hy Hne Hsize.
  apply size_1_elem_of in Hsize as [z Hz].
  assert (Hxz : x ∈ (list_to_set refs : gset string)) by (apply elem_of_list_to_set, Hx).
  assert (Hyz : y ∈ (list_to_set refs : gset string)) by (apply elem_of_list_to_set, Hy).
  rewrite Hz in Hxz, Hyz. apply elem_of_singleton in Hxz, Hyz. congruence.
Qed.

Lemma GetRefAllele_agree cr ml trim a :
  group_ok cr ml -> (exists i, ml !! i = Some true) ->
  (forall i r, (i, r) ∈ participants cr ml -> ref_used trim r = a) ->
  GetRefAllele cr ml trim = Ok (Some a).
Proof.
  intros Hok Hex Hall. unfold GetRefAllele.
  rewrite GetRefAllele_refs_eq by assumption. simpl.
  pose proof (participants_nonempty cr ml Hok Hex) as Hne.
  destruct (size_one_all_equal
              ((fun ir => ref_used trim (snd ir)) <$> participants cr ml) a)
    as [Hsize Hhead].
  - destruct (participants cr ml); [congruence | discriminate].
  - intros x Hx. apply list_elem_of_fmap in Hx as ([i r] & -> & Hin).
    simpl. eapply Hall, Hin.
  - rewrite Hsize. simpl. rewrite Hhead. reflexivity.
Qed.

Lemma GetRefAllele_conflict cr ml trim i r j r' :
  group_ok cr ml ->
  (i, r) ∈ participants cr ml -> (j, r') ∈ participants cr ml ->
  ref_used trim r <> ref_used trim r' ->
  GetRefAllele cr ml trim = Ok None.
Proof.
  intros Hok Hi Hj Hne. unfold GetRefAllele.
  rewrite GetRefAllele_refs_eq by assumption. simpl.
  destruct (Nat.eqb_spec
    (size (list_to_set ((fun ir => ref_used trim (snd ir)) <$> participants cr ml)
            : gset string)) 1) as [Hsize|Hsize]; [|reflexivity].
  exfalso. revert Hsize. apply (size_two_distinct _ (ref_used trim r) (ref_used trim r')).
  - apply list_elem_of_fmap. exists (i, r). auto.
  - apply list_elem_of_fmap. exists (j, r'). auto.
  - assumption.
Qed.

(** How [MergeRecords] starts on a group with a participant. *)
Lemma MergeRecords_first set_iter pyfloat sort_floats vcftype num_samples cr ml useinfo
    useformat format_type trim :
  group_ok cr ml -> (exists i, ml !! i = Some true) ->
  exists i0 r0 rest,
    participants cr ml = (i0, r0) :: rest /\
    MergeRecords set_iter pyfloat sort_floats vcftype num_samples cr ml useinfo useformat
      format_type trim
    = (ref_allele <- lift (GetRefAllele cr ml trim) ;;
       match ref_allele with
       | None => WARNING (ConflictingRefs (chrom r0) (str_Z (pos r0)))
       | Some ref_allele =>
           am <- lift (GetAltAlleles set_iter pyfloat sort_floats cr ml vcftype false) ;;
           write (chrom r0) ;;; write tab ;;; write (str_Z (pos r0)) ;;;
           write tab ;;; write (GetID (vcfrecord_ID r0)) ;;; write tab ;;;
           write ref_allele ;;; write tab ;;;
           (if (0 <? length (fst am))%nat then
              write (join "," (fst am)) ;;; write tab
            else write ("." +:+ tab)) ;;;
           write ("." +:+ tab) ;;; write ("." +:+ tab) ;;;
           MergeRecords_info cr ml useinfo ;;;
           write tab ;;;
           write (join ":" ("GT" :: useformat)) ;;;
           MergeRecords_samples num_samples cr ml
             (ref_allele :: fst am) useformat format_type (snd am) ;;;
           write newline
       end).
Proof.
  intros Hok Hex.
  pose proof (participants_nonempty cr ml Hok Hex) as Hne.
  destruct (participants cr ml) as [|[i0 r0] rest] eqn:Hp; [congruence|].
  exists i0, r0, rest. split; [reflexivity|].
  unfold MergeRecords. cbv zeta.
  rewrite (use_ind_participants cr ml Hok), Hp. simpl fmap.
  assert (Hin : (i0, r0) ∈ participants cr ml) by (rewrite Hp; left).
  apply participants_spec in Hin as [_ Hr].
  unfold record_at at 1. rewrite Hr. rewrite bind_lift_ok. reflexivity.
Qed.

(** C1. For a group with at least one participant whose selected slots
    all hold records: if the upper-cased references of the participants
    all equal [a], [GetRefAllele] returns [a] and [a] is what
    [MergeRecords] writes in the REF column; if two participants differ,
    [GetRefAllele] returns [None], [MergeRecords] only reports
    "Conflicting refs", writes nothing and returns, and the walk of
    [main] goes on with the groups that follow. *)
Theorem C1_unified_reference set_iter pyfloat sort_floats vcftype num_samples cr ml
    useinfo useformat format_type trim :
  group_ok cr ml -> (exists i, ml !! i = Some true) ->
  (forall a,
     (forall i r, (i, r) ∈ participants cr ml -> ref_used trim r = a) ->
     GetRefAllele cr ml trim = Ok (Some a) /\
     (forall am,
        GetAltAlleles set_iter pyfloat sort_floats cr ml vcftype false = Ok am ->
        written (fst (MergeRecords set_iter pyfloat sort_floats vcftype num_samples cr ml
                        useinfo useformat format_type trim)) !! 6%nat = Some a))
  /\
  ((exists i r j r',
      (i, r) ∈ participants cr ml /\ (j, r') ∈ participants cr ml /\
      ref_used trim r <> ref_used trim r') ->
   GetRefAllele cr ml trim = Ok None /\
   exists c p,
     MergeRecords set_iter pyfloat sort_floats vcftype num_samples cr ml useinfo useformat
       format_type trim = ([Warning (ConflictingRefs c p)], Ok tt) /\
     forall rest,
       main_walk set_iter pyfloat sort_floats vcftype num_samples useinfo useformat
         format_type trim (Yield cr ml :: rest)
       = (Warning (ConflictingRefs c p)
            :: fst (main_walk set_iter pyfloat sort_floats vcftype num_samples useinfo
                      useformat format_type trim rest),
          snd (main_walk set_iter pyfloat sort_floats vcftype num_samples useinfo
                 useformat format_type trim rest))).
Proof.
  intros Hok Hex.
  destruct (MergeRecords_first set_iter pyfloat sort_floats vcftype num_samples cr ml
              useinfo useformat format_type trim Hok Hex)
    as (i0 & r0 & rest0 & Hp & HM).
  split.
  - intros a Hall.
    pose proof (GetRefAllele_agree cr ml trim a Hok Hex Hall) as Href.
    split; [exact Href|].
    intros am Ham. rewrite HM, Href, bind_lift_ok, Ham, bind_lift_ok.
    rewrite !bind_write. reflexivity.
  - intros (i & r & j & r' & Hi & Hj & Hne).
    pose proof (GetRefAllele_conflict cr ml trim i r j r' Hok Hi Hj Hne) as Href.
    split; [exact Href|].
    exists (chrom r0), (str_Z (pos r0)).
    assert (HMR : MergeRecords set_iter pyfloat sort_floats vcftype num_samples cr ml
                    useinfo useformat format_type trim
                  = ([Warning (ConflictingRefs (chrom r0) (str_Z (pos r0)))], Ok tt)).
    { rewrite HM, Href, bind_lift_ok. reflexivity. }
    split; [exact HMR|].
    intros rest. simpl. rewrite HMR.
    unfold bind.
    destruct (main_walk set_iter pyfloat sort_floats vcftype num_samples useinfo useformat
                format_type trim rest) as [l res].
    reflexivity.
Qed.

(** ** sorted *)

Section SortingFacts.
Context {K : Type} (lt : K -> K -> bool).
Hypothesis Hasym : lt_asym lt.
Hypothesis Htrans : le_trans lt.

Lemma insert_keyed_perm kx l : insert_keyed lt kx l ≡ₚ kx :: l.
Proof.
  induction l as [|ky l IH]; simpl; [reflexivity|].
  destruct (lt (fst kx) (fst ky)); [reflexivity|].
  rewrite IH. apply perm_swap.
Qed.

Lemma sort_keyed_perm l : sort_keyed lt l ≡ₚ l.
Proof.
  unfold sort_keyed.
  assert (H : forall acc, foldl (fun acc kx => insert_keyed lt kx acc) acc l ≡ₚ acc ++ l).
  { induction l as [|kx l IH]; intros acc; simpl.
    - rewrite app_nil_r. reflexivity.
    - rewrite IH, insert_keyed_perm. rewrite (Permutation_middle acc l kx).
      reflexivity. }
  apply (H []).
Qed.

Lemma insert_keyed_sorted kx l :
  StronglySorted (keyed_le lt) l -> StronglySorted (keyed_le lt) (insert_keyed lt kx l).
Proof.
  induction l as [|ky l IH]; intros Hs; simpl.
  - repeat constructor.
  - apply StronglySorted_inv in Hs as [Hs Hall].
    destruct (lt (fst kx) (fst ky)) eqn:Hlt.
    + constructor; [constructor; assumption|].
      assert (Hle : keyed_le lt kx ky) by (apply Hasym, Hlt).
      constructor; [exact Hle|].
      eapply Forall_impl; [exact Hall|]. intros z Hz.
      unfold keyed_le in *. eapply Htrans; eassumption.
    + constructor; [apply IH, Hs|].
      rewrite (insert_keyed_perm kx l). constructor; assumption.
Qed.

Lemma sort_keyed_sorted l : StronglySorted (keyed_le lt) (sort_keyed lt l).
Proof.
  unfold sort_keyed.
  assert (H : forall acc, StronglySorted (keyed_le lt) acc ->
              StronglySorted (keyed_le lt)
                (foldl (fun acc kx => insert_keyed lt kx acc) acc l)).
  { induction l as [|kx l IH]; intros acc Hacc; simpl; [assumption|].
    apply IH, insert_keyed_sorted, Hacc. }
  apply H. constructor.
Qed.

Lemma sorted_ok key l out :
  sorted lt key l = Ok out ->
  out ≡ₚ l /\ StronglySorted (key_le lt key) out.
Proof.
  unfold sorted, sorted_with.
  destruct (mapM (fun x => (fun k => (k, x)) <$> key x) l) as [kl|] eqn:Hm;
    [|discriminate].
  intros [= <-]. apply mapM_Some in Hm.
  assert (Hkl : Forall (fun kx => key (snd kx) = Some (fst kx)) kl /\ snd <$> kl = l).
  { induction Hm as [|x kx l kl Hx Hm IH]; [split; [constructor|reflexivity]|].
    destruct IH as [IH1 IH2]. destruct (key x) as [k|] eqn:Hk; [|discriminate].
    simpl in Hx. inversion Hx; subst kx. simpl. split.
    - constructor; [exact Hk | exact IH1].
    - f_equal. exact IH2. }
  destruct Hkl as [Hkeys Hsnd]. split.
  - rewrite <- Hsnd. apply fmap_Permutation, sort_keyed_perm.
  - assert (Hkeys' : Forall (fun kx => key (snd kx) = Some (fst kx)) (sort_keyed lt kl)).
    { rewrite (sort_keyed_perm kl). exact Hkeys. }
    pose proof (sort_keyed_sorted kl) as Hs.
    induction Hs as [|kx s Hs IH Hall]; [constructor|].
    apply Forall_cons in Hkeys' as [Hkx Hkeys']. simpl.
    constructor; [apply IH, Hkeys'|].
    clear IH Hs. induction Hall as [|ky s Hky Hall IH]; [constructor|].
    apply Forall_cons in Hkeys' as [Hky' Hkeys']. simpl.
    constructor; [|apply IH, Hkeys'].
    exists (fst kx), (fst ky). auto.
Qed.

Lemma sorted_raise key l e :
  sorted lt key l = Raise e ->
  e = ValueError /\ exists x, x ∈ l /\ key x = None.
Proof.
  unfold sorted, sorted_with.
  destruct (mapM (fun x => (fun k => (k, x)) <$> key x) l) as [kl|] eqn:Hm;
    [discriminate|].
  intros [= <-]. split; [reflexivity|].
  apply mapM_None, Exists_exists in Hm as (x & Hx & Hn).
  exists x. split; [exact Hx|]. destruct (key x); [discriminate|reflexivity].
Qed.
End SortingFacts.

(** Two sorted arrangements of the same items coincide when the order
    cannot tie two different items. *)
Lemma sorted_perm_unique {A} (R : relation A) (l1 l2 : list A) :
  (forall a b, a ∈ l1 -> b ∈ l1 -> R a b -> R b a -> a = b) ->
  l1 ≡ₚ l2 -> StronglySorted R l1 -> StronglySorted R l2 -> l1 = l2.
Proof.
  revert l2. induction l1 as [|x l1 IH]; intros l2 Hanti Hperm Hs1 Hs2.
  - apply Permutation_nil_l in Hperm. auto.
  - destruct l2 as [|y l2]; [apply Permutation_nil_r in Hperm; discriminate|].
    apply StronglySorted_inv in Hs1 as [Hs1 Hall1].
    apply StronglySorted_inv in Hs2 as [Hs2 Hall2].
    rewrite Forall_forall in Hall1, Hall2.
    assert (Hxy : x = y).
    { assert (Hx : x ∈ y :: l2) by (rewrite <- Hperm; left).
      assert (Hy : y ∈ x :: l1) by (rewrite Hperm; left).
      apply elem_of_cons in Hx as [Hx|Hx]; [exact Hx|].
      apply elem_of_cons in Hy as [Hy|Hy]; [auto|].
      apply Hanti; [left | right; exact Hy | apply Hall1, Hy | apply Hall2, Hx]. }
    subst y. f_equal. apply IH; try assumption.
    + intros a b Ha Hb. apply Hanti; right; assumption.
    + eapply Permutation_cons_inv, Hperm.
Qed.

Lemma sorted_keys_defined {K} (lt : K -> K -> bool) key l out :
  sorted lt key l = Ok out -> forall x, x ∈ l -> is_Some (key x).
Proof.
  unfold sorted, sorted_with.
  destruct (mapM (fun x => (fun k => (k, x)) <$> key x) l) as [kl|] eqn:Hm;
    [|discriminate].
  intros _ x Hx. apply mapM_Some in Hm.
  apply list_elem_of_lookup in Hx as [i Hi].
  destruct (Forall2_lookup_l _ _ _ _ _ Hm Hi) as (kx & _ & Hk).
  destruct (key x); [eauto | discriminate].
Qed.

Lemma sorted_defined {K} (lt : K -> K -> bool) key l :
  (forall x, x ∈ l -> is_Some (key x)) -> exists out, sorted lt key l = Ok out.
Proof.
  intros Hall. destruct (sorted lt key l) as [out|e] eqn:Hs; [eauto|].
  apply sorted_raise in Hs as [_ (x & Hx & Hn)].
  destruct (Hall x Hx) as [k Hk]. congruence.
Qed.

(** [sorted] does not depend on the order in which it meets its items,
    as long as the key does not tie two of them. *)
Lemma sorted_deterministic {K} (lt : K -> K -> bool) key l1 l2 :
  lt_asym lt -> le_trans lt -> l1 ≡ₚ l2 ->
  (forall a b, a ∈ l1 -> b ∈ l1 -> key_le lt key a b -> key_le lt key b a -> a = b) ->
  sorted lt key l1 = sorted lt key l2.
Proof.
  intros Hasym Htrans Hperm Hanti.
  destruct (sorted lt key l1) as [o1|e1] eqn:H1.
  - destruct (sorted_defined lt key l2) as [o2 H2].
    { intros x Hx. eapply sorted_keys_defined; [exact H1|]. rewrite Hperm. exact Hx. }
    rewrite H2. f_equal.
    apply (sorted_ok lt Hasym Htrans) in H1 as [Hp1 Hs1].
    apply (sorted_ok lt Hasym Htrans) in H2 as [Hp2 Hs2].
    apply (sorted_perm_unique (key_le lt key)); try assumption.
    + intros a b Ha Hb. apply Hanti; rewrite <- Hp1; assumption.
    + rewrite Hp1, Hp2. exact Hperm.
  - apply sorted_raise in H1 as [-> (x & Hx & Hn)].
    destruct (sorted lt key l2) as [o2|e2] eqn:H2.
    + assert (Hs : is_Some (key x)).
      { eapply sorted_keys_defined; [exact H2|]. rewrite <- Hperm. exact Hx. }
      destruct Hs as [k Hk]. congruence.
    + apply sorted_raise in H2 as [-> _]. reflexivity.
Qed.


(** The three comparisons are strict parts of total preorders. *)
Lemma Zltb_asym : lt_asym Z.ltb.
Proof. intros a b. rewrite Z.ltb_lt, Z.ltb_ge. lia. Qed.

Lemma Zltb_trans : le_trans Z.ltb.
Proof. intros a b c. rewrite !Z.ltb_ge. lia. Qed.

Lemma Qlt_bool_false a b : Qlt_bool a b = false <-> Qle b a.
Proof.
  unfold Qlt_bool. rewrite negb_false_iff. apply Qle_bool_iff.
Qed.

Lemma Qlt_bool_asym : lt_asym Qlt_bool.
Proof.
  intros a b Hab. apply Qlt_bool_false.
  unfold Qlt_bool in Hab. apply negb_true_iff in Hab.
  destruct (Qlt_le_dec a b) as [Hlt|Hle]; [apply Qlt_le_weak, Hlt|].
  apply Qle_bool_iff in Hle. congruence.
Qed.

Lemma Qlt_bool_trans : le_trans Qlt_bool.
Proof.
  intros a b c. rewrite !Qlt_bool_false. intros H1 H2. eapply Qle_trans; eassumption.
Qed.

Lemma string_ltb_false a b : String.ltb a b = false <-> a = b \/ String.ltb b a = true.
Proof.
  unfold String.ltb. rewrite (String.compare_antisym b a).
  destruct (String.compare a b) eqn:Hc; simpl.
  - apply String.compare_eq_iff in Hc. tauto.
  - split; [discriminate|]. intros [->|H]; [|discriminate].
    assert (Heq : String.compare b b = Eq) by (apply String_as_OT.cmp_eq; reflexivity).
    congruence.
  - tauto.
Qed.

Lemma string_ltb_trans a b c :
  String.ltb a b = true -> String.ltb b c = true -> String.ltb a c = true.
Proof.
  unfold String.ltb. intros H1 H2.
  destruct (String.compare a b) eqn:Hab; try discriminate.
  destruct (String.compare b c) eqn:Hbc; try discriminate.
  apply String_as_OT.cmp_lt in Hab, Hbc.
  pose proof (String_as_OT.lt_trans _ _ _ Hab Hbc) as Hac.
  apply String_as_OT.cmp_lt in Hac. unfold String_as_OT.cmp in Hac.
  rewrite Hac. reflexivity.
Qed.

Lemma string_ltb_irrefl a : String.ltb a a = false.
Proof. apply string_ltb_false. left. reflexivity. Qed.

Lemma len_lex_lt_false a b :
  len_lex_lt a b = false <-> a = b \/ len_lex_lt b a = true.
Proof.
  destruct a as [n s], b as [m t]. unfold len_lex_lt. simpl.
  rewrite orb_false_iff, andb_false_iff, orb_true_iff, andb_true_iff.
  rewrite !Nat.ltb_ge, !Nat.eqb_neq, !Nat.ltb_lt, !Nat.eqb_eq, string_ltb_false.
  split.
  - intros [H1 [H2|[->|H2]]].
    + right. left. lia.
    + destruct (decide (n = m)) as [->|Hne]; [left; reflexivity | right; left; lia].
    + destruct (decide (n = m)) as [->|Hne]; [right; right; auto | right; left; lia].
  - intros [[= -> ->]|[H|[-> H]]].
    + split; [lia|]. right. left. reflexivity.
    + split; [lia|]. left. lia.
    + split; [lia|]. right. right. exact H.
Qed.

Lemma len_lex_lt_trans a b c :
  len_lex_lt a b = true -> len_lex_lt b c = true -> len_lex_lt a c = true.
Proof.
  destruct a as [n s], b as [m t], c as [k u]. unfold len_lex_lt. simpl.
  rewrite !orb_true_iff, !andb_true_iff, !Nat.ltb_lt, !Nat.eqb_eq.
  intros [H1|[-> H1]] [H2|[-> H2]]; try (left; lia).
  right. split; [reflexivity|]. eapply string_ltb_trans; eassumption.
Qed.

Lemma len_lex_lt_irrefl a : len_lex_lt a a = false.
Proof. apply len_lex_lt_false. left. reflexivity. Qed.

Lemma len_lex_asym : lt_asym len_lex_lt.
Proof.
  intros a b Hab. destruct (len_lex_lt b a) eqn:Hba; [|reflexivity].
  pose proof (len_lex_lt_trans _ _ _ Hab Hba) as H.
  rewrite len_lex_lt_irrefl in H. discriminate.
Qed.

Lemma len_lex_trans : le_trans len_lex_lt.
Proof.
  intros a b c. rewrite !len_lex_lt_false.
  intros [->|H1] [->|H2]; auto.
  right. eapply len_lex_lt_trans; eassumption.
Qed.

Lemma len_lex_antisym a b :
  key_le len_lex_lt len_lex_key a b -> key_le len_lex_lt len_lex_key b a -> a = b.
Proof.
  unfold key_le, len_lex_key.
  intros (ka & kb & [= <-] & [= <-] & H1) (kb' & ka' & [= <-] & [= <-] & H2).
  apply len_lex_lt_false in H1 as [[= _ H1]|H1]; [auto|].
  rewrite H1 in H2. discriminate.
Qed.

(** ** GetAltAlleles *)

Lemma fold_result_alts trim l (acc : gset string) :
  fold_result (fun (_ : nat) r alts =>
     Ok (foldl (fun alts item => alts ∪ {[ upper item ]}) alts (get_alts trim r))) l acc
  = Ok (acc ∪ group_alts trim l).
Proof.
  revert acc. induction l as [|[i r] l IH]; intros acc; simpl.
  - f_equal. unfold group_alts. simpl. set_solver.
  - rewrite IH. f_equal. unfold group_alts. simpl.
    rewrite fmap_app, list_to_set_app_L.
    assert (H : forall (ra : list string) (a : gset string),
               foldl (fun alts item => alts ∪ {[ upper item ]}) a ra
               = a ∪ list_to_set (upper <$> ra)).
    { induction ra as [|x ra IHra]; intros a; simpl; [set_solver|].
      rewrite IHra. set_solver. }
    rewrite H. set_solver.
Qed.

Lemma GetAltAlleles_alts_eq cr ml trim :
  group_ok cr ml ->
  GetAltAlleles_alts cr ml trim = Ok (group_alts trim (participants cr ml)).
Proof.
  intros Hok.
  change (GetAltAlleles_alts cr ml trim) with
    (for_merged cr ml (fun (_ : nat) r (alts : gset string) =>
       Ok (foldl (fun alts item => alts ∪ {[ upper item ]}) alts (get_alts trim r)))
       (∅ : gset string)).
  rewrite for_merged_fold, fold_result_alts by assumption.
  f_equal. set_solver.
Qed.

Lemma group_alts_spec trim parts a :
  a ∈ group_alts trim parts <->
  exists i r alt, (i, r) ∈ parts /\ alt ∈ get_alts trim r /\ a = upper alt.
Proof.
  unfold group_alts. rewrite elem_of_list_to_set, list_elem_of_fmap. split.
  - intros (alt & -> & Halt). apply list_elem_of_bind in Halt as ([i r] & Halt & Hin).
    exists i, r, alt. auto.
  - intros (i & r & alt & Hin & Halt & ->). exists alt. split; [reflexivity|].
    apply list_elem_of_bind. exists (i, r). auto.
Qed.

Lemma index_of_Some x l p :
  index_of x l = Some p ->
  l !! p = Some x /\ forall q, l !! q = Some x -> (p <= q)%nat.
Proof.
  revert p. induction l as [|y l IH]; intros p; simpl; [discriminate|].
  destruct (String.eqb_spec y x) as [->|Hne].
  - intros [= <-]. split; [reflexivity|]. intros; lia.
  - destruct (index_of x l) as [k|]; [|discriminate]. intros [= <-].
    destruct (IH k eq_refl) as [H1 H2]. split; [exact H1|].
    intros [|q] Hq; simpl in Hq; [congruence|]. apply H2 in Hq. lia.
Qed.

Lemma index_of_elem x l : x ∈ l -> is_Some (index_of x l).
Proof.
  induction l as [|y l IH]; intros Hin; [inversion Hin|]. simpl.
  destruct (String.eqb_spec y x) as [->|Hne]; [eauto|].
  apply elem_of_cons in Hin as [->|Hin]; [congruence|].
  destruct (IH Hin) as [k ->]. simpl. eauto.
Qed.

Lemma mapping_idxs_spec out ralts i acc idxs :
  for_enumerate i ralts (fun _ ralt acc =>
     match index_of (upper ralt) out with
     | Some k => Ok (acc ++ [(k + 1)%nat])
     | None => Raise ValueError
     end) acc = Ok idxs ->
  exists ks, idxs = acc ++ (S <$> ks) /\
             Forall2 (fun ralt k => index_of (upper ralt) out = Some k) ralts ks.
Proof.
  revert i acc. induction ralts as [|ralt ralts IH]; intros i acc; simpl.
  - intros [= <-]. exists []. rewrite app_nil_r. split; [reflexivity|constructor].
  - destruct (index_of (upper ralt) out) as [k|] eqn:Hk; simpl; [|discriminate].
    intros H. apply IH in H as (ks & -> & HF). exists (k :: ks). split.
    + rewrite <- app_assoc. simpl. rewrite Nat.add_1_r. reflexivity.
    + constructor; assumption.
Qed.

Lemma GetAltAlleles_mapping_spec out ralts m :
  GetAltAlleles_mapping out ralts = Ok m -> mapping_ok out ralts m.
Proof.
  unfold GetAltAlleles_mapping.
  destruct (for_enumerate 0 ralts _ []) as [idxs|e] eqn:Hidx; cbn [rbind];
    [|discriminate].
  intros [= <-]. apply mapping_idxs_spec in Hidx as (ks & -> & HF).
  change (mapping_ok out ralts (str_nat 0 :: (str_nat <$> (S <$> ks)))).
  split; [vm_compute; reflexivity|]. split.
  - rewrite length_cons, !length_fmap. f_equal. symmetry. eapply Forall2_length, HF.
  - intros j ralt Hj.
    destruct (Forall2_lookup_l _ _ _ _ _ HF Hj) as (p & Hp & Hidx).
    apply index_of_Some in Hidx as [H1 H2].
    exists p. split; [|split; assumption].
    rewrite lookup_cons, !list_lookup_fmap, Hp. reflexivity.
Qed.

Lemma GetAltAlleles_mapping_defined out ralts :
  (forall ralt, ralt ∈ ralts -> upper ralt ∈ out) ->
  exists m, GetAltAlleles_mapping out ralts = Ok m.
Proof.
  intros Hall. unfold GetAltAlleles_mapping.
  assert (H : forall i acc, exists idxs,
    for_enumerate i ralts (fun _ ralt acc =>
       match index_of (upper ralt) out with
       | Some k => Ok (acc ++ [(k + 1)%nat])
       | None => Raise ValueError
       end) acc = Ok idxs).
  { induction ralts as [|ralt ralts IH]; intros i acc; simpl; [eauto|].
    destruct (index_of_elem (upper ralt) out) as [k ->]; [apply Hall; left|].
    simpl. apply IH. intros r Hr. apply Hall. right. exact Hr. }
  destruct (H 0%nat []) as [idxs ->]. simpl. eauto.
Qed.

Lemma fold_result_mappings out trim l acc maps :
  fold_result (fun (_ : nat) r mappings =>
     m <~ GetAltAlleles_mapping out (get_alts trim r) ;; Ok (mappings ++ [m])) l acc
  = Ok maps ->
  exists ms, maps = acc ++ ms /\
    Forall2 (fun ir m => GetAltAlleles_mapping out (get_alts trim (snd ir)) = Ok m) l ms.
Proof.
  revert acc. induction l as [|[i r] l IH]; intros acc; simpl.
  - intros [= <-]. exists []. rewrite app_nil_r. split; [reflexivity|constructor].
  - destruct (GetAltAlleles_mapping out (get_alts trim r)) as [m|e] eqn:Hm; simpl;
      [|discriminate].
    intros H. apply IH in H as (ms & -> & HF). exists (m :: ms). split.
    + rewrite <- app_assoc. reflexivity.
    + constructor; assumption.
Qed.

(** [GetAltAlleles], piece by piece. *)
Lemma GetAltAlleles_ok set_iter pyfloat sort_floats cr ml vcftype trim out maps :
  group_ok cr ml ->
  GetAltAlleles set_iter pyfloat sort_floats cr ml vcftype trim = Ok (out, maps) ->
  GetAltAlleles_out_alts set_iter pyfloat sort_floats vcftype
    (group_alts trim (participants cr ml)) = Ok out /\
  Forall2 (fun ir m => GetAltAlleles_mapping out (get_alts trim (snd ir)) = Ok m)
          (participants cr ml) maps.
Proof.
  intros Hok. unfold GetAltAlleles.
  rewrite GetAltAlleles_alts_eq by assumption. simpl.
  destruct (GetAltAlleles_out_alts set_iter pyfloat sort_floats vcftype _) as [o|e] eqn:Ho;
    simpl; [|discriminate].
  change (for_range (length ml) _ []) with
    (for_merged cr ml (fun (_ : nat) r mappings =>
       m <~ GetAltAlleles_mapping o (get_alts trim r) ;; Ok (mappings ++ [m])) []).
  rewrite for_merged_fold by assumption.
  destruct (fold_result _ (participants cr ml) []) as [ms|e] eqn:Hms; simpl;
    [|discriminate].
  intros [= <- <-]. split; [reflexivity|].
  apply fold_result_mappings in Hms as (ms' & -> & HF). exact HF.
Qed.



(** The sort with a sort of its own *)

Lemma sorted_with_keys {K} (sort : list (K * string) -> list (K * string))
    (key : string -> option K) l out :
  sorted_with sort key l = Ok out ->
  exists kl, Forall2 (fun x kx => key x = Some (fst kx) /\ snd kx = x) l kl /\
             out = snd <$> sort kl.
Proof.
  unfold sorted_with.
  destruct (mapM (fun x => (fun k => (k, x)) <$> key x) l) as [kl|] eqn:Hm;
    [|discriminate].
  intros [= <-]. exists kl. split; [|reflexivity].
  apply mapM_Some in Hm. eapply Forall2_impl; [exact Hm|].
  intros x kx Hx. cbn beta in Hx. destruct (key x) as [k|]; [|discriminate].
  cbn in Hx. injection Hx as <-. split; reflexivity.
Qed.

Lemma keyed_snd {K} (key : string -> option K) l (kl : list (K * string)) :
  Forall2 (fun x kx => key x = Some (fst kx) /\ snd kx = x) l kl -> snd <$> kl = l.
Proof.
  induction 1 as [|x kx l kl [_ Hx] _ IH]; [reflexivity|].
  cbn [fmap list_fmap]. rewrite Hx. f_equal. exact IH.
Qed.

Lemma sorted_with_perm {K} (sort : list (K * string) -> list (K * string))
    (key : string -> option K) l out :
  (forall kl, sort kl ≡ₚ kl) -> sorted_with sort key l = Ok out -> out ≡ₚ l.
Proof.
  intros Hsort Hs. apply sorted_with_keys in Hs as (kl & Hkl & ->).
  rewrite (Hsort kl). rewrite (keyed_snd key l kl Hkl). reflexivity.
Qed.

Lemma sorted_with_raise {K} (sort : list (K * string) -> list (K * string))
    (key : string -> option K) l e :
  sorted_with sort key l = Raise e ->
  e = ValueError /\ exists x, x ∈ l /\ key x = None.
Proof.
  unfold sorted_with.
  destruct (mapM (fun x => (fun k => (k, x)) <$> key x) l) as [kl|] eqn:Hm;
    [discriminate|].
  intros [= <-]. split; [reflexivity|].
  apply mapM_None, Exists_exists in Hm as (x & Hx & Hn).
  exists x. split; [exact Hx|]. destruct (key x); [discriminate|reflexivity].
Qed.

Lemma sorted_with_ext {K} (sort sort' : list (K * string) -> list (K * string))
    (key : string -> option K) l :
  (forall kl, Forall2 (fun x kx => key x = Some (fst kx) /\ snd kx = x) l kl ->
              sort kl = sort' kl) ->
  sorted_with sort key l = sorted_with sort' key l.
Proof.
  intros Hext. unfold sorted_with.
  destruct (mapM (fun x => (fun k => (k, x)) <$> key x) l) as [kl|] eqn:Hm;
    [|reflexivity].
  rewrite Hext; [reflexivity|].
  apply mapM_Some in Hm. eapply Forall2_impl; [exact Hm|].
  intros x kx Hx. cbn beta in Hx. destruct (key x) as [k|]; [|discriminate].
  cbn in Hx. injection Hx as <-. split; reflexivity.
Qed.

Lemma insert_keyed_ext {K} (lt lt' : K -> K -> bool) kx l :
  Forall (fun ky => lt (fst kx) (fst ky) = lt' (fst kx) (fst ky)) l ->
  insert_keyed lt kx l = insert_keyed lt' kx l.
Proof.
  induction 1 as [|ky l Hky _ IH]; [reflexivity|].
  cbn [insert_keyed]. rewrite Hky, IH. reflexivity.
Qed.

Lemma sort_keyed_ext {K} (lt lt' : K -> K -> bool) (P : K -> Prop) l :
  (forall a b, P a -> P b -> lt a b = lt' a b) ->
  Forall (fun kx => P (fst kx)) l ->
  sort_keyed lt l = sort_keyed lt' l.
Proof.
  intros Hext Hl. unfold sort_keyed.
  assert (H : forall acc, Forall (fun kx => P (fst kx)) acc ->
              foldl (fun acc kx => insert_keyed lt kx acc) acc l
              = foldl (fun acc kx => insert_keyed lt' kx acc) acc l).
  { induction Hl as [|kx l Hkx Hl IH]; intros acc Hacc; [reflexivity|].
    cbn [foldl]. rewrite (insert_keyed_ext lt lt' kx acc).
    - apply IH. rewrite (insert_keyed_perm lt' kx acc). constructor; assumption.
    - eapply Forall_impl; [exact Hacc|]. intros ky Hky. apply Hext; assumption. }
  apply H. constructor.
Qed.

(** Floats *)

Lemma float_lt_total_asym : lt_asym float_lt_total.
Proof.
  intros [| |x|] [| |y|]; cbn; try discriminate; try reflexivity.
  apply Qlt_bool_asym.
Qed.

Lemma float_lt_total_trans : le_trans float_lt_total.
Proof.
  intros [| |x|] [| |y|] [| |z|]; cbn; try discriminate; try reflexivity.
  apply Qlt_bool_trans.
Qed.

Lemma float_lt_total_eq a b :
  is_NaN a = false -> is_NaN b = false -> float_lt_total a b = float_lt a b.
Proof. destruct a, b; cbn; try discriminate; reflexivity. Qed.


Lemma not_NaN (a : PyFloat) : a <> NaN -> is_NaN a = false.
Proof. destruct a; [congruence|reflexivity..]. Qed.

(** Where no key is NaN, [sorted] on float keys is the stable sort by
    an order that is total. *)
Lemma sorted_floats_total sort_floats (key : string -> option PyFloat) l :
  sort_floats_ok sort_floats ->
  (forall x, x ∈ l -> key x <> Some NaN) ->
  sorted_with sort_floats key l = sorted float_lt_total key l.
Proof.
  intros [_ Hstable] Hnan. unfold sorted. apply sorted_with_ext.
  intros kl Hkl.
  assert (Hall : Forall (fun kx : PyFloat * string => is_NaN (fst kx) = false) kl).
  { apply Forall_forall. intros kx Hin.
    apply list_elem_of_lookup in Hin as [i Hi].
    destruct (Forall2_lookup_r _ _ _ _ _ Hkl Hi) as (x & Hx & Hk & _).
    apply not_NaN. intros Heq. apply (Hnan x).
    - eapply list_elem_of_lookup_2, Hx.
    - rewrite Hk, Heq. reflexivity. }
  rewrite (Hstable kl Hall).
  apply (sort_keyed_ext float_lt float_lt_total (fun k => is_NaN k = false)).
  - intros a b Ha Hb. symmetry. apply float_lt_total_eq; assumption.
  - exact Hall.
Qed.

Lemma example_sort_ok : sort_floats_ok example_sort.
Proof. split; [intros kl; apply sort_keyed_perm|reflexivity]. Qed.

Lemma GetAltAlleles_out_alts_perm set_iter pyfloat sort_floats vcftype s out :
  (forall s, set_iter s ≡ₚ elements s) ->
  (vcftype = popstr -> forall kl, sort_floats kl ≡ₚ kl) ->
  GetAltAlleles_out_alts set_iter pyfloat sort_floats vcftype s = Ok out ->
  out ≡ₚ elements s.
Proof.
  intros Hperm Hsort. unfold GetAltAlleles_out_alts, sorted.
  destruct vcftype; cbn [VcfTypes_eqb]; intros Hs;
    apply sorted_with_perm in Hs;
    try (rewrite Hs; apply Hperm); try (intros kl; apply sort_keyed_perm).
  apply Hsort. reflexivity.
Qed.


(** Keys that tie no two members leave room for a NaN only in a list of
    one member. *)
Lemma no_ties_NaN pyfloat out :
  NoDup out ->
  no_ties pyfloat popstr out ->
  (forall x, x ∈ out -> is_Some (pyfloat (slice_to_last 1 x))) ->
  no_NaN pyfloat popstr out \/ exists a, out = [a].
Proof.
  intros Hnd Hties Hdef.
  set (nanb := fun a => match pyfloat (slice_to_last 1 a) with
                        | Some k => is_NaN k
                        | None => false
                        end).
  assert (Hnanb : forall a, nanb a = false <-> pyfloat (slice_to_last 1 a) <> Some NaN).
  { intros a. unfold nanb. destruct (pyfloat (slice_to_last 1 a)) as [[| | |]|]; cbn;
      split; congruence. }
  destruct (decide (Forall (fun a => nanb a = false) out)) as [Hall|Hex].
  { left. intros a Ha. rewrite Forall_forall in Hall. apply Hnanb, Hall, Ha. }
  right. apply not_Forall_Exists in Hex; [|apply _].
  apply Exists_exists in Hex as (a & Ha & Hnan).
  assert (Hka : pyfloat (slice_to_last 1 a) = Some NaN).
  { destruct (pyfloat (slice_to_last 1 a)) as [[| | |]|] eqn:Hk; try reflexivity;
      exfalso; apply Hnan, Hnanb; rewrite Hk; discriminate. }
  assert (Hall : forall b, b ∈ out -> b = a).
  { intros b Hb. destruct (Hdef b Hb) as [kb Hkb].
    apply (Hties b a kb NaN Hb Ha Hkb Hka); destruct kb; reflexivity. }
  destruct out as [|x out]; [inversion Ha|].
  exists a. rewrite (Hall x) by left.
  destruct out as [|y out]; [reflexivity|].
  exfalso. apply NoDup_cons in Hnd as [Hx _]. apply Hx.
  rewrite (Hall x) by left. rewrite <- (Hall y) at 1 by (right; left). left.
Qed.

Lemma sorted_with_keys_defined {K} (sort : list (K * string) -> list (K * string))
    (key : string -> option K) l out :
  sorted_with sort key l = Ok out -> forall x, x ∈ l -> is_Some (key x).
Proof.
  intros Hs x Hx. apply sorted_with_keys in Hs as (kl & Hkl & _).
  apply list_elem_of_lookup in Hx as [i Hi].
  destruct (Forall2_lookup_l _ _ _ _ _ Hkl Hi) as (kx & _ & Hk & _). eauto.
Qed.

Lemma GetAltAlleles_out_alts_det set_iter1 set_iter2 pyfloat sort_floats vcftype s out :
  (forall s, set_iter1 s ≡ₚ elements s) ->
  (forall s, set_iter2 s ≡ₚ elements s) ->
  (vcftype = popstr -> sort_floats_ok sort_floats) ->
  GetAltAlleles_out_alts set_iter1 pyfloat sort_floats vcftype s = Ok out ->
  no_ties pyfloat vcftype out ->
  GetAltAlleles_out_alts set_iter2 pyfloat sort_floats vcftype s = Ok out.
Proof.
  intros Hp1 Hp2 Hsort Hout Hties.
  assert (Hperm : set_iter1 s ≡ₚ set_iter2 s) by (rewrite Hp1, Hp2; reflexivity).
  assert (Ho : out ≡ₚ set_iter1 s).
  { rewrite Hp1. eapply GetAltAlleles_out_alts_perm; [exact Hp1| |exact Hout].
    intros Hp. apply Hsort, Hp. }
  rewrite <- Hout. symmetry. revert Hout Hties. unfold GetAltAlleles_out_alts, no_ties.
  destruct vcftype; cbn [VcfTypes_eqb]; intros Hout Hties.
  1-3: apply sorted_deterministic;
       [apply len_lex_asym | apply len_lex_trans | exact Hperm
       | intros a b _ _; apply len_lex_antisym].
  - apply sorted_deterministic;
      [apply Zltb_asym | apply Zltb_trans | exact Hperm |].
    intros a b Ha Hb (ka & kb & Hka & Hkb & H1) (kb' & ka' & Hkb' & Hka' & H2).
    apply Hties; [rewrite Ho; exact Ha | rewrite Ho; exact Hb|].
    rewrite Hka, Hkb. f_equal.
    rewrite Hka' in Hka. rewrite Hkb' in Hkb. injection Hka as ->. injection Hkb as ->.
    apply Z.ltb_ge in H1, H2. lia.
  - assert (Hnd : NoDup out) by (rewrite Ho, Hp1; apply NoDup_elements).
    assert (Hdef : forall x, x ∈ out -> is_Some (pyfloat (slice_to_last 1 x))).
    { intros x Hx.
      apply (sorted_with_keys_defined sort_floats
               (fun x => pyfloat (slice_to_last 1 x)) _ _ Hout).
      rewrite <- Ho. exact Hx. }
    destruct (no_ties_NaN pyfloat out Hnd Hties Hdef) as [Hnan|[a ->]].
    + cbn [no_NaN] in Hnan.
      rewrite !(sorted_floats_total sort_floats _ _ (Hsort eq_refl)).
      2: { intros x Hx. apply Hnan. rewrite Ho, Hperm. exact Hx. }
      2: { intros x Hx. apply Hnan. rewrite Ho. exact Hx. }
      apply sorted_deterministic;
        [apply float_lt_total_asym | apply float_lt_total_trans | exact Hperm |].
      intros x y Hx Hy (kx & ky & Hkx & Hky & H1) (ky' & kx' & Hky' & Hkx' & H2).
      rewrite Hkx' in Hkx. rewrite Hky' in Hky. injection Hkx as ->. injection Hky as ->.
      assert (Hnx : is_NaN kx = false).
      { apply not_NaN. intros ->. apply (Hnan x); [rewrite Ho; exact Hx|exact Hkx']. }
      assert (Hny : is_NaN ky = false).
      { apply not_NaN. intros ->. apply (Hnan y); [rewrite Ho; exact Hy|exact Hky']. }
      apply (Hties x y kx ky); [rewrite Ho; exact Hx | rewrite Ho; exact Hy | | | |];
        try assumption.
      * rewrite <- (float_lt_total_eq kx ky Hnx Hny). exact H2.
      * rewrite <- (float_lt_total_eq ky kx Hny Hnx). exact H1.
    + symmetry in Ho. apply Permutation_singleton_r in Ho.
      assert (H2 : set_iter2 s = [a]).
      { apply Permutation_singleton_r. rewrite <- Hperm, Ho. reflexivity. }
      rewrite Ho, H2. reflexivity.
Qed.

Lemma GetAltAlleles_det set_iter1 set_iter2 pyfloat sort_floats cr ml vcftype trim out maps :
  (forall s, set_iter1 s ≡ₚ elements s) ->
  (forall s, set_iter2 s ≡ₚ elements s) ->
  (vcftype = popstr -> sort_floats_ok sort_floats) ->
  group_ok cr ml ->
  GetAltAlleles set_iter1 pyfloat sort_floats cr ml vcftype trim = Ok (out, maps) ->
  no_ties pyfloat vcftype out ->
  GetAltAlleles set_iter2 pyfloat sort_floats cr ml vcftype trim = Ok (out, maps).
Proof.
  intros Hp1 Hp2 Hsort Hok H Hties.
  pose proof (GetAltAlleles_ok _ _ _ _ _ _ _ _ _ Hok H) as [Hout _].
  pose proof (GetAltAlleles_out_alts_det _ _ _ _ _ _ _ Hp1 Hp2 Hsort Hout Hties) as Hout2.
  revert H. unfold GetAltAlleles.
  rewrite GetAltAlleles_alts_eq by assumption. cbn [rbind].
  rewrite Hout, Hout2. tauto.
Qed.


Lemma GetAltAlleles_mappings_ok set_iter pyfloat sort_floats cr ml vcftype trim out maps :
  group_ok cr ml ->
  GetAltAlleles set_iter pyfloat sort_floats cr ml vcftype trim = Ok (out, maps) ->
  Forall2 (fun ir m => mapping_ok out (get_alts trim (snd ir)) m)
          (participants cr ml) maps.
Proof.
  intros Hok H.
  apply (GetAltAlleles_ok _ _ _ _ _ _ _ _ _ Hok) in H as [_ HF].
  eapply Forall2_impl; [exact HF|].
  intros [i r] m Hm. apply GetAltAlleles_mapping_spec, Hm.
Qed.

(** C5. Each participating record gets one AlleleMap, in the order of
    the participants: entry 0 is "0", and the entry of every local
    alternate is the 1-based position of its upper-cased string in the
    unified alternates. For the two records of the example (reference
    TCTG, alternates [TCTGTCTG] and [TCTGTCTGTCTG]), of a type sorted by
    length and then lexically, the unified alternates are
    [TCTGTCTG; TCTGTCTGTCTG] and the maps are [0;1] and [0;2]. *)
Theorem C5_allele_maps :
  (forall set_iter pyfloat sort_floats cr ml vcftype trim out maps,
     group_ok cr ml ->
     GetAltAlleles set_iter pyfloat sort_floats cr ml vcftype trim = Ok (out, maps) ->
     Forall2 (fun ir m => mapping_ok out (get_alts trim (snd ir)) m)
             (participants cr ml) maps) /\
  (forall set_iter pyfloat sort_floats vcftype rA rB,
     (forall s, set_iter s ≡ₚ elements s) ->
     vcftype <> eh -> vcftype <> popstr ->
     vcfrecord_REF rA = "TCTG" -> vcfrecord_ALT rA = ["TCTGTCTG"] ->
     vcfrecord_REF rB = "TCTG" -> vcfrecord_ALT rB = ["TCTGTCTGTCTG"] ->
     GetRefAllele [Some rA; Some rB] [true; true] false = Ok (Some "TCTG") /\
     GetAltAlleles set_iter pyfloat sort_floats [Some rA; Some rB] [true; true] vcftype false
     = Ok (["TCTGTCTG"; "TCTGTCTGTCTG"], [["0"; "1"]; ["0"; "2"]])).
Proof.
  split.
  - intros set_iter pyfloat sort_floats cr ml vcftype trim out maps Hok H.
    eapply GetAltAlleles_mappings_ok; eassumption.
  - intros set_iter pyfloat sort_floats vcftype rA rB Hperm Heh Hpop HrA HA HrB HB.
    destruct rA, rB. simpl in HrA, HA, HrB, HB. subst.
    split; [vm_compute; reflexivity|].
    apply (GetAltAlleles_det elements set_iter).
    + intros s. reflexivity.
    + exact Hperm.
    + congruence.
    + intros [|[|i]] Hi; simpl in Hi; try discriminate; eauto.
    + destruct vcftype; try congruence; vm_compute; reflexivity.
    + destruct vcftype; simpl; auto; congruence.
Qed.

(** ** Which exceptions can come out *)

Lemma snd_bind {A B} (m : M A) (f : A -> M B) :
  snd (bind m f) = match snd m with Ok a => snd (f a) | Raise e => Raise e end.
Proof. rewrite bind_pair. destruct (snd m); reflexivity. Qed.

Lemma fst_bind {A B} (m : M A) (f : A -> M B) :
  fst (bind m f) = match snd m with Ok a => fst m ++ fst (f a) | Raise e => fst m end.
Proof. rewrite bind_pair. destruct (snd m); reflexivity. Qed.

Lemma raises_in_ret {A} P (a : A) : raises_in P (ret a).
Proof. intros e. discriminate. Qed.

Lemma raises_in_write P s : raises_in P (write s).
Proof. intros e. discriminate. Qed.

Lemma raises_in_WARNING P w : raises_in P (WARNING w).
Proof. intros e. discriminate. Qed.

Lemma raises_in_raise {A} (P : exn -> Prop) e : P e -> raises_in (A:=A) P (raise e).
Proof. intros HP e' [= <-]. exact HP. Qed.

Lemma raises_in_lift {A} P (r : result A) : rraises_in P r -> raises_in P (lift r).
Proof. intros H e He. apply H, He. Qed.

Lemma raises_in_bind {A B} P (m : M A) (f : A -> M B) :
  raises_in P m -> (forall a, raises_in P (f a)) -> raises_in P (bind m f).
Proof.
  intros Hm Hf e. rewrite snd_bind. destruct (snd m) as [a|e'] eqn:Hs.
  - apply Hf.
  - intros [= <-]. apply Hm, Hs.
Qed.

Lemma rraises_in_ok {A} P (a : A) : rraises_in P (Ok a).
Proof. intros e. discriminate. Qed.

Lemma rraises_in_raise {A} (P : exn -> Prop) e : P e -> rraises_in (A:=A) P (Raise e).
Proof. intros HP e' [= <-]. exact HP. Qed.

Lemma rraises_in_rbind {A B} P (r : result A) (f : A -> result B) :
  rraises_in P r -> (forall a, rraises_in P (f a)) -> rraises_in P (rbind r f).
Proof.
  intros Hr Hf e. destruct r as [a|e']; simpl.
  - apply Hf.
  - intros [= <-]. apply Hr. reflexivity.
Qed.

Lemma rraises_in_getitem {A} (P : exn -> Prop) (l : list A) i :
  P IndexError -> rraises_in P (getitem l i).
Proof.
  intros HP e. unfold getitem. destruct (l !! i); [discriminate|].
  intros [= <-]. exact HP.
Qed.

Lemma raises_in_forM_from {S} P i n (body : nat -> S -> M S) s :
  (forall i s, raises_in P (body i s)) -> raises_in P (forM_from i n body s).
Proof.
  intros Hb. revert i s. induction n as [|n IH]; intros i s; simpl.
  - apply raises_in_ret.
  - apply raises_in_bind; [apply Hb|]. intros s'. apply IH.
Qed.

Lemma raises_in_forM_enumerate {A S} P i (l : list A) (body : nat -> A -> S -> M S) s :
  (forall i a s, raises_in P (body i a s)) -> raises_in P (forM_enumerate i l body s).
Proof.
  intros Hb. revert i s. induction l as [|a l IH]; intros i s; simpl.
  - apply raises_in_ret.
  - apply raises_in_bind; [apply Hb|]. intros s'. apply IH.
Qed.

Lemma rraises_in_for_from {S} P i n (body : nat -> S -> result S) s :
  (forall i s, rraises_in P (body i s)) -> rraises_in P (for_from i n body s).
Proof.
  intros Hb. revert i s. induction n as [|n IH]; intros i s; simpl.
  - apply rraises_in_ok.
  - destruct (body i s) as [s'|e] eqn:He; [apply IH|].
    intros e' [= <-]. eapply Hb, He.
Qed.

Lemma rraises_in_for_enumerate {A S} P i (l : list A)
    (body : nat -> A -> S -> result S) s :
  (forall i a s, rraises_in P (body i a s)) -> rraises_in P (for_enumerate i l body s).
Proof.
  intros Hb. revert i s. induction l as [|a l IH]; intros i s; simpl.
  - apply rraises_in_ok.
  - apply rraises_in_rbind; [apply Hb|]. intros s'. apply IH.
Qed.

Ltac raises_step :=
  lazymatch goal with
  | |- raises_in _ (ret _) => apply raises_in_ret
  | |- raises_in _ (write _) => apply raises_in_write
  | |- raises_in _ (WARNING _) => apply raises_in_WARNING
  | |- raises_in _ (raise _) => apply raises_in_raise; try discriminate
  | |- raises_in _ (lift _) => apply raises_in_lift
  | |- raises_in _ (bind _ _) => apply raises_in_bind; [|intros ?]
  | |- raises_in _ (forM_range _ _ _) => unfold forM_range
  | |- raises_in _ (forM_from _ _ _ _) => apply raises_in_forM_from; intros ? ?
  | |- raises_in _ (forM_enumerate _ _ _ _) =>
      apply raises_in_forM_enumerate; intros ? ? ?
  | |- raises_in _ (match ?x with _ => _ end) => destruct x
  | |- rraises_in _ (Ok _) => apply rraises_in_ok
  | |- rraises_in _ (Raise _) => apply rraises_in_raise; try discriminate
  | |- rraises_in _ (rbind _ _) => apply rraises_in_rbind; [|intros ?]
  | |- rraises_in _ (getitem _ _) => apply rraises_in_getitem; try discriminate
  | |- rraises_in _ (for_range _ _ _) => unfold for_range
  | |- rraises_in _ (for_from _ _ _ _) => apply rraises_in_for_from; intros ? ?
  | |- rraises_in _ (for_enumerate _ _ _ _) =>
      apply rraises_in_for_enumerate; intros ? ? ?
  | |- rraises_in _ (match ?x with _ => _ end) => destruct x
  end.

Ltac raises := repeat raises_step.

(** ** WriteSampleData and the formats of the header *)

Lemma WriteSampleData_assert record alleles formats format_type mapping :
  "GT" ∉ formats ->
  raises_in (fun e => e <> AssertionError)
    (WriteSampleData record alleles formats format_type mapping).
Proof.
  intros Hgt. unfold WriteSampleData.
  rewrite bool_decide_eq_false_2 by assumption.
  unfold WriteSampleData_formats, format_array_for, take_index, WriteSampleData_cell.
  raises.
Qed.

Lemma useformat_loop formats i l acc :
  exists l', sublist l' l /\
    snd (forM_enumerate i l (fun (_ : nat) field useformat =>
           match lines_with_id field formats with
           | [] => WARNING (ExpectedFormatNotFound field) ;;; ret useformat
           | [line] => write (line +:+ newline) ;;; ret (useformat ++ [field])
           | _ => WARNING (TwoFormatLines field) ;;; ret useformat
           end) acc) = Ok (acc ++ l').
Proof.
  revert i acc. induction l as [|field l IH]; intros i acc; cbn [forM_enumerate].
  - exists []. rewrite app_nil_r. split; [constructor|reflexivity].
  - destruct (lines_with_id field formats) as [|line [|line' lines]];
      rewrite bind_assoc, ?bind_WARNING, ?bind_write, bind_ret_l; cbn [snd].
    + destruct (IH (S i) acc) as (l' & Hsub & ->). exists l'.
      split; [constructor; exact Hsub|reflexivity].
    + destruct (IH (S i) (acc ++ [field])) as (l' & Hsub & ->). exists (field :: l').
      split; [constructor; exact Hsub|]. rewrite <- app_assoc. reflexivity.
    + destruct (IH (S i) acc) as (l' & Hsub & ->). exists l'.
      split; [constructor; exact Hsub|reflexivity].
Qed.

Lemma WriteMergedHeader_useformat_sublist formats vcftype :
  exists useformat,
    snd (WriteMergedHeader_useformat formats vcftype) = Ok useformat /\
    sublist useformat (FORMATFIELDS vcftype).
Proof.
  destruct (useformat_loop formats 0 (FORMATFIELDS vcftype) []) as (l' & Hsub & H).
  exists l'. split; [exact H | exact Hsub].
Qed.

Lemma GT_not_in_FORMATFIELDS vcftype : "GT" ∉ FORMATFIELDS vcftype.
Proof.
  destruct vcftype; apply (bool_decide_unpack _); vm_compute; exact I.
Qed.

Lemma WriteMergedHeader_result set_iter GetSamples update vcfs readers cmd vcftype
    useinfo useformat :
  snd (WriteMergedHeader set_iter GetSamples update vcfs readers cmd vcftype)
  = Ok (Some (useinfo, useformat)) ->
  exists reader0 rest,
    readers = reader0 :: rest /\
    snd (WriteMergedHeader_useformat (get_header_lines "format" reader0) vcftype)
    = Ok useformat.
Proof.
  unfold WriteMergedHeader.
  destruct readers as [|reader0 rest]; [discriminate|].
  intros H. exists reader0, rest. split; [reflexivity|].
  revert H. rewrite snd_bind. cbn [lift getitem lookup list_lookup snd].
  destruct (negb _); [discriminate|].
  repeat (rewrite snd_bind;
          match goal with
          | |- context [snd (write ?s)] => change (snd (write s)) with (Ok tt)
          | _ => idtac
          end; cbv beta iota).
  repeat match goal with
         | |- match ?x with Ok _ => _ | Raise _ => _ end = _ -> _ =>
             destruct x; [|discriminate]
         end.
  rewrite snd_bind. cbn [write snd]. rewrite snd_bind.
  destruct (snd (WriteMergedHeader_useformat _ vcftype)) as [uf|e]; [|discriminate].
  match goal with
  | |- snd (match ?x with _ => _ end) = _ -> _ => destruct x as [[|smp smps]|[]]
  end; try discriminate.
  rewrite snd_bind. cbn [write snd ret]. intros [= _ <-]. reflexivity.
Qed.

(** C10. The FORMAT list that [WriteMergedHeader] assembles is a
    sublist of [FORMATFIELDS[vcftype]], which never holds "GT"; so "GT"
    is not among the formats handed on, and the assertion of
    [WriteSampleData] does not fail on them. *)
Theorem C10_formats_without_GT vcftype :
  ("GT" ∉ FORMATFIELDS vcftype) /\
  (forall formats, exists useformat,
     snd (WriteMergedHeader_useformat formats vcftype) = Ok useformat /\
     sublist useformat (FORMATFIELDS vcftype) /\
     ("GT" ∉ useformat)) /\
  (forall set_iter GetSamples update_sample_from_file vcfs readers cmd,
     match snd (WriteMergedHeader set_iter GetSamples update_sample_from_file
                  vcfs readers cmd vcftype) with
     | Ok (Some (_, useformat)) =>
         sublist useformat (FORMATFIELDS vcftype) /\
         ("GT" ∉ useformat) /\
         forall record alleles format_type mapping,
           snd (WriteSampleData record alleles useformat format_type mapping)
           <> Raise AssertionError
     | _ => True
     end).
Proof.
  pose proof (GT_not_in_FORMATFIELDS vcftype) as Hgt.
  assert (Hsub : forall l, sublist l (FORMATFIELDS vcftype) -> "GT" ∉ l).
  { intros l Hl Hin. apply Hgt. apply (sublist_subseteq _ _ Hl), Hin. }
  split; [exact Hgt|]. split.
  - intros formats.
    destruct (WriteMergedHeader_useformat_sublist formats vcftype) as (uf & H & Hs).
    exists uf. auto.
  - intros set_iter GetSamples update vcfs readers cmd.
    destruct (snd (WriteMergedHeader set_iter GetSamples update vcfs readers cmd vcftype))
      as [[[useinfo useformat]|]|e] eqn:H; try exact I.
    apply WriteMergedHeader_result in H as (reader0 & rest & _ & H).
    destruct (WriteMergedHeader_useformat_sublist
                (get_header_lines "format" reader0) vcftype) as (uf & H' & Hs).
    rewrite H in H'. injection H' as <-.
    split; [exact Hs|]. split; [apply Hsub, Hs|].
    intros record alleles format_type mapping Hraise.
    apply (WriteSampleData_assert record alleles useformat format_type mapping
             (Hsub _ Hs) AssertionError Hraise).
    reflexivity.
Qed.

(** ** Loops with equal bodies *)

Lemma for_from_ext {S} i n (b1 b2 : nat -> S -> result S) s :
  (forall i s, b1 i s = b2 i s) -> for_from i n b1 s = for_from i n b2 s.
Proof.
  intros H. revert i s. induction n as [|n IH]; intros i s; simpl; [reflexivity|].
  rewrite H. destruct (b2 i s); [apply IH | reflexivity].
Qed.

Lemma bind_ext {A B} (m : M A) (f g : A -> M B) :
  (forall a, f a = g a) -> bind m f = bind m g.
Proof. intros H. destruct m as [l [a|e]]; simpl; [rewrite H|]; reflexivity. Qed.

Lemma rbind_ext {A B} (r : result A) (f g : A -> result B) :
  (forall a, f a = g a) -> rbind r f = rbind r g.
Proof. intros H. destruct r as [a|e]; simpl; [apply H | reflexivity]. Qed.

Lemma forM_from_ext {S} i n (b1 b2 : nat -> S -> M S) s :
  (forall i s, b1 i s = b2 i s) -> forM_from i n b1 s = forM_from i n b2 s.
Proof.
  intros H. revert i s. induction n as [|n IH]; intros i s; simpl; [reflexivity|].
  rewrite H. apply bind_ext. intros s'. apply IH.
Qed.

Lemma forM_enumerate_ext {A S} i (l : list A) (b1 b2 : nat -> A -> S -> M S) s :
  (forall i a s, b1 i a s = b2 i a s) ->
  forM_enumerate i l b1 s = forM_enumerate i l b2 s.
Proof.
  intros H. revert i s. induction l as [|a l IH]; intros i s; simpl; [reflexivity|].
  rewrite H. apply bind_ext. intros s'. apply IH.
Qed.

(** ** MergeRecords with trimming *)

Section Retrim.
Context (new_alts : TRRecord -> list string) (new_REF : TRRecord -> string).
Local Abbreviation g := (with_trimmed_alts_and_REF new_alts new_REF).
Local Abbreviation G := (retrim_records new_alts new_REF).

Lemma record_at_retrim cr i :
  record_at (G cr) i = match record_at cr i with Ok r => Ok (g r) | Raise e => Raise e end.
Proof.
  unfold record_at, retrim_records.
  change (map (option_map g) cr) with (option_map g <$> cr).
  rewrite list_lookup_fmap.
  destruct (cr !! i) as [[r|]|]; reflexivity.
Qed.

Lemma GetRefAllele_retrim cr ml : GetRefAllele (G cr) ml true = GetRefAllele cr ml true.
Proof.
  unfold GetRefAllele, GetRefAllele_refs, for_range. f_equal.
  apply for_from_ext. intros i s. destruct (default false (ml !! i)); [|reflexivity].
  rewrite record_at_retrim. destruct (record_at cr i); reflexivity.
Qed.

Lemma GetAltAlleles_retrim set_iter pyfloat sort_floats cr ml vcftype :
  GetAltAlleles set_iter pyfloat sort_floats (G cr) ml vcftype false
  = GetAltAlleles set_iter pyfloat sort_floats cr ml vcftype false.
Proof.
  unfold GetAltAlleles.
  assert (Ha : GetAltAlleles_alts (G cr) ml false = GetAltAlleles_alts cr ml false).
  { unfold GetAltAlleles_alts, for_range. apply for_from_ext. intros i s.
    destruct (default false (ml !! i)); [|reflexivity].
    rewrite record_at_retrim. destruct (record_at cr i); reflexivity. }
  rewrite Ha. apply rbind_ext. intros alts. apply rbind_ext. intros out.
  f_equal. unfold for_range. apply for_from_ext. intros i s.
  destruct (default false (ml !! i)); [|reflexivity].
  rewrite record_at_retrim. destruct (record_at cr i); reflexivity.
Qed.

Lemma GetInfoItem_loop_retrim cr (ml : list bool) field i n
    (st : gset string * option TRRecord) :
  for_from i n (fun i st =>
       if default false (ml !! i) then
         r <~ record_at (G cr) i ;;
         match info r !! field with
         | Some v => Ok (fst st ∪ {[ v ]}, Some r)
         | None => Raise ValueError
         end
       else Ok st) (fst st, option_map g (snd st))
  = match for_from i n (fun i st =>
             if default false (ml !! i) then
               r <~ record_at cr i ;;
               match info r !! field with
               | Some v => Ok (fst st ∪ {[ v ]}, Some r)
               | None => Raise ValueError
               end
             else Ok st) st with
    | Ok st' => Ok (fst st', option_map g (snd st'))
    | Raise e => Raise e
    end.
Proof.
  revert i st. induction n as [|n IH]; intros i st; simpl; [reflexivity|].
  destruct (default false (ml !! i)).
  - rewrite record_at_retrim. destruct (record_at cr i) as [r|e]; simpl; [|reflexivity].
    destruct (info r !! field) as [v|]; [|reflexivity].
    exact (IH (S i) (fst st ∪ {[ v ]}, Some r)).
  - apply IH.
Qed.

Lemma GetInfoItem_retrim cr ml field fail :
  GetInfoItem (G cr) ml field fail = GetInfoItem cr ml field fail.
Proof.
  unfold GetInfoItem. destruct (negb fail); [reflexivity|].
  unfold for_range.
  pose proof (GetInfoItem_loop_retrim cr ml field 0 (length ml) (∅, None)) as H.
  simpl in H. rewrite H. clear H.
  destruct (for_from 0 (length ml) _ (∅, None)) as [[vals a]|e]; [|reflexivity].
  rewrite !bind_lift_ok. simpl.
  destruct (size vals =? 1)%nat; [reflexivity|].
  destruct a as [r|]; reflexivity.
Qed.

Lemma MergeRecords_info_retrim cr ml useinfo :
  MergeRecords_info (G cr) ml useinfo = MergeRecords_info cr ml useinfo.
Proof.
  unfold MergeRecords_info. apply forM_enumerate_ext. intros i fr first.
  unfold MergeRecords_info_item. rewrite GetInfoItem_retrim. reflexivity.
Qed.

Lemma WriteSampleData_retrim r alleles formats format_type mapping :
  WriteSampleData (g r) alleles formats format_type mapping
  = WriteSampleData r alleles formats format_type mapping.
Proof. reflexivity. Qed.

Lemma MergeRecords_samples_retrim num_samples cr ml alleles useformat format_type maps :
  MergeRecords_samples num_samples (G cr) ml alleles useformat format_type maps
  = MergeRecords_samples num_samples cr ml alleles useformat format_type maps.
Proof.
  unfold MergeRecords_samples, forM_range. apply forM_from_ext. intros i s.
  destruct (default false (ml !! i)); [|reflexivity].
  rewrite record_at_retrim. destruct (record_at cr i) as [r|e]; [|reflexivity].
  rewrite !bind_lift_ok. destruct s; reflexivity.
Qed.

Lemma MergeRecords_retrim set_iter pyfloat sort_floats vcftype num_samples cr ml useinfo
    useformat format_type :
  MergeRecords set_iter pyfloat sort_floats vcftype num_samples (G cr) ml useinfo useformat
    format_type true
  = MergeRecords set_iter pyfloat sort_floats vcftype num_samples cr ml useinfo useformat
      format_type true.
Proof.
  unfold MergeRecords. cbv zeta.
  destruct (filter _ (seq 0 (length ml))) as [|i0 use_ind]; [reflexivity|].
  rewrite record_at_retrim. destruct (record_at cr i0) as [r0|e]; [|reflexivity].
  rewrite !bind_lift_ok, GetRefAllele_retrim.
  apply bind_ext. intros [ref|]; [|reflexivity].
  rewrite GetAltAlleles_retrim. apply bind_ext. intros am.
  rewrite MergeRecords_info_retrim, MergeRecords_samples_retrim. reflexivity.
Qed.
End Retrim.

(** C9. With [trim=True], the REF column that [MergeRecords] writes is
    the upper-cased trimmed reference ([ref_allele]) of the
    participants, while the ALT column and the AlleleMaps are those of
    [GetAltAlleles] run without trimming, on the untrimmed alternates
    ([vcfrecord.ALT]); nothing that [MergeRecords] does depends on the
    trimmed alternates ([alt_alleles]) or on the untrimmed reference. *)
Theorem C9_trimmed_ref_untrimmed_alts set_iter pyfloat sort_floats vcftype num_samples
    cr ml useinfo useformat format_type :
  group_ok cr ml -> (exists i, ml !! i = Some true) ->
  (forall a out maps,
     (forall i r, (i, r) ∈ participants cr ml -> upper (ref_allele r) = a) ->
     GetAltAlleles set_iter pyfloat sort_floats cr ml vcftype false = Ok (out, maps) ->
     written (fst (MergeRecords set_iter pyfloat sort_floats vcftype num_samples cr ml
                     useinfo useformat format_type true)) !! 6%nat = Some a /\
     written (fst (MergeRecords set_iter pyfloat sort_floats vcftype num_samples cr ml
                     useinfo useformat format_type true)) !! 8%nat
     = Some (if (0 <? length out)%nat then join "," out else "." +:+ tab) /\
     Forall2 (fun ir m => mapping_ok out (vcfrecord_ALT (snd ir)) m)
             (participants cr ml) maps) /\
  (forall new_alts new_REF,
     MergeRecords set_iter pyfloat sort_floats vcftype num_samples
       (retrim_records new_alts new_REF cr) ml useinfo useformat format_type true
     = MergeRecords set_iter pyfloat sort_floats vcftype num_samples cr ml useinfo useformat
         format_type true).
Proof.
  intros Hok Hex. split.
  - intros a out maps Hall Ham.
    destruct (MergeRecords_first set_iter pyfloat sort_floats vcftype num_samples cr ml
                useinfo useformat format_type true Hok Hex)
      as (i0 & r0 & rest0 & Hp & HM).
    rewrite HM, (GetRefAllele_agree cr ml true a Hok Hex Hall), bind_lift_ok,
      Ham, bind_lift_ok.
    rewrite !bind_write. cbn [fst snd].
    split; [reflexivity|]. split.
    + destruct (0 <? length out)%nat; rewrite bind_pair; reflexivity.
    + exact (GetAltAlleles_mappings_ok set_iter pyfloat sort_floats cr ml vcftype false out maps
               Hok Ham).
  - intros new_alts new_REF. apply MergeRecords_retrim.
Qed.

(** ** GetInfoItem *)

Lemma fold_info_present field l (acc : gset string * option TRRecord) :
  (forall i r, (i, r) ∈ l -> is_Some (info r !! field)) ->
  exists a,
    fold_result (fun (_ : nat) r st =>
       match info r !! field with
       | Some v => Ok (fst st ∪ {[ v ]}, Some r)
       | None => Raise ValueError
       end) l acc = Ok (fst acc ∪ info_values field l, a) /\
    (l = [] -> a = snd acc) /\
    (l <> [] -> exists i r, a = Some r /\ (i, r) ∈ l).
Proof.
  revert acc. induction l as [|[i r] l IH]; intros acc Hall; simpl.
  - exists (snd acc). split; [|split; [reflexivity | congruence]].
    f_equal. destruct acc as [s a]. simpl. f_equal. unfold info_values. simpl. set_solver.
  - destruct (Hall i r) as [v Hv]; [left|]. rewrite Hv. simpl.
    destruct (IH (fst acc ∪ {[ v ]}, Some r)) as (a & Hfold & Hnil & Hcons).
    { intros j r' Hin. apply (Hall j r'). right. exact Hin. }
    exists a. split; [|split; [discriminate|]].
    + rewrite Hfold. f_equal. f_equal. unfold info_values. simpl. rewrite Hv. simpl.
      set_solver.
    + intros _. destruct l as [|ir l'].
      * exists i, r. split; [apply Hnil; reflexivity | left].
      * destruct Hcons as (j & r' & -> & Hin); [discriminate|].
        exists j, r'. split; [reflexivity | right; exact Hin].
Qed.

Lemma fold_info_missing field l (acc : gset string * option TRRecord) :
  (exists i r, (i, r) ∈ l /\ info r !! field = None) ->
  fold_result (fun (_ : nat) r st =>
     match info r !! field with
     | Some v => Ok (fst st ∪ {[ v ]}, Some r)
     | None => Raise ValueError
     end) l acc = Raise ValueError.
Proof.
  revert acc. induction l as [|[i r] l IH]; intros acc (j & r' & Hin & Hnone); simpl.
  - inversion Hin.
  - destruct (info r !! field) as [v|] eqn:Hv; [|reflexivity]. simpl.
    apply IH. apply elem_of_cons in Hin as [[= -> ->]|Hin]; [congruence|].
    exists j, r'. auto.
Qed.

Lemma GetInfoItem_loop_eq cr ml field :
  group_ok cr ml ->
  for_range (length ml) (fun i st =>
     if default false (ml !! i) then
       r <~ record_at cr i ;;
       match info r !! field with
       | Some v => Ok (fst st ∪ {[ v ]}, Some r)
       | None => Raise ValueError
       end
     else Ok st) ((∅ : gset string), None)
  = fold_result (fun (_ : nat) r st =>
       match info r !! field with
       | Some v => Ok (fst st ∪ {[ v ]}, Some r)
       | None => Raise ValueError
       end) (participants cr ml) (∅, None).
Proof.
  intros Hok.
  exact (for_merged_fold cr ml (fun (_ : nat) r (st : gset string * option TRRecord) =>
       match info r !! field with
       | Some v => Ok (fst st ∪ {[ v ]}, Some r)
       | None => Raise ValueError
       end) (∅, None) Hok).
Qed.

(** A required field that every participant carries with one value. *)
Lemma GetInfoItem_same cr ml field v :
  group_ok cr ml -> (exists i, ml !! i = Some true) ->
  (forall i r, (i, r) ∈ participants cr ml -> info r !! field = Some v) ->
  GetInfoItem cr ml field true = ([], Ok (Some (field +:+ "=" +:+ v))).
Proof.
  intros Hok Hex Hall. unfold GetInfoItem. cbn [negb].
  rewrite GetInfoItem_loop_eq by assumption.
  destruct (fold_info_present field (participants cr ml) (∅, None))
    as (a & -> & _ & _).
  { intros i r Hin. rewrite (Hall i r Hin). eauto. }
  rewrite bind_lift_ok. cbn [fst snd].
  assert (Hv : ∅ ∪ info_values field (participants cr ml) = ({[ v ]} : gset string)).
  { pose proof (participants_nonempty cr ml Hok Hex) as Hne.
    apply set_eq. intros x. unfold info_values.
    rewrite elem_of_union, elem_of_list_to_set, list_elem_of_omap, elem_of_singleton.
    split.
    - intros [Hx|([i r] & Hin & Hx)]; [set_solver|].
      simpl in Hx. rewrite (Hall i r Hin) in Hx. congruence.
    - intros ->. right. destruct (participants cr ml) as [|[i r] l]; [congruence|].
      exists (i, r). split; [left|]. simpl. apply (Hall i r). left. }
  rewrite Hv, size_singleton. simpl. rewrite elements_singleton. reflexivity.
Qed.

(** A required field that every participant carries, with two values. *)
Lemma GetInfoItem_differ cr ml field :
  group_ok cr ml ->
  (forall i r, (i, r) ∈ participants cr ml -> is_Some (info r !! field)) ->
  (exists i r j r', (i, r) ∈ participants cr ml /\ (j, r') ∈ participants cr ml /\
                    info r !! field <> info r' !! field) ->
  exists vals c p,
    GetInfoItem cr ml field true = ([Warning (IncompatibleInfo vals field c p)], Ok None).
Proof.
  intros Hok Hall (i & r & j & r' & Hi & Hj & Hne). unfold GetInfoItem. cbn [negb].
  rewrite GetInfoItem_loop_eq by assumption.
  destruct (fold_info_present field (participants cr ml) (∅, None) Hall)
    as (a & -> & _ & Ha).
  rewrite bind_lift_ok. cbn [fst snd].
  destruct Ha as (k & rk & -> & Hk).
  { intros Hnil. rewrite Hnil in Hi. inversion Hi. }
  destruct (Hall i r Hi) as [v Hv]. destruct (Hall j r' Hj) as [v' Hv'].
  assert (Hsize : size (∅ ∪ info_values field (participants cr ml)) <> 1%nat).
  { intros Hsize. apply size_1_elem_of in Hsize as [z Hz].
    assert (Hvz : v ∈ ∅ ∪ info_values field (participants cr ml)).
    { apply elem_of_union. right. unfold info_values.
      apply elem_of_list_to_set, list_elem_of_omap. exists (i, r). auto. }
    assert (Hvz' : v' ∈ ∅ ∪ info_values field (participants cr ml)).
    { apply elem_of_union. right. unfold info_values.
      apply elem_of_list_to_set, list_elem_of_omap. exists (j, r'). auto. }
    rewrite Hz in Hvz, Hvz'. apply elem_of_singleton in Hvz, Hvz'. congruence. }
  apply Nat.eqb_neq in Hsize. rewrite Hsize.
  eexists _, _, _. reflexivity.
Qed.

(** A required field that some participant does not carry. *)
Lemma GetInfoItem_missing cr ml field :
  group_ok cr ml -> missing_in (participants cr ml) field ->
  GetInfoItem cr ml field true = ([], Raise ValueError).
Proof.
  intros Hok Hmiss. unfold GetInfoItem. cbn [negb].
  rewrite GetInfoItem_loop_eq by assumption.
  rewrite fold_info_missing by exact Hmiss. reflexivity.
Qed.

(** With a participant, [GetInfoItem] returns or raises [ValueError]. *)
Lemma GetInfoItem_raises cr ml field fail :
  group_ok cr ml -> (exists i, ml !! i = Some true) ->
  raises_in (fun e => e = ValueError /\ fail = true /\
                      missing_in (participants cr ml) field)
    (GetInfoItem cr ml field fail).
Proof.
  intros Hok Hex. destruct fail; [|intros e; discriminate].
  destruct (decide (Forall (fun ir => is_Some (info (snd ir) !! field))
                      (participants cr ml))) as [Hall|Hsome].
  - rewrite Forall_forall in Hall.
    assert (Hall' : forall i r, (i, r) ∈ participants cr ml -> is_Some (info r !! field)).
    { intros i r Hin. apply (Hall (i, r) Hin). }
    unfold GetInfoItem. cbn [negb].
    rewrite GetInfoItem_loop_eq by assumption.
    destruct (fold_info_present field (participants cr ml) (∅, None) Hall')
      as (a & -> & _ & Ha).
    rewrite bind_lift_ok. cbn [fst snd].
    destruct Ha as (k & rk & -> & Hk); [apply participants_nonempty; assumption|].
    destruct (size _ =? 1)%nat eqn:Hsize; [|intros e; discriminate].
    apply Nat.eqb_eq, size_1_elem_of in Hsize as [z Hz].
    destruct (elements _) as [|x xs] eqn:Hel; [|intros e; discriminate].
    apply elements_empty_inv in Hel. rewrite Hel in Hz. set_solver.
  - apply not_Forall_Exists in Hsome; [|intros x; apply _].
    apply Exists_exists in Hsome as ([i r] & Hin & Hnone). simpl in Hnone.
    assert (Hmiss : missing_in (participants cr ml) field).
    { exists i, r. split; [exact Hin|]. destruct (info r !! field); [|reflexivity].
      exfalso. apply Hnone. eauto. }
    rewrite GetInfoItem_missing by assumption.
    intros e [= <-]. auto.
Qed.

(** ** The INFO loop of MergeRecords *)

Lemma MergeRecords_info_item_cases cr ml fr first :
  group_ok cr ml -> (exists i, ml !! i = Some true) ->
  (snd (MergeRecords_info_item cr ml fr first) = Raise ValueError /\
   snd fr = true /\ missing_in (participants cr ml) (fst fr)) \/
  (exists first', snd (MergeRecords_info_item cr ml fr first) = Ok first').
Proof.
  intros Hok Hex. unfold MergeRecords_info_item. rewrite snd_bind.
  pose proof (GetInfoItem_raises cr ml (fst fr) (snd fr) Hok Hex) as Hr.
  destruct (snd (GetInfoItem cr ml (fst fr) (snd fr))) as [[inf|]|e] eqn:Hres.
  - right. exists false. destruct first; reflexivity.
  - right. exists first. reflexivity.
  - left. destruct (Hr e Hres) as (-> & H1 & H2). auto.
Qed.

Lemma info_loop_missing cr ml useinfo i first :
  group_ok cr ml -> (exists i, ml !! i = Some true) ->
  (exists field, required_in useinfo field /\ missing_in (participants cr ml) field) ->
  snd (forM_enumerate i useinfo (fun _ fr first =>
         MergeRecords_info_item cr ml fr first) first) = Raise ValueError.
Proof.
  intros Hok Hex. unfold required_in. revert i first.
  induction useinfo as [|[f reqd] useinfo IH]; intros i first (field & Hreq & Hmiss).
  - inversion Hreq.
  - cbn [forM_enumerate]. rewrite snd_bind.
    destruct (MergeRecords_info_item_cases cr ml (f, reqd) first Hok Hex)
      as [(-> & _)|[first' Hres]]; [reflexivity|].
    rewrite Hres. apply IH.
    apply elem_of_cons in Hreq as [Heq|Hreq]; [|eauto].
    injection Heq as <- <-. exfalso. revert Hres.
    unfold MergeRecords_info_item. cbn [fst snd].
    rewrite GetInfoItem_missing by assumption. discriminate.
Qed.

Lemma info_loop_present cr ml useinfo i first :
  group_ok cr ml -> (exists i, ml !! i = Some true) ->
  (forall field, required_in useinfo field -> ~ missing_in (participants cr ml) field) ->
  exists first',
    snd (forM_enumerate i useinfo (fun _ fr first =>
           MergeRecords_info_item cr ml fr first) first) = Ok first'.
Proof.
  intros Hok Hex. unfold required_in. revert i first.
  induction useinfo as [|[f reqd] useinfo IH]; intros i first Hpres.
  - exists first. reflexivity.
  - cbn [forM_enumerate]. rewrite snd_bind.
    destruct (MergeRecords_info_item_cases cr ml (f, reqd) first Hok Hex)
      as [(_ & Hreqd & Hmiss)|[first' ->]].
    + simpl in Hreqd, Hmiss. subst reqd. exfalso. apply (Hpres f); [left | exact Hmiss].
    + apply IH. intros field Hin. apply Hpres. right. exact Hin.
Qed.

Lemma info_loop_writes cr ml useinfo i first field v :
  group_ok cr ml -> (exists i, ml !! i = Some true) ->
  (forall f, required_in useinfo f -> ~ missing_in (participants cr ml) f) ->
  required_in useinfo field ->
  (forall i r, (i, r) ∈ participants cr ml -> info r !! field = Some v) ->
  VcfWrite (field +:+ "=" +:+ v)
  ∈ fst (forM_enumerate i useinfo (fun _ fr first =>
           MergeRecords_info_item cr ml fr first) first).
Proof.
  intros Hok Hex. unfold required_in. revert i first.
  induction useinfo as [|[f reqd] useinfo IH]; intros i first Hpres Hreq Hall.
  - inversion Hreq.
  - cbn [forM_enumerate]. rewrite fst_bind.
    assert (Hrest : forall f', (f', true) ∈ useinfo ->
                               ~ missing_in (participants cr ml) f').
    { intros f' Hin. apply Hpres. right. exact Hin. }
    apply elem_of_cons in Hreq as [Heq|Hreq].
    + injection Heq as <- <-.
      assert (Hitem : MergeRecords_info_item cr ml (field, true) first
                      = ((if negb first then [VcfWrite ";"] else [])
                           ++ [VcfWrite (field +:+ "=" +:+ v)], Ok false)).
      { unfold MergeRecords_info_item. cbn [fst snd].
        rewrite (GetInfoItem_same cr ml field v Hok Hex Hall), bind_nil_ok.
        destruct first; reflexivity. }
      rewrite Hitem. cbn [fst snd]. apply elem_of_app. left.
      apply elem_of_app. right. left.
    + destruct (MergeRecords_info_item_cases cr ml (f, reqd) first Hok Hex)
        as [(_ & Hreqd & Hmiss)|[first' ->]].
      * simpl in Hreqd, Hmiss. subst reqd. exfalso.
        apply (Hpres f); [left | exact Hmiss].
      * apply elem_of_app. right. apply IH; assumption.
Qed.

(** ** The shape of an emitted record *)

Lemma MergeRecords_shape set_iter pyfloat sort_floats vcftype num_samples cr ml useinfo
    useformat format_type trim ref out maps :
  group_ok cr ml -> (exists i, ml !! i = Some true) ->
  GetRefAllele cr ml trim = Ok (Some ref) ->
  GetAltAlleles set_iter pyfloat sort_floats cr ml vcftype false = Ok (out, maps) ->
  exists i0 r0 rest,
    participants cr ml = (i0, r0) :: rest /\
    MergeRecords set_iter pyfloat sort_floats vcftype num_samples cr ml useinfo useformat
      format_type trim
    = bind (fixed_columns r0 ref out, Ok tt) (fun _ =>
        MergeRecords_info cr ml useinfo ;;;
        write tab ;;;
        write (join ":" ("GT" :: useformat)) ;;;
        MergeRecords_samples num_samples cr ml (ref :: out) useformat
          format_type maps ;;;
        write newline).
Proof.
  intros Hok Hex Href Ham.
  destruct (MergeRecords_first set_iter pyfloat sort_floats vcftype num_samples cr ml
              useinfo useformat format_type trim Hok Hex)
    as (i0 & r0 & rest0 & Hp & HM).
  exists i0, r0, rest0. split; [exact Hp|].
  rewrite HM, Href, bind_lift_ok, Ham, bind_lift_ok. cbn [fst snd].
  unfold fixed_columns.
  destruct (0 <? length out)%nat; rewrite !bind_pair; reflexivity.
Qed.

(** C7, as the code has it. For a required INFO field of a group with a
    participant: when all participants carry it with one value,
    [GetInfoItem] gives [name=value], which [MergeRecords] writes; when
    they carry different values, [GetInfoItem] warns and gives nothing,
    and the INFO loop goes on; when a participant does not carry it,
    [GetInfoItem] raises [ValueError], which nothing catches:
    [MergeRecords] raises it after the columns up to INFO, with the
    FORMAT column, the samples and the end of line unwritten, and the
    walk of [main] ends there. *)
Theorem C7_required_info_fields set_iter pyfloat sort_floats vcftype num_samples cr ml
    useinfo useformat format_type trim ref out maps :
  group_ok cr ml -> (exists i, ml !! i = Some true) ->
  GetRefAllele cr ml trim = Ok (Some ref) ->
  GetAltAlleles set_iter pyfloat sort_floats cr ml vcftype false = Ok (out, maps) ->
  let run := MergeRecords set_iter pyfloat sort_floats vcftype num_samples cr ml useinfo
               useformat format_type trim in
  (* identical values *)
  (forall field v,
     (forall i r, (i, r) ∈ participants cr ml -> info r !! field = Some v) ->
     GetInfoItem cr ml field true = ([], Ok (Some (field +:+ "=" +:+ v))) /\
     (required_in useinfo field ->
      (forall f, required_in useinfo f -> ~ missing_in (participants cr ml) f) ->
      VcfWrite (field +:+ "=" +:+ v) ∈ fst run)) /\
  (* different values *)
  (forall field,
     (forall i r, (i, r) ∈ participants cr ml -> is_Some (info r !! field)) ->
     (exists i r j r', (i, r) ∈ participants cr ml /\ (j, r') ∈ participants cr ml /\
                       info r !! field <> info r' !! field) ->
     exists vals c p,
       GetInfoItem cr ml field true
       = ([Warning (IncompatibleInfo vals field c p)], Ok None)) /\
  (* no required field missing: the INFO loop ends and the samples follow *)
  ((forall f, required_in useinfo f -> ~ missing_in (participants cr ml) f) ->
   (exists first, snd (MergeRecords_info cr ml useinfo) = Ok first) /\
   snd run = snd (MergeRecords_samples num_samples cr ml (ref :: out) useformat
                    format_type maps ;;; write newline)) /\
  (* a required field missing *)
  (forall field,
     missing_in (participants cr ml) field ->
     GetInfoItem cr ml field true = ([], Raise ValueError) /\
     (required_in useinfo field ->
      snd run = Raise ValueError /\
      (exists r0, fst run = fixed_columns r0 ref out
                            ++ fst (MergeRecords_info cr ml useinfo)) /\
      forall rest,
        main_walk set_iter pyfloat sort_floats vcftype num_samples useinfo useformat
          format_type trim (Yield cr ml :: rest) = (fst run, Raise ValueError))).
Proof.
  intros Hok Hex Href Ham run.
  destruct (MergeRecords_shape set_iter pyfloat sort_floats vcftype num_samples cr ml useinfo
              useformat format_type trim ref out maps Hok Hex Href Ham)
    as (i0 & r0 & rest0 & Hp & Hshape).
  fold run in Hshape.
  split; [|split; [|split]].
  - intros field v Hall. split; [apply GetInfoItem_same; assumption|].
    intros Hreq Hpres. rewrite Hshape, fst_bind. cbn [fst snd].
    apply elem_of_app. right. rewrite fst_bind.
    destruct (snd (MergeRecords_info cr ml useinfo)) eqn:Hs.
    + apply elem_of_app. left. apply info_loop_writes; assumption.
    + apply info_loop_writes; assumption.
  - intros field Hall Hdiff. apply GetInfoItem_differ; assumption.
  - intros Hpres.
    destruct (info_loop_present cr ml useinfo 0 true Hok Hex Hpres) as [first Hfirst].
    split; [exists first; exact Hfirst|].
    rewrite Hshape, snd_bind. cbn [fst snd]. rewrite snd_bind.
    unfold MergeRecords_info. rewrite Hfirst.
    rewrite !snd_bind. reflexivity.
  - intros field Hmiss. split; [apply GetInfoItem_missing; assumption|].
    intros Hreq.
    assert (Hinfo : snd (MergeRecords_info cr ml useinfo) = Raise ValueError).
    { apply info_loop_missing; eauto. }
    assert (Hsnd : snd run = Raise ValueError).
    { rewrite Hshape, snd_bind. cbn [fst snd]. rewrite snd_bind, Hinfo. reflexivity. }
    split; [exact Hsnd|]. split.
    + exists r0. rewrite Hshape, fst_bind. cbn [fst snd]. rewrite fst_bind, Hinfo.
      reflexivity.
    + intros rest. cbn [main_walk]. rewrite bind_pair. fold run. rewrite Hsnd.
      reflexivity.
Qed.

(** ** Counting the sample columns *)

Lemma count_tabs_app s1 s2 :
  count_tabs (s1 +:+ s2) = (count_tabs s1 + count_tabs s2)%nat.
Proof. induction s1 as [|c s1 IH]; simpl; [reflexivity|]. rewrite IH. lia. Qed.

Lemma count_tabs_join sep l :
  count_tabs sep = 0%nat ->
  count_tabs (join sep l) = sum_list (count_tabs <$> l).
Proof.
  intros Hsep. unfold join. induction l as [|x [|y l] IH]; simpl in *.
  - reflexivity.
  - lia.
  - rewrite !count_tabs_app, Hsep, IH. simpl. lia.
Qed.

Lemma count_tabs_join_tab l :
  (forall x, x ∈ l -> count_tabs x = 0%nat) ->
  count_tabs (join tab l) = (length l - 1)%nat.
Proof.
  unfold join. induction l as [|x [|y l] IH]; intros Hall; simpl in *.
  - reflexivity.
  - rewrite (Hall x) by left. reflexivity.
  - rewrite !count_tabs_app, IH, (Hall x) by (try left; intros z Hz; apply Hall; right; exact Hz).
    simpl. lia.
Qed.

Lemma pretty_N_go_no_tab x s : count_tabs (pretty_N_go x s) = count_tabs s.
Proof.
  revert s. induction (N.lt_wf_0 x) as [x _ IH]; intros s.
  destruct (decide (x = 0)%N) as [->|Hx]; [reflexivity|].
  rewrite pretty_N_go_step by lia. rewrite IH by (apply N.div_lt; lia).
  simpl. assert (H : (x `mod` 10 < 10)%N) by (apply N.mod_lt; lia).
  destruct (x `mod` 10)%N as [|p]; [reflexivity|].
  do 4 (destruct p as [p|p|]; try reflexivity; try lia).
Qed.

Lemma str_nat_no_tab n : count_tabs (str_nat n) = 0%nat.
Proof.
  unfold str_nat, pretty, pretty_nat, pretty, pretty_N.
  destruct (decide _); [reflexivity|]. apply pretty_N_go_no_tab.
Qed.

Lemma tabs_written_app l1 l2 :
  tabs_written (l1 ++ l2) = (tabs_written l1 + tabs_written l2)%nat.
Proof. unfold tabs_written. rewrite written_app, fmap_app, sum_list_with_app. reflexivity. Qed.

Lemma tabs_written_cons_write s l :
  tabs_written (VcfWrite s :: l) = (count_tabs s + tabs_written l)%nat.
Proof. reflexivity. Qed.

Lemma append_empty_r s : s +:+ EmptyString = s.
Proof.
  induction s as [|c s IH]; [reflexivity|].
  change (String c (s +:+ EmptyString) = String c s). congruence.
Qed.

Lemma append_assoc_string s1 s2 s3 : (s1 +:+ s2) +:+ s3 = s1 +:+ (s2 +:+ s3).
Proof.
  induction s1 as [|c s1 IH]; [reflexivity|].
  change (String c ((s1 +:+ s2) +:+ s3) = String c (s1 +:+ (s2 +:+ s3))). congruence.
Qed.

Lemma concat_empty_cons x l : String.concat EmptyString (x :: l) = x +:+ String.concat EmptyString l.
Proof. destruct l; simpl; [rewrite append_empty_r|]; reflexivity. Qed.

Lemma concat_empty_app l1 l2 :
  String.concat EmptyString (l1 ++ l2) = String.concat EmptyString l1 +:+ String.concat EmptyString l2.
Proof.
  induction l1 as [|x l1 IH]; [reflexivity|].
  rewrite <- app_comm_cons, !concat_empty_cons, IH, append_assoc_string. reflexivity.
Qed.

Lemma text_written_app l1 l2 :
  text_written (l1 ++ l2) = text_written l1 +:+ text_written l2.
Proof. unfold text_written. rewrite written_app. apply concat_empty_app. Qed.

(** A loop's log is the sequence of the logs of its turns. *)
Lemma forM_from_sections {St} (Inv : St -> Prop) (P : nat -> list event -> Prop)
    (body : nat -> St -> M St) :
  (forall j s l s1, Inv s -> body j s = (l, Ok s1) -> Inv s1 /\ P j l) ->
  forall n i s log s', Inv s -> forM_from i n body s = (log, Ok s') ->
    exists secs, length secs = n /\ log = concat secs /\
                 forall k sec, secs !! k = Some sec -> P (i + k)%nat sec.
Proof.
  intros Hbody. induction n as [|n IH]; intros i s log s' Hinv; simpl.
  - intros [= <- <-]. exists []. split; [reflexivity|]. split; [reflexivity|].
    intros k sec Hk. inversion Hk.
  - rewrite bind_pair. destruct (body i s) as [l1 [s1|e]] eqn:Hb; simpl; [|discriminate].
    destruct (forM_from (S i) n body s1) as [l2 r2] eqn:Hrest. simpl.
    intros [= <- ->]. destruct (Hbody i s l1 s1 Hinv Hb) as [Hinv1 HP].
    destruct (IH (S i) s1 l2 s' Hinv1 Hrest) as (secs & Hlen & -> & Hsecs).
    exists (l1 :: secs). split; [simpl; lia|]. split; [reflexivity|].
    intros [|k] sec Hk; simpl in Hk.
    + injection Hk as <-. rewrite Nat.add_0_r. exact HP.
    + replace (i + S k)%nat with (S i + k)%nat by lia. apply Hsecs, Hk.
Qed.

Lemma forM_enumerate_tabs {A St} (body : nat -> A -> St -> M St) (l : list A) :
  (forall j a s log s1, body j a s = (log, Ok s1) -> tabs_written log = 0%nat) ->
  forall i s log s', forM_enumerate i l body s = (log, Ok s') ->
    tabs_written log = 0%nat.
Proof.
  intros Hbody. induction l as [|a l IH]; intros i s log s'; simpl.
  - intros [= <- <-]. reflexivity.
  - rewrite bind_pair. destruct (body i a s) as [l1 [s1|e]] eqn:Hb; simpl; [|discriminate].
    destruct (forM_enumerate (S i) l body s1) as [l2 r2] eqn:Hrest. simpl.
    intros [= <- ->]. rewrite tabs_written_app, (Hbody _ _ _ _ _ Hb), (IH _ _ _ _ Hrest).
    reflexivity.
Qed.

Lemma sum_no_tab (l : list string) :
  Forall (fun s => count_tabs s = 0%nat) l -> sum_list (count_tabs <$> l) = 0%nat.
Proof.
  induction 1 as [|x l Hx Hl IH]; [reflexivity|].
  rewrite fmap_cons. simpl. rewrite Hx. apply IH.
Qed.

Lemma tabs_written_concat (secs : list (list event)) n :
  (forall sec, sec ∈ secs -> tabs_written sec = n) ->
  tabs_written (concat secs) = (length secs * n)%nat.
Proof.
  induction secs as [|sec secs IH]; intros Hall; simpl; [reflexivity|].
  rewrite tabs_written_app, (Hall sec) by left. rewrite IH; [reflexivity|].
  intros s Hs. apply Hall. right. exact Hs.
Qed.

Lemma take_index_elem mapping g a : take_index mapping g = Ok a -> a ∈ mapping.
Proof.
  unfold take_index, getitem.
  destruct (_ && _).
  - destruct (mapping !! Z.to_nat g) eqn:H; [|discriminate].
    intros [= <-]. eapply list_elem_of_lookup_2, H.
  - destruct (_ && _); [|discriminate].
    destruct (mapping !! _) eqn:H; [|discriminate].
    intros [= <-]. eapply list_elem_of_lookup_2, H.
Qed.

Lemma genotype_strings_no_tab mapping gts i acc gt :
  Forall (fun s => count_tabs s = 0%nat) mapping ->
  Forall (fun s => count_tabs s = 0%nat) acc ->
  for_enumerate i gts (fun (_ : nat) g acc =>
     a <~ take_index mapping g ;; Ok (acc ++ [a])) acc = Ok gt ->
  Forall (fun s => count_tabs s = 0%nat) gt.
Proof.
  intros Hm. revert i acc. induction gts as [|g gts IH]; intros i acc Hacc; simpl.
  - intros [= <-]. exact Hacc.
  - destruct (take_index mapping g) as [a|e] eqn:Ha; simpl; [|discriminate].
    apply IH. apply Forall_app. split; [exact Hacc|].
    constructor; [|constructor].
    rewrite Forall_forall in Hm. apply Hm. eapply take_index_elem, Ha.
Qed.

Lemma format_array_for_no_tab r ty fmt arr :
  record_no_tab r -> format_array_for r ty fmt = Ok arr -> array_no_tab arr.
Proof.
  intros Hr. unfold format_array_for.
  destruct (format r !! fmt) as [arr0|] eqn:Hf; [|discriminate].
  pose proof (Hr fmt arr0 Hf) as H0.
  destruct (String.eqb ty "String"); [intros [= <-]; exact H0|].
  destruct (String.eqb ty "Float"); [|intros [= <-]; exact H0].
  destruct arr0 as [cells|rows]; [discriminate|]. intros [= <-].
  simpl in *. rewrite Forall_forall in *. intros row Hrow.
  apply list_elem_of_fmap in Hrow as (row0 & -> & Hrow0).
  specialize (H0 row0 Hrow0). rewrite Forall_forall in *.
  intros c Hc. apply list_elem_of_fmap in Hc as (c0 & -> & Hc0). simpl.
  unfold render_float. destruct (is_nan c0); [reflexivity | apply H0, Hc0].
Qed.

Lemma WriteSampleData_formats_no_tab r formats format_type fa :
  record_no_tab r ->
  WriteSampleData_formats r formats format_type = Ok fa ->
  forall fmt arr, fa !! fmt = Some arr -> array_no_tab arr.
Proof.
  intros Hr. unfold WriteSampleData_formats.
  assert (H : forall i (acc : gmap string FormatArray),
    (forall fmt arr, acc !! fmt = Some arr -> array_no_tab arr) ->
    for_enumerate i formats (fun format_idx fmt format_arrays =>
      ty <~ getitem format_type format_idx ;;
      arr <~ format_array_for r ty fmt ;;
      Ok (<[fmt := arr]> format_arrays)) acc = Ok fa ->
    forall fmt arr, fa !! fmt = Some arr -> array_no_tab arr).
  { induction formats as [|f formats IH]; intros i acc Hacc; simpl.
    - intros [= <-]. exact Hacc.
    - destruct (getitem format_type i) as [ty|e]; simpl; [|discriminate].
      destruct (format_array_for r ty f) as [arr|e] eqn:Harr; simpl; [|discriminate].
      apply IH. intros fmt arr'. rewrite lookup_insert.
      destruct (decide (f = fmt)); [|apply Hacc].
      intros [= <-]. eapply format_array_for_no_tab; eassumption. }
  apply H. intros fmt arr Hl. rewrite lookup_empty in Hl. discriminate.
Qed.

Lemma WriteSampleData_cell_no_tab fa ty fmt sample_idx cell :
  (forall fmt arr, fa !! fmt = Some arr -> array_no_tab arr) ->
  WriteSampleData_cell fa ty fmt sample_idx = Ok cell ->
  count_tabs cell = 0%nat.
Proof.
  intros Hfa. unfold WriteSampleData_cell.
  destruct (fa !! fmt) as [arr|] eqn:Hl; [|discriminate].
  pose proof (Hfa fmt arr Hl) as Harr.
  destruct (String.eqb ty "String"); destruct arr as [cells|rows]; try discriminate;
    simpl in Harr; unfold getitem.
  - destruct (cells !! sample_idx) as [c|] eqn:Hc; [|discriminate]. intros [= <-].
    rewrite Forall_forall in Harr. eapply Harr, list_elem_of_lookup_2, Hc.
  - destruct (rows !! sample_idx) as [row|] eqn:Hrow; [|discriminate]. simpl.
    intros [= <-]. rewrite count_tabs_join by reflexivity.
    rewrite Forall_forall in Harr.
    pose proof (Harr row (list_elem_of_lookup_2 _ _ _ Hrow)) as Hr.
    clear Hrow. induction Hr as [|c row Hc Hr IH]; [reflexivity|].
    rewrite !fmap_cons. simpl. rewrite Hc. apply IH.
Qed.

(** One tab per sample of the record. *)
Lemma WriteSampleData_tabs r alleles formats format_type mapping log :
  Forall (fun s => count_tabs s = 0%nat) mapping ->
  record_no_tab r ->
  WriteSampleData r alleles formats format_type mapping = (log, Ok tt) ->
  tabs_written log = length (genotypes r).
Proof.
  intros Hm Hr. unfold WriteSampleData.
  destruct (bool_decide _); [discriminate|].
  destruct (WriteSampleData_formats r formats format_type) as [fa|e] eqn:Hfa;
    [|discriminate].
  rewrite bind_lift_ok. unfold forM_range. intros Hloop.
  pose proof (WriteSampleData_formats_no_tab r formats format_type fa Hr Hfa) as Hfa'.
  match type of Hloop with
  | forM_from _ _ ?b _ = _ =>
      assert (Hbody : forall j (s : unit) l (s1 : unit),
                (fun _ : unit => True) s -> b j s = (l, Ok s1) ->
                (fun _ : unit => True) s1 /\
                (fun (_ : nat) l => tabs_written l = 1%nat) j l)
  end.
  2: destruct (forM_from_sections _ _ _ Hbody _ _ _ _ _ I Hloop)
       as (secs & Hlen & -> & Hsecs).
  - intros j [] l [] _. rewrite bind_write.
    destruct (getitem (genotypes r) j) as [row|e];
      [|rewrite bind_lift_raise; discriminate].
    rewrite bind_lift_ok.
    destruct (not_called (fst row)).
    { intros [= <-]. split; [exact I | reflexivity]. }
    destruct (for_enumerate 0 (fst row) _ []) as [gt|e] eqn:Hgt;
      [|rewrite bind_lift_raise; discriminate].
    rewrite bind_lift_ok, bind_write. cbn [fst snd].
    assert (Hjoin : count_tabs (join (phase_char (snd row)) gt) = 0%nat).
    { rewrite count_tabs_join by (destruct (snd row); reflexivity).
      apply sum_no_tab.
      exact (genotype_strings_no_tab mapping (fst row) 0 [] gt Hm (Forall_nil_2 _) Hgt). }
    destruct (forM_enumerate 0 formats _ tt) as [l2 [[]|e]] eqn:Hfmt; cbn [fst snd];
      [|discriminate].
    intros [= <-]. split; [exact I|].
    rewrite !tabs_written_cons_write, Hjoin. simpl. f_equal.
    eapply forM_enumerate_tabs; [|exact Hfmt].
    intros k fmt [] lg []. rewrite bind_write.
    destruct (getitem format_type k) as [ty|e];
      [|rewrite bind_lift_raise; discriminate].
    rewrite bind_lift_ok.
    destruct (WriteSampleData_cell fa ty fmt j) as [cell|e] eqn:Hcell;
      [|rewrite bind_lift_raise; discriminate].
    rewrite bind_lift_ok. cbn [write fst snd]. intros [= <-].
    rewrite !tabs_written_cons_write.
    rewrite (WriteSampleData_cell_no_tab fa ty fmt j cell Hfa' Hcell). reflexivity.
  - rewrite (tabs_written_concat secs 1); [lia|].
    intros sec Hsec. apply list_elem_of_lookup in Hsec as [k Hk].
    eapply Hsecs, Hk.
Qed.

Lemma nocall_text n :
  (0 < n)%nat ->
  tab +:+ join tab (replicate n NOCALLSTRING)
  = String.concat EmptyString (replicate n (tab +:+ NOCALLSTRING)).
Proof.
  intros Hn. destruct n as [|n]; [lia|]. clear Hn.
  induction n as [|n IH]; [reflexivity|].
  change (replicate (S (S n)) NOCALLSTRING)
    with (NOCALLSTRING :: replicate (S n) NOCALLSTRING).
  change (replicate (S (S n)) (tab +:+ NOCALLSTRING))
    with ((tab +:+ NOCALLSTRING) :: replicate (S n) (tab +:+ NOCALLSTRING)).
  rewrite concat_empty_cons, <- IH.
  unfold join. change (replicate (S n) NOCALLSTRING)
    with (NOCALLSTRING :: replicate n NOCALLSTRING).
  cbn [String.concat]. rewrite !append_assoc_string. reflexivity.
Qed.

Lemma nocall_tabs n :
  (0 < n)%nat -> count_tabs (join tab (replicate n NOCALLSTRING)) = (n - 1)%nat.
Proof.
  intros Hn. rewrite count_tabs_join_tab, length_replicate; [reflexivity|].
  intros x Hx. apply elem_of_replicate in Hx as [-> _]. reflexivity.
Qed.

Lemma GetAltAlleles_mapping_no_tab out ralts m :
  GetAltAlleles_mapping out ralts = Ok m -> Forall (fun s => count_tabs s = 0%nat) m.
Proof.
  unfold GetAltAlleles_mapping.
  destruct (for_enumerate 0 ralts _ []) as [idxs|e]; cbn [rbind]; [|discriminate].
  intros [= <-]. apply Forall_forall. intros x Hx.
  change (x ∈ str_nat <$> (0%nat :: idxs)) in Hx.
  apply list_elem_of_fmap in Hx as (n & -> & _). apply str_nat_no_tab.
Qed.

(** The sample loop of [MergeRecords], source by source. *)
Lemma MergeRecords_samples_sections num_samples cr ml alleles useformat
    format_type maps log rest :
  group_ok cr ml ->
  (forall i r, (i, r) ∈ participants cr ml ->
     num_samples !! i = Some (length (genotypes r)) /\ record_no_tab r) ->
  Forall (Forall (fun s => count_tabs s = 0%nat)) maps ->
  MergeRecords_samples num_samples cr ml alleles useformat format_type maps
  = (log, Ok rest) ->
  exists secs, length secs = length ml /\ log = concat secs /\
    forall k sec, secs !! k = Some sec -> source_columns num_samples ml k sec.
Proof.
  intros Hok Hrows Hmaps. unfold MergeRecords_samples, forM_range. intros Hloop.
  match type of Hloop with
  | forM_from _ _ ?b _ = _ =>
      assert (Hbody : forall j (s : list (list string)) l s1,
                Forall (Forall (fun s => count_tabs s = 0%nat)) s ->
                b j s = (l, Ok s1) ->
                Forall (Forall (fun s => count_tabs s = 0%nat)) s1 /\
                source_columns num_samples ml j l)
  end.
  - intros j s l s1 Hs.
    destruct (ml !! j) as [[|]|] eqn:Hm; cbn [default from_option id].
    + destruct (Hok j Hm) as [r Hr]. unfold record_at. rewrite Hr, bind_lift_ok.
      destruct s as [|m s]; [discriminate|].
      apply Forall_cons in Hs as [Hmno Hs].
      rewrite bind_pair.
      destruct (WriteSampleData r alleles useformat format_type m) as [lw [[]|e]] eqn:Hw;
        cbn [fst snd ret]; [|discriminate].
      rewrite app_nil_r. intros [= <- <-]. split; [exact Hs|].
      destruct (Hrows j r) as [Hn Hno]; [apply participants_spec; auto|].
      exists (length (genotypes r)). split; [exact Hn|].
      split; [|intros Hf; congruence].
      eapply WriteSampleData_tabs; eassumption.
    + unfold getitem. destruct (num_samples !! j) as [n|] eqn:Hn;
        [|rewrite bind_lift_raise; discriminate].
      rewrite bind_lift_ok.
      destruct (Nat.ltb_spec 0 n) as [Hpos|Hzero].
      * rewrite !bind_assoc, !bind_write. cbn [fst snd ret].
        intros [= <- <-]. split; [exact Hs|]. exists n. split; [exact Hn|]. split.
        -- rewrite !tabs_written_cons_write, nocall_tabs by exact Hpos.
           change (tabs_written []) with 0%nat. simpl count_tabs. lia.
        -- intros _. unfold text_written. cbn [written]. rewrite !concat_empty_cons.
           cbn [String.concat]. rewrite append_empty_r. apply nocall_text, Hpos.
      * rewrite !bind_ret_l. intros [= <- <-]. split; [exact Hs|].
        exists n. split; [exact Hn|]. assert (n = 0%nat) as -> by lia.
        split; [reflexivity|]. intros _. reflexivity.
    + unfold getitem. destruct (num_samples !! j) as [n|] eqn:Hn;
        [|rewrite bind_lift_raise; discriminate].
      rewrite bind_lift_ok.
      destruct (Nat.ltb_spec 0 n) as [Hpos|Hzero].
      * rewrite !bind_assoc, !bind_write. cbn [fst snd ret].
        intros [= <- <-]. split; [exact Hs|]. exists n. split; [exact Hn|]. split.
        -- rewrite !tabs_written_cons_write, nocall_tabs by exact Hpos.
           change (tabs_written []) with 0%nat. simpl count_tabs. lia.
        -- intros Hf; congruence.
      * rewrite !bind_ret_l. intros [= <- <-]. split; [exact Hs|].
        exists n. split; [exact Hn|]. assert (n = 0%nat) as -> by lia.
        split; [reflexivity|]. intros Hf; congruence.
  - destruct (forM_from_sections _ _ _ Hbody _ _ _ _ _ Hmaps Hloop)
      as (secs & Hlen & -> & Hsecs).
    exists secs. split; [exact Hlen|]. split; [reflexivity|]. exact Hsecs.
Qed.

Lemma tabs_written_sections (secs : list (list event)) (ns : list nat) :
  Forall2 (fun sec n => tabs_written sec = n) secs ns ->
  tabs_written (concat secs) = sum_list ns.
Proof.
  induction 1 as [|sec n secs ns Hn HF IH]; [reflexivity|].
  simpl. rewrite tabs_written_app, Hn, IH. reflexivity.
Qed.

(** C6. In a record that [MergeRecords] emits, what follows the FORMAT
    column is one section per source, in source order; the section of a
    source that declares [n] samples holds [n] tab-led columns, whether
    the source takes part or not, and for a source that does not take
    part those are [n] no-calls "."; so the number of sample columns is
    the sum of the declared sample counts. The declared count of a
    participating source is the number of rows of its genotype array,
    and no cell of a record holds a tab. *)
Theorem C6_sample_columns set_iter pyfloat sort_floats vcftype num_samples cr ml useinfo
    useformat format_type trim ref log :
  group_ok cr ml -> (exists i, ml !! i = Some true) ->
  length num_samples = length ml ->
  (forall i r, (i, r) ∈ participants cr ml ->
     num_samples !! i = Some (length (genotypes r)) /\ record_no_tab r) ->
  GetRefAllele cr ml trim = Ok (Some ref) ->
  MergeRecords set_iter pyfloat sort_floats vcftype num_samples cr ml useinfo useformat
    format_type trim = (log, Ok tt) ->
  exists r0 out secs,
    log = fixed_columns r0 ref out
          ++ fst (MergeRecords_info cr ml useinfo)
          ++ [VcfWrite tab; VcfWrite (join ":" ("GT" :: useformat))]
          ++ concat secs ++ [VcfWrite newline] /\
    length secs = length ml /\
    (forall k sec, secs !! k = Some sec -> source_columns num_samples ml k sec) /\
    tabs_written (concat secs) = sum_list num_samples.
Proof.
  intros Hok Hex Hlen Hrows Href HM.
  destruct (GetAltAlleles set_iter pyfloat sort_floats cr ml vcftype false) as [[out maps]|e] eqn:Ham.
  2: { destruct (MergeRecords_first set_iter pyfloat sort_floats vcftype num_samples cr ml
                   useinfo useformat format_type trim Hok Hex)
         as (i0 & r0 & rest0 & Hp & HM').
       rewrite HM', Href, bind_lift_ok, Ham in HM. discriminate. }
  destruct (MergeRecords_shape set_iter pyfloat sort_floats vcftype num_samples cr ml useinfo
              useformat format_type trim ref out maps Hok Hex Href Ham)
    as (i0 & r0 & rest0 & Hp & Hshape).
  rewrite Hshape, bind_pair in HM. cbn [fst snd] in HM.
  rewrite bind_pair in HM.
  destruct (MergeRecords_info cr ml useinfo) as [li [first|e]]; cbn [fst snd] in HM;
    [|discriminate].
  rewrite !bind_write, bind_pair in HM. cbn [fst snd] in HM.
  destruct (MergeRecords_samples num_samples cr ml (ref :: out) useformat
              format_type maps) as [ls [rest|e]] eqn:Hsamples;
    cbn [fst snd write] in HM; [|discriminate].
  apply (f_equal fst) in HM. cbn [fst] in HM. subst log.
  assert (Hmaps : Forall (Forall (fun s => count_tabs s = 0%nat)) maps).
  { destruct (GetAltAlleles_ok _ _ _ _ _ _ _ _ _ Hok Ham) as [_ HF].
    clear -HF. induction HF as [|ir m parts maps Hm HF IH]; constructor.
    - eapply GetAltAlleles_mapping_no_tab, Hm.
    - exact IH. }
  destruct (MergeRecords_samples_sections num_samples cr ml (ref :: out) useformat
              format_type maps ls rest Hok Hrows Hmaps Hsamples)
    as (secs & Hsecs_len & -> & Hsecs).
  exists r0, out, secs. split; [|split; [exact Hsecs_len|split; [exact Hsecs|]]].
  - reflexivity.
  - apply tabs_written_sections.
    apply Forall2_same_length_lookup_2; [congruence|].
    intros k sec n Hk Hn. destruct (Hsecs k sec Hk) as (n' & Hn' & Htabs & _).
    congruence.
Qed.

(** ** The cursor: advancing *)

Lemma forM_from_inv {St} (Inv : nat -> St -> Prop) (body : nat -> St -> M St) :
  forall n i s log s',
    (forall j s l s1, (i <= j < i + n)%nat -> Inv j s -> body j s = (l, Ok s1) ->
                      Inv (S j) s1) ->
    Inv i s -> forM_from i n body s = (log, Ok s') -> Inv (i + n)%nat s'.
Proof.
  induction n as [|n IH]; intros i s log s' Hbody Hinv; simpl.
  - intros [= _ <-]. rewrite Nat.add_0_r. exact Hinv.
  - rewrite bind_pair. destruct (body i s) as [l1 [s1|e]] eqn:Hb; simpl; [|discriminate].
    destruct (forM_from (S i) n body s1) as [l2 r2] eqn:Hrest. simpl.
    intros [= _ ->]. replace (i + S n)%nat with (S i + n)%nat by lia.
    eapply IH; [| |exact Hrest].
    + intros j s2 l s3 Hj. apply Hbody. lia.
    + eapply Hbody; [|exact Hinv|exact Hb]. lia.
Qed.

Lemma forM_from_raises_inv {St} (Inv : nat -> St -> Prop) (P : exn -> Prop)
    (body : nat -> St -> M St) :
  forall n i s,
    (forall j s, (i <= j < i + n)%nat -> Inv j s ->
       raises_in P (body j s) /\
       forall l s1, body j s = (l, Ok s1) -> Inv (S j) s1) ->
    Inv i s -> raises_in P (forM_from i n body s).
Proof.
  induction n as [|n IH]; intros i s Hbody Hinv; simpl.
  - apply raises_in_ret.
  - destruct (Hbody i s) as [Hr Hok]; [lia|exact Hinv|].
    intros e. rewrite snd_bind.
    destruct (body i s) as [l [s1|e']] eqn:Hb; cbn [snd].
    + apply IH; [|eapply Hok; reflexivity].
      intros j s2 Hj. apply Hbody. lia.
    + intros [= <-]. apply (Hr e'). reflexivity.
Qed.

Lemma for_from_inv {St} (Inv : nat -> St -> Prop) (body : nat -> St -> result St) :
  forall n i s s',
    (forall j s s1, (i <= j < i + n)%nat -> Inv j s -> body j s = Ok s1 ->
                    Inv (S j) s1) ->
    Inv i s -> for_from i n body s = Ok s' -> Inv (i + n)%nat s'.
Proof.
  induction n as [|n IH]; intros i s s' Hbody Hinv; simpl.
  - intros [= <-]. rewrite Nat.add_0_r. exact Hinv.
  - destruct (body i s) as [s1|e] eqn:Hb; [|discriminate].
    intros Hrest. replace (i + S n)%nat with (S i + n)%nat by lia.
    eapply IH; [| |exact Hrest].
    + intros j s2 s3 Hj. apply Hbody. lia.
    + eapply Hbody; [|exact Hinv|exact Hb]. lia.
Qed.

Lemma for_from_raises_inv {St} (Inv : nat -> St -> Prop) (P : exn -> Prop)
    (body : nat -> St -> result St) :
  forall n i s,
    (forall j s, (i <= j < i + n)%nat -> Inv j s ->
       rraises_in P (body j s) /\
       forall s1, body j s = Ok s1 -> Inv (S j) s1) ->
    Inv i s -> rraises_in P (for_from i n body s).
Proof.
  induction n as [|n IH]; intros i s Hbody Hinv; simpl.
  - apply rraises_in_ok.
  - destruct (Hbody i s) as [Hr Hok]; [lia|exact Hinv|].
    destruct (body i s) as [s1|e'] eqn:Hb.
    + apply IH; [|apply Hok; reflexivity].
      intros j s2 Hj. apply Hbody. lia.
    + intros e [= <-]. apply (Hr e'). reflexivity.
Qed.

Lemma slot_at_Some st idx s :
  slot_at st idx = Some s <->
  readers st !! idx = Some (fst (fst s)) /\
  records st !! idx = Some (snd (fst s)) /\
  is_min st !! idx = Some (snd s).
Proof.
  unfold slot_at. destruct s as [[rd rc] f]. simpl.
  destruct (readers st !! idx), (records st !! idx), (is_min st !! idx);
    split; try discriminate; try (intros (H1 & H2 & H3); discriminate).
  - intros [= -> -> ->]. auto.
  - intros ([= ->] & [= ->] & [= ->]). reflexivity.
Qed.

Lemma slot_at_lt st idx :
  cursor_lengths st -> (idx < length (readers st))%nat -> is_Some (slot_at st idx).
Proof.
  intros [H1 H2] Hlt. unfold slot_at.
  destruct (lookup_lt_is_Some_2 (readers st) idx Hlt) as [a ->].
  destruct (lookup_lt_is_Some_2 (records st) idx) as [b ->]; [lia|].
  destruct (lookup_lt_is_Some_2 (is_min st) idx) as [c ->]; [lia|].
  eauto.
Qed.

Lemma slot_at_Some_lt st idx s :
  slot_at st idx = Some s -> (idx < length (readers st))%nat.
Proof. intros H. apply slot_at_Some in H as [H _]. eapply lookup_lt_Some, H. Qed.

Lemma advance_body_ok chroms j st l st1 :
  cursor_lengths st ->
  (m <- lift (getitem (is_min st) j) ;;
   if (m : bool) then
     reader <- lift (getitem (readers st) j) ;;
     record <- lift (getitem (records st) j) ;;
     rr <- _next_assert_order reader record chroms j ;;
     ret {| readers := <[j := fst rr]> (readers st);
            records := <[j := snd rr]> (records st);
            is_min := <[j := false]> (is_min st);
            curr_chrom_idx := curr_chrom_idx st;
            prev_pos_end := prev_pos_end st |}
   else ret st) = (l, Ok st1) ->
  cursor_lengths st1 /\ length (readers st1) = length (readers st) /\
  curr_chrom_idx st1 = curr_chrom_idx st /\ prev_pos_end st1 = prev_pos_end st /\
  (forall idx, idx <> j -> slot_at st1 idx = slot_at st idx) /\
  (forall s, slot_at st j = Some s ->
             exists s1, slot_at st1 j = Some s1 /\ advanced chroms j s s1).
Proof.
  intros [HL1 HL2]. unfold getitem.
  destruct (is_min st !! j) as [m|] eqn:Hm; [|rewrite bind_lift_raise; discriminate].
  rewrite bind_lift_ok. destruct m.
  - destruct (readers st !! j) as [rd|] eqn:Hrd; [|rewrite bind_lift_raise; discriminate].
    rewrite bind_lift_ok.
    destruct (records st !! j) as [rc|] eqn:Hrc; [|rewrite bind_lift_raise; discriminate].
    rewrite bind_lift_ok, bind_pair.
    destruct (_next_assert_order rd rc chroms j) as [l1 [rr|e]] eqn:Hn; cbn [fst snd ret];
      [|discriminate].
    rewrite app_nil_r. intros [= <- <-]. unfold cursor_lengths.
    cbn [readers records is_min curr_chrom_idx prev_pos_end].
    split; [split; rewrite !length_insert; assumption|].
    split; [apply length_insert|]. split; [reflexivity|]. split; [reflexivity|].
    split.
    + intros idx Hne. unfold slot_at. cbn [readers records is_min].
      rewrite !list_lookup_insert_ne by congruence. reflexivity.
    + intros s Hs. apply slot_at_Some in Hs as (H1 & H2 & H3).
      exists (fst rr, snd rr, false). split.
      * apply slot_at_Some. cbn [readers records is_min fst snd].
        apply lookup_lt_Some in Hrd, Hrc, Hm.
        rewrite !list_lookup_insert_eq by assumption. auto.
      * unfold advanced. rewrite Hm in H3. injection H3 as <-.
        rewrite Hrd in H1. injection H1 as <-. rewrite Hrc in H2. injection H2 as <-.
        cbn [fst snd]. exists l1. split; [|reflexivity].
        rewrite Hn. destruct rr; reflexivity.
  - unfold ret. intros [= <- <-].
    split; [split; assumption|]. split; [reflexivity|]. split; [reflexivity|].
    split; [reflexivity|]. split; [reflexivity|].
    intros s Hs. exists s. split; [exact Hs|]. unfold advanced.
    apply slot_at_Some in Hs as (_ & _ & H3). rewrite Hm in H3. injection H3 as <-.
    reflexivity.
Qed.

Lemma RecordIterator_advance_ok chroms st log st1 :
  cursor_lengths st ->
  RecordIterator_advance chroms st = (log, Ok st1) ->
  cursor_lengths st1 /\ length (readers st1) = length (readers st) /\
  curr_chrom_idx st1 = curr_chrom_idx st /\ prev_pos_end st1 = prev_pos_end st /\
  forall idx s0, slot_at st idx = Some s0 ->
    exists s1, slot_at st1 idx = Some s1 /\ advanced chroms idx s0 s1.
Proof.
  intros HL Hadv. unfold RecordIterator_advance, forM_range in Hadv.
  pose (Inv := fun (j : nat) (st' : Cursor) =>
    cursor_lengths st' /\ length (readers st') = length (readers st) /\
    curr_chrom_idx st' = curr_chrom_idx st /\ prev_pos_end st' = prev_pos_end st /\
    forall idx s0, slot_at st idx = Some s0 ->
      exists s1, slot_at st' idx = Some s1 /\
                 if decide (idx < j)%nat then advanced chroms idx s0 s1 else s1 = s0).
  assert (Hfinal : Inv (0 + length (readers st))%nat st1).
  { eapply (forM_from_inv Inv); [| |exact Hadv].
    - intros j s l s1 Hj (HLs & Hlen & Hc & Hp & Hslots) Hb.
      destruct (advance_body_ok chroms j s l s1 HLs Hb)
        as (HL1 & Hlen1 & Hc1 & Hp1 & Hne & Heq).
      split; [exact HL1|]. split; [congruence|]. split; [congruence|].
      split; [congruence|].
      intros idx s0 Hs0. destruct (Hslots idx s0 Hs0) as (s' & Hs' & Hrel).
      destruct (decide (idx = j)) as [->|Hneq].
      + destruct (decide (j < j)%nat); [lia|]. subst s'.
        destruct (Heq s0 Hs') as (s1' & Hs1' & Hadv').
        exists s1'. split; [exact Hs1'|].
        destruct (decide (j < S j)%nat); [exact Hadv'|lia].
      + exists s'. split; [rewrite Hne by exact Hneq; exact Hs'|].
        destruct (decide (idx < j)%nat), (decide (idx < S j)%nat); try lia; exact Hrel.
    - split; [exact HL|]. split; [reflexivity|]. split; [reflexivity|].
      split; [reflexivity|]. intros idx s0 Hs0. exists s0. split; [exact Hs0|].
      destruct (decide (idx < 0)%nat); [lia|reflexivity]. }
  destruct Hfinal as (HL1 & Hlen & Hc & Hp & Hslots).
  split; [exact HL1|]. split; [exact Hlen|]. split; [exact Hc|]. split; [exact Hp|].
  intros idx s0 Hs0. destruct (Hslots idx s0 Hs0) as (s1 & Hs1 & Hrel).
  exists s1. split; [exact Hs1|].
  pose proof (slot_at_Some_lt st idx s0 Hs0).
  destruct (decide (idx < 0 + length (readers st))%nat); [exact Hrel|lia].
Qed.

Lemma chroms_index_known chroms c :
  c ∈ chroms -> exists i, chroms_index chroms c = Ok i /\ index_of c chroms = Some i.
Proof.
  intros Hin. unfold chroms_index.
  destruct (index_of_elem c chroms Hin) as [i ->]. eauto.
Qed.

(** What [_next_assert_order] returns, and when it raises. *)
Lemma next_assert_order_ok reader record chroms idx l rd rc :
  _next_assert_order reader record chroms idx = (l, Ok (rd, rc)) ->
  l = [] /\
  stream_ok chroms record reader = stream_ok chroms rc rd /\
  ((reader = [] /\ rd = [] /\ rc = None) \/
   (exists r, reader = r :: rd /\ rc = Some r /\ chrom r ∈ chroms)).
Proof.
  unfold _next_assert_order. destruct reader as [|next_rec reader'].
  - intros [= <- <- <-]. split; [reflexivity|]. split; [reflexivity|]. left. auto.
  - destruct (bool_decide (chrom next_rec ∈ chroms)) eqn:Hin; cbn [negb].
    2: { rewrite !bind_WARNING. discriminate. }
    apply bool_decide_eq_true in Hin.
    destruct (chroms_index_known chroms _ Hin) as (ni & Hni & Hni').
    destruct record as [record|].
    + rewrite Hni, bind_lift_ok. unfold chroms_index.
      destruct (index_of (chrom record) chroms) as [ri|] eqn:Hri;
        [|rewrite bind_lift_raise; discriminate].
      rewrite bind_lift_ok.
      destruct (order_lt (ni, pos next_rec) (ri, pos record)) eqn:Hlt.
      { rewrite bind_WARNING. discriminate. }
      intros [= <- <- <-]. split; [reflexivity|]. split.
      * simpl. unfold order_key. rewrite Hni', Hri, Hlt. reflexivity.
      * right. exists next_rec. auto.
    + intros [= <- <- <-]. split; [reflexivity|]. split.
      * simpl. unfold order_key. rewrite Hni'. reflexivity.
      * right. exists next_rec. auto.
Qed.

Lemma next_assert_order_raise reader record chroms idx l e :
  (forall r, record = Some r -> chrom r ∈ chroms) ->
  _next_assert_order reader record chroms idx = (l, Raise e) ->
  e = BadOrderException /\ stream_ok chroms record reader = false.
Proof.
  intros Hknown. unfold _next_assert_order. destruct reader as [|next_rec reader'].
  - discriminate.
  - destruct (bool_decide (chrom next_rec ∈ chroms)) eqn:Hin; cbn [negb].
    + apply bool_decide_eq_true in Hin.
      destruct (chroms_index_known chroms _ Hin) as (ni & Hni & Hni').
      destruct record as [record|]; [|discriminate].
      destruct (chroms_index_known chroms _ (Hknown record eq_refl)) as (ri & Hri & Hri').
      rewrite Hni, bind_lift_ok, Hri, bind_lift_ok.
      destruct (order_lt (ni, pos next_rec) (ri, pos record)) eqn:Hlt; [|discriminate].
      rewrite bind_WARNING. intros [= _ <-]. split; [reflexivity|].
      simpl. unfold order_key. rewrite Hni', Hri', Hlt. reflexivity.
    + rewrite !bind_WARNING. intros [= _ <-]. split; [reflexivity|].
      apply bool_decide_eq_false in Hin. simpl. unfold order_key.
      destruct (index_of (chrom next_rec) chroms) as [i|] eqn:Hi; [|reflexivity].
      exfalso. apply Hin. apply index_of_Some in Hi as [Hi _].
      eapply list_elem_of_lookup_2, Hi.
Qed.

Lemma RecordIterator_advance_raises chroms st :
  cursor_lengths st -> records_known chroms (records st) ->
  raises_in (fun e => e = BadOrderException) (RecordIterator_advance chroms st).
Proof.
  intros HL HK. unfold RecordIterator_advance, forM_range.
  apply (forM_from_raises_inv (fun (_ : nat) (st' : Cursor) =>
           cursor_lengths st' /\ length (readers st') = length (readers st) /\
           records_known chroms (records st'))); [|auto].
  intros j s Hj (HLs & Hlen & HKs). split.
  - destruct HLs as [HL1 HL2]. unfold getitem.
    destruct (lookup_lt_is_Some_2 (is_min s) j) as [m ->]; [lia|].
    rewrite bind_lift_ok. destruct m; [|apply raises_in_ret].
    destruct (lookup_lt_is_Some_2 (readers s) j) as [rd ->]; [lia|].
    destruct (lookup_lt_is_Some_2 (records s) j) as [rc Hrc]; [lia|].
    rewrite Hrc, !bind_lift_ok.
    apply raises_in_bind; [|intros rr; apply raises_in_ret].
    intros e He.
    destruct (_next_assert_order rd rc chroms j) as [l r] eqn:Hn. simpl in He. subst r.
    eapply next_assert_order_raise; [|exact Hn].
    intros r ->. eapply HKs, Hrc.
  - intros l s1 Hb.
    destruct (advance_body_ok chroms j s l s1 HLs Hb)
      as (HL1 & Hlen1 & _ & _ & Hne & Heq).
    split; [exact HL1|]. split; [congruence|].
    intros idx r Hr.
    assert (Hlt : (idx < length (readers s1))%nat).
    { destruct HL1 as [HL1 _]. rewrite <- HL1. eapply lookup_lt_Some, Hr. }
    destruct (decide (idx = j)) as [->|Hneq].
    + destruct (slot_at_lt s j HLs) as [s0 Hs0]; [lia|].
      destruct (Heq s0 Hs0) as (s1' & Hs1' & Hadv).
      apply slot_at_Some in Hs1' as (_ & Hrec & _). rewrite Hr in Hrec.
      apply slot_at_Some in Hs0 as (_ & Hrec0 & _).
      unfold advanced in Hadv. destruct (snd s0).
      * destruct Hadv as (l' & Hn & _).
        destruct (fst s1') as [rd' rc'] eqn:Hf. simpl in Hrec. injection Hrec as <-.
        apply next_assert_order_ok in Hn as (_ & _ & [(_ & _ & Hnone)|(r' & _ & Hsome & Hin)]).
        -- discriminate.
        -- injection Hsome as <-. exact Hin.
      * subst s1'. rewrite <- Hrec in Hrec0. eapply HKs, Hrec0.
    + destruct (slot_at_lt s1 idx HL1 Hlt) as [s1' Hs1'].
      pose proof Hs1' as Hs. rewrite (Hne idx Hneq) in Hs.
      apply slot_at_Some in Hs1' as (_ & Hrec & _). rewrite Hr in Hrec.
      apply slot_at_Some in Hs as (_ & Hrec0 & _). rewrite <- Hrec in Hrec0.
      eapply HKs, Hrec0.
Qed.

Lemma RecordIterator_advance_known chroms st log st1 :
  cursor_lengths st -> records_known chroms (records st) ->
  RecordIterator_advance chroms st = (log, Ok st1) ->
  records_known chroms (records st1).
Proof.
  intros HL HK Hadv idx r Hr.
  destruct (RecordIterator_advance_ok chroms st log st1 HL Hadv)
    as (HL1 & Hlen & _ & _ & Hslots).
  assert (Hlt : (idx < length (readers st))%nat).
  { destruct HL1 as [HL1 _]. rewrite <- Hlen, <- HL1. eapply lookup_lt_Some, Hr. }
  destruct (slot_at_lt st idx HL Hlt) as [s0 Hs0].
  destruct (Hslots idx s0 Hs0) as (s1 & Hs1 & Hrel).
  apply slot_at_Some in Hs1 as (_ & Hrec & _). rewrite Hr in Hrec.
  apply slot_at_Some in Hs0 as (_ & Hrec0 & _).
  unfold advanced in Hrel. destruct (snd s0).
  - destruct Hrel as (l' & Hn & _).
    destruct (fst s1) as [rd' rc'] eqn:Hf. simpl in Hrec. injection Hrec as <-.
    apply next_assert_order_ok in Hn as (_ & _ & [(_ & _ & Hnone)|(r' & _ & Hsome & Hin)]).
    + discriminate.
    + injection Hsome as <-. exact Hin.
  - subst s1. rewrite <- Hrec in Hrec0. eapply HK, Hrec0.
Qed.

(** ** The cursor: scanning for the minimum *)

Lemma ext_leb_Fin x y : ext_leb (Fin x) (Fin y) = true <-> x <= y.
Proof. simpl. apply Z.leb_le. Qed.

Lemma ext_ltb_Fin x y : ext_ltb (Fin x) (Fin y) = true <-> x < y.
Proof. unfold ext_ltb. simpl. rewrite negb_true_iff, Z.leb_gt. reflexivity. Qed.

Lemma ext_eqb_eq a b : ext_eqb a b = true <-> a = b.
Proof.
  destruct a, b; simpl; try (split; [discriminate|congruence]); try tauto.
  rewrite Z.eqb_eq. split; congruence.
Qed.

Lemma scan_record_eq chroms trim curr prev idx rec sc :
  RecordIterator_scan_record chroms trim curr prev idx rec sc
  = match rec with
    | None => Ok sc
    | Some r =>
        c <~ chroms_index chroms (chrom r) ;;
        if (curr <? c)%nat then Ok sc
        else
          let pos := Fin (span_pos trim r) in
          let end_pos := Fin (span_end trim r) in
          let ov := overlap_after prev sc pos end_pos in
          if ext_ltb pos (min_pos sc) then
            Ok {| min_pos := pos; min_idxs := Some {[ idx ]};
                  overlap := ov; curr_pos_end := end_pos |}
          else if ext_eqb pos (min_pos sc) && ext_eqb end_pos (curr_pos_end sc) then
            match min_idxs sc with
            | Some s =>
                Ok {| min_pos := min_pos sc; min_idxs := Some (s ∪ {[ idx ]});
                      overlap := ov; curr_pos_end := curr_pos_end sc |}
            | None => Raise AttributeError
            end
          else
            Ok {| min_pos := min_pos sc; min_idxs := min_idxs sc;
                  overlap := ov; curr_pos_end := curr_pos_end sc |}
    end.
Proof. reflexivity. Qed.

Lemma overlap_after_frontier prev sc p e :
  p <= e ->
  (ext_leb (Fin p) prev = true -> overlap_after prev sc (Fin p) (Fin e) = true) /\
  (overlap sc = true ->
   (exists m, min_pos sc = Fin m /\ ext_leb (Fin m) prev = true) ->
   overlap_after prev sc (Fin p) (Fin e) = true).
Proof.
  intros Hpe. unfold overlap_after. split.
  - intros ->. reflexivity.
  - intros Hov (m & Hm & Hmp).
    destruct (ext_leb (Fin p) prev) eqn:Hp; [reflexivity|].
    rewrite Hm, Hov.
    assert (Hlt : m < p).
    { destruct prev as [|q|]; simpl in *; try discriminate.
      apply Z.leb_le in Hmp. apply Z.leb_gt in Hp. lia. }
    assert (H1 : ext_leb (Fin e) (Fin m) = false) by (simpl; apply Z.leb_gt; lia).
    assert (H2 : ext_eqb (Fin p) (Fin m) = false) by (simpl; apply Z.eqb_neq; lia).
    rewrite H1, H2. simpl.
    destruct (_ || _); reflexivity.
Qed.

Lemma scan_record_preserves chroms trim records curr prev j rec sc sc' :
  records !! j = Some rec ->
  scan_ok chroms trim records curr prev j sc ->
  RecordIterator_scan_record chroms trim curr prev j rec sc = Ok sc' ->
  scan_ok chroms trim records curr prev (S j) sc'.
Proof.
  intros Hrec (H1 & H2 & H3 & H4 & H5). rewrite scan_record_eq.
  assert (Hkeep : forall ov,
    (spans_ok trim records ->
     (exists idx r, (idx < S j)%nat /\ records !! idx = Some (Some r) /\
                    in_scope chroms curr r /\
                    ext_leb (Fin (span_pos trim r)) prev = true) ->
     ov = true) ->
    (forall idx r, idx = j -> records !! idx = Some (Some r) ->
                   in_scope chroms curr r ->
                   exists m, min_pos sc = Fin m /\ m <= span_pos trim r) ->
    scan_ok chroms trim records curr prev (S j)
      {| min_pos := min_pos sc; min_idxs := min_idxs sc; overlap := ov;
         curr_pos_end := curr_pos_end sc |}).
  { intros ov Hov Hj. split; [exact H1|]. split; [exact H2|]. split; [|split].
    - intros idxs Hidxs. destruct (H3 idxs Hidxs) as [Hne Hall]. split; [exact Hne|].
      intros idx Hin. destruct (Hall idx Hin) as [Hlt Hr]. split; [lia|exact Hr].
    - intros idx r Hlt Hr Hs. destruct (decide (idx = j)) as [->|Hne].
      + apply (Hj j r eq_refl Hr Hs).
      + apply (H4 idx r); [lia|assumption..].
    - exact Hov. }
  destruct rec as [r|].
  2: { intros [= <-]. destruct sc. apply Hkeep.
       - intros Hsp (idx & r & Hlt & Hr & Hs & Hp). apply H5; [exact Hsp|].
         exists idx, r. split; [|auto]. destruct (decide (idx = j)) as [->|]; [congruence|lia].
       - intros idx r -> Hr. congruence. }
  unfold chroms_index. destruct (index_of (chrom r) chroms) as [c|] eqn:Hc; [|discriminate].
  cbn [rbind]. destruct (Nat.ltb_spec curr c) as [Hout|Hscope].
  { intros [= <-]. destruct sc. apply Hkeep.
    - intros Hsp (idx & r' & Hlt & Hr & Hs & Hp). apply H5; [exact Hsp|].
      exists idx, r'. split; [|auto]. destruct (decide (idx = j)) as [->|]; [|lia].
      rewrite Hrec in Hr. injection Hr as <-. destruct Hs as (c' & Hc' & Hle).
      rewrite Hc in Hc'. injection Hc' as <-. lia.
    - intros idx r' -> Hr (c' & Hc' & Hle). rewrite Hrec in Hr. injection Hr as <-.
      rewrite Hc in Hc'. injection Hc' as <-. lia. }
  cbv zeta.
  set (ov := overlap_after prev sc (Fin (span_pos trim r)) (Fin (span_end trim r))).
  assert (Hov : spans_ok trim records ->
     (exists idx r, (idx < S j)%nat /\ records !! idx = Some (Some r) /\
                    in_scope chroms curr r /\
                    ext_leb (Fin (span_pos trim r)) prev = true) ->
     ov = true).
  { intros Hsp (idx & r' & Hlt & Hr & Hs & Hp).
    destruct (overlap_after_frontier prev sc (span_pos trim r) (span_end trim r))
      as [Hnew Hold]; [eapply Hsp, Hrec|].
    destruct (decide (idx = j)) as [->|Hne].
    - rewrite Hrec in Hr. injection Hr as <-. apply Hnew, Hp.
    - apply Hold.
      + apply H5; [exact Hsp|]. exists idx, r'. split; [lia|auto].
      + destruct (H4 idx r') as (m & Hm & Hle); [lia|assumption..|].
        exists m. split; [exact Hm|].
        destruct prev as [|q|]; simpl in *; try discriminate; [|reflexivity].
        apply Z.leb_le in Hp. apply Z.leb_le. lia. }
  destruct (ext_ltb (Fin (span_pos trim r)) (min_pos sc)) eqn:Hlt.
  { intros [= <-]. split; [|split; [|split; [|split]]]; cbn [min_pos min_idxs overlap curr_pos_end].
    - split; discriminate.
    - discriminate.
    - intros idxs [= <-]. split; [apply non_empty_singleton_L|].
      intros idx Hin. apply elem_of_singleton in Hin as ->. split; [lia|].
      exists r. auto.
    - intros idx r' Hlt' Hr Hs. destruct (decide (idx = j)) as [->|Hne].
      + rewrite Hrec in Hr. injection Hr as <-. eexists. split; [reflexivity|lia].
      + destruct (H4 idx r') as (m & Hm & Hle); [lia|assumption..|].
        rewrite Hm in Hlt. apply ext_ltb_Fin in Hlt.
        eexists. split; [reflexivity|lia].
    - exact Hov. }
  assert (Hmin : exists m, min_pos sc = Fin m /\ m <= span_pos trim r).
  { destruct (min_pos sc) as [|m|] eqn:Hm; [congruence| |discriminate].
    exists m. split; [reflexivity|].
    unfold ext_ltb in Hlt. simpl in Hlt. apply negb_false_iff, Z.leb_le in Hlt. exact Hlt. }
  destruct (ext_eqb (Fin (span_pos trim r)) (min_pos sc)
            && ext_eqb (Fin (span_end trim r)) (curr_pos_end sc)) eqn:Heq.
  - destruct (min_idxs sc) as [s|] eqn:Hs; [|discriminate].
    intros [= <-]. apply andb_true_iff in Heq as [Hp He].
    apply ext_eqb_eq in Hp, He.
    split; [|split; [|split; [|split]]]; cbn [min_pos min_idxs overlap curr_pos_end].
    + rewrite H1. split; discriminate.
    + exact H2.
    + intros idxs [= <-]. split.
      { intros Hempty. assert (Hj : j ∈ s ∪ {[ j ]}) by (apply elem_of_union; right; apply elem_of_singleton; reflexivity).
        rewrite Hempty in Hj. apply elem_of_empty in Hj. exact Hj. }
      intros idx Hin. apply elem_of_union in Hin as [Hin|Hin].
      * destruct (H3 s eq_refl) as [_ Hall]. destruct (Hall idx Hin) as [Hl Hr].
        split; [lia|exact Hr].
      * apply elem_of_singleton in Hin as ->. split; [lia|]. exists r. auto.
    + intros idx r' Hlt' Hr Hsc. destruct (decide (idx = j)) as [->|Hne].
      * rewrite Hrec in Hr. injection Hr as <-. exact Hmin.
      * apply (H4 idx r'); [lia|assumption..].
    + exact Hov.
  - intros [= <-]. apply Hkeep; [exact Hov|].
    intros idx r' -> Hr _. rewrite Hrec in Hr. injection Hr as <-. exact Hmin.
Qed.

Lemma scan_ok_init chroms trim records curr prev :
  scan_ok chroms trim records curr prev 0 scan_init.
Proof.
  split; [split; reflexivity|]. split; [discriminate|]. split; [discriminate|].
  split; [intros idx r Hlt; lia|]. intros _ (idx & r & Hlt & _). lia.
Qed.

Lemma scan_ok_restart chroms trim records curr prev n curr' prev' sc :
  min_pos sc = PosInf ->
  scan_ok chroms trim records curr prev n sc ->
  scan_ok chroms trim records curr' prev' 0 sc.
Proof.
  intros Hinf (H1 & H2 & H3 & H4 & H5).
  split; [exact H1|]. split; [exact H2|]. split.
  - intros idxs Hidxs. apply H1 in Hinf. congruence.
  - split; [intros idx r Hlt; lia|]. intros _ (idx & r & Hlt & _). lia.
Qed.

Lemma scan_pass_ok chroms trim records curr prev sc sc' :
  scan_ok chroms trim records curr prev 0 sc ->
  RecordIterator_scan chroms trim (length records) records curr prev sc = Ok sc' ->
  scan_ok chroms trim records curr prev (length records) sc'.
Proof.
  intros H0 Hscan. unfold RecordIterator_scan, for_range in Hscan.
  apply (for_from_inv (fun j sc => scan_ok chroms trim records curr prev j sc)
           _ _ _ _ _) in Hscan; [exact Hscan| |exact H0].
  intros j s s1 Hj Hinv. unfold getitem.
  destruct (records !! j) as [rec|] eqn:Hrec; [|discriminate]. cbn [rbind].
  apply scan_record_preserves; assumption.
Qed.

Lemma scan_pass_raises chroms trim records curr prev sc :
  records_known chroms records ->
  scan_ok chroms trim records curr prev 0 sc ->
  rraises_in (fun _ => False)
    (RecordIterator_scan chroms trim (length records) records curr prev sc).
Proof.
  intros HK H0. unfold RecordIterator_scan, for_range.
  apply (for_from_raises_inv (fun j sc => scan_ok chroms trim records curr prev j sc));
    [|exact H0].
  intros j s Hj Hinv. unfold getitem.
  destruct (lookup_lt_is_Some_2 records j) as [rec Hrec]; [lia|].
  rewrite Hrec. cbn [rbind]. split.
  - rewrite scan_record_eq. destruct rec as [r|]; [|apply rraises_in_ok].
    destruct (chroms_index_known chroms (chrom r)) as (c & -> & _); [eapply HK, Hrec|].
    cbn [rbind]. destruct (curr <? c)%nat; [apply rraises_in_ok|]. cbv zeta.
    destruct (ext_ltb _ _); [apply rraises_in_ok|].
    destruct (ext_eqb (Fin (span_pos trim r)) (min_pos s) && _) eqn:Heq;
      [|apply rraises_in_ok].
    destruct (min_idxs s) as [idxs|] eqn:Hs; [apply rraises_in_ok|].
    exfalso. destruct Hinv as (H1 & _). apply H1 in Hs.
    apply andb_true_iff in Heq as [Hp _]. apply ext_eqb_eq in Hp. congruence.
  - intros s1. apply scan_record_preserves; assumption.
Qed.

(** The seek ends within the passes allowed, on the first chromosome
    that has a record. *)
Lemma RecordIterator_seek_ok chroms trim records fuel curr prev sc :
  records_known chroms records ->
  scan_ok chroms trim records curr prev 0 sc ->
  (exists idx r c, records !! idx = Some (Some r) /\
                   index_of (chrom r) chroms = Some c /\
                   (c < curr + fuel)%nat /\ (0 < fuel)%nat) ->
  exists sc' curr' prev',
    RecordIterator_seek fuel chroms trim (length records) records curr prev sc
    = Some (Ok (sc', curr', prev')) /\
    scan_ok chroms trim records curr' prev' (length records) sc' /\
    min_pos sc' <> PosInf /\
    ((exists idx r, records !! idx = Some (Some r) /\ in_scope chroms curr r) ->
     curr' = curr /\ prev' = prev) /\
    (curr' = curr /\ prev' = prev \/ prev' = NegInf).
Proof.
  intros HK. revert curr prev sc.
  induction fuel as [|fuel IH]; intros curr prev sc H0 (idx & r & c & Hr & Hc & Hlt & Hpos);
    [lia|].
  cbn [RecordIterator_seek].
  destruct (RecordIterator_scan chroms trim (length records) records curr prev sc)
    as [sc1|e] eqn:Hscan.
  2: { exfalso. eapply (scan_pass_raises chroms trim records curr prev sc HK H0), Hscan. }
  pose proof (scan_pass_ok _ _ _ _ _ _ _ H0 Hscan) as H1.
  destruct (ext_eqb (min_pos sc1) PosInf) eqn:Hinf.
  - apply ext_eqb_eq in Hinf.
    assert (Hout : (curr < c)%nat).
    { destruct (Nat.lt_ge_cases curr c) as [|Hle]; [assumption|]. exfalso.
      destruct H1 as (_ & _ & _ & H4 & _).
      destruct (H4 idx r) as (m & Hm & _);
        [eapply lookup_lt_Some, Hr | exact Hr | exists c; auto | congruence]. }
    destruct (IH (S curr) NegInf sc1) as (sc' & curr' & prev' & Hseek & Hok & Hne & Hfirst & Hor).
    { eapply scan_ok_restart; eassumption. }
    { exists idx, r, c. repeat split; try assumption; lia. }
    exists sc', curr', prev'. split; [exact Hseek|]. split; [exact Hok|].
    split; [exact Hne|]. split.
    + intros (idx' & r' & Hr' & Hs'). exfalso.
      destruct H1 as (_ & _ & _ & H4 & _).
      destruct (H4 idx' r') as (m & Hm & _);
        [eapply lookup_lt_Some, Hr' | exact Hr' | exact Hs' | congruence].
    + right. destruct Hor as [ [_ ->] | -> ]; reflexivity.
  - exists sc1, curr, prev. split; [reflexivity|]. split; [exact H1|].
    split; [intros Heq; rewrite Heq in Hinf; discriminate|]. split; [auto|left; auto].
Qed.

(** ** The cursor: one turn *)

Lemma mark_list_lookup (l : list nat) (f : list bool) idx :
  foldl (fun f i => <[i := true]> f) f l !! idx
  = if decide (idx ∈ l /\ (idx < length f)%nat) then Some true else f !! idx.
Proof.
  revert f. induction l as [|i l IH]; intros f; cbn [foldl].
  - case_decide as H; [destruct H as [H _]; inversion H|reflexivity].
  - rewrite IH, length_insert.
    destruct (decide (idx ∈ l /\ (idx < length f)%nat)) as [[H1 H2]|Hn].
    + rewrite decide_True; [reflexivity|]. split; [right; exact H1|exact H2].
    + destruct (decide (idx = i)) as [->|Hne].
      * destruct (decide (i < length f)%nat) as [Hlt|Hge].
        -- rewrite list_lookup_insert_eq by exact Hlt.
           rewrite decide_True; [reflexivity|]. split; [left|exact Hlt].
        -- rewrite list_insert_ge by lia.
           rewrite decide_False; [reflexivity|]. intros [_ ?]. lia.
      * rewrite list_lookup_insert_ne by congruence.
        rewrite decide_False; [reflexivity|]. intros [Hin Hlt]. apply Hn.
        apply elem_of_cons in Hin as [->|Hin]; [congruence|auto].
Qed.

Lemma mark_min_lookup idxs (f : list bool) idx :
  mark_min idxs f !! idx
  = if decide (idx ∈ idxs /\ (idx < length f)%nat) then Some true else f !! idx.
Proof.
  unfold mark_min. rewrite mark_list_lookup.
  destruct (decide (idx ∈ elements idxs /\ _)) as [[H1 H2]|Hn].
  - rewrite decide_True; [reflexivity|]. split; [apply elem_of_elements, H1|exact H2].
  - rewrite decide_False; [reflexivity|]. intros [H1 H2]. apply Hn.
    split; [apply elem_of_elements, H1|exact H2].
Qed.

Lemma mark_min_length idxs (f : list bool) : length (mark_min idxs f) = length f.
Proof.
  unfold mark_min. generalize (elements idxs) as l. intros l. revert f.
  induction l as [|i l IH]; intros f; simpl; [reflexivity|].
  rewrite IH, length_insert. reflexivity.
Qed.

Lemma advanced_flag chroms idx s0 s1 : advanced chroms idx s0 s1 -> snd s1 = false.
Proof.
  unfold advanced. destruct (snd s0) eqn:Hf.
  - intros (l & _ & H). exact H.
  - intros ->. exact Hf.
Qed.

Lemma RecordIterator_advance_flags chroms st log st1 :
  cursor_lengths st ->
  RecordIterator_advance chroms st = (log, Ok st1) ->
  forall idx b, is_min st1 !! idx = Some b -> b = false.
Proof.
  intros HL Hadv idx b Hb.
  destruct (RecordIterator_advance_ok chroms st log st1 HL Hadv)
    as (HL1 & Hlen & _ & _ & Hslots).
  assert (Hlt : (idx < length (readers st))%nat).
  { destruct HL1 as [_ HL1]. rewrite <- Hlen, <- HL1. eapply lookup_lt_Some, Hb. }
  destruct (slot_at_lt st idx HL Hlt) as [s0 Hs0].
  destruct (Hslots idx s0 Hs0) as (s1 & Hs1 & Hrel).
  apply slot_at_Some in Hs1 as (_ & _ & Hf). rewrite Hb in Hf. injection Hf as ->.
  eapply advanced_flag, Hrel.
Qed.

Lemma all_none_false records :
  all_none records = false -> exists idx r, records !! idx = Some (Some r).
Proof.
  unfold all_none. induction records as [|[r|] records IH]; simpl.
  - discriminate.
  - intros _. exists 0%nat, r. reflexivity.
  - intros H. destruct (IH H) as (idx & r & Hr). exists (S idx), r. exact Hr.
Qed.

Lemma all_none_true records idx x :
  all_none records = true -> records !! idx = Some x -> x = None.
Proof.
  unfold all_none. rewrite forallb_forall. intros H Hx.
  eapply bool_decide_eq_true_1, H. apply list_elem_of_In.
  eapply list_elem_of_lookup_2, Hx.
Qed.

Lemma warn_overlap_ok (idx_iter : SetOrder) records idxs :
  (forall idx, idx ∈ idxs -> exists r, records !! idx = Some (Some r)) ->
  exists log, RecordIterator_warn_overlap idx_iter records idxs = (log, Ok tt) /\
              overlap_warnings idx_iter records idxs log.
Proof.
  intros Hall. unfold RecordIterator_warn_overlap, overlap_warnings.
  assert (Hall' : forall idx, idx ∈ idx_iter idxs ->
                    exists r, records !! idx = Some (Some r)).
  { intros idx Hin. apply Hall, elem_of_elements.
    rewrite <- (iterate_perm idx_iter idxs). exact Hin. }
  clear Hall.
  assert (H : forall (l : list nat) (i : nat),
    (forall idx, idx ∈ l -> exists r, records !! idx = Some (Some r)) ->
    exists log,
      forM_enumerate i l (fun (_ : nat) idx (_ : unit) =>
        r <- lift (record_at records idx) ;;
        WARNING (OverlapSkipping (chrom r) (pos r) (idx + 1))) tt = (log, Ok tt) /\
      Forall2 (fun idx e =>
             exists r, records !! idx = Some (Some r) /\
                       e = Warning (OverlapSkipping (chrom r) (pos r) (idx + 1)))
          l log).
  { induction l as [|idx l IH]; intros i Hl.
    - exists []. split; [reflexivity|constructor].
    - cbn [forM_enumerate]. destruct (Hl idx) as [r Hr]; [left|].
      destruct (IH (S i) (fun j Hj => Hl j (list_elem_of_further _ _ _ Hj)))
        as (log & Hlog & HF).
      exists (Warning (OverlapSkipping (chrom r) (pos r) (idx + 1)) :: log). split.
      + assert (Hrec : record_at records idx = Ok r)
          by (unfold record_at; rewrite Hr; reflexivity).
        rewrite Hrec, bind_lift_ok, bind_pair. cbn [WARNING fst snd].
        rewrite Hlog. reflexivity.
      + constructor; [exists r; auto|exact HF]. }
  apply H, Hall'.
Qed.

Lemma index_of_lt c chroms i : index_of c chroms = Some i -> (i < length chroms)%nat.
Proof. intros H. apply index_of_Some in H as [H _]. eapply lookup_lt_Some, H. Qed.

(** [verbose] changes a turn only where it yields: the debugging output
    comes first. *)
Lemma RecordIterator_step_verbose (idx_iter : SetOrder) debug chroms verbose trim st :
  RecordIterator_step idx_iter debug chroms verbose trim st
  = match RecordIterator_step idx_iter debug chroms false trim st with
    | (log, Ok (StepYield st')) =>
        (log ++ fst (RecordIterator_debug debug verbose (records st') (is_min st')),
         match snd (RecordIterator_debug debug verbose (records st') (is_min st')) with
         | Ok _ => Ok (StepYield st')
         | Raise e => Raise e
         end)
    | r => r
    end.
Proof.
  unfold RecordIterator_step.
  destruct (RecordIterator_advance chroms st) as [log1 [st1|e]]; [|reflexivity].
  cbn [bind].
  destruct (all_none (records st1)); [reflexivity|].
  destruct (RecordIterator_seek _ _ _ _ _ _ _ _) as [[[[sc cci] ppe]|e]|];
    [|reflexivity..].
  destruct (min_idxs sc) as [idxs|]; [|reflexivity].
  destruct (overlap sc).
  - destruct (RecordIterator_warn_overlap idx_iter (records st1) idxs) as [l [[]|e]];
      reflexivity.
  - unfold RecordIterator_debug. cbn [bind ret app fst snd records is_min].
    rewrite app_nil_r.
    match goal with
    | |- context [if verbose then ?a else ?b] => generalize (if verbose then a else b)
    end.
    intros [l [[]|e]]; cbn [bind ret fst snd]; rewrite ?app_nil_r; reflexivity.
Qed.

(** A turn that finds records: the seek ends, and the turn either drops
    the group it found, with a warning for each member, or goes on to
    yield it: after the debugging output, when [verbose] is set. *)
Lemma RecordIterator_step_found_verbose (idx_iter : SetOrder) debug chroms verbose trim
    st log1 st1 :
  cursor_lengths st -> records_known chroms (records st) ->
  RecordIterator_advance chroms st = (log1, Ok st1) ->
  all_none (records st1) = false ->
  exists sc cci ppe idxs,
    RecordIterator_seek (length chroms) chroms trim (length (readers st1))
      (records st1) (curr_chrom_idx st1) (prev_pos_end st1) scan_init
    = Some (Ok (sc, cci, ppe)) /\
    scan_ok chroms trim (records st1) cci ppe (length (records st1)) sc /\
    min_idxs sc = Some idxs /\
    ((exists idx r, records st1 !! idx = Some (Some r) /\
                    in_scope chroms (curr_chrom_idx st1) r) ->
     cci = curr_chrom_idx st1 /\ ppe = prev_pos_end st1) /\
    (cci = curr_chrom_idx st1 /\ ppe = prev_pos_end st1 \/ ppe = NegInf) /\
    let st' := cursor_after st1 sc idxs cci ppe in
    if overlap sc then
      exists log2,
        overlap_warnings idx_iter (records st1) idxs log2 /\
        RecordIterator_step idx_iter debug chroms verbose trim st
        = (log1 ++ log2, Ok (StepSkip st'))
    else
      let dbg := RecordIterator_debug debug verbose (records st') (is_min st') in
      RecordIterator_step idx_iter debug chroms verbose trim st
      = (log1 ++ fst dbg,
         match snd dbg with
         | Ok _ => Ok (StepYield st')
         | Raise e => Raise e
         end).
Proof.
  intros HL HK Hadv Hnone.
  destruct (RecordIterator_advance_ok chroms st log1 st1 HL Hadv) as (HL1 & _).
  pose proof (RecordIterator_advance_known chroms st log1 st1 HL HK Hadv) as HK1.
  destruct (all_none_false _ Hnone) as (idx0 & r0 & Hr0).
  destruct (chroms_index_known chroms (chrom r0) (HK1 idx0 r0 Hr0)) as (c & _ & Hc).
  pose proof (index_of_lt _ _ _ Hc) as Hclt.
  destruct HL1 as [HLrec HLmin].
  destruct (RecordIterator_seek_ok chroms trim (records st1) (length chroms)
              (curr_chrom_idx st1) (prev_pos_end st1) scan_init HK1
              (scan_ok_init _ _ _ _ _))
    as (sc & cci & ppe & Hseek & Hok & Hne & Hfirst & Hor).
  { exists idx0, r0, c. repeat split; try assumption; lia. }
  rewrite HLrec in Hseek.
  destruct (min_idxs sc) as [idxs|] eqn:Hidxs.
  2: { exfalso. destruct Hok as (H1 & _). apply H1 in Hidxs. contradiction. }
  exists sc, cci, ppe, idxs. split; [exact Hseek|]. split; [exact Hok|].
  split; [exact Hidxs|]. split; [exact Hfirst|]. split; [exact Hor|].
  cbv zeta.
  unfold RecordIterator_step. rewrite Hadv, bind_pair. cbn [fst snd].
  rewrite Hnone, Hseek, Hidxs.
  destruct (overlap sc).
  - destruct (warn_overlap_ok idx_iter (records st1) idxs) as (log2 & Hw & Hlog2).
    { intros idx Hin. destruct Hok as (_ & _ & H3 & _).
      destruct (H3 idxs Hidxs) as [_ Hall].
      destruct (Hall idx Hin) as (_ & r & Hr & _). eauto. }
    exists log2. split; [exact Hlog2|].
    rewrite bind_pair, Hw. cbn [fst snd ret]. rewrite app_nil_r. reflexivity.
  - fold (cursor_after st1 sc idxs cci ppe).
    rewrite bind_pair.
    destruct (RecordIterator_debug debug verbose _ _) as [l [[]|e]];
      cbn [fst snd ret]; [rewrite app_nil_r|]; reflexivity.
Qed.

Lemma RecordIterator_step_found (idx_iter : SetOrder) debug chroms trim st log1 st1 :
  cursor_lengths st -> records_known chroms (records st) ->
  RecordIterator_advance chroms st = (log1, Ok st1) ->
  all_none (records st1) = false ->
  exists sc cci ppe idxs,
    RecordIterator_seek (length chroms) chroms trim (length (readers st1))
      (records st1) (curr_chrom_idx st1) (prev_pos_end st1) scan_init
    = Some (Ok (sc, cci, ppe)) /\
    scan_ok chroms trim (records st1) cci ppe (length (records st1)) sc /\
    min_idxs sc = Some idxs /\
    ((exists idx r, records st1 !! idx = Some (Some r) /\
                    in_scope chroms (curr_chrom_idx st1) r) ->
     cci = curr_chrom_idx st1 /\ ppe = prev_pos_end st1) /\
    (cci = curr_chrom_idx st1 /\ ppe = prev_pos_end st1 \/ ppe = NegInf) /\
    if overlap sc then
      exists log2,
        overlap_warnings idx_iter (records st1) idxs log2 /\
        RecordIterator_step idx_iter debug chroms false trim st
        = (log1 ++ log2, Ok (StepSkip (cursor_after st1 sc idxs cci ppe)))
    else
      RecordIterator_step idx_iter debug chroms false trim st
      = (log1, Ok (StepYield (cursor_after st1 sc idxs cci ppe))).
Proof.
  intros HL HK Hadv Hnone.
  destruct (RecordIterator_step_found_verbose idx_iter debug chroms false trim st log1
              st1 HL HK Hadv Hnone)
    as (sc & cci & ppe & idxs & Hseek & Hok & Hidxs & Hfirst & Hor & Hstep).
  exists sc, cci, ppe, idxs. split; [exact Hseek|]. split; [exact Hok|].
  split; [exact Hidxs|]. split; [exact Hfirst|]. split; [exact Hor|].
  cbv zeta in Hstep. destruct (overlap sc); [exact Hstep|].
  rewrite Hstep. cbn [RecordIterator_debug ret fst snd]. rewrite app_nil_r. reflexivity.
Qed.

(** ** The overlap flag *)





(** ** The cursor: the whole run *)

Lemma sum_list_with_le {A} (f g : A -> nat) (l : list A) :
  (forall x, x ∈ l -> (f x <= g x)%nat) -> (sum_list_with f l <= sum_list_with g l)%nat.
Proof.
  induction l as [|x l IH]; intros H; simpl; [lia|].
  pose proof (H x (list_elem_of_here _ _)).
  assert (sum_list_with f l <= sum_list_with g l)%nat.
  { apply IH. intros y Hy. apply H. right. exact Hy. }
  lia.
Qed.

Lemma sum_list_with_lt {A} (f g : A -> nat) (l : list A) x :
  (forall x, x ∈ l -> (f x <= g x)%nat) -> x ∈ l -> (f x < g x)%nat ->
  (sum_list_with f l < sum_list_with g l)%nat.
Proof.
  induction l as [|y l IH]; intros H Hx Hlt; [inversion Hx|]. simpl.
  pose proof (H y (list_elem_of_here _ _)).
  assert (Hle : (sum_list_with f l <= sum_list_with g l)%nat).
  { apply sum_list_with_le. intros z Hz. apply H. right. exact Hz. }
  apply elem_of_cons in Hx as [->|Hx]; [lia|].
  assert (sum_list_with f l < sum_list_with g l)%nat.
  { apply IH; [|exact Hx|exact Hlt]. intros z Hz. apply H. right. exact Hz. }
  lia.
Qed.

Lemma advanced_weight chroms idx s0 s1 :
  advanced chroms idx s0 s1 ->
  (slot_weight s1 + (if snd s0 then 1 else 0) = slot_weight s0)%nat.
Proof.
  unfold advanced. destruct s0 as [[rd rc] f], s1 as [[rd' rc'] f']. cbn [fst snd].
  destruct f.
  - intros (l & Hn & ->).
    apply next_assert_order_ok in Hn as (_ & _ & [(-> & -> & ->)|(r & -> & -> & _)]);
      unfold slot_weight; cbn [fst snd length]; destruct rc; lia.
  - intros [= -> -> ->]. lia.
Qed.

Lemma cursor_after_slot st1 sc idxs cci ppe idx s :
  cursor_lengths st1 ->
  (forall i, i ∈ idxs -> exists r, records st1 !! i = Some (Some r)) ->
  slot_at st1 idx = Some s ->
  exists f, slot_at (cursor_after st1 sc idxs cci ppe) idx = Some (fst s, f) /\
            (f = true <-> idx ∈ idxs \/ snd s = true) /\
            (idx ∈ idxs -> exists r, snd (fst s) = Some r).
Proof.
  intros [HLrec HLmin] Hmem Hs. apply slot_at_Some in Hs as (H1 & H2 & H3).
  unfold slot_at. cbn [cursor_after readers records is_min].
  rewrite H1, H2, mark_min_lookup, H3.
  assert (Hlt : (idx < length (is_min st1))%nat) by (eapply lookup_lt_Some, H3).
  destruct (decide (idx ∈ idxs /\ (idx < length (is_min st1))%nat)) as [[Hin _]|Hn].
  - exists true. split; [destruct s as [[? ?] ?]; reflexivity|]. split; [tauto|].
    intros _. destruct (Hmem idx Hin) as [r Hr]. rewrite H2 in Hr. injection Hr as ->. eauto.
  - exists (snd s). split; [destruct s as [[? ?] ?]; reflexivity|]. split.
    + split; [auto|]. intros [Hin|Hf]; [exfalso; apply Hn; auto|exact Hf].
    + intros Hin. exfalso. apply Hn. auto.
Qed.

(** A turn that goes on leaves less to do. *)
Lemma RecordIterator_step_measure chroms st log1 st1 sc idxs cci ppe :
  cursor_ok chroms st ->
  RecordIterator_advance chroms st = (log1, Ok st1) ->
  all_none (records st1) = false ->
  (forall i, i ∈ idxs -> exists r, records st1 !! i = Some (Some r)) ->
  (cursor_measure (cursor_after st1 sc idxs cci ppe) < cursor_measure st)%nat.
Proof.
  intros (HL & HK & HE & HM) Hadv Hnone Hmem.
  destruct (RecordIterator_advance_ok chroms st log1 st1 HL Hadv)
    as (HL1 & Hlen & _ & _ & Hslots).
  unfold cursor_measure. cbn [cursor_after readers]. rewrite Hlen.
  assert (Hle : forall idx, idx ∈ seq 0 (length (readers st)) ->
    (from_option slot_weight 0 (slot_at (cursor_after st1 sc idxs cci ppe) idx)
     + (if default false (is_min st !! idx) then 1 else 0)
     <= from_option slot_weight 0 (slot_at st idx))%nat).
  { intros idx Hin. apply list_elem_of_In, in_seq in Hin.
    destruct (slot_at_lt st idx HL) as [s0 Hs0]; [lia|].
    destruct (Hslots idx s0 Hs0) as (s1 & Hs1 & Hrel).
    destruct (cursor_after_slot st1 sc idxs cci ppe idx s1 HL1 Hmem Hs1)
      as (f & Hs' & Hf & Hsome).
    rewrite Hs0, Hs'. cbn [from_option].
    pose proof (advanced_weight chroms idx s0 s1 Hrel) as Hw.
    pose proof (advanced_flag chroms idx s0 s1 Hrel) as Hflag.
    apply slot_at_Some in Hs0 as (_ & _ & Hf0). rewrite Hf0. cbn [default from_option id].
    assert (Hsame : slot_weight (fst s1, f) = slot_weight s1).
    { unfold slot_weight. cbn [fst snd]. rewrite Hflag.
      destruct f; [|reflexivity].
      destruct (proj1 Hf eq_refl) as [Hin'|Hf']; [|congruence].
      destruct (Hsome Hin') as [r ->]. reflexivity. }
    rewrite Hsame. lia. }
  destruct (decide (true ∈ is_min st)) as [Hin|Hnot].
  - apply list_elem_of_lookup in Hin as [idx Hflag].
    assert (Hin : idx ∈ seq 0 (length (readers st))).
    { apply list_elem_of_In, in_seq. destruct HL as [_ HLm].
      apply lookup_lt_Some in Hflag. lia. }
    apply (sum_list_with_lt _ _ _ idx).
    + intros x Hx. specialize (Hle x Hx). lia.
    + exact Hin.
    + specialize (Hle idx Hin). rewrite Hflag in Hle.
      cbn [default from_option id] in Hle. lia.
  - exfalso. destruct HM as [[idx Hflag]|Hall].
    { apply Hnot. eapply list_elem_of_lookup_2, Hflag. }
    destruct (all_none_false _ Hnone) as (idx & r & Hr).
    assert (Hlt : (idx < length (readers st))%nat).
    { destruct HL1 as [HL1 _]. rewrite <- Hlen, <- HL1. eapply lookup_lt_Some, Hr. }
    destruct (slot_at_lt st idx HL Hlt) as [s0 Hs0].
    destruct (Hslots idx s0 Hs0) as (s1 & Hs1 & Hrel).
    apply slot_at_Some in Hs1 as (_ & Hrec1 & _). rewrite Hr in Hrec1.
    apply slot_at_Some in Hs0 as (Hrd0 & Hrec0 & Hf0).
    pose proof (all_none_true _ _ _ Hall Hrec0) as Hnone0.
    unfold advanced in Hrel. destruct (snd s0) eqn:Hf.
    + apply Hnot. eapply list_elem_of_lookup_2, Hf0.
    + subst s1. congruence.
Qed.

Lemma cursor_after_ok chroms st log1 st1 sc idxs cci ppe :
  cursor_ok chroms st ->
  RecordIterator_advance chroms st = (log1, Ok st1) ->
  idxs <> ∅ ->
  (forall i, i ∈ idxs -> exists r, records st1 !! i = Some (Some r)) ->
  cursor_ok chroms (cursor_after st1 sc idxs cci ppe).
Proof.
  intros (HL & HK & HE & HM) Hadv Hne Hmem.
  destruct (RecordIterator_advance_ok chroms st log1 st1 HL Hadv)
    as (HL1 & Hlen & _ & _ & Hslots).
  pose proof (RecordIterator_advance_known chroms st log1 st1 HL HK Hadv) as HK1.
  split; [|split; [exact HK1|split]].
  - destruct HL1 as [H1 H2]. split; cbn [cursor_after readers records is_min];
      [exact H1|rewrite mark_min_length; exact H2].
  - cbn [cursor_after readers records is_min]. intros idx Hf Hr.
    assert (Hlt : (idx < length (readers st))%nat).
    { destruct HL1 as [HL1 _]. rewrite <- Hlen, <- HL1. eapply lookup_lt_Some, Hr. }
    destruct (slot_at_lt st idx HL Hlt) as [s0 Hs0].
    destruct (Hslots idx s0 Hs0) as (s1 & Hs1 & Hrel).
    apply slot_at_Some in Hs1 as (Hrd1 & Hrec1 & Hf1). rewrite Hr in Hrec1.
    rewrite Hrd1. f_equal.
    apply slot_at_Some in Hs0 as (Hrd0 & Hrec0 & Hf0).
    unfold advanced in Hrel. destruct (snd s0) eqn:Hflag.
    + destruct Hrel as (l & Hn & _).
      destruct (fst s1) as [rd' rc'] eqn:Hfs. cbn [fst snd] in *. injection Hrec1 as <-.
      apply next_assert_order_ok in Hn as (_ & _ & [(_ & -> & _)|(r & _ & Hsome & _)]);
        [reflexivity|discriminate].
    + subst s1. rewrite <- Hrec1 in Hrec0.
      pose proof (HE idx Hf0 Hrec0) as Hnil. congruence.
  - left. apply set_choose_L in Hne as [idx Hin].
    exists idx. cbn [cursor_after is_min]. rewrite mark_min_lookup.
    rewrite decide_True; [reflexivity|]. split; [exact Hin|].
    destruct (Hmem idx Hin) as [r Hr]. destruct HL1 as [H1 H2].
    rewrite H2, <- H1. eapply lookup_lt_Some, Hr.
Qed.

Lemma streams_ok_back chroms st log1 st1 :
  cursor_lengths st ->
  RecordIterator_advance chroms st = (log1, Ok st1) ->
  all_streams_ok chroms st1 -> all_streams_ok chroms st.
Proof.
  intros HL Hadv Hok idx s0 Hs0.
  destruct (RecordIterator_advance_ok chroms st log1 st1 HL Hadv)
    as (_ & _ & _ & _ & Hslots).
  destruct (Hslots idx s0 Hs0) as (s1 & Hs1 & Hrel).
  pose proof (Hok idx s1 Hs1) as H1.
  unfold advanced in Hrel. destruct (snd s0).
  - destruct Hrel as (l & Hn & _). destruct (fst s1) as [rd' rc'].
    apply next_assert_order_ok in Hn as (_ & Heq & _). rewrite Heq. exact H1.
  - subst s1. exact H1.
Qed.

Lemma streams_ok_after chroms st1 sc idxs cci ppe :
  cursor_lengths st1 ->
  (forall i, i ∈ idxs -> exists r, records st1 !! i = Some (Some r)) ->
  all_streams_ok chroms (cursor_after st1 sc idxs cci ppe) ->
  all_streams_ok chroms st1.
Proof.
  intros HL Hmem Hok idx s Hs.
  destruct (cursor_after_slot st1 sc idxs cci ppe idx s HL Hmem Hs) as (f & Hs' & _).
  apply (Hok idx _ Hs').
Qed.

Lemma streams_ok_stop chroms st log1 st1 :
  cursor_ok chroms st ->
  RecordIterator_advance chroms st = (log1, Ok st1) ->
  all_none (records st1) = true ->
  all_streams_ok chroms st.
Proof.
  intros (HL & HK & HE & HM) Hadv Hnone idx s0 Hs0.
  destruct (RecordIterator_advance_ok chroms st log1 st1 HL Hadv)
    as (_ & _ & _ & _ & Hslots).
  destruct (Hslots idx s0 Hs0) as (s1 & Hs1 & Hrel).
  apply slot_at_Some in Hs1 as (_ & Hrec1 & _).
  pose proof (all_none_true _ _ _ Hnone Hrec1) as Hn1.
  apply slot_at_Some in Hs0 as (Hrd0 & Hrec0 & Hf0).
  unfold advanced in Hrel. destruct (snd s0) eqn:Hflag.
  - destruct Hrel as (l & Hn & _). destruct (fst s1) as [rd' rc']. cbn [snd] in Hn1.
    subst rc'.
    apply next_assert_order_ok in Hn as (_ & Heq & [(Hnil & -> & _)|(r & _ & Hsome & _)]);
      [|discriminate].
    rewrite Heq. reflexivity.
  - subst s1. rewrite Hn1 in Hrec0 |- *.
    pose proof (HE idx Hf0 Hrec0) as Hnil. rewrite Hrd0 in Hnil. injection Hnil as ->.
    reflexivity.
Qed.

(** The generator ends, either exhausted, with every reader in order,
    or by [BadOrderException]. *)
(** What a failing pull has logged *)

Lemma next_assert_order_raise_log reader record chroms idx l e :
  (forall r, record = Some r -> chrom r ∈ chroms) ->
  _next_assert_order reader record chroms idx = (l, Raise e) ->
  fault_log chroms l.
Proof.
  intros Hknown. unfold _next_assert_order. destruct reader as [|next_rec reader'].
  - discriminate.
  - destruct (bool_decide (chrom next_rec ∈ chroms)) eqn:Hin; cbn [negb].
    + apply bool_decide_eq_true in Hin.
      destruct (chroms_index_known chroms _ Hin) as (ni & Hni & Hni').
      destruct record as [record|]; [|discriminate].
      destruct (chroms_index_known chroms _ (Hknown record eq_refl)) as (ri & Hri & Hri').
      rewrite Hni, bind_lift_ok, Hri, bind_lift_ok.
      destruct (order_lt (ni, pos next_rec) (ri, pos record)) eqn:Hlt; [|discriminate].
      rewrite bind_WARNING. intros [= <- _]. left. eauto.
    + rewrite !bind_WARNING. intros [= <- _]. right. eauto.
Qed.

Lemma forM_from_raise_log {St} (Inv : nat -> St -> Prop) (Q : list event -> exn -> Prop)
    (body : nat -> St -> M St) :
  forall n i s log e,
    (forall j s, (i <= j < i + n)%nat -> Inv j s ->
       (forall l s1, body j s = (l, Ok s1) -> l = [] /\ Inv (S j) s1) /\
       (forall l e, body j s = (l, Raise e) -> Q l e)) ->
    Inv i s -> forM_from i n body s = (log, Raise e) -> Q log e.
Proof.
  induction n as [|n IH]; intros i s log e Hbody Hinv; simpl; [discriminate|].
  destruct (Hbody i s) as [Hok Hr]; [lia|exact Hinv|].
  rewrite bind_pair. destruct (body i s) as [l1 [s1|e1]] eqn:Hb; cbn [fst snd].
  - destruct (Hok l1 s1 eq_refl) as [-> Hinv'].
    destruct (forM_from (S i) n body s1) as [l2 r2] eqn:Hrest. cbn [fst snd app].
    intros [= <- ->]. eapply IH; [|exact Hinv'|exact Hrest].
    intros j s2 Hj. apply Hbody. lia.
  - intros [= <- <-]. apply Hr. reflexivity.
Qed.

Lemma advance_body_known chroms j st l st1 :
  cursor_lengths st -> records_known chroms (records st) ->
  (j < length (readers st))%nat ->
  (m <- lift (getitem (is_min st) j) ;;
   if (m : bool) then
     reader <- lift (getitem (readers st) j) ;;
     record <- lift (getitem (records st) j) ;;
     rr <- _next_assert_order reader record chroms j ;;
     ret {| readers := <[j := fst rr]> (readers st);
            records := <[j := snd rr]> (records st);
            is_min := <[j := false]> (is_min st);
            curr_chrom_idx := curr_chrom_idx st;
            prev_pos_end := prev_pos_end st |}
   else ret st) = (l, Ok st1) ->
  records_known chroms (records st1).
Proof.
  intros HLs HKs Hj Hb.
  destruct (advance_body_ok chroms j st l st1 HLs Hb)
    as (HL1 & Hlen1 & _ & _ & Hne & Heq).
  intros idx r Hr.
  assert (Hlt : (idx < length (readers st1))%nat).
  { destruct HL1 as [HL1 _]. rewrite <- HL1. eapply lookup_lt_Some, Hr. }
  destruct (decide (idx = j)) as [->|Hneq].
  + destruct (slot_at_lt st j HLs) as [s0 Hs0]; [lia|].
    destruct (Heq s0 Hs0) as (s1' & Hs1' & Hadv).
    apply slot_at_Some in Hs1' as (_ & Hrec & _). rewrite Hr in Hrec.
    apply slot_at_Some in Hs0 as (_ & Hrec0 & _).
    unfold advanced in Hadv. destruct (snd s0).
    * destruct Hadv as (l' & Hn & _).
      destruct (fst s1') as [rd' rc'] eqn:Hf. simpl in Hrec. injection Hrec as <-.
      apply next_assert_order_ok in Hn as (_ & _ & [(_ & _ & Hnone)|(r' & _ & Hsome & Hin)]).
      -- discriminate.
      -- injection Hsome as <-. exact Hin.
    * subst s1'. rewrite <- Hrec in Hrec0. eapply HKs, Hrec0.
  + destruct (slot_at_lt st1 idx HL1 Hlt) as [s1' Hs1'].
    pose proof Hs1' as Hs. rewrite (Hne idx Hneq) in Hs.
    apply slot_at_Some in Hs1' as (_ & Hrec & _). rewrite Hr in Hrec.
    apply slot_at_Some in Hs as (_ & Hrec0 & _). rewrite <- Hrec in Hrec0.
    eapply HKs, Hrec0.
Qed.

(** When the pulls of a turn fail, the log of the turn is that of the
    pull that failed. *)
Lemma RecordIterator_advance_raise_log chroms st log e :
  cursor_lengths st -> records_known chroms (records st) ->
  RecordIterator_advance chroms st = (log, Raise e) ->
  e = BadOrderException /\ fault_log chroms log.
Proof.
  intros HL HK. unfold RecordIterator_advance, forM_range.
  apply (forM_from_raise_log
           (fun (_ : nat) (st' : Cursor) =>
              cursor_lengths st' /\ length (readers st') = length (readers st) /\
              records_known chroms (records st'))
           (fun l e => e = BadOrderException /\ fault_log chroms l)); [|auto].
  intros j s Hj (HLs & Hlen & HKs). split.
  - intros l s1 Hb.
    destruct (advance_body_ok chroms j s l s1 HLs Hb) as (HL1 & Hlen1 & _).
    assert (Hl : l = []).
    { revert Hb. unfold getitem.
      destruct (is_min s !! j) as [m|]; [|rewrite bind_lift_raise; discriminate].
      rewrite bind_lift_ok. destruct m; [|unfold ret; congruence].
      destruct (readers s !! j) as [rd|]; [|rewrite bind_lift_raise; discriminate].
      rewrite bind_lift_ok.
      destruct (records s !! j) as [rc|]; [|rewrite bind_lift_raise; discriminate].
      rewrite bind_lift_ok, bind_pair.
      destruct (_next_assert_order rd rc chroms j) as [l1 [[rd' rc']|e1]] eqn:Hn;
        cbn [fst snd ret]; [|discriminate].
      apply next_assert_order_ok in Hn as (-> & _). intros [= <- _]. reflexivity. }
    split; [exact Hl|]. split; [exact HL1|]. split; [congruence|].
    eapply advance_body_known; [exact HLs|exact HKs| |exact Hb]. lia.
  - intros l e1. destruct HLs as [HL1 HL2]. unfold getitem.
    destruct (lookup_lt_is_Some_2 (is_min s) j) as [m ->]; [lia|].
    rewrite bind_lift_ok. destruct m; [|discriminate].
    destruct (lookup_lt_is_Some_2 (readers s) j) as [rd ->]; [lia|].
    destruct (lookup_lt_is_Some_2 (records s) j) as [rc Hrc]; [lia|].
    rewrite Hrc, !bind_lift_ok, bind_pair.
    destruct (_next_assert_order rd rc chroms j) as [l1 [rr|e2]] eqn:Hn;
      cbn [fst snd ret]; [discriminate|].
    intros [= <- <-].
    assert (Hknown : forall r, rc = Some r -> chrom r ∈ chroms).
    { intros r ->. eapply HKs, Hrc. }
    split.
    + eapply next_assert_order_raise; [exact Hknown|exact Hn].
    + eapply next_assert_order_raise_log; [exact Hknown|exact Hn].
Qed.

Lemma RecordIterator_debug_raise debug verbose records is_min e :
  snd (RecordIterator_debug debug verbose records is_min) = Raise e ->
  verbose = true /\ debug_raised debug e.
Proof.
  unfold RecordIterator_debug. destruct verbose; [|discriminate].
  intros H. split; [reflexivity|]. revert H. unfold vcfrecords.
  destruct (mapM id records) as [l|].
  - rewrite bind_lift_ok. intros H. right. eauto.
  - rewrite bind_lift_raise. intros [= <-]. left. reflexivity.
Qed.

(** How a run of the generator ends: exhausted, with every reader in
    order from where it stood; by [BadOrderException], after the
    warnings of the pull that failed; or, with [verbose], by an
    exception of the debugging output. *)
Lemma RecordIterator_loop_outcome_verbose (idx_iter : SetOrder) debug chroms verbose trim
    fuel st :
  cursor_ok chroms st -> (cursor_measure st < fuel)%nat ->
  (snd (RecordIterator_loop idx_iter debug fuel chroms verbose trim st) = Exhausted /\
   all_streams_ok chroms st) \/
  (snd (RecordIterator_loop idx_iter debug fuel chroms verbose trim st)
   = Raised BadOrderException /\
   exists pre log,
     fst (RecordIterator_loop idx_iter debug fuel chroms verbose trim st)
     = pre ++ (Log <$> log) /\ fault_log chroms log) \/
  (verbose = true /\
   exists e, snd (RecordIterator_loop idx_iter debug fuel chroms verbose trim st)
             = Raised e /\ debug_raised debug e).
Proof.
  revert st. induction fuel as [|fuel IH]; intros st Hok Hlt; [lia|].
  pose proof Hok as (HL & HK & HE & HM).
  cbn [RecordIterator_loop].
  destruct (RecordIterator_advance chroms st) as [log1 [st1|e]] eqn:Hadv.
  2: { right. left. unfold RecordIterator_step. rewrite Hadv. cbn [bind fst snd].
       destruct (RecordIterator_advance_raise_log chroms st log1 e HL HK Hadv)
         as [-> Hlog].
       split; [reflexivity|]. exists [], log1. split; [reflexivity|exact Hlog]. }
  destruct (all_none (records st1)) eqn:Hnone.
  { left. unfold RecordIterator_step. rewrite Hadv, bind_pair. cbn [fst snd].
    rewrite Hnone. cbn [ret fst snd]. split; [reflexivity|].
    eapply streams_ok_stop; eassumption. }
  destruct (RecordIterator_step_found_verbose idx_iter debug chroms verbose trim st log1
              st1 HL HK Hadv Hnone)
    as (sc & cci & ppe & idxs & Hseek & Hscan & Hidxs & _ & _ & Hstep).
  cbv zeta in Hstep.
  destruct (RecordIterator_advance_ok chroms st log1 st1 HL Hadv) as (HL1 & _).
  destruct Hscan as (_ & _ & H3 & _). destruct (H3 idxs Hidxs) as [Hne Hmembers].
  assert (Hmem : forall i, i ∈ idxs -> exists r, records st1 !! i = Some (Some r)).
  { intros i Hi. destruct (Hmembers i Hi) as (_ & r & Hr & _). eauto. }
  pose proof (cursor_after_ok chroms st log1 st1 sc idxs cci ppe Hok Hadv Hne Hmem) as Hok'.
  pose proof (RecordIterator_step_measure chroms st log1 st1 sc idxs cci ppe
                Hok Hadv Hnone Hmem) as Hdec.
  assert (Hnext : forall items0,
    let run := RecordIterator_loop idx_iter debug fuel chroms verbose trim
                 (cursor_after st1 sc idxs cci ppe) in
    (snd run = Exhausted /\ all_streams_ok chroms st) \/
    (snd run = Raised BadOrderException /\
     exists pre log, items0 ++ fst run = pre ++ (Log <$> log) /\ fault_log chroms log) \/
    (verbose = true /\ exists e, snd run = Raised e /\ debug_raised debug e)).
  { intros items0. cbv zeta.
    destruct (IH _ Hok') as [[Hex Hstreams]|[(Hraise & pre & log & Hpre & Hlog)|Hdbg]];
      [lia| | |right; right; exact Hdbg].
    - left. split; [exact Hex|].
      eapply streams_ok_back; [exact HL|exact Hadv|].
      eapply streams_ok_after; eassumption.
    - right. left. split; [exact Hraise|]. exists (items0 ++ pre), log.
      split; [rewrite Hpre, app_assoc; reflexivity|exact Hlog]. }
  destruct (overlap sc).
  - destruct Hstep as (log2 & _ & ->).
    specialize (Hnext (Log <$> (log1 ++ log2))). cbv zeta in Hnext.
    destruct (RecordIterator_loop idx_iter debug fuel chroms verbose trim _)
      as [items fin]. exact Hnext.
  - rewrite Hstep.
    destruct (snd (RecordIterator_debug debug verbose _ _)) as [[]|e] eqn:Hdbg.
    + specialize (Hnext ((Log <$> (log1 ++ fst (RecordIterator_debug debug verbose
                            (records (cursor_after st1 sc idxs cci ppe))
                            (is_min (cursor_after st1 sc idxs cci ppe)))))
                         ++ [Yield (records (cursor_after st1 sc idxs cci ppe))
                                   (is_min (cursor_after st1 sc idxs cci ppe))])).
      cbv zeta in Hnext.
      destruct (RecordIterator_loop idx_iter debug fuel chroms verbose trim _)
        as [items fin]. cbn [fst snd] in *.
      rewrite <- app_assoc in Hnext. exact Hnext.
    + right. right. apply RecordIterator_debug_raise in Hdbg as [Hv Hd].
      split; [exact Hv|]. exists e. split; [reflexivity|exact Hd].
Qed.


(** ** The whole run of the generator *)

Lemma sum_seq_lookup {A} (g : A -> nat) (pre l : list A) :
  sum_list_with (fun i => from_option g 0%nat ((pre ++ l) !! i))
                (seq (length pre) (length l))
  = sum_list_with g l.
Proof.
  revert pre. induction l as [|x l IH]; intros pre; [reflexivity|].
  cbn [length seq sum_list_with]. rewrite list_lookup_middle by reflexivity.
  cbn [from_option]. f_equal.
  specialize (IH (pre ++ [x])). rewrite <- app_assoc in IH. cbn [app] in IH.
  rewrite length_app in IH. cbn [length] in IH.
  replace (length pre + 1)%nat with (S (length pre)) in IH by lia. exact IH.
Qed.

Lemma RecordIterator_init_slot readers idx rd :
  readers !! idx = Some rd ->
  slot_at (RecordIterator_init readers) idx = Some (rd, None, true).
Proof.
  intros H. unfold slot_at, RecordIterator_init. cbn. rewrite H.
  pose proof (lookup_lt_Some _ _ _ H) as Hlt.
  rewrite !lookup_replicate_2 by exact Hlt. reflexivity.
Qed.

Lemma RecordIterator_init_ok chroms readers :
  cursor_ok chroms (RecordIterator_init readers).
Proof.
  unfold cursor_ok, cursor_lengths, records_known, RecordIterator_init. cbn.
  rewrite !length_replicate. repeat split.
  - intros idx r H. apply lookup_replicate in H as [H _]. discriminate.
  - intros idx H. apply lookup_replicate in H as [H _]. discriminate.
  - right. unfold all_none. apply forallb_forall. intros x Hx.
    apply list_elem_of_In, elem_of_replicate in Hx as [-> _]. reflexivity.
Qed.

Lemma RecordIterator_turns_sum readers :
  RecordIterator_turns readers
  = S (sum_list_with (fun rd : list TRRecord => (length rd + 1)%nat) readers).
Proof.
  unfold RecordIterator_turns.
  induction readers as [|rd readers IH]; cbn [foldr length sum_list_with]; lia.
Qed.

Lemma RecordIterator_init_measure rds :
  (cursor_measure (RecordIterator_init rds) < RecordIterator_turns rds)%nat.
Proof.
  rewrite RecordIterator_turns_sum. unfold cursor_measure.
  change (readers (RecordIterator_init rds)) with rds.
  rewrite <- (sum_seq_lookup (fun rd : list TRRecord => (length rd + 1)%nat) [] rds).
  cbn [app length]. apply Nat.lt_succ_r, sum_list_with_le.
  intros idx Hin. apply elem_of_seq in Hin as [_ Hlt]. cbn in Hlt.
  destruct (lookup_lt_is_Some_2 rds idx Hlt) as [rd Hrd].
  rewrite (RecordIterator_init_slot rds idx rd Hrd), Hrd.
  cbn. lia.
Qed.

Lemma RecordIterator_init_streams chroms readers idx rd :
  all_streams_ok chroms (RecordIterator_init readers) ->
  readers !! idx = Some rd -> stream_ok chroms None rd = true.
Proof.
  intros Hok Hrd. apply (Hok idx _ (RecordIterator_init_slot readers idx rd Hrd)).
Qed.


Lemma index_of_None x l : x ∉ l -> index_of x l = None.
Proof.
  intros Hnin. destruct (index_of x l) as [p|] eqn:Hp; [|reflexivity].
  apply index_of_Some in Hp as [Hp _]. exfalso. apply Hnin.
  eapply list_elem_of_lookup_2, Hp.
Qed.

Lemma stream_ok_app_false chroms prev pre rest :
  (forall p, stream_ok chroms p rest = false) ->
  stream_ok chroms prev (pre ++ rest) = false.
Proof.
  intros Hrest. revert prev. induction pre as [|r pre IH]; intros prev; [apply Hrest|].
  cbn [app stream_ok]. destruct (order_key chroms r); [|reflexivity].
  rewrite IH. apply andb_false_r.
Qed.

Lemma stream_ok_disorder chroms prev pre r1 r2 post k1 k2 :
  order_key chroms r1 = Some k1 -> order_key chroms r2 = Some k2 ->
  order_lt k2 k1 = true ->
  stream_ok chroms prev (pre ++ r1 :: r2 :: post) = false.
Proof.
  intros H1 H2 Hlt. apply stream_ok_app_false. intros p.
  cbn [stream_ok]. rewrite H1, H2, Hlt. cbn [negb andb]. apply andb_false_r.
Qed.

Lemma stream_ok_unknown chroms prev pre r post :
  chrom r ∉ chroms -> stream_ok chroms prev (pre ++ r :: post) = false.
Proof.
  intros Hnin. apply stream_ok_app_false. intros p.
  cbn [stream_ok]. unfold order_key. rewrite (index_of_None _ _ Hnin). reflexivity.
Qed.

Lemma next_assert_order_disorder chroms idx r1 r2 rest k1 k2 :
  order_key chroms r1 = Some k1 -> order_key chroms r2 = Some k2 ->
  order_lt k2 k1 = true ->
  _next_assert_order (r2 :: rest) (Some r1) chroms idx
  = ([Warning (RecordOutOfOrder (idx + 1) (chrom r1) (pos r1))],
     Raise BadOrderException).
Proof.
  unfold order_key, _next_assert_order, chroms_index. intros H1 H2 Hlt.
  destruct (index_of (chrom r1) chroms) as [i1|] eqn:E1; [|discriminate].
  destruct (index_of (chrom r2) chroms) as [i2|] eqn:E2; [|discriminate].
  injection H1 as <-. injection H2 as <-.
  assert (Hin : chrom r2 ∈ chroms).
  { apply index_of_Some in E2 as [E2 _]. eapply list_elem_of_lookup_2, E2. }
  rewrite (bool_decide_eq_true_2 _ Hin). cbn [negb].
  cbn [lift bind fst snd app]. rewrite Hlt. reflexivity.
Qed.

Lemma next_assert_order_unknown chroms idx r rest record :
  chrom r ∉ chroms ->
  _next_assert_order (r :: rest) record chroms idx
  = ([Warning (ChromNotInContigs (idx + 1) (chrom r) chroms);
      Warning NeedContigHeader; Warning BcftoolsReheaderHint],
     Raise BadOrderException).
Proof.
  intros Hnin. unfold _next_assert_order.
  rewrite (bool_decide_eq_false_2 _ Hnin). reflexivity.
Qed.

Lemma has_fault_stream chroms reader f :
  has_fault chroms reader f -> stream_ok chroms None reader = false.
Proof.
  destruct f; cbn [has_fault].
  - intros (pre & r & post & -> & Hnin). apply stream_ok_unknown, Hnin.
  - intros (pre & r1 & r2 & post & k1 & k2 & -> & H1 & H2 & Hlt).
    eapply stream_ok_disorder; eassumption.
Qed.

(** A reader that fails an order check keeps the generator from reading
    its readers to the end: it ends by [BadOrderException] after the
    warnings of the pull that failed, unless the debugging output has
    raised before. *)
Lemma RecordIterator_fault_end (idx_iter : SetOrder) debug readers chroms verbose trim
    idx rd :
  readers !! idx = Some rd -> stream_ok chroms None rd = false ->
  snd (RecordIterator idx_iter debug readers chroms verbose trim) <> Exhausted /\
  ((exists items log,
      RecordIterator idx_iter debug readers chroms verbose trim
      = (items ++ (Log <$> log), Raised BadOrderException) /\
      fault_log chroms log) \/
   (verbose = true /\
    exists e, snd (RecordIterator idx_iter debug readers chroms verbose trim) = Raised e /\
              debug_raised debug e)).
Proof.
  intros Hrd Hbad. unfold RecordIterator.
  destruct (RecordIterator_loop_outcome_verbose idx_iter debug chroms verbose trim
              (RecordIterator_turns readers) (RecordIterator_init readers)
              (RecordIterator_init_ok chroms readers)
              (RecordIterator_init_measure readers))
    as [[_ Hok]|[(Hend & items & log & Hitems & Hlog)|(Hv & e & He & Hd)]].
  - rewrite (RecordIterator_init_streams chroms readers idx rd Hok Hrd) in Hbad.
    discriminate.
  - split; [rewrite Hend; discriminate|]. left. exists items, log.
    split; [|exact Hlog].
    destruct (RecordIterator_loop idx_iter debug _ chroms verbose trim _) as [it fin].
    cbn [fst snd] in *. congruence.
  - split; [rewrite He; discriminate|]. right. split; [exact Hv|]. eauto.
Qed.

(** The turn in which a pull fails ends the generator there. *)
Lemma RecordIterator_step_fault (idx_iter : SetOrder) debug chroms verbose trim st idx
    rd rc l0 e0 :
  cursor_lengths st -> records_known chroms (records st) ->
  slot_at st idx = Some (rd, rc, true) ->
  _next_assert_order rd rc chroms idx = (l0, Raise e0) ->
  exists log,
    fault_log chroms log /\
    RecordIterator_step idx_iter debug chroms verbose trim st
    = (log, Raise BadOrderException) /\
    forall fuel,
      RecordIterator_loop idx_iter debug (S fuel) chroms verbose trim st
      = (Log <$> log, Raised BadOrderException).
Proof.
  intros HL HK Hslot Hpull.
  destruct (RecordIterator_advance chroms st) as [log [st1|e]] eqn:Hadv.
  - exfalso.
    destruct (RecordIterator_advance_ok chroms st log st1 HL Hadv)
      as (_ & _ & _ & _ & Hslots).
    destruct (Hslots idx _ Hslot) as (s1 & _ & Hrel).
    unfold advanced in Hrel. cbn [fst snd] in Hrel.
    destruct Hrel as (l & Hn & _). congruence.
  - destruct (RecordIterator_advance_raise_log chroms st log e HL HK Hadv) as [-> Hlog].
    assert (Hstep : RecordIterator_step idx_iter debug chroms verbose trim st
                    = (log, Raise BadOrderException)).
    { unfold RecordIterator_step. rewrite Hadv. reflexivity. }
    exists log. split; [exact Hlog|]. split; [exact Hstep|].
    intros fuel. cbn [RecordIterator_loop]. rewrite Hstep. reflexivity.
Qed.

Section MainRun.
Context (set_iter : gset string -> list string).
Context (pyfloat : string -> option PyFloat).
Context (sort_floats : list (PyFloat * string) -> list (PyFloat * string)).

Lemma main_walk_app vcftype num_samples useinfo useformat format_type trim items1 items2 :
  main_walk set_iter pyfloat sort_floats vcftype num_samples useinfo useformat
    format_type trim (items1 ++ items2)
  = (main_walk set_iter pyfloat sort_floats vcftype num_samples useinfo useformat
       format_type trim items1 ;;;
     main_walk set_iter pyfloat sort_floats vcftype num_samples useinfo useformat
       format_type trim items2).
Proof.
  induction items1 as [|[records is_min|e] items1 IH]; cbn [app main_walk].
  - rewrite bind_ret_l. reflexivity.
  - rewrite IH, bind_assoc. reflexivity.
  - rewrite IH, bind_assoc. reflexivity.
Qed.

Lemma main_walk_Log vcftype num_samples useinfo useformat format_type trim log :
  main_walk set_iter pyfloat sort_floats vcftype num_samples useinfo useformat
    format_type trim (Log <$> log)
  = (log, Ok tt).
Proof.
  induction log as [|e log IH]; [reflexivity|].
  cbn [fmap list_fmap main_walk]. change (list_fmap _ _ Log log) with (Log <$> log).
  rewrite IH. reflexivity.
Qed.

(** When the generator ends by [BadOrderException] after the warnings
    [log], [main] writes what the groups yielded before produce, then
    these warnings and nothing more, and returns 1; unless one of those
    groups had already ended the run by an exception of its own. *)
Lemma main_merge_at_fault (idx_iter : SetOrder) debug vcftype num_samples useinfo
    useformat format_type verbose trim vcfreaders chroms items log :
  RecordIterator idx_iter debug vcfreaders chroms verbose trim
  = (items ++ (Log <$> log), Raised BadOrderException) ->
  main_merge set_iter pyfloat sort_floats idx_iter debug vcftype num_samples useinfo
    useformat format_type verbose trim vcfreaders chroms
  = match snd (main_walk set_iter pyfloat sort_floats vcftype num_samples useinfo
                 useformat format_type trim items) with
    | Ok _ =>
        (fst (main_walk set_iter pyfloat sort_floats vcftype num_samples useinfo
                useformat format_type trim items) ++ log, Ok (Some 1))
    | Raise e =>
        (fst (main_walk set_iter pyfloat sort_floats vcftype num_samples useinfo
                useformat format_type trim items), Raise e)
    end.
Proof.
  intros Hgen. unfold main_merge. rewrite Hgen, main_walk_app, main_walk_Log.
  destruct (main_walk set_iter pyfloat sort_floats vcftype num_samples useinfo
              useformat format_type trim items) as [l [[]|e]]; cbn [bind fst snd ret].
  - rewrite app_nil_r. reflexivity.
  - reflexivity.
Qed.

Lemma main_merge_not_0 (idx_iter : SetOrder) debug vcftype num_samples useinfo
    useformat format_type verbose trim vcfreaders chroms :
  snd (RecordIterator idx_iter debug vcfreaders chroms verbose trim) <> Exhausted ->
  snd (main_merge set_iter pyfloat sort_floats idx_iter debug vcftype num_samples
         useinfo useformat format_type verbose trim vcfreaders chroms) <> Ok (Some 0).
Proof.
  intros Hend. unfold main_merge.
  destruct (RecordIterator idx_iter debug vcfreaders chroms verbose trim) as [items fin].
  cbn [snd] in Hend.
  destruct (main_walk set_iter pyfloat sort_floats vcftype num_samples useinfo
              useformat format_type trim items) as [l [[]|e]]; cbn [bind fst snd];
    [|discriminate].
  destruct fin as [|[]|]; cbn; congruence.
Qed.

(** The run over readers of which one fails an order check. *)
Lemma main_merge_fault (idx_iter : SetOrder) debug vcftype num_samples useinfo useformat
    format_type verbose trim vcfreaders chroms idx reader :
  vcfreaders !! idx = Some reader ->
  stream_ok chroms None reader = false ->
  snd (RecordIterator idx_iter debug vcfreaders chroms verbose trim) <> Exhausted /\
  snd (main_merge set_iter pyfloat sort_floats idx_iter debug vcftype num_samples
         useinfo useformat format_type verbose trim vcfreaders chroms) <> Ok (Some 0) /\
  ((exists items log,
      RecordIterator idx_iter debug vcfreaders chroms verbose trim
      = (items ++ (Log <$> log), Raised BadOrderException) /\
      fault_log chroms log /\
      main_merge set_iter pyfloat sort_floats idx_iter debug vcftype num_samples useinfo
        useformat format_type verbose trim vcfreaders chroms
      = match snd (main_walk set_iter pyfloat sort_floats vcftype num_samples useinfo
                     useformat format_type trim items) with
        | Ok _ =>
            (fst (main_walk set_iter pyfloat sort_floats vcftype num_samples useinfo
                    useformat format_type trim items) ++ log, Ok (Some 1))
        | Raise e =>
            (fst (main_walk set_iter pyfloat sort_floats vcftype num_samples useinfo
                    useformat format_type trim items), Raise e)
        end) \/
   (verbose = true /\
    exists e, snd (RecordIterator idx_iter debug vcfreaders chroms verbose trim)
              = Raised e /\ debug_raised debug e)).
Proof.
  intros Hrd Hbad.
  destruct (RecordIterator_fault_end idx_iter debug vcfreaders chroms verbose trim idx
              reader Hrd Hbad) as [Hne Hend].
  split; [exact Hne|]. split; [apply main_merge_not_0, Hne|].
  destruct Hend as [(items & log & Hgen & Hlog)|Hdbg]; [left|right; exact Hdbg].
  exists items, log. split; [exact Hgen|]. split; [exact Hlog|].
  apply main_merge_at_fault, Hgen.
Qed.

(** C3: when a reader holds two consecutive records of which the second
    sorts strictly before the first by (index of the chromosome in the
    contig list, start position), the pull that reaches the second one
    reports the first one's locus and raises [BadOrderException]. The
    turn of the generator that makes this pull ends the generator by
    that exception, with no yield. The run over such readers never
    reads them to the end and [main] never returns 0: the generator ends
    by [BadOrderException] after the warnings of the first pull that
    failed, and [main] writes what the groups yielded before it
    produce, then these warnings and nothing more, and returns 1. The
    other ways for the run to end are exceptions raised before that
    pull: by [MergeRecords] on one of the earlier groups or, with
    [verbose], by the debugging output. *)
Theorem C3_order_violation_aborts (idx_iter : SetOrder) debug vcftype num_samples
    useinfo useformat format_type verbose trim vcfreaders chroms idx pre r1 r2 post k1 k2 :
  vcfreaders !! idx = Some (pre ++ r1 :: r2 :: post) ->
  order_key chroms r1 = Some k1 ->
  order_key chroms r2 = Some k2 ->
  order_lt k2 k1 = true ->
  _next_assert_order (r2 :: post) (Some r1) chroms idx
  = ([Warning (RecordOutOfOrder (idx + 1) (chrom r1) (pos r1))],
     Raise BadOrderException) /\
  (forall st,
     cursor_lengths st -> records_known chroms (records st) ->
     slot_at st idx = Some (r2 :: post, Some r1, true) ->
     exists log,
       fault_log chroms log /\
       RecordIterator_step idx_iter debug chroms verbose trim st
       = (log, Raise BadOrderException) /\
       forall fuel,
         RecordIterator_loop idx_iter debug (S fuel) chroms verbose trim st
         = (Log <$> log, Raised BadOrderException)) /\
  snd (RecordIterator idx_iter debug vcfreaders chroms verbose trim) <> Exhausted /\
  snd (main_merge set_iter pyfloat sort_floats idx_iter debug vcftype num_samples
         useinfo useformat format_type verbose trim vcfreaders chroms) <> Ok (Some 0) /\
  ((exists items log,
      RecordIterator idx_iter debug vcfreaders chroms verbose trim
      = (items ++ (Log <$> log), Raised BadOrderException) /\
      fault_log chroms log /\
      main_merge set_iter pyfloat sort_floats idx_iter debug vcftype num_samples useinfo
        useformat format_type verbose trim vcfreaders chroms
      = match snd (main_walk set_iter pyfloat sort_floats vcftype num_samples useinfo
                     useformat format_type trim items) with
        | Ok _ =>
            (fst (main_walk set_iter pyfloat sort_floats vcftype num_samples useinfo
                    useformat format_type trim items) ++ log, Ok (Some 1))
        | Raise e =>
            (fst (main_walk set_iter pyfloat sort_floats vcftype num_samples useinfo
                    useformat format_type trim items), Raise e)
        end) \/
   (verbose = true /\
    exists e, snd (RecordIterator idx_iter debug vcfreaders chroms verbose trim)
              = Raised e /\ debug_raised debug e)).
Proof.
  intros Hrd H1 H2 Hlt.
  pose proof (next_assert_order_disorder chroms idx r1 r2 post k1 k2 H1 H2 Hlt) as Hpull.
  split; [exact Hpull|]. split.
  - intros st HL HK Hslot.
    eapply RecordIterator_step_fault; [exact HL|exact HK|exact Hslot|exact Hpull].
  - eapply main_merge_fault; [exact Hrd|].
    eapply stream_ok_disorder; eassumption.
Qed.

(** C8, as the code has it: an order violation within one reader and a
    record on a chromosome missing from the contig list are both fatal,
    and reach the caller as one and the same failure. The pull that
    meets either raises [BadOrderException]; what it has reported
    before differs: three warnings that name the chromosome in the one
    case, one warning that names the locus of the preceding record in
    the other. Whichever of the two faults a reader has, the run never
    reads the readers to the end and [main] never returns 0: the
    generator ends by [BadOrderException] after the warnings of the
    first pull that failed, and [main] returns 1, unless an exception
    was raised before that pull, by [MergeRecords] on an earlier group
    or, with [verbose], by the debugging output. *)
Theorem C8_faults_share_one_failure (idx_iter : SetOrder) debug vcftype num_samples
    useinfo useformat format_type verbose trim vcfreaders chroms idx reader (f : Fault) :
  vcfreaders !! idx = Some reader ->
  has_fault chroms reader f ->
  (forall r rest record i, chrom r ∉ chroms ->
     _next_assert_order (r :: rest) record chroms i
     = ([Warning (ChromNotInContigs (i + 1) (chrom r) chroms);
         Warning NeedContigHeader; Warning BcftoolsReheaderHint],
        Raise BadOrderException)) /\
  (forall r1 r2 rest k1 k2 i,
     order_key chroms r1 = Some k1 -> order_key chroms r2 = Some k2 ->
     order_lt k2 k1 = true ->
     _next_assert_order (r2 :: rest) (Some r1) chroms i
     = ([Warning (RecordOutOfOrder (i + 1) (chrom r1) (pos r1))],
        Raise BadOrderException)) /\
  snd (RecordIterator idx_iter debug vcfreaders chroms verbose trim) <> Exhausted /\
  snd (main_merge set_iter pyfloat sort_floats idx_iter debug vcftype num_samples
         useinfo useformat format_type verbose trim vcfreaders chroms) <> Ok (Some 0) /\
  ((exists items log,
      RecordIterator idx_iter debug vcfreaders chroms verbose trim
      = (items ++ (Log <$> log), Raised BadOrderException) /\
      fault_log chroms log /\
      main_merge set_iter pyfloat sort_floats idx_iter debug vcftype num_samples useinfo
        useformat format_type verbose trim vcfreaders chroms
      = match snd (main_walk set_iter pyfloat sort_floats vcftype num_samples useinfo
                     useformat format_type trim items) with
        | Ok _ =>
            (fst (main_walk set_iter pyfloat sort_floats vcftype num_samples useinfo
                    useformat format_type trim items) ++ log, Ok (Some 1))
        | Raise e =>
            (fst (main_walk set_iter pyfloat sort_floats vcftype num_samples useinfo
                    useformat format_type trim items), Raise e)
        end) \/
   (verbose = true /\
    exists e, snd (RecordIterator idx_iter debug vcfreaders chroms verbose trim)
              = Raised e /\ debug_raised debug e)).
Proof.
  intros Hrd Hfault. split; [|split].
  - intros r rest record i Hnin. apply next_assert_order_unknown, Hnin.
  - intros r1 r2 rest k1 k2 i H1 H2 Hlt.
    eapply next_assert_order_disorder; eassumption.
  - eapply main_merge_fault; [exact Hrd|].
    eapply has_fault_stream, Hfault.
Qed.
End MainRun.

(** ** The statements at the example inputs *)

Ltac group_of_two :=
  let H := fresh "H" in
  intros [|[|?]] H; cbn in H; try discriminate H; eexists; reflexivity.

Ltac participant_cases H :=
  apply list_elem_of_In in H; vm_compute in H;
  repeat (destruct H as [H|H]; [injection H as ? ?; subst|]);
  try contradiction.

Lemma C1_unified_reference_witness :
  GetRefAllele example_group [true; true] false = Ok (Some "TCTG").
Proof.
  refine (proj1 (proj1 (C1_unified_reference elements example_float example_sort hipstr
                          [1%nat; 1%nat] example_group [true; true]
                          [("END", true)] [] [] false _ _) "TCTG" _)).
  - group_of_two.
  - exists 0%nat. reflexivity.
  - intros i r Hin. participant_cases Hin; reflexivity.
Defined.


Lemma C5_allele_maps_witness :
  GetAltAlleles elements example_float example_sort example_group [true; true] hipstr false
  = Ok (["TCTGTCTG"; "TCTGTCTGTCTG"], [["0"; "1"]; ["0"; "2"]]).
Proof.
  refine (proj2 (proj2 C5_allele_maps elements example_float example_sort hipstr
                   example_A example_B _ _ _ _ _ _ _)).
  - intros s. reflexivity.
  - discriminate.
  - discriminate.
  - reflexivity.
  - reflexivity.
  - reflexivity.
  - reflexivity.
Defined.

Lemma C6_sample_columns_witness :
  exists secs,
    length secs = 2%nat /\ tabs_written (concat secs) = sum_list [1%nat; 1%nat].
Proof.
  destruct (C6_sample_columns elements example_float example_sort hipstr [1%nat; 1%nat]
              example_group [true; true] [("END", true)] [] [] false "TCTG"
              (fst (MergeRecords elements example_float example_sort hipstr [1%nat; 1%nat]
                      example_group [true; true] [("END", true)] [] [] false)))
    as (r0 & out & secs & _ & Hlen & _ & Htabs).
  - group_of_two.
  - exists 0%nat. reflexivity.
  - reflexivity.
  - intros i r Hin. participant_cases Hin.
    + split; [reflexivity|]. intros fmt arr Hf. discriminate Hf.
    + split; [reflexivity|]. intros fmt arr Hf. discriminate Hf.
  - vm_compute. reflexivity.
  - vm_compute. reflexivity.
  - exists secs. split; [exact Hlen|exact Htabs].
Defined.

Lemma C7_required_info_fields_witness :
  GetInfoItem example_group [true; true] "END" true = ([], Ok (Some "END=103")).
Proof.
  refine (proj1 (proj1 (C7_required_info_fields elements example_float example_sort hipstr
                          [1%nat; 1%nat] example_group [true; true]
                          [("END", true)] [] [] false "TCTG"
                          ["TCTGTCTG"; "TCTGTCTGTCTG"] [["0"; "1"]; ["0"; "2"]]
                          _ _ _ _) "END" "103" _)).
  - group_of_two.
  - exists 0%nat. reflexivity.
  - vm_compute. reflexivity.
  - vm_compute. reflexivity.
  - intros i r Hin. participant_cases Hin; reflexivity.
Defined.

Lemma C9_trimmed_ref_untrimmed_alts_witness :
  written (fst (MergeRecords elements example_float example_sort hipstr [1%nat; 1%nat]
                  example_group [true; true] [("END", true)] [] [] true))
    !! 6%nat = Some "TCTG".
Proof.
  refine (proj1 (proj1 (C9_trimmed_ref_untrimmed_alts elements example_float example_sort hipstr
                          [1%nat; 1%nat] example_group [true; true]
                          [("END", true)] [] [] _ _)
                   "TCTG" ["TCTGTCTG"; "TCTGTCTGTCTG"] [["0"; "1"]; ["0"; "2"]]
                   _ _)).
  - group_of_two.
  - exists 0%nat. reflexivity.
  - intros i r Hin. participant_cases Hin; reflexivity.
  - vm_compute. reflexivity.
Defined.


Lemma C3_order_violation_aborts_witness :
  snd (RecordIterator ascending example_debug example_disorder_readers ["chr1"]
         false false) <> Exhausted.
Proof.
  refine (proj1 (proj2 (proj2 (C3_order_violation_aborts elements example_float
                                 example_sort ascending example_debug hipstr
                                 [1%nat] [] [] [] false false
                                 example_disorder_readers ["chr1"]
                                 0%nat [] example_left example_early []
                                 (0%nat, 10) (0%nat, 5) _ _ _ _)))); reflexivity.
Defined.

Lemma C8_faults_share_one_failure_witness :
  snd (RecordIterator ascending example_debug example_unknown_readers ["chr1"]
         false false) <> Exhausted.
Proof.
  refine (proj1 (proj2 (proj2 (C8_faults_share_one_failure elements example_float
                                 example_sort ascending example_debug
                                 hipstr [1%nat] [] [] [] false false
                                 example_unknown_readers ["chr1"] 0%nat
                                 [example_elsewhere] UnknownContig _ _)))).
  - reflexivity.
  - exists [], example_elsewhere, []. split; [reflexivity|].
    intros Hin. apply list_elem_of_In in Hin. vm_compute in Hin.
    destruct Hin as [Hin|[]]. discriminate Hin.
Defined.


(** Two alternates that the key ties come out in the order in which the
    set is iterated: the same group gives two lists of unified
    alternates, and two allele maps. *)
Lemma C4_tied_alternates_follow_the_iteration :
  (forall s, reversed s ≡ₚ elements s) /\
  pyint (slice_to_last 4 "<STR5>") = pyint (slice_to_last 4 "<STR05>") /\
  GetAltAlleles elements example_float example_sort [Some example_tied] [true] eh false
  = Ok (["<STR5>"; "<STR05>"], [["0"; "1"; "2"]]) /\
  GetAltAlleles reversed example_float example_sort [Some example_tied] [true] eh false
  = Ok (["<STR05>"; "<STR5>"], [["0"; "2"; "1"]]).
Proof.
  split; [intros s; unfold reversed; symmetry; apply Permutation_rev|].
  repeat split; vm_compute; reflexivity.
Qed.

(** A required INFO field that a participant lacks ends the run: the
    record under way stops after its FILTER column, and the group that
    follows is never merged. *)
Lemma C7_missing_required_field_ends_run :
  GetInfoItem example_bare_group [true; true] "END" true = ([], Raise ValueError) /\
  snd (MergeRecords elements example_float example_sort hipstr [1%nat; 1%nat] example_bare_group
         [true; true] [("END", true)] [] [] false) = Raise ValueError /\
  main_merge elements example_float example_sort ascending example_debug hipstr [1%nat; 1%nat] [("END", true)] [] [] false false
    [[example_A; example_later]; [example_bare; example_later]] ["chr1"]
  = (fixed_columns example_A "TCTG" ["TCTGTCTG"], Raise ValueError).
Proof. repeat split; vm_compute; reflexivity. Qed.

(** A reader with a record on an unlisted chromosome and a reader out
    of order end the run in one and the same way. *)
Lemma C8_unknown_contig_and_disorder_fail_alike :
  snd (RecordIterator ascending example_debug example_unknown_readers ["chr1"] false false)
  = Raised BadOrderException /\
  snd (RecordIterator ascending example_debug example_disorder_readers ["chr1"] false false)
  = Raised BadOrderException /\
  snd (main_merge elements example_float example_sort ascending example_debug hipstr [1%nat] [] [] [] false false
         example_unknown_readers ["chr1"]) = Ok (Some 1) /\
  snd (main_merge elements example_float example_sort ascending example_debug hipstr [1%nat] [] [] [] false false
         example_disorder_readers ["chr1"]) = Ok (Some 1).
Proof. repeat split; vm_compute; reflexivity. Qed.

(** * Further properties *)

(** ** The generator on readers that are in order *)

Lemma next_assert_order_sorted reader record chroms idx :
  stream_ok chroms record reader = true ->
  exists rd rc, _next_assert_order reader record chroms idx = ([], Ok (rd, rc)) /\
                stream_ok chroms rc rd = true.
Proof.
  intros Hok. destruct (_next_assert_order reader record chroms idx) as [l [[rd rc]|e]] eqn:Hn.
  - pose proof Hn as Hn'.
    apply next_assert_order_ok in Hn' as (-> & Heq & _).
    exists rd, rc. split; [reflexivity|]. rewrite <- Heq. exact Hok.
  - exfalso. revert Hn. unfold _next_assert_order.
    destruct reader as [|next_rec reader']; [discriminate|].
    cbn [stream_ok] in Hok. unfold order_key in Hok.
    destruct (index_of (chrom next_rec) chroms) as [ni|] eqn:Hni; [|discriminate].
    assert (Hin : chrom next_rec ∈ chroms).
    { apply index_of_Some in Hni as [Hni _]. eapply list_elem_of_lookup_2, Hni. }
    rewrite (bool_decide_eq_true_2 _ Hin). cbn [negb].
    destruct record as [record|]; [|discriminate].
    unfold chroms_index. rewrite Hni, bind_lift_ok.
    destruct (index_of (chrom record) chroms) as [ri|] eqn:Hri; [|discriminate].
    rewrite bind_lift_ok.
    apply andb_true_iff in Hok as [Hlt _]. apply negb_true_iff in Hlt.
    rewrite Hlt. discriminate.
Qed.





Lemma stream_ok_keys chroms prev reader :
  stream_ok chroms prev reader = true <->
  exists keys,
    Forall2 (fun r k => order_key chroms r = Some k) reader keys /\
    Sorted order_le keys /\
    match prev, keys with
    | Some p, k :: _ => exists kp, order_key chroms p = Some kp /\ order_le kp k
    | _, _ => True
    end.
Proof.
  revert prev. induction reader as [|r reader IH]; intros prev.
  - cbn [stream_ok]. split; [|reflexivity]. intros _. exists [].
    split; [constructor|]. split; [constructor|]. destruct prev; exact I.
  - cbn [stream_ok]. split.
    + destruct (order_key chroms r) as [k|] eqn:Hk; [|discriminate].
      intros H. apply andb_true_iff in H as [Hprev Hrest].
      apply IH in Hrest as (keys & HF & HS & Hhd).
      exists (k :: keys). split; [constructor; assumption|]. split.
      * constructor; [exact HS|]. destruct keys as [|k' keys]; [constructor|].
        destruct Hhd as (kr & Hkr & Hle). constructor. congruence.
      * destruct prev as [p|]; [|exact I].
        destruct (order_key chroms p) as [kp|]; [|discriminate].
        exists kp. split; [reflexivity|]. apply negb_true_iff, Hprev.
    + intros (keys & HF & HS & Hhd).
      inversion HF as [|r' k reader' keys' Hk HF' E1 E2]; subst.
      rewrite Hk. apply andb_true_iff. split.
      * destruct prev as [p|]; [|reflexivity].
        destruct Hhd as (kp & -> & Hle). apply negb_true_iff, Hle.
      * apply IH. exists keys'. split; [exact HF'|].
        apply Sorted_inv in HS as [HS Hhd']. split; [exact HS|].
        destruct keys' as [|k' keys']; [exact I|].
        exists k. split; [exact Hk|]. inversion Hhd'. assumption.
Qed.

Lemma stream_ok_sorted chroms reader :
  stream_ok chroms None reader = true <-> reader_sorted chroms reader.
Proof.
  rewrite stream_ok_keys. unfold reader_sorted. split.
  - intros (keys & HF & HS & _). eauto.
  - intros (keys & HF & HS). exists keys. auto.
Qed.






(** ** One turn of the generator, from a state it can be in *)

Lemma forM_from_log_nil {St} (Inv : nat -> St -> Prop) (body : nat -> St -> M St) :
  forall n i s log s',
    (forall j s l s1, (i <= j < i + n)%nat -> Inv j s -> body j s = (l, Ok s1) ->
                      l = [] /\ Inv (S j) s1) ->
    Inv i s -> forM_from i n body s = (log, Ok s') -> log = [].
Proof.
  induction n as [|n IH]; intros i s log s' Hbody Hinv; simpl.
  - intros [= <- _]. reflexivity.
  - rewrite bind_pair. destruct (body i s) as [l1 [s1|e]] eqn:Hb; simpl; [|discriminate].
    destruct (forM_from (S i) n body s1) as [l2 r2] eqn:Hrest. simpl.
    intros [= <- ->]. destruct (Hbody i s l1 s1) as [-> Hinv1]; [lia|exact Hinv|exact Hb|].
    cbn [app]. eapply (IH (S i) s1 l2 s'); [|exact Hinv1|exact Hrest].
    intros j s2 l s3 Hj. apply Hbody. lia.
Qed.

Lemma advance_body_log chroms j st l st1 :
  (m <- lift (getitem (is_min st) j) ;;
   if (m : bool) then
     reader <- lift (getitem (readers st) j) ;;
     record <- lift (getitem (records st) j) ;;
     rr <- _next_assert_order reader record chroms j ;;
     ret {| readers := <[j := fst rr]> (readers st);
            records := <[j := snd rr]> (records st);
            is_min := <[j := false]> (is_min st);
            curr_chrom_idx := curr_chrom_idx st;
            prev_pos_end := prev_pos_end st |}
   else ret st) = (l, Ok st1) -> l = [].
Proof.
  unfold getitem.
  destruct (is_min st !! j) as [m|] eqn:Hm; [|rewrite bind_lift_raise; discriminate].
  rewrite bind_lift_ok. destruct m.
  - destruct (readers st !! j) as [rd|] eqn:Hrd; [|rewrite bind_lift_raise; discriminate].
    rewrite bind_lift_ok.
    destruct (records st !! j) as [rc|] eqn:Hrc; [|rewrite bind_lift_raise; discriminate].
    rewrite bind_lift_ok, bind_pair.
    destruct (_next_assert_order rd rc chroms j) as [l1 [[rd' rc']|e]] eqn:Hn;
      cbn [fst snd ret]; [|discriminate].
    apply next_assert_order_ok in Hn as (-> & _). intros [= <- _]. reflexivity.
  - unfold ret. intros [= <- _]. reflexivity.
Qed.

Lemma RecordIterator_advance_log chroms st log st1 :
  cursor_lengths st ->
  RecordIterator_advance chroms st = (log, Ok st1) -> log = [].
Proof.
  intros HL. unfold RecordIterator_advance, forM_range.
  apply (forM_from_log_nil (fun (_ : nat) (st' : Cursor) => cursor_lengths st'));
    [|exact HL].
  intros j s l s1 _ HLs Hb. split; [eapply advance_body_log, Hb|].
  eapply advance_body_ok; eassumption.
Qed.

Lemma RecordIterator_advance_end chroms st log st1 idx :
  cursor_ok chroms st ->
  RecordIterator_advance chroms st = (log, Ok st1) ->
  records st1 !! idx = Some None -> readers st1 !! idx = Some [].
Proof.
  intros (HL & HK & HE & HM) Hadv Hr.
  destruct (RecordIterator_advance_ok chroms st log st1 HL Hadv)
    as (HL1 & Hlen & _ & _ & Hslots).
  assert (Hlt : (idx < length (readers st))%nat).
  { destruct HL1 as [HL1 _]. rewrite <- Hlen, <- HL1. eapply lookup_lt_Some, Hr. }
  destruct (slot_at_lt st idx HL Hlt) as [s0 Hs0].
  destruct (Hslots idx s0 Hs0) as (s1 & Hs1 & Hrel).
  apply slot_at_Some in Hs1 as (Hrd1 & Hrec1 & Hf1). rewrite Hr in Hrec1.
  rewrite Hrd1. f_equal.
  apply slot_at_Some in Hs0 as (Hrd0 & Hrec0 & Hf0).
  unfold advanced in Hrel. destruct (snd s0) eqn:Hflag.
  - destruct Hrel as (l & Hn & _).
    destruct (fst s1) as [rd' rc'] eqn:Hfs. cbn [fst snd] in *. injection Hrec1 as <-.
    apply next_assert_order_ok in Hn as (_ & _ & [(_ & -> & _)|(r & _ & Hsome & _)]);
      [reflexivity|discriminate].
  - subst s1. rewrite <- Hrec1 in Hrec0.
    pose proof (HE idx Hf0 Hrec0) as Hnil. congruence.
Qed.

(** The three things a turn can come to: the pull of a record raises
    [BadOrderException]; no record is left; or a candidate group is
    found, and is dropped with its warnings or yielded. *)
Lemma RecordIterator_turn idx_iter debug chroms trim st :
  cursor_ok chroms st ->
  (exists log, RecordIterator_step idx_iter debug chroms false trim st = (log, Raise BadOrderException)) \/
  (exists st1,
     RecordIterator_advance chroms st = ([], Ok st1) /\
     all_none (records st1) = true /\
     RecordIterator_step idx_iter debug chroms false trim st = ([], Ok StepStop)) \/
  (exists st1 sc idxs cci ppe,
     let st' := cursor_after st1 sc idxs cci ppe in
     RecordIterator_advance chroms st = ([], Ok st1) /\
     cursor_lengths st1 /\ length (readers st1) = length (readers st) /\
     (forall idx b, is_min st1 !! idx = Some b -> b = false) /\
     idxs <> ∅ /\
     (forall idx, idx ∈ idxs ->
        exists r, records st1 !! idx = Some (Some r) /\
                  min_pos sc = Fin (span_pos trim r) /\
                  curr_pos_end sc = Fin (span_end trim r)) /\
     cursor_ok chroms st' /\
     (cursor_measure st' < cursor_measure st)%nat /\
     ((exists log2, overlap_warnings idx_iter (records st1) idxs log2 /\
                    RecordIterator_step idx_iter debug chroms false trim st = (log2, Ok (StepSkip st'))) \/
      RecordIterator_step idx_iter debug chroms false trim st = ([], Ok (StepYield st')))).
Proof.
  intros Hok. pose proof Hok as (HL & HK & HE & HM).
  destruct (RecordIterator_advance chroms st) as [log1 [st1|e]] eqn:Hadv.
  2: { left. exists log1. unfold RecordIterator_step. rewrite Hadv. cbn [bind].
       f_equal. f_equal. apply (RecordIterator_advance_raises chroms st HL HK e).
       rewrite Hadv. reflexivity. }
  right. pose proof (RecordIterator_advance_log chroms st log1 st1 HL Hadv) as ->.
  destruct (all_none (records st1)) eqn:Hnone.
  { left. exists st1. split; [reflexivity|]. split; [exact Hnone|].
    unfold RecordIterator_step. rewrite Hadv, bind_nil_ok, Hnone. reflexivity. }
  right.
  destruct (RecordIterator_step_found idx_iter debug chroms trim st [] st1 HL HK Hadv Hnone)
    as (sc & cci & ppe & idxs & Hseek & Hscan & Hidxs & _ & _ & Hstep).
  destruct (RecordIterator_advance_ok chroms st [] st1 HL Hadv) as (HL1 & Hlen & _).
  destruct Hscan as (_ & _ & H3 & _). destruct (H3 idxs Hidxs) as [Hne Hmembers].
  assert (Hmem : forall i, i ∈ idxs -> exists r, records st1 !! i = Some (Some r)).
  { intros i Hi. destruct (Hmembers i Hi) as (_ & r & Hr & _). eauto. }
  exists st1, sc, idxs, cci, ppe. cbv zeta.
  split; [reflexivity|]. split; [exact HL1|]. split; [exact Hlen|].
  split; [apply (RecordIterator_advance_flags chroms st [] st1 HL Hadv)|].
  split; [exact Hne|].
  split; [intros idx Hi; destruct (Hmembers idx Hi) as (_ & r & Hr); eauto|].
  split; [apply (cursor_after_ok chroms st [] st1); assumption|].
  split; [apply (RecordIterator_step_measure chroms st [] st1); assumption|].
  destruct (overlap sc).
  - left. destruct Hstep as (log2 & Hw & Hs). exists log2. split; [exact Hw|exact Hs].
  - right. exact Hstep.
Qed.

(** The same with [verbose]: the debugging output comes before the
    yield, and can raise. *)
Lemma RecordIterator_turn_verbose (idx_iter : SetOrder) debug chroms verbose trim st :
  cursor_ok chroms st ->
  (exists log e,
     RecordIterator_step idx_iter debug chroms verbose trim st = (log, Raise e)) \/
  (exists st1,
     RecordIterator_advance chroms st = ([], Ok st1) /\
     all_none (records st1) = true /\
     RecordIterator_step idx_iter debug chroms verbose trim st = ([], Ok StepStop)) \/
  (exists st1 sc idxs cci ppe,
     let st' := cursor_after st1 sc idxs cci ppe in
     RecordIterator_advance chroms st = ([], Ok st1) /\
     cursor_lengths st1 /\ length (readers st1) = length (readers st) /\
     (forall idx b, is_min st1 !! idx = Some b -> b = false) /\
     idxs <> ∅ /\
     (forall idx, idx ∈ idxs ->
        exists r, records st1 !! idx = Some (Some r) /\
                  min_pos sc = Fin (span_pos trim r) /\
                  curr_pos_end sc = Fin (span_end trim r)) /\
     cursor_ok chroms st' /\
     (cursor_measure st' < cursor_measure st)%nat /\
     ((exists log2, overlap_warnings idx_iter (records st1) idxs log2 /\
                    RecordIterator_step idx_iter debug chroms verbose trim st
                    = (log2, Ok (StepSkip st'))) \/
      (exists log,
         RecordIterator_step idx_iter debug chroms verbose trim st
         = (log, Ok (StepYield st'))))).
Proof.
  intros Hok. rewrite (RecordIterator_step_verbose idx_iter debug chroms verbose).
  destruct (RecordIterator_turn idx_iter debug chroms trim st Hok)
    as [(log & ->)|[(st1 & Hadv & Hnone & ->)|
        (st1 & sc & idxs & cci & ppe & Hadv & HL1 & Hlen & Hflags & Hne & Hmem &
         Hok' & Hlt & Hstep)]].
  - left. eauto.
  - right. left. exists st1. auto.
  - cbv zeta in Hstep.
    destruct Hstep as [(log2 & Hw & ->)| ->].
    + right. right. exists st1, sc, idxs, cci, ppe. cbv zeta.
      repeat (split; [assumption|]). left. eauto.
    + destruct (snd (RecordIterator_debug debug verbose
                       (records (cursor_after st1 sc idxs cci ppe))
                       (is_min (cursor_after st1 sc idxs cci ppe)))) as [[]|e] eqn:Hdbg.
      * right. right. exists st1, sc, idxs, cci, ppe. cbv zeta.
        repeat (split; [assumption|]). right. eauto.
      * left. eauto.
Qed.

(** ** The groups the generator yields *)

Lemma Forall_Log (P : GenItem -> Prop) (log : list event) :
  (forall e, P (Log e)) -> Forall P (Log <$> log).
Proof. intros H. apply Forall_fmap, Forall_forall. intros e _. apply H. Qed.

Lemma cursor_after_group chroms trim st1 sc idxs cci ppe :
  cursor_lengths st1 ->
  (forall idx b, is_min st1 !! idx = Some b -> b = false) ->
  idxs <> ∅ ->
  (forall idx, idx ∈ idxs ->
     exists r, records st1 !! idx = Some (Some r) /\
               min_pos sc = Fin (span_pos trim r) /\
               curr_pos_end sc = Fin (span_end trim r)) ->
  cursor_ok chroms (cursor_after st1 sc idxs cci ppe) ->
  group_well_formed trim (length (readers st1))
    (records (cursor_after st1 sc idxs cci ppe))
    (is_min (cursor_after st1 sc idxs cci ppe)) /\
  forall idx, is_min (cursor_after st1 sc idxs cci ppe) !! idx = Some true <-> idx ∈ idxs.
Proof.
  intros [HLrec HLmin] Hflags Hne Hmembers _.
  cbn [cursor_after records is_min].
  assert (Hmark : forall idx, mark_min idxs (is_min st1) !! idx = Some true <-> idx ∈ idxs).
  { intros idx. rewrite mark_min_lookup. split.
    - case_decide as Hd; [intros _; apply Hd|].
      intros Hf. apply Hflags in Hf. discriminate.
    - intros Hin. rewrite decide_True; [reflexivity|]. split; [exact Hin|].
      destruct (Hmembers idx Hin) as (r & Hr & _).
      rewrite HLmin, <- HLrec. eapply lookup_lt_Some, Hr. }
  split; [|exact Hmark].
  split; [exact HLrec|]. split; [rewrite mark_min_length; exact HLmin|].
  split; [|split].
  - apply set_choose_L in Hne as [idx Hin]. exists idx. apply Hmark, Hin.
  - intros i Hi. apply Hmark in Hi. destruct (Hmembers i Hi) as (r & Hr & _). eauto.
  - intros i r j r' Hi Hj.
    apply participants_spec in Hi as [Hi Hr]. apply participants_spec in Hj as [Hj Hr'].
    apply Hmark in Hi. apply Hmark in Hj.
    destruct (Hmembers i Hi) as (r0 & Hr0 & Hp & He).
    destruct (Hmembers j Hj) as (r1 & Hr1 & Hp' & He').
    rewrite Hr in Hr0. rewrite Hr' in Hr1.
    injection Hr0 as <-. injection Hr1 as <-.
    rewrite Hp in Hp'. rewrite He in He'.
    injection Hp' as Hp'. injection He' as He'. auto.
Qed.

Lemma RecordIterator_loop_items (idx_iter : SetOrder) debug chroms verbose trim fuel st :
  cursor_ok chroms st ->
  Forall (item_well_formed trim (length (readers st)))
         (fst (RecordIterator_loop idx_iter debug fuel chroms verbose trim st)).
Proof.
  revert st. induction fuel as [|fuel IH]; intros st Hok; [constructor|].
  cbn [RecordIterator_loop].
  destruct (RecordIterator_turn_verbose idx_iter debug chroms verbose trim st Hok)
    as [(log & e & ->)|[(st1 & _ & _ & ->)|
        (st1 & sc & idxs & cci & ppe & Hadv & HL1 & Hlen & Hflags & Hne & Hmem
         & Hok' & _ & Hstep)]].
  - apply Forall_Log. intros e'. exact I.
  - constructor.
  - cbv zeta in *.
    pose proof (IH _ Hok') as Hrest.
    cbn [cursor_after readers] in Hrest. rewrite Hlen in Hrest.
    destruct Hstep as [(log2 & _ & ->)|(log & ->)];
      destruct (RecordIterator_loop idx_iter debug fuel chroms verbose trim _)
        as [items fin];
      cbn [fst] in *.
    + apply Forall_app. split; [apply Forall_Log; intros e; exact I|exact Hrest].
    + apply Forall_app. split; [apply Forall_Log; intros e; exact I|].
      constructor; [|exact Hrest].
      cbn [item_well_formed]. rewrite <- Hlen.
      apply (cursor_after_group chroms trim st1 sc idxs cci ppe); assumption.
Qed.

(** X3. Every group that the generator yields, and so every group that
    [MergeRecords] is called on, has one entry per reader, marks at
    least one entry, holds a record at every marked entry, and marks
    only records that have one and the same span. *)
Theorem RecordIterator_yields_well_formed_groups (idx_iter : SetOrder) debug readers
    chroms verbose trim :
  Forall (item_well_formed trim (length readers))
         (fst (RecordIterator idx_iter debug readers chroms verbose trim)).
Proof.
  unfold RecordIterator.
  apply (RecordIterator_loop_items idx_iter debug chroms verbose trim
           (RecordIterator_turns readers) (RecordIterator_init readers)).
  apply RecordIterator_init_ok.
Qed.

(** ** Every record is disposed of once *)

Lemma sum_list_with_ext {A} (f g : A -> nat) (l : list A) :
  (forall x, x ∈ l -> f x = g x) -> sum_list_with f l = sum_list_with g l.
Proof.
  intros H. apply Nat.le_antisymm; apply sum_list_with_le; intros x Hx;
    rewrite (H x Hx); reflexivity.
Qed.

Lemma sum_list_with_add {A} (f g : A -> nat) (l : list A) :
  sum_list_with (fun x => (f x + g x)%nat) l
  = (sum_list_with f l + sum_list_with g l)%nat.
Proof. induction l as [|x l IH]; simpl; [reflexivity|]. rewrite IH. lia. Qed.

Lemma sum_indicator_filter {A} (P : A -> Prop) `{!forall x, Decision (P x)} (l : list A) :
  sum_list_with (fun x => if decide (P x) then 1%nat else 0%nat) l
  = length (filter P l).
Proof.
  induction l as [|x l IH]; [reflexivity|]. cbn [sum_list_with].
  rewrite filter_cons. destruct (decide (P x)); cbn [length]; rewrite IH; reflexivity.
Qed.

Lemma sum_indicator_set (idxs : gset nat) (n : nat) :
  (forall i, i ∈ idxs -> (i < n)%nat) ->
  sum_list_with (fun idx => if decide (idx ∈ idxs) then 1%nat else 0%nat) (seq 0 n)
  = length (elements idxs).
Proof.
  intros Hlt. rewrite (sum_indicator_filter (fun idx => idx ∈ idxs)).
  apply Permutation_length, NoDup_Permutation.
  - apply NoDup_filter, NoDup_seq.
  - apply NoDup_elements.
  - intros i. rewrite list_elem_of_filter, elem_of_elements, elem_of_seq. split.
    + intros [H _]. exact H.
    + intros H. split; [exact H|]. pose proof (Hlt i H). lia.
Qed.

Lemma advanced_pending chroms idx s0 s1 :
  advanced chroms idx s0 s1 -> slot_pending s1 = slot_pending s0.
Proof.
  unfold advanced. destruct s0 as [[rd rc] f], s1 as [[rd' rc'] f']. cbn [fst snd].
  destruct f.
  - intros (l & Hn & ->).
    apply next_assert_order_ok in Hn as (_ & _ & [(-> & -> & ->)|(r & -> & -> & _)]);
      unfold slot_pending; cbn [fst snd length]; lia.
  - intros [= -> -> ->]. reflexivity.
Qed.

Lemma cursor_pending_advance chroms st log st1 :
  cursor_lengths st ->
  RecordIterator_advance chroms st = (log, Ok st1) ->
  cursor_pending st1 = cursor_pending st.
Proof.
  intros HL Hadv.
  destruct (RecordIterator_advance_ok chroms st log st1 HL Hadv)
    as (HL1 & Hlen & _ & _ & Hslots).
  unfold cursor_pending. rewrite Hlen. apply sum_list_with_ext.
  intros idx Hin. apply elem_of_seq in Hin as [_ Hlt]. cbn in Hlt.
  destruct (slot_at_lt st idx HL Hlt) as [s0 Hs0].
  destruct (Hslots idx s0 Hs0) as (s1 & Hs1 & Hrel).
  rewrite Hs0, Hs1. cbn [from_option]. eapply advanced_pending, Hrel.
Qed.

Lemma cursor_pending_stop chroms st log st1 :
  cursor_ok chroms st ->
  RecordIterator_advance chroms st = (log, Ok st1) ->
  all_none (records st1) = true ->
  cursor_pending st = 0%nat.
Proof.
  intros Hok Hadv Hnone. pose proof Hok as (HL & _).
  rewrite <- (cursor_pending_advance chroms st log st1 HL Hadv).
  destruct (RecordIterator_advance_ok chroms st log st1 HL Hadv) as (HL1 & _).
  unfold cursor_pending.
  rewrite (sum_list_with_ext _ (fun _ => 0%nat)).
  { induction (seq 0 (length (readers st1))) as [|x l IH]; [reflexivity|exact IH]. }
  intros idx Hin. apply elem_of_seq in Hin as [_ Hlt]. cbn in Hlt.
  destruct (slot_at_lt st1 idx HL1 Hlt) as [[[rd rc] f] Hs]. rewrite Hs.
  apply slot_at_Some in Hs as (Hrd & Hrc & Hf). cbn [fst snd] in *.
  pose proof (all_none_true _ _ _ Hnone Hrc) as ->.
  pose proof (RecordIterator_advance_end chroms st log st1 idx Hok Hadv Hrc) as Hnil.
  rewrite Hrd in Hnil. injection Hnil as ->.
  unfold slot_pending. cbn. destruct f; reflexivity.
Qed.

Lemma cursor_pending_after st1 sc idxs cci ppe :
  cursor_lengths st1 ->
  (forall idx b, is_min st1 !! idx = Some b -> b = false) ->
  (forall i, i ∈ idxs -> exists r, records st1 !! i = Some (Some r)) ->
  cursor_pending st1
  = (length (elements idxs) + cursor_pending (cursor_after st1 sc idxs cci ppe))%nat.
Proof.
  intros HL Hflags Hmem.
  assert (Hlt : forall i, i ∈ idxs -> (i < length (readers st1))%nat).
  { intros i Hi. destruct (Hmem i Hi) as [r Hr]. destruct HL as [HL _].
    rewrite <- HL. eapply lookup_lt_Some, Hr. }
  rewrite <- (sum_indicator_set idxs (length (readers st1)) Hlt).
  unfold cursor_pending. cbn [cursor_after readers].
  rewrite <- sum_list_with_add. apply sum_list_with_ext.
  intros idx Hin. apply elem_of_seq in Hin as [_ Hidx]. cbn in Hidx.
  destruct (slot_at_lt st1 idx HL Hidx) as [s Hs].
  destruct (cursor_after_slot st1 sc idxs cci ppe idx s HL Hmem Hs)
    as (f & Hs' & Hf & Hrec).
  rewrite Hs, Hs'. cbn [from_option].
  apply slot_at_Some in Hs as (_ & _ & Hflag). apply Hflags in Hflag.
  destruct s as [[rd rc] b]. cbn [fst snd] in *. subst b.
  unfold slot_pending. cbn [fst snd].
  destruct (decide (idx ∈ idxs)) as [Hi|Hni].
  - destruct (Hrec Hi) as [r ->].
    assert (f = true) as -> by (apply Hf; left; exact Hi). lia.
  - assert (f = false) as ->.
    { destruct f; [|reflexivity]. destruct (proj1 Hf eq_refl) as [H|H];
        [contradiction|discriminate]. }
    lia.
Qed.

Lemma overlap_warnings_count (idx_iter : SetOrder) records idxs log :
  overlap_warnings idx_iter records idxs log ->
  sum_list_with item_records (Log <$> log) = length (elements idxs).
Proof.
  unfold overlap_warnings. rewrite <- (iterate_perm idx_iter idxs).
  induction 1 as [|idx e l log' (r & _ & ->) _ IH]; [reflexivity|].
  cbn [fmap list_fmap sum_list_with item_records length].
  change (list_fmap event GenItem Log log') with (Log <$> log'). rewrite IH. reflexivity.
Qed.

Lemma marked_count (idxs : gset nat) (flags : list bool) :
  (forall idx b, flags !! idx = Some b -> b = false) ->
  (forall i, i ∈ idxs -> (i < length flags)%nat) ->
  sum_list_with (fun b : bool => if b then 1%nat else 0%nat) (mark_min idxs flags)
  = length (elements idxs).
Proof.
  intros Hflags Hlt.
  rewrite <- (sum_seq_lookup (fun b : bool => if b then 1%nat else 0%nat) []
                (mark_min idxs flags)).
  cbn [app length]. rewrite mark_min_length.
  rewrite <- (sum_indicator_set idxs (length flags) Hlt).
  apply sum_list_with_ext. intros idx Hin. apply elem_of_seq in Hin as [_ Hidx].
  cbn in Hidx. rewrite mark_min_lookup.
  destruct (decide (idx ∈ idxs)) as [Hi|Hni].
  - rewrite decide_True by (split; [exact Hi|exact Hidx]). reflexivity.
  - rewrite decide_False by (intros [H _]; contradiction).
    destruct (lookup_lt_is_Some_2 flags idx Hidx) as [b Hb]. rewrite Hb.
    apply Hflags in Hb. subst b. reflexivity.
Qed.

Lemma RecordIterator_loop_count idx_iter debug chroms trim fuel st :
  cursor_ok chroms st ->
  snd (RecordIterator_loop idx_iter debug fuel chroms false trim st) = Exhausted ->
  sum_list_with item_records (fst (RecordIterator_loop idx_iter debug fuel chroms false trim st))
  = cursor_pending st.
Proof.
  revert st. induction fuel as [|fuel IH]; intros st Hok; [discriminate|].
  cbn [RecordIterator_loop]. pose proof Hok as (HL & _).
  destruct (RecordIterator_turn idx_iter debug chroms trim st Hok)
    as [[log ->]|[(st1 & Hadv & Hnone & ->)|
        (st1 & sc & idxs & cci & ppe & Hadv & HL1 & Hlen & Hflags & Hne & Hmem
         & Hok' & _ & Hstep)]].
  - discriminate.
  - intros _. cbn. symmetry. eapply cursor_pending_stop; eassumption.
  - cbv zeta in *.
    assert (Hrec : forall i, i ∈ idxs -> exists r, records st1 !! i = Some (Some r)).
    { intros i Hi. destruct (Hmem i Hi) as (r & Hr & _). eauto. }
    rewrite <- (cursor_pending_advance chroms st [] st1 HL Hadv).
    rewrite (cursor_pending_after st1 sc idxs cci ppe HL1 Hflags Hrec).
    specialize (IH _ Hok').
    destruct Hstep as [(log2 & Hw & ->)| ->];
      destruct (RecordIterator_loop idx_iter debug fuel chroms false trim _) as [items fin];
      cbn [fst snd] in *; intros Hend; rewrite <- (IH Hend).
    + rewrite sum_list_with_app.
      rewrite (overlap_warnings_count _ _ _ _ Hw). reflexivity.
    + cbn [fmap list_fmap app sum_list_with item_records cursor_after is_min].
      rewrite marked_count; [reflexivity|exact Hflags|].
      intros i Hi. destruct (Hrec i Hi) as [r Hr]. destruct HL1 as [H1 H2].
      rewrite H2, <- H1. eapply lookup_lt_Some, Hr.
Qed.

Lemma cursor_pending_init rds :
  cursor_pending (RecordIterator_init rds)
  = sum_list_with (fun rd : list TRRecord => length rd) rds.
Proof.
  unfold cursor_pending. change (readers (RecordIterator_init rds)) with rds.
  rewrite <- (sum_seq_lookup (fun rd : list TRRecord => length rd) [] rds).
  cbn [app length]. apply sum_list_with_ext.
  intros idx Hin. apply elem_of_seq in Hin as [_ Hlt]. cbn in Hlt.
  destruct (lookup_lt_is_Some_2 rds idx Hlt) as [rd Hrd].
  rewrite (RecordIterator_init_slot rds idx rd Hrd), Hrd. cbn. lia.
Qed.

(** With [verbose], a run that no debugging output disturbs is the run
    without it. *)
Lemma RecordIterator_debug_silent debug verbose records is_min :
  (verbose = true -> debug_silent debug) ->
  fst (RecordIterator_debug debug verbose records is_min) = [].
Proof.
  intros H. unfold RecordIterator_debug. destruct verbose; [|reflexivity].
  rewrite fst_bind. cbn [lift fst snd app].
  destruct (vcfrecords records) as [l|e]; [apply H; reflexivity|reflexivity].
Qed.

Lemma RecordIterator_loop_exhausted_quiet (idx_iter : SetOrder) debug chroms verbose trim :
  (verbose = true -> debug_silent debug) ->
  forall fuel st,
    snd (RecordIterator_loop idx_iter debug fuel chroms verbose trim st) = Exhausted ->
    RecordIterator_loop idx_iter debug fuel chroms verbose trim st
    = RecordIterator_loop idx_iter debug fuel chroms false trim st.
Proof.
  intros Hs. induction fuel as [|fuel IH]; intros st; [reflexivity|].
  cbn [RecordIterator_loop].
  rewrite (RecordIterator_step_verbose idx_iter debug chroms verbose).
  destruct (RecordIterator_step idx_iter debug chroms false trim st)
    as [log [[|st'|st'|]|e]]; try reflexivity.
  - specialize (IH st').
    destruct (RecordIterator_loop idx_iter debug fuel chroms verbose trim st')
      as [items fin].
    cbn [snd]. intros Hend. rewrite <- (IH Hend). reflexivity.
  - rewrite (RecordIterator_debug_silent debug verbose _ _ Hs), app_nil_r.
    destruct (snd (RecordIterator_debug debug verbose (records st') (is_min st')))
      as [[]|e]; [|discriminate].
    specialize (IH st').
    destruct (RecordIterator_loop idx_iter debug fuel chroms verbose trim st')
      as [items fin].
    cbn [snd]. intros Hend. rewrite <- (IH Hend). reflexivity.
Qed.

Lemma RecordIterator_loop_same (idx_iter : SetOrder) debug chroms verbose trim :
  forall fuel st,
    Forall (item_debug_quiet debug verbose)
           (fst (RecordIterator_loop idx_iter debug fuel chroms false trim st)) ->
    RecordIterator_loop idx_iter debug fuel chroms verbose trim st
    = RecordIterator_loop idx_iter debug fuel chroms false trim st.
Proof.
  induction fuel as [|fuel IH]; intros st; [reflexivity|].
  cbn [RecordIterator_loop].
  rewrite (RecordIterator_step_verbose idx_iter debug chroms verbose).
  destruct (RecordIterator_step idx_iter debug chroms false trim st)
    as [log [[|st'|st'|]|e]]; try reflexivity.
  - specialize (IH st').
    destruct (RecordIterator_loop idx_iter debug fuel chroms false trim st')
      as [items fin].
    cbn [fst]. intros Hall. apply Forall_app in Hall as [_ Hall].
    rewrite (IH Hall). reflexivity.
  - specialize (IH st').
    destruct (RecordIterator_loop idx_iter debug fuel chroms false trim st')
      as [items fin].
    cbn [fst]. intros Hall. apply Forall_app in Hall as [_ Hall].
    apply Forall_cons in Hall as [Hy Hall]. cbn [item_debug_quiet] in Hy.
    rewrite Hy. cbn [fst snd]. rewrite app_nil_r, (IH Hall). reflexivity.
Qed.

(** X4. When the generator reads its readers to the end, every record
    of every reader is accounted for: the marked records of the groups
    yielded and the overlap warnings together number exactly the
    records of the readers. This holds with and without [verbose], the
    debugging output being neither written to [vcfw] nor a warning. *)
Theorem RecordIterator_accounts_for_every_record (idx_iter : SetOrder) debug readers
    chroms verbose trim :
  (verbose = true -> debug_silent debug) ->
  snd (RecordIterator idx_iter debug readers chroms verbose trim) = Exhausted ->
  sum_list_with item_records
    (fst (RecordIterator idx_iter debug readers chroms verbose trim))
  = sum_list_with (fun rd : list TRRecord => length rd) readers.
Proof.
  intros Hs Hend. rewrite <- cursor_pending_init. unfold RecordIterator in *.
  rewrite (RecordIterator_loop_exhausted_quiet idx_iter debug chroms verbose trim Hs
             _ _ Hend) in Hend |- *.
  apply RecordIterator_loop_count; [apply RecordIterator_init_ok|exact Hend].
Qed.

(** ** The return code of the merge *)



Section ReturnCode.
Context (set_iter : gset string -> list string).
Context (pyfloat : string -> option PyFloat).
Context (sort_floats : list (PyFloat * string) -> list (PyFloat * string)).

End ReturnCode.

(** ** The merged header *)

Lemma forM_enumerate_unit {A} (body : nat -> A -> unit -> M unit) (l : list A) i :
  (forall j a, snd (body j a tt) = Ok tt) ->
  snd (forM_enumerate i l body tt) = Ok tt.
Proof.
  intros Hbody. revert i. induction l as [|a l IH]; intros i; [reflexivity|].
  cbn [forM_enumerate]. rewrite snd_bind, Hbody. apply IH.
Qed.

Lemma write_lines_ok lines : snd (write_lines lines) = Ok tt.
Proof. unfold write_lines. apply forM_enumerate_unit. intros j a. reflexivity. Qed.

Lemma useinfo_loop infos i l acc :
  snd (forM_enumerate i l (fun (_ : nat) (fr : string * bool) useinfo =>
         match lines_with_id (fst fr) infos with
         | [] => WARNING (ExpectedInfoNotFound (fst fr)) ;;; ret useinfo
         | [line] => write (line +:+ newline) ;;; ret (useinfo ++ [fr])
         | _ => WARNING (TwoInfoLines (fst fr)) ;;; ret useinfo
         end) acc)
  = Ok (acc ++ List.filter (fun fr => named_once infos (fst fr)) l).
Proof.
  revert i acc. induction l as [|fr l IH]; intros i acc; cbn [forM_enumerate List.filter].
  - rewrite app_nil_r. reflexivity.
  - unfold named_once at 1.
    destruct (lines_with_id (fst fr) infos) as [|line [|line' lines]];
      rewrite bind_assoc, ?bind_WARNING, ?bind_write, bind_ret_l; cbn [snd length Nat.eqb].
    + apply IH.
    + rewrite IH, <- app_assoc. reflexivity.
    + apply IH.
Qed.

Lemma useformat_loop_eq formats i l acc :
  snd (forM_enumerate i l (fun (_ : nat) field useformat =>
         match lines_with_id field formats with
         | [] => WARNING (ExpectedFormatNotFound field) ;;; ret useformat
         | [line] => write (line +:+ newline) ;;; ret (useformat ++ [field])
         | _ => WARNING (TwoFormatLines field) ;;; ret useformat
         end) acc)
  = Ok (acc ++ List.filter (named_once formats) l).
Proof.
  revert i acc. induction l as [|field l IH]; intros i acc;
    cbn [forM_enumerate List.filter].
  - rewrite app_nil_r. reflexivity.
  - unfold named_once at 1.
    destruct (lines_with_id field formats) as [|line [|line' lines]];
      rewrite bind_assoc, ?bind_WARNING, ?bind_write, bind_ret_l; cbn [snd length Nat.eqb].
    + apply IH.
    + rewrite IH, <- app_assoc. reflexivity.
    + apply IH.
Qed.

Lemma contigs_agree_check reader0 rest :
  forallb (fun r => bool_decide (get_header_lines "contig" r
                                 = get_header_lines "contig" reader0)) rest = true <->
  contigs_agree (reader0 :: rest).
Proof.
  rewrite forallb_forall. unfold contigs_agree. split.
  - intros H r0 r [= <-] Hin. apply elem_of_cons in Hin as [->|Hin]; [reflexivity|].
    eapply bool_decide_eq_true_1, H, list_elem_of_In, Hin.
  - intros H r Hin. apply bool_decide_eq_true_2. apply (H reader0 r eq_refl).
    right. apply list_elem_of_In, Hin.
Qed.

Section HeaderFacts.
Context (set_iter : gset string -> list string).
Context (GetSamples : list Reader -> option (list string) -> result (list string)).

(** What [WriteMergedHeader] returns, by cases. *)
Lemma WriteMergedHeader_returns update vcfs reader0 rest cmd vcftype :
  snd (WriteMergedHeader set_iter GetSamples update vcfs (reader0 :: rest) cmd vcftype)
  = if forallb (fun r => bool_decide (get_header_lines "contig" r
                                      = get_header_lines "contig" reader0)) rest
    then
      match WriteMergedHeader_samples GetSamples update vcfs (reader0 :: rest) with
      | Raise ValueError => Ok None
      | Raise e => Raise e
      | Ok [] => Ok None
      | Ok _ =>
          Ok (Some (List.filter (fun fr => named_once (get_header_lines "info" reader0)
                                             (fst fr)) (INFOFIELDS vcftype),
                    List.filter (named_once (get_header_lines "format" reader0))
                                (FORMATFIELDS vcftype)))
      end
    else Raise ValueError.
Proof.
  unfold WriteMergedHeader. rewrite snd_bind.
  cbn [lift getitem lookup list_lookup snd tail].
  destruct (forallb _ rest); cbn [negb]; [|reflexivity].
  rewrite snd_bind. cbn [write snd].
  rewrite snd_bind, forM_enumerate_unit by (intros j a; apply write_lines_ok).
  rewrite snd_bind. cbn [write snd].
  rewrite snd_bind, write_lines_ok.
  rewrite snd_bind, write_lines_ok.
  rewrite snd_bind, write_lines_ok.
  rewrite snd_bind. unfold WriteMergedHeader_useinfo. rewrite useinfo_loop.
  rewrite snd_bind. cbn [write snd].
  rewrite snd_bind. unfold WriteMergedHeader_useformat. rewrite useformat_loop_eq.
  cbn [app].
  change (if negb update then GetSamples (reader0 :: rest) None
          else _) with (WriteMergedHeader_samples GetSamples update vcfs (reader0 :: rest)).
  destruct (WriteMergedHeader_samples GetSamples update vcfs (reader0 :: rest))
    as [[|smp smps]|[]]; try reflexivity.
Qed.
End HeaderFacts.

Lemma header_union_elem set_iter field readers line :
  (forall s, set_iter s ≡ₚ elements s) ->
  line ∈ header_union set_iter field readers <->
  exists r, r ∈ readers /\ line ∈ get_header_lines field r.
Proof.
  intros Hperm. unfold header_union. rewrite Hperm, elem_of_elements.
  assert (H : forall (acc : gset string),
    line ∈ foldl (fun acc reader => acc ∪ list_to_set (get_header_lines field reader))
                 acc readers <->
    line ∈ acc \/ exists r, r ∈ readers /\ line ∈ get_header_lines field r).
  { induction readers as [|r readers IH]; intros acc; cbn [foldl].
    - split; [auto|]. intros [H|(r & Hr & _)]; [exact H|inversion Hr].
    - rewrite IH, elem_of_union, elem_of_list_to_set. split.
      + intros [[H|H]|(r' & Hr' & Hl)]; [left; exact H| |].
        * right. exists r. split; [left|exact H].
        * right. exists r'. split; [right; exact Hr'|exact Hl].
      + intros [H|(r' & Hr' & Hl)]; [left; left; exact H|].
        apply elem_of_cons in Hr' as [->|Hr']; [left; right; exact Hl|].
        right. exists r'. auto. }
  rewrite H. split; [|auto]. intros [Hin|Hex]; [|exact Hex].
  apply not_elem_of_empty in Hin. contradiction.
Qed.

Lemma times_written_app s l1 l2 :
  times_written s (l1 ++ l2) = (times_written s l1 + times_written s l2)%nat.
Proof. unfold times_written. rewrite written_app, List.filter_app, length_app. reflexivity. Qed.

Lemma times_written_absent s log : s ∉ written log -> times_written s log = 0%nat.
Proof.
  unfold times_written. induction (written log) as [|x l IH]; [reflexivity|].
  intros Hn. apply not_elem_of_cons in Hn as [Hne Hn]. cbn [List.filter].
  destruct (String.eqb s x) eqn:E; [apply String.eqb_eq in E; contradiction|].
  apply IH, Hn.
Qed.

Lemma string_length_append s t :
  String.length (s +:+ t) = (String.length s + String.length t)%nat.
Proof. induction s as [|c s IH]; [reflexivity|]. simpl. f_equal. exact IH. Qed.

Lemma string_append_inj_r s1 s2 t : s1 +:+ t = s2 +:+ t -> s1 = s2.
Proof.
  intros H.
  assert (Hlen : String.length s1 = String.length s2).
  { apply (f_equal String.length) in H. rewrite !string_length_append in H. lia. }
  revert s2 H Hlen. induction s1 as [|c s1 IH]; intros [|c2 s2] H Hlen;
    try discriminate; [reflexivity|].
  cbn in H. injection H as -> H. f_equal. apply IH; [exact H|].
  cbn in Hlen. lia.
Qed.

Lemma header_line_tag field line t c :
  lower (slice_prefix (3 + String.length field) line) = "##" +:+ lower field +:+ "=" ->
  String.get 0 (lower field +:+ "=") = Some c ->
  header_tag (line +:+ t) = Some c.
Proof.
  unfold header_tag, slice_prefix.
  destruct line as [|a [|b [|x rest]]]; try discriminate.
  - unfold lower. cbn [substring map_string String.append].
    destruct (map_string lower_ascii field); discriminate.
  - unfold lower. cbn [substring map_string String.append Nat.add String.get].
    intros H. injection H as _ _ H.
    destruct (map_string lower_ascii field +:+ "=") as [|y u]; [discriminate|].
    simpl in H. injection H as H _. subst y. simpl. intros Hc. exact Hc.
Qed.

Lemma get_header_lines_tag field r line t c :
  line ∈ get_header_lines field r ->
  String.get 0 (lower field +:+ "=") = Some c ->
  header_tag (line +:+ t) = Some c.
Proof.
  unfold get_header_lines. intros Hin. apply list_elem_of_In, filter_In in Hin as [_ Hin].
  apply String.eqb_eq in Hin. eapply header_line_tag; exact Hin.
Qed.

Lemma written_bind_all {A B} (P : string -> Prop) (m : M A) (f : A -> M B) :
  Forall P (written (fst m)) ->
  (forall a, Forall P (written (fst (f a)))) ->
  Forall P (written (fst (bind m f))).
Proof.
  intros Hm Hf. rewrite fst_bind. destruct (snd m) as [a|e]; [|exact Hm].
  rewrite written_app. apply Forall_app. split; [exact Hm|apply Hf].
Qed.

Lemma written_forM_enumerate_all {A S} (P : string -> Prop) i (l : list A)
    (body : nat -> A -> S -> M S) s :
  (forall i a s, a ∈ l -> Forall P (written (fst (body i a s)))) ->
  Forall P (written (fst (forM_enumerate i l body s))).
Proof.
  revert i s. induction l as [|a l IH]; intros i s Hb; [constructor|].
  cbn [forM_enumerate]. apply written_bind_all; [apply Hb; left|].
  intros s'. apply IH. intros j b s'' Hin. apply Hb. right. exact Hin.
Qed.

Lemma write_lines_written lines :
  written (fst (write_lines lines)) = (fun l => l +:+ newline) <$> lines.
Proof.
  unfold write_lines. generalize 0%nat. induction lines as [|l lines IH]; intros i;
    [reflexivity|].
  cbn [forM_enumerate]. rewrite fst_bind. cbn [write snd fst]. rewrite written_app.
  cbn [written app fmap list_fmap]. f_equal. apply IH.
Qed.

Lemma lines_absent line (lines : list string) :
  line ∉ lines -> line +:+ newline ∉ (fun l => l +:+ newline) <$> lines.
Proof.
  intros Hn Hin. apply list_elem_of_fmap in Hin as (l & Heq & Hin).
  apply string_append_inj_r in Heq. subst l. contradiction.
Qed.

Lemma times_written_line line lines :
  NoDup lines -> line ∈ lines ->
  times_written (line +:+ newline) (fst (write_lines lines)) = 1%nat.
Proof.
  intros Hnd Hin. apply list_elem_of_split in Hin as (l1 & l2 & ->).
  apply NoDup_app in Hnd as (_ & Hdisj & Hnd2). apply NoDup_cons in Hnd2 as [Hn2 _].
  assert (Hn1 : line ∉ l1). { intros H. apply (Hdisj _ H). left. }
  unfold times_written. rewrite write_lines_written, fmap_app, List.filter_app, length_app.
  cbn [fmap list_fmap List.filter]. rewrite String.eqb_refl. cbn [length].
  pose proof (times_written_absent (line +:+ newline)
                (fst (write_lines l1))) as H1.
  pose proof (times_written_absent (line +:+ newline)
                (fst (write_lines l2))) as H2.
  unfold times_written in H1, H2. rewrite write_lines_written in H1, H2.
  rewrite H1, H2 by (apply lines_absent; assumption). reflexivity.
Qed.

Lemma tag_absent s c log :
  header_tag s = Some c ->
  Forall (fun s' => header_tag s' <> Some c) (written log) ->
  times_written s log = 0%nat.
Proof.
  intros Hs Hall. apply times_written_absent. intros Hin.
  rewrite Forall_forall in Hall. apply (Hall _ Hin), Hs.
Qed.

Lemma write_lines_tag field lines c c' :
  (forall line, line ∈ lines -> exists r, line ∈ get_header_lines field r) ->
  String.get 0 (lower field +:+ "=") = Some c' -> c' <> c ->
  Forall (fun s' => header_tag s' <> Some c) (written (fst (write_lines lines))).
Proof.
  intros Hl Hc Hne. rewrite write_lines_written. apply Forall_fmap, Forall_forall.
  intros line Hin. change (header_tag (line +:+ newline) <> Some c).
  destruct (Hl line Hin) as (r' & Hr).
  rewrite (get_header_lines_tag field r' line newline c' Hr Hc). congruence.
Qed.

Section HeaderLines.
Context (set_iter : gset string -> list string).
Context (GetSamples : list Reader -> option (list string) -> result (list string)).

Lemma header_union_tag field readers c c' :
  (forall s, set_iter s ≡ₚ elements s) ->
  String.get 0 (lower field +:+ "=") = Some c' -> c' <> c ->
  Forall (fun s' => header_tag s' <> Some c)
         (written (fst (write_lines (header_union set_iter field readers)))).
Proof.
  intros Hperm. apply write_lines_tag. intros line Hin.
  apply (header_union_elem set_iter field readers line Hperm) in Hin as (r & _ & Hr).
  eauto.
Qed.

Lemma useinfo_tag infos vcftype c :
  Forall (fun line => header_tag (line +:+ newline) <> Some c) infos ->
  Forall (fun s' => header_tag s' <> Some c)
         (written (fst (WriteMergedHeader_useinfo infos vcftype))).
Proof.
  intros Hall. unfold WriteMergedHeader_useinfo. apply written_forM_enumerate_all.
  intros i fr acc _.
  destruct (lines_with_id (fst fr) infos) as [|line [|line2 rest]] eqn:E;
    [constructor| |constructor].
  cbn. constructor; [|constructor].
  rewrite Forall_forall in Hall. apply Hall.
  assert (Hin : line ∈ lines_with_id (fst fr) infos) by (rewrite E; left).
  unfold lines_with_id in Hin. apply list_elem_of_In, filter_In in Hin as [Hin _].
  apply list_elem_of_In, Hin.
Qed.

Lemma useformat_tag formats vcftype c :
  Forall (fun line => header_tag (line +:+ newline) <> Some c) formats ->
  Forall (fun s' => header_tag s' <> Some c)
         (written (fst (WriteMergedHeader_useformat formats vcftype))).
Proof.
  intros Hall. unfold WriteMergedHeader_useformat. apply written_forM_enumerate_all.
  intros i fr acc _.
  destruct (lines_with_id fr formats) as [|line [|line2 rest]] eqn:E;
    [constructor| |constructor].
  cbn. constructor; [|constructor].
  rewrite Forall_forall in Hall. apply Hall.
  assert (Hin : line ∈ lines_with_id fr formats) by (rewrite E; left).
  unfold lines_with_id in Hin. apply list_elem_of_In, filter_In in Hin as [Hin _].
  apply list_elem_of_In, Hin.
Qed.

Lemma get_header_lines_tags field r c c' :
  String.get 0 (lower field +:+ "=") = Some c' -> c' <> c ->
  Forall (fun line => header_tag (line +:+ newline) <> Some c) (get_header_lines field r).
Proof.
  intros Hc Hne. apply Forall_forall. intros line Hin.
  rewrite (get_header_lines_tag field r line newline c' Hin Hc). congruence.
Qed.

Lemma times_written_bind {A B} s (m : M A) (f : A -> M B) a :
  snd m = Ok a ->
  times_written s (fst (bind m f))
  = (times_written s (fst m) + times_written s (fst (f a)))%nat.
Proof. intros H. rewrite fst_bind, H. apply times_written_app. Qed.

Lemma header_rest_tag update vcfs readers vcftype reader0 c :
  c <> "i"%char -> c <> "f"%char -> c <> "h"%char ->
  Forall (fun s' => header_tag s' <> Some c)
    (written (fst (
      useinfo <- WriteMergedHeader_useinfo (get_header_lines "info" reader0) vcftype ;;
      write ("##FORMAT=<ID=GT,Number=1,Type=String,Description=" +:+
             String (ascii_of_nat 34) "Genotype" +:+ String (ascii_of_nat 34) ">"
             +:+ newline) ;;;
      useformat <- WriteMergedHeader_useformat (get_header_lines "format" reader0)
                     vcftype ;;
      match WriteMergedHeader_samples GetSamples update vcfs readers with
      | Raise ValueError => WARNING SampleError ;;; ret None
      | Raise e => raise e
      | Ok samples =>
          match samples with
          | [] => ret None
          | _ =>
              let header_fields :=
                ["CHROM"; "POS"; "ID"; "REF"; "ALT"; "QUAL"; "FILTER"; "INFO"; "FORMAT"] in
              write ("#" +:+ join tab (header_fields ++ samples) +:+ newline) ;;;
              ret (Some (useinfo, useformat))
          end
      end))).
Proof.
  intros Hi Hf Hh.
  apply written_bind_all.
  { apply useinfo_tag, (get_header_lines_tags "info" reader0 c "i"%char);
      [reflexivity|congruence]. }
  intros useinfo'. apply written_bind_all.
  { constructor; [|constructor]. intros H. vm_compute in H. congruence. }
  intros _. apply written_bind_all.
  { apply useformat_tag, (get_header_lines_tags "format" reader0 c "f"%char);
      [reflexivity|congruence]. }
  intros useformat.
  destruct (WriteMergedHeader_samples GetSamples update vcfs readers)
    as [[|smp smps]|[]]; try constructor.
  - intros H. vm_compute in H. congruence.
  - constructor.
Qed.

(** X6. The ##source and ##ALT lines of the merged header: when the
    readers agree on their contig lines, each ##source line and each
    ##ALT line that some reader carries is written to the output
    exactly once, however many readers carry it and whatever the sample
    names turn out to be. *)
Theorem header_union_once update vcfs readers cmd vcftype reader0 field r line :
  (forall s, set_iter s ≡ₚ elements s) ->
  readers !! 0%nat = Some reader0 -> contigs_agree readers ->
  field = "source" \/ field = "alt" ->
  r ∈ readers -> line ∈ get_header_lines field r ->
  times_written (line +:+ newline)
    (fst (WriteMergedHeader set_iter GetSamples update vcfs readers cmd vcftype)) = 1%nat.
Proof.
  intros Hperm H0 Hagree Hfield Hr Hline.
  destruct readers as [|rd0 rest]; [discriminate|]. injection H0 as ->.
  apply contigs_agree_check in Hagree.
  assert (Htag : exists c, header_tag (line +:+ newline) = Some c /\
                   String.get 0 (lower field +:+ "=") = Some c /\
                   (c = "s"%char \/ c = "a"%char)).
  { destruct Hfield as [-> | ->]; eexists; (split; [|split; [reflexivity|]]);
      [eapply get_header_lines_tag; [exact Hline|reflexivity]|left; reflexivity
      |eapply get_header_lines_tag; [exact Hline|reflexivity]|right; reflexivity]. }
  destruct Htag as (c & Htag & Hc & Hsa).
  assert (Hin : line ∈ header_union set_iter field (reader0 :: rest)).
  { apply header_union_elem; [exact Hperm|]. eauto. }
  assert (Hnd : forall f, NoDup (header_union set_iter f (reader0 :: rest))).
  { intros f. unfold header_union. rewrite Hperm. apply NoDup_elements. }
  unfold WriteMergedHeader. cbn [lift getitem lookup list_lookup tail].
  rewrite bind_lift_ok. rewrite Hagree. cbn [negb].
  change (if negb update then GetSamples (reader0 :: rest) None
          else _) with (WriteMergedHeader_samples GetSamples update vcfs (reader0 :: rest)).
  rewrite (times_written_bind _ _ _ tt) by reflexivity.
  rewrite (times_written_bind _ _ _ tt)
    by (apply forM_enumerate_unit; intros j a; apply write_lines_ok).
  rewrite (times_written_bind _ _ _ tt) by reflexivity.
  rewrite (times_written_bind _ _ _ tt) by apply write_lines_ok.
  rewrite (times_written_bind _ _ _ tt) by apply write_lines_ok.
  rewrite (times_written_bind _ _ _ tt) by apply write_lines_ok.
  assert (Hother : forall log,
            Forall (fun s' => header_tag s' <> Some c) (written log) ->
            times_written (line +:+ newline) log = 0%nat).
  { intros log. apply tag_absent, Htag. }
  assert (Hci : c <> "i"%char /\ c <> "f"%char /\ c <> "h"%char /\ c <> "c"%char).
  { destruct Hsa; subst c; repeat split; discriminate. }
  destruct Hci as (Hi & Hf & Hh & Hcc).
  match goal with
  | |- (?a + (?b + (?d + (?e + (?f + (?g + ?h))))))%nat = 1%nat =>
      assert (Ha : a = 0%nat); [|
      assert (Hb : b = 0%nat); [|
      assert (Hd : d = 0%nat); [|
      assert (Hf' : f = 0%nat); [|
      assert (Hh' : h = 0%nat); [|
      assert (Heg : (e + g)%nat = 1%nat); [|lia]]]]]]
  end.
  - apply Hother. constructor; [|constructor]. intros H. vm_compute in H. congruence.
  - apply Hother. apply written_forM_enumerate_all. intros i rd [] _.
    apply (write_lines_tag "command" _ c "c"%char); [eauto|reflexivity|congruence].
  - apply Hother. constructor; [|constructor]. intros H. vm_compute in H. congruence.
  - apply Hother.
    apply (write_lines_tag "contig" _ c "c"%char); [eauto|reflexivity|congruence].
  - apply Hother. apply header_rest_tag; assumption.
  - destruct Hfield as [-> | ->].
    + rewrite (times_written_line line _ (Hnd "source") Hin).
      rewrite Hother; [reflexivity|].
      apply (header_union_tag "alt" _ c "a"%char Hperm); [reflexivity|].
      vm_compute in Hc. congruence.
    + rewrite (times_written_line line _ (Hnd "alt") Hin).
      rewrite Hother; [reflexivity|].
      apply (header_union_tag "source" _ c "s"%char Hperm); [reflexivity|].
      vm_compute in Hc. congruence.
Qed.
End HeaderLines.

Section HeaderResults.
Context (set_iter : gset string -> list string).
Context (pyfloat : string -> option PyFloat).
Context (sort_floats : list (PyFloat * string) -> list (PyFloat * string)).
Context (GetSamples : list Reader -> option (list string) -> result (list string)).

(** X7. The INFO and FORMAT fields that the merge carries over are
    those of the table of the VCF type, in the table's order, that
    exactly one INFO (FORMAT) line of the header of the first reader
    names; the headers of the other readers are not looked at. A header
    is only returned when the readers agree on their contig lines. *)
Theorem WriteMergedHeader_kept_fields update vcfs readers cmd vcftype reader0
    useinfo useformat :
  readers !! 0%nat = Some reader0 ->
  snd (WriteMergedHeader set_iter GetSamples update vcfs readers cmd vcftype)
  = Ok (Some (useinfo, useformat)) ->
  useinfo = List.filter (fun fr => named_once (get_header_lines "info" reader0) (fst fr))
                        (INFOFIELDS vcftype) /\
  useformat = List.filter (named_once (get_header_lines "format" reader0))
                          (FORMATFIELDS vcftype) /\
  contigs_agree readers.
Proof.
  destruct readers as [|r0 rest]; [discriminate|]. intros [= ->].
  rewrite WriteMergedHeader_returns.
  destruct (forallb _ rest) eqn:Hc; [|discriminate].
  apply contigs_agree_check in Hc.
  destruct (WriteMergedHeader_samples GetSamples update vcfs (reader0 :: rest))
    as [[|smp smps]|[]]; try discriminate.
  intros [= <- <-]. auto.
Qed.

(** X8. Readers whose contig lines differ from those of the first
    reader make [WriteMergedHeader] raise [ValueError] before it writes
    anything, and [main] does not catch it: the run ends by that
    exception, not by return code 1. *)
Theorem WriteMergedHeader_contig_mismatch idx_iter debug verbose trim update vcfs cmd readers chroms vcftype
    reader0 r :
  readers !! 0%nat = Some reader0 -> r ∈ readers ->
  get_header_lines "contig" r <> get_header_lines "contig" reader0 ->
  WriteMergedHeader set_iter GetSamples update vcfs readers cmd vcftype
  = ([], Raise ValueError) /\
  (trim && negb (VcfTypes_eqb vcftype hipstr) = false ->
   main set_iter pyfloat sort_floats idx_iter debug GetSamples verbose trim update vcfs cmd readers chroms vcftype
   = ([], Raise ValueError)).
Proof.
  destruct readers as [|r0 rest]; [discriminate|]. intros [= ->] Hin Hne.
  assert (Hc : forallb (fun r => bool_decide (get_header_lines "contig" r
                                  = get_header_lines "contig" reader0)) rest = false).
  { destruct (forallb _ rest) eqn:Hc; [|reflexivity].
    apply contigs_agree_check in Hc. exfalso. apply Hne.
    apply (Hc reader0 r eq_refl Hin). }
  assert (Hw : WriteMergedHeader set_iter GetSamples update vcfs (reader0 :: rest) cmd
                 vcftype = ([], Raise ValueError)).
  { unfold WriteMergedHeader. cbn [getitem lookup list_lookup tail].
    rewrite bind_lift_ok, Hc. reflexivity. }
  split; [exact Hw|]. intros Htrim. unfold main. rewrite Htrim, Hw. reflexivity.
Qed.

(** X9. When [mergeutils.GetSamples] raises [ValueError], or finds no
    sample, [WriteMergedHeader] returns [None, None] and [main] returns
    1 after the warning "Error writing merged header"; by then the
    header lines, from ##fileformat on, are already written. *)
Theorem main_header_without_samples idx_iter debug verbose trim update vcfs cmd reader0 rest chroms vcftype :
  contigs_agree (reader0 :: rest) ->
  trim && negb (VcfTypes_eqb vcftype hipstr) = false ->
  WriteMergedHeader_samples GetSamples update vcfs (reader0 :: rest) = Raise ValueError \/
  WriteMergedHeader_samples GetSamples update vcfs (reader0 :: rest) = Ok [] ->
  snd (WriteMergedHeader set_iter GetSamples update vcfs (reader0 :: rest) cmd vcftype)
  = Ok None /\
  hd_error (fst (WriteMergedHeader set_iter GetSamples update vcfs (reader0 :: rest)
                   cmd vcftype))
  = Some (VcfWrite ("##fileformat=VCFv4.1" +:+ newline)) /\
  main set_iter pyfloat sort_floats idx_iter debug GetSamples verbose trim update vcfs cmd (reader0 :: rest) chroms vcftype
  = (fst (WriteMergedHeader set_iter GetSamples update vcfs (reader0 :: rest) cmd
            vcftype) ++ [Warning HeaderError],
     Ok (Some 1)).
Proof.
  intros Hc Htrim Hsamples. apply contigs_agree_check in Hc.
  assert (Hret : snd (WriteMergedHeader set_iter GetSamples update vcfs
                        (reader0 :: rest) cmd vcftype) = Ok None).
  { rewrite WriteMergedHeader_returns, Hc. destruct Hsamples as [-> | ->]; reflexivity. }
  split; [exact Hret|]. split.
  - unfold WriteMergedHeader. cbn [getitem lookup list_lookup tail].
    rewrite bind_lift_ok, Hc. cbn [negb]. rewrite bind_write. reflexivity.
  - unfold main. rewrite Htrim, bind_pair, Hret. reflexivity.
Qed.
End HeaderResults.

(** ** GetAltAlleles: when it fails and when it cannot *)

Lemma fold_result_mappings_defined out trim l acc :
  (forall i r, (i, r) ∈ l ->
     exists m, GetAltAlleles_mapping out (get_alts trim r) = Ok m) ->
  exists maps,
    fold_result (fun (_ : nat) r mappings =>
       m <~ GetAltAlleles_mapping out (get_alts trim r) ;; Ok (mappings ++ [m])) l acc
    = Ok maps.
Proof.
  revert acc. induction l as [|[i r] l IH]; intros acc Hall; cbn [fold_result fst snd].
  - eauto.
  - destruct (Hall i r) as [m ->]; [left|]. cbn [rbind].
    apply IH. intros j r' Hin. apply (Hall j r'). right. exact Hin.
Qed.

Lemma GetAltAlleles_mappings_defined set_iter pyfloat sort_floats cr ml vcftype trim out :
  (forall s, set_iter s ≡ₚ elements s) ->
  (vcftype = popstr -> sort_floats_ok sort_floats) ->
  group_ok cr ml ->
  GetAltAlleles_out_alts set_iter pyfloat sort_floats vcftype (group_alts trim (participants cr ml))
  = Ok out ->
  exists maps, GetAltAlleles set_iter pyfloat sort_floats cr ml vcftype trim = Ok (out, maps).
Proof.
  intros Hperm Hsort Hok Hout. unfold GetAltAlleles.
  rewrite GetAltAlleles_alts_eq by assumption. cbn [rbind]. rewrite Hout. cbn [rbind].
  change (for_range (length ml) _ []) with
    (for_merged cr ml (fun (_ : nat) r mappings =>
       m <~ GetAltAlleles_mapping out (get_alts trim r) ;; Ok (mappings ++ [m])) []).
  rewrite for_merged_fold by assumption.
  destruct (fold_result_mappings_defined out trim (participants cr ml) []) as [maps ->].
  - intros i r Hin. apply GetAltAlleles_mapping_defined. intros ralt Hralt.
    apply (GetAltAlleles_out_alts_perm _ _ _ _ _ _ Hperm) in Hout as Hp;
      [|intros Hv; apply Hsort, Hv].
    rewrite Hp. apply elem_of_elements, group_alts_spec. exists i, r, ralt. auto.
  - exists maps. reflexivity.
Qed.

(** X10. For the VCF types whose alternates are sorted by length and
    then lexically (GangSTR, advntr, HipSTR), [GetAltAlleles] cannot
    fail on a group whose marked entries hold records: every key is
    defined, and every local alternate is found in the unified list, so
    that [out_alts.index] never raises. *)
Theorem GetAltAlleles_never_fails set_iter pyfloat sort_floats cr ml vcftype trim :
  (forall s, set_iter s ≡ₚ elements s) ->
  group_ok cr ml ->
  vcftype <> eh -> vcftype <> popstr ->
  exists out maps, GetAltAlleles set_iter pyfloat sort_floats cr ml vcftype trim = Ok (out, maps).
Proof.
  intros Hperm Hok Heh Hpop.
  destruct (sorted_defined len_lex_lt len_lex_key
              (set_iter (group_alts trim (participants cr ml)))) as [out Hout].
  { intros x _. unfold len_lex_key. eauto. }
  assert (Hout' : GetAltAlleles_out_alts set_iter pyfloat sort_floats vcftype
                    (group_alts trim (participants cr ml)) = Ok out).
  { unfold GetAltAlleles_out_alts. destruct vcftype; try contradiction; exact Hout. }
  destruct (GetAltAlleles_mappings_defined set_iter pyfloat sort_floats cr ml vcftype trim out
              Hperm) as [maps Hmaps]; [|exact Hok|exact Hout'|].
  { intros ->. contradiction. }
  exists out, maps. exact Hmaps.
Qed.

Lemma sorted_key_undefined {K} (sort : list (K * string) -> list (K * string)) key l x :
  x ∈ l -> key x = None -> sorted_with sort key l = Raise ValueError.
Proof.
  intros Hin Hkey. unfold sorted_with.
  destruct (mapM (fun x => (fun k => (k, x)) <$> key x) l) as [kl|] eqn:Hm;
    [|reflexivity].
  apply mapM_Some in Hm. apply list_elem_of_lookup in Hin as [i Hi].
  destruct (Forall2_lookup_l _ _ _ _ _ Hm Hi) as (kx & _ & Hk).
  rewrite Hkey in Hk. discriminate.
Qed.

Lemma length_map_string f s : String.length (map_string f s) = String.length s.
Proof. induction s as [|c s IH]; simpl; [reflexivity|]. rewrite IH. reflexivity. Qed.

Lemma substring_none n s : substring n 0 s = EmptyString.
Proof.
  revert s. induction n as [|n IH]; intros [|c s]; simpl; try reflexivity. apply IH.
Qed.

Lemma slice_to_last_short a s :
  (String.length s <= S a)%nat -> slice_to_last a s = EmptyString.
Proof.
  intros H. unfold slice_to_last.
  replace (String.length s - 1 - a)%nat with 0%nat by lia. apply substring_none.
Qed.

(** X11. A malformed alternate makes [GetAltAlleles] raise
    [ValueError]: for ExpansionHunter input, an alternate of at most
    five characters, which leaves nothing between "<STR" and ">" for
    [int]; for popSTR input, an alternate whose text between its first
    and last character [float] rejects. [MergeRecords] then raises it,
    on a group whose references agree, before it writes anything. *)
Theorem GetAltAlleles_malformed_alternate set_iter pyfloat sort_floats cr ml vcftype i r a :
  (forall s, set_iter s ≡ₚ elements s) ->
  group_ok cr ml -> (i, r) ∈ participants cr ml -> a ∈ vcfrecord_ALT r ->
  (vcftype = eh /\ (String.length a <= 5)%nat) \/
  (vcftype = popstr /\ pyfloat (slice_to_last 1 (upper a)) = None) ->
  GetAltAlleles set_iter pyfloat sort_floats cr ml vcftype false = Raise ValueError /\
  forall num_samples useinfo useformat format_type trim ref,
    GetRefAllele cr ml trim = Ok (Some ref) ->
    MergeRecords set_iter pyfloat sort_floats vcftype num_samples cr ml useinfo useformat
      format_type trim = ([], Raise ValueError).
Proof.
  intros Hperm Hok Hin Ha Hbad.
  assert (Hraise : GetAltAlleles set_iter pyfloat sort_floats cr ml vcftype false = Raise ValueError).
  { unfold GetAltAlleles. rewrite GetAltAlleles_alts_eq by assumption. cbn [rbind].
    assert (Hmem : upper a ∈ set_iter (group_alts false (participants cr ml))).
    { rewrite Hperm. apply elem_of_elements, group_alts_spec. exists i, r, a. auto. }
    assert (Hout : GetAltAlleles_out_alts set_iter pyfloat sort_floats vcftype
                     (group_alts false (participants cr ml)) = Raise ValueError).
    { unfold GetAltAlleles_out_alts. destruct Hbad as [[-> Hlen]|[-> Hf]]; cbn.
      - apply (sorted_key_undefined _ _ _ (upper a) Hmem).
        rewrite slice_to_last_short; [reflexivity|].
        unfold upper. rewrite length_map_string. exact Hlen.
      - apply (sorted_key_undefined _ _ _ (upper a) Hmem). exact Hf. }
    rewrite Hout. reflexivity. }
  split; [exact Hraise|].
  intros num_samples useinfo useformat format_type trim ref Href.
  destruct (MergeRecords_first set_iter pyfloat sort_floats vcftype num_samples cr ml useinfo
              useformat format_type trim Hok) as (i0 & r0 & rest0 & _ & ->).
  { exists i. apply participants_spec in Hin as [Hm _]. exact Hm. }
  rewrite Href, bind_lift_ok, Hraise. reflexivity.
Qed.

Lemma bind_all_nil {A B} (f : A -> list B) (l : list A) :
  (forall x, x ∈ l -> f x = []) -> l ≫= f = [].
Proof.
  induction l as [|x l IH]; intros H; [reflexivity|].
  cbn. change (mbind f l) with (l ≫= f).
  rewrite (H x) by left. rewrite IH; [reflexivity|].
  intros y Hy. apply H. right. exact Hy.
Qed.

Lemma fold_result_mappings_plain trim l acc :
  (forall i r, (i, r) ∈ l -> get_alts trim r = []) ->
  fold_result (fun (_ : nat) r mappings =>
     m <~ GetAltAlleles_mapping [] (get_alts trim r) ;; Ok (mappings ++ [m])) l acc
  = Ok (acc ++ replicate (length l) ["0"]).
Proof.
  revert acc. induction l as [|[i r] l IH]; intros acc Hall; cbn [fold_result fst snd].
  - rewrite app_nil_r. reflexivity.
  - rewrite (Hall i r) by left. cbn [GetAltAlleles_mapping for_enumerate rbind].
    rewrite IH by (intros j r' Hin; apply (Hall j r'); right; exact Hin).
    rewrite <- app_assoc. reflexivity.
Qed.

(** X12. A group none of whose records has an alternate allele: the
    unified alternates are empty, whatever the VCF type, and each
    participant's allele map is the single entry "0". *)
Theorem GetAltAlleles_without_alternates set_iter pyfloat sort_floats cr ml vcftype trim :
  (forall s, set_iter s ≡ₚ elements s) ->
  sort_floats_ok sort_floats ->
  group_ok cr ml ->
  (forall i r, (i, r) ∈ participants cr ml -> get_alts trim r = []) ->
  GetAltAlleles set_iter pyfloat sort_floats cr ml vcftype trim
  = Ok ([], replicate (length (participants cr ml)) ["0"]).
Proof.
  intros Hperm [Hsort _] Hok Hnone. unfold GetAltAlleles.
  rewrite GetAltAlleles_alts_eq by assumption. cbn [rbind].
  assert (Hset : group_alts trim (participants cr ml) = ∅).
  { unfold group_alts. rewrite bind_all_nil; [reflexivity|].
    intros [i r] Hin. apply (Hnone i r Hin). }
  rewrite Hset.
  assert (Hiter : set_iter ∅ = []).
  { apply Permutation_nil_r. rewrite Hperm, elements_empty. reflexivity. }
  assert (Hout : GetAltAlleles_out_alts set_iter pyfloat sort_floats vcftype ∅ = Ok []).
  { unfold GetAltAlleles_out_alts. rewrite Hiter.
    destruct vcftype; try reflexivity. cbn. f_equal.
    rewrite (proj1 (Permutation_nil_r _) (Hsort [])). reflexivity. }
  rewrite Hout. cbn [rbind].
  change (for_range (length ml) _ []) with
    (for_merged cr ml (fun (_ : nat) r mappings =>
       m <~ GetAltAlleles_mapping [] (get_alts trim r) ;; Ok (mappings ++ [m])) []).
  rewrite for_merged_fold by assumption.
  rewrite fold_result_mappings_plain by exact Hnone. reflexivity.
Qed.

(** ** The INFO column *)

Lemma MergeRecords_info_optional cr ml useinfo i j first :
  forM_enumerate i useinfo (fun _ fr first => MergeRecords_info_item cr ml fr first) first
  = forM_enumerate j (List.filter snd useinfo)
      (fun _ fr first => MergeRecords_info_item cr ml fr first) first.
Proof.
  revert i j first. induction useinfo as [|[f reqd] useinfo IH]; intros i j first;
    [reflexivity|].
  cbn [forM_enumerate List.filter snd]. destruct reqd.
  - cbn [forM_enumerate]. apply bind_ext. intros first'. apply IH.
  - unfold MergeRecords_info_item at 1. unfold GetInfoItem. cbn [negb fst snd].
    rewrite !bind_ret_l. apply IH.
Qed.

(** X13. A field that the table of the VCF type marks as not required
    is never written to a merged record: [MergeRecords] does the same,
    output and warnings alike, when such fields are removed from
    [useinfo]. *)
Theorem MergeRecords_drops_optional_info set_iter pyfloat sort_floats vcftype num_samples cr ml
    useinfo useformat format_type trim :
  MergeRecords set_iter pyfloat sort_floats vcftype num_samples cr ml useinfo useformat
    format_type trim
  = MergeRecords set_iter pyfloat sort_floats vcftype num_samples cr ml (List.filter snd useinfo)
      useformat format_type trim.
Proof.
  unfold MergeRecords. cbv zeta.
  destruct (filter _ (seq 0 (length ml))) as [|i0 use_ind]; [reflexivity|].
  apply bind_ext. intros r0. apply bind_ext. intros [ref|]; [|reflexivity].
  apply bind_ext. intros am.
  unfold MergeRecords_info.
  rewrite (MergeRecords_info_optional cr ml useinfo 0 0 true). reflexivity.
Qed.

Lemma GetInfoItem_writes_nothing cr ml field fail :
  written (fst (GetInfoItem cr ml field fail)) = [].
Proof.
  unfold GetInfoItem. destruct fail; cbn [negb]; [|reflexivity].
  destruct (for_range (length ml) _ _) as [[vals rec]|e]; [|reflexivity].
  rewrite bind_lift_ok. cbn [fst snd].
  destruct (size vals =? 1)%nat.
  - destruct (elements vals); reflexivity.
  - destruct rec; reflexivity.
Qed.

Lemma join_cons_led sep x l :
  join sep (x :: l) = x +:+ String.concat EmptyString ((fun s => sep +:+ s) <$> l).
Proof.
  unfold join. revert x. induction l as [|y l IH]; intros x.
  - cbn. rewrite append_empty_r. reflexivity.
  - change (String.concat sep (x :: y :: l)) with (x +:+ sep +:+ String.concat sep (y :: l)).
    rewrite IH, fmap_cons, concat_empty_cons, append_assoc_string. reflexivity.
Qed.

Lemma info_item_run cr ml fr first0 :
  MergeRecords_info_item cr ml fr first0
  = match snd (GetInfoItem cr ml (fst fr) (snd fr)) with
    | Ok (Some inf) =>
        (fst (GetInfoItem cr ml (fst fr) (snd fr))
           ++ (if negb first0 then [VcfWrite ";"] else []) ++ [VcfWrite inf],
         Ok false)
    | Ok None => (fst (GetInfoItem cr ml (fst fr) (snd fr)), Ok first0)
    | Raise e => (fst (GetInfoItem cr ml (fst fr) (snd fr)), Raise e)
    end.
Proof.
  unfold MergeRecords_info_item.
  destruct (GetInfoItem cr ml (fst fr) (snd fr)) as [lg [[inf|]|e]]; cbn [fst snd].
  - destruct first0; reflexivity.
  - cbn. rewrite app_nil_r. reflexivity.
  - reflexivity.
Qed.

Lemma info_items_cons cr ml fr useinfo :
  info_items cr ml (fr :: useinfo)
  = match snd (GetInfoItem cr ml (fst fr) (snd fr)) with
    | Ok (Some s) => s :: info_items cr ml useinfo
    | _ => info_items cr ml useinfo
    end.
Proof.
  unfold info_items. cbn [omap list_omap].
  destruct (snd (GetInfoItem cr ml (fst fr) (snd fr))) as [[s|]|e]; reflexivity.
Qed.

Lemma info_loop_text cr ml useinfo i first0 first :
  snd (forM_enumerate i useinfo (fun _ fr first =>
         MergeRecords_info_item cr ml fr first) first0) = Ok first ->
  text_written (fst (forM_enumerate i useinfo (fun _ fr first =>
                       MergeRecords_info_item cr ml fr first) first0))
  = (if first0 then join ";" (info_items cr ml useinfo)
     else String.concat EmptyString ((fun s => ";" +:+ s) <$> info_items cr ml useinfo)) /\
  first = first0 && bool_decide (info_items cr ml useinfo = []).
Proof.
  revert i first0. induction useinfo as [|fr useinfo IH]; intros i first0.
  - cbn. intros [= <-]. split; [destruct first0; reflexivity|].
    rewrite andb_true_r. reflexivity.
  - cbn [forM_enumerate]. rewrite bind_pair, info_item_run, info_items_cons.
    pose proof (GetInfoItem_writes_nothing cr ml (fst fr) (snd fr)) as Hw.
    destruct (GetInfoItem cr ml (fst fr) (snd fr)) as [lg [[inf|]|e]];
      cbn [fst snd] in *; [| |discriminate].
    + intros Hrest. destruct (IH (S i) false Hrest) as [Htext ->].
      split; [|rewrite andb_false_r; reflexivity].
      rewrite !text_written_app, Htext. unfold text_written at 1. rewrite Hw.
      destruct first0; cbn [negb].
      * rewrite join_cons_led. reflexivity.
      * rewrite fmap_cons, concat_empty_cons, append_assoc_string. reflexivity.
    + intros Hrest. destruct (IH (S i) first0 Hrest) as [Htext ->].
      split; [|reflexivity].
      rewrite text_written_app, Htext. unfold text_written at 1. rewrite Hw.
      reflexivity.
Qed.

(** X14. The INFO column of a merged record is the ";"-join of the
    [name=value] items that [GetInfoItem] gives for the fields of
    [useinfo], in their order: no separator leads, trails or stands
    alone, and the column is empty exactly when no field gives an
    item. *)
Theorem MergeRecords_info_column cr ml useinfo first :
  snd (MergeRecords_info cr ml useinfo) = Ok first ->
  text_written (fst (MergeRecords_info cr ml useinfo))
  = join ";" (info_items cr ml useinfo) /\
  (first = true <-> info_items cr ml useinfo = []).
Proof.
  intros H. destruct (info_loop_text cr ml useinfo 0 true first H) as [Htext ->].
  split; [exact Htext|]. cbn [andb]. apply bool_decide_eq_true.
Qed.

(** ** The sample columns of one record *)

Lemma take_indices_ok mapping gts i acc gt :
  for_enumerate i gts (fun (_ : nat) g acc =>
     a <~ take_index mapping g ;; Ok (acc ++ [a])) acc = Ok gt ->
  exists gs, gt = acc ++ gs /\
             Forall2 (fun g a => take_index mapping g = Ok a) gts gs.
Proof.
  revert i acc. induction gts as [|g gts IH]; intros i acc; simpl.
  - intros [= <-]. exists []. rewrite app_nil_r. split; [reflexivity|constructor].
  - destruct (take_index mapping g) as [a|e] eqn:Ha; simpl; [|discriminate].
    intros H. apply IH in H as (gs & -> & HF). exists (a :: gs).
    rewrite <- app_assoc. split; [reflexivity|]. constructor; assumption.
Qed.

Lemma format_cells_ok fa format_type formats sample_idx i log :
  forM_enumerate i formats (fun fmt_idx fmt (_ : unit) =>
    write ":" ;;;
    ty <- lift (getitem format_type fmt_idx) ;;
    cell <- lift (WriteSampleData_cell fa ty fmt sample_idx) ;;
    write cell) tt = (log, Ok tt) ->
  exists cells, log = cell_writes cells /\ length cells = length formats.
Proof.
  revert i log. induction formats as [|fmt formats IH]; intros i log; cbn [forM_enumerate].
  - intros [= <-]. exists []. split; reflexivity.
  - rewrite bind_pair, bind_write.
    destruct (getitem format_type i) as [ty|e];
      [|rewrite bind_lift_raise; discriminate].
    rewrite bind_lift_ok.
    destruct (WriteSampleData_cell fa ty fmt sample_idx) as [cell|e];
      [|rewrite bind_lift_raise; discriminate].
    rewrite bind_lift_ok. cbn [write fst snd].
    destruct (forM_enumerate (S i) formats _ tt) as [l2 [[]|e]] eqn:Hrest;
      cbn [fst snd]; [|discriminate].
    intros [= <-]. destruct (IH _ _ Hrest) as (cells & -> & Hlen).
    exists (cell :: cells). split; [reflexivity|]. cbn [length]. rewrite Hlen. reflexivity.
Qed.

Lemma take_index_in_range mapping g a :
  take_index mapping g = Ok a ->
  - Z.of_nat (length mapping) <= g < Z.of_nat (length mapping).
Proof.
  unfold take_index.
  destruct ((0 <=? g) && (g <? Z.of_nat (length mapping))) eqn:H1.
  - intros _. apply andb_true_iff in H1 as [H1 H2]. lia.
  - destruct ((- Z.of_nat (length mapping) <=? g) && (g <? 0)) eqn:H2; [|discriminate].
    intros _. apply andb_true_iff in H2 as [H2 H3]. lia.
Qed.

(** X15. The sample columns that [WriteSampleData] writes for a record:
    one column per sample, in order. A sample none of whose alleles is
    called gets a bare ".", without FORMAT cells; any other sample gets
    its allele indices sent through the allele map and joined by "/" or
    "|", and then one ":"-led cell per FORMAT field. The call only
    succeeds when every allele index of such a sample lies within the
    allele map, counting from its end when negative. *)
Theorem WriteSampleData_columns record alleles formats format_type mapping log :
  WriteSampleData record alleles formats format_type mapping = (log, Ok tt) ->
  (exists secs,
     log = concat secs /\
     Forall2 (sample_column mapping formats) (genotypes record) secs) /\
  forall row g,
    row ∈ genotypes record -> not_called (fst row) = false -> g ∈ fst row ->
    - Z.of_nat (length mapping) <= g < Z.of_nat (length mapping).
Proof.
  unfold WriteSampleData.
  destruct (bool_decide _); [discriminate|].
  destruct (WriteSampleData_formats record formats format_type) as [fa|e];
    [|discriminate].
  rewrite bind_lift_ok. unfold forM_range. intros Hloop.
  match type of Hloop with
  | forM_from _ _ ?b _ = _ =>
      assert (Hbody : forall j (s : unit) l (s1 : unit),
                (fun _ : unit => True) s -> b j s = (l, Ok s1) ->
                (fun _ : unit => True) s1 /\
                (fun (j : nat) l =>
                   forall row, genotypes record !! j = Some row ->
                               sample_column mapping formats row l) j l)
  end.
  { intros j [] l [] _. rewrite bind_write. unfold getitem.
    destruct (genotypes record !! j) as [row|] eqn:Hrow;
      [|rewrite bind_lift_raise; discriminate].
    rewrite bind_lift_ok. unfold sample_column.
    destruct (not_called (fst row)) eqn:Hnc.
    { intros [= <-]. split; [exact I|]. intros row' [= <-]. rewrite Hnc. reflexivity. }
    destruct (for_enumerate 0 (fst row) _ []) as [gt|e] eqn:Hgt;
      [|rewrite bind_lift_raise; discriminate].
    rewrite bind_lift_ok, bind_write. cbn [fst snd].
    destruct (forM_enumerate 0 formats _ tt) as [l2 [[]|e]] eqn:Hfmt; cbn [fst snd];
      [|discriminate].
    intros [= <-]. split; [exact I|]. intros row' [= <-]. rewrite Hnc.
    apply take_indices_ok in Hgt as (gs & -> & HF).
    destruct (format_cells_ok _ _ _ _ _ _ Hfmt) as (cells & -> & Hlen).
    exists gs, cells. auto. }
  destruct (forM_from_sections _ _ _ Hbody _ _ _ _ _ I Hloop)
    as (secs & Hlen & -> & Hsecs).
  assert (HF : Forall2 (sample_column mapping formats) (genotypes record) secs).
  { apply Forall2_same_length_lookup. split; [symmetry; exact Hlen|].
    intros k row sec Hrow Hsec. apply (Hsecs k sec Hsec row Hrow). }
  split; [exists secs; split; [reflexivity|exact HF]|].
  intros row g Hrow Hnc Hg.
  apply list_elem_of_lookup in Hrow as [k Hk].
  destruct (Forall2_lookup_l _ _ _ _ _ HF Hk) as (sec & _ & Hcol).
  unfold sample_column in Hcol. rewrite Hnc in Hcol.
  destruct Hcol as (gt & cells & _ & Hgt & _).
  apply list_elem_of_lookup in Hg as [p Hp].
  destruct (Forall2_lookup_l _ _ _ _ _ Hgt Hp) as (a & _ & Ha).
  eapply take_index_in_range, Ha.
Qed.

(** X16. A half-missing call is not taken for a missing one. For a
    diploid sample with first allele [a] called and second allele
    missing (index -1), [WriteSampleData] writes the map entry of [a],
    the phase character, and the last entry of the allele map, that of
    the record's last alternate. *)
Theorem WriteSampleData_half_call record alleles formats format_type mapping log
    k a phased ma mlast :
  WriteSampleData record alleles formats format_type mapping = (log, Ok tt) ->
  genotypes record !! k = Some ([a; -1], phased) ->
  0 <= a -> mapping !! Z.to_nat a = Some ma -> last mapping = Some mlast ->
  VcfWrite (ma +:+ phase_char phased +:+ mlast) ∈ log.
Proof.
  intros Hrun Hrow Ha Hma Hlast. unfold WriteSampleData in Hrun.
  destruct (bool_decide _); [discriminate|].
  destruct (WriteSampleData_formats record formats format_type) as [fa|e];
    [|discriminate].
  rewrite bind_lift_ok in Hrun. unfold forM_range in Hrun.
  match type of Hrun with
  | forM_from _ _ ?b _ = _ =>
      assert (Hbody : forall j (s : unit) l (s1 : unit),
                (fun _ : unit => True) s -> b j s = (l, Ok s1) ->
                (fun _ : unit => True) s1 /\
                (fun (j : nat) l =>
                   j = k -> VcfWrite (ma +:+ phase_char phased +:+ mlast) ∈ l) j l)
  end.
  { intros j [] l [] _ Hb. split; [exact I|]. intros ->. revert Hb.
    rewrite bind_write. unfold getitem. rewrite Hrow, bind_lift_ok.
    assert (Hnc : not_called ([a; -1], phased).1 = false).
    { cbn. destruct (a =? -1) eqn:E1; [lia|]. destruct (a =? -2) eqn:E2; [lia|].
      reflexivity. }
    rewrite Hnc. cbn [fst snd for_enumerate].
    assert (Hta : take_index mapping a = Ok ma).
    { unfold take_index, getitem.
      assert (Hlt : (Z.to_nat a < length mapping)%nat) by (eapply lookup_lt_Some, Hma).
      replace ((0 <=? a) && (a <? Z.of_nat (length mapping))) with true
        by (symmetry; apply andb_true_iff; split; [apply Z.leb_le|apply Z.ltb_lt]; lia).
      rewrite Hma. reflexivity. }
    assert (Htl : take_index mapping (-1) = Ok mlast).
    { unfold take_index, getitem.
      assert (Hpos : (0 < length mapping)%nat).
      { destruct mapping; [discriminate|simpl; lia]. }
      replace ((0 <=? -1) && (-1 <? Z.of_nat (length mapping))) with false by reflexivity.
      replace ((- Z.of_nat (length mapping) <=? -1) && (-1 <? 0)) with true
        by (symmetry; apply andb_true_iff; split; [apply Z.leb_le; lia|reflexivity]).
      replace (Z.to_nat (Z.of_nat (length mapping) + -1)) with (pred (length mapping))
        by lia.
      rewrite <- last_lookup, Hlast. reflexivity. }
    rewrite Hta. cbn [rbind app]. rewrite Htl. cbn [rbind app].
    rewrite bind_lift_ok, bind_write. cbn [fst snd].
    intros [= <-]. right. left. }
  destruct (forM_from_sections _ _ _ Hbody _ _ _ _ _ I Hrun)
    as (secs & Hlen & -> & Hsecs).
  assert (Hk : (k < length secs)%nat) by (rewrite Hlen; eapply lookup_lt_Some, Hrow).
  destruct (lookup_lt_is_Some_2 secs k Hk) as [sec Hsec].
  apply list_elem_of_In, in_concat. exists sec. split.
  - apply list_elem_of_In. eapply list_elem_of_lookup_2, Hsec.
  - apply list_elem_of_In. apply (Hsecs k sec Hsec). reflexivity.
Qed.

(** ** The run over one reader *)

Lemma scan_single_pass chroms trim r c e ci :
  index_of (chrom r) chroms = Some ci ->
  RecordIterator_scan chroms trim 1 [Some r] c e scan_init
  = Ok (if (c <? ci)%nat then scan_init else scan_single trim r e).
Proof.
  intros Hci. unfold RecordIterator_scan, for_range. cbn [for_from getitem lookup list_lookup rbind].
  unfold RecordIterator_scan_record, chroms_index. rewrite Hci. cbn [rbind].
  destruct (c <? ci)%nat; [reflexivity|].
  unfold scan_single, span_pos, span_end, scan_init.
  cbn [min_pos min_idxs overlap curr_pos_end].
  destruct e as [|y|]; [reflexivity| |reflexivity].
  cbn [ext_leb ext_ltb ext_eqb negb andb orb].
  destruct (_ <=? y); reflexivity.
Qed.

Lemma seek_single chroms trim r ci fuel c e :
  index_of (chrom r) chroms = Some ci ->
  (c <= ci)%nat -> (ci - c < fuel)%nat ->
  RecordIterator_seek fuel chroms trim 1 [Some r] c e scan_init
  = Some (Ok (scan_single trim r (if (c =? ci)%nat then e else NegInf), ci,
              if (c =? ci)%nat then e else NegInf)).
Proof.
  intros Hci. revert c e. induction fuel as [|fuel IH]; intros c e Hle Hlt; [lia|].
  cbn [RecordIterator_seek]. rewrite (scan_single_pass chroms trim r c e ci Hci).
  destruct (c <? ci)%nat eqn:Hc.
  - apply Nat.ltb_lt in Hc. cbn [scan_init min_pos ext_eqb].
    rewrite IH by lia.
    replace (c =? ci)%nat with false by (symmetry; apply Nat.eqb_neq; lia).
    destruct (S c =? ci)%nat; reflexivity.
  - apply Nat.ltb_ge in Hc. assert (c = ci) as -> by lia.
    rewrite Nat.eqb_refl. reflexivity.
Qed.

Lemma mark_min_single : mark_min {[ 0%nat ]} [false] = [true].
Proof. unfold mark_min. rewrite elements_singleton. reflexivity. Qed.

Lemma advance_single chroms rd prev c e rd' rc :
  _next_assert_order rd prev chroms 0 = ([], Ok (rd', rc)) ->
  RecordIterator_advance chroms
    {| readers := [rd]; records := [prev]; is_min := [true];
       curr_chrom_idx := c; prev_pos_end := e |}
  = ([], Ok {| readers := [rd']; records := [rc]; is_min := [false];
               curr_chrom_idx := c; prev_pos_end := e |}).
Proof.
  intros Hn. unfold RecordIterator_advance, forM_range.
  cbn [readers records is_min length forM_from getitem lookup list_lookup].
  rewrite ?bind_lift_ok. cbn [readers records is_min getitem lookup list_lookup].
  rewrite ?bind_lift_ok, Hn, ?bind_nil_ok. reflexivity.
Qed.

Lemma single_turn_end idx_iter debug chroms trim prev c e :
  RecordIterator_step idx_iter debug chroms false trim
    {| readers := [[]]; records := [prev]; is_min := [true];
       curr_chrom_idx := c; prev_pos_end := e |}
  = ([], Ok StepStop).
Proof.
  unfold RecordIterator_step.
  rewrite (advance_single chroms [] prev c e [] None) by reflexivity.
  rewrite bind_nil_ok. reflexivity.
Qed.

Lemma single_turn_yield idx_iter debug chroms trim prev c e r rd ci :
  _next_assert_order (r :: rd) prev chroms 0 = ([], Ok (rd, Some r)) ->
  index_of (chrom r) chroms = Some ci -> (c <= ci)%nat ->
  ext_leb (Fin (span_pos trim r)) (if (c =? ci)%nat then e else NegInf) = false ->
  RecordIterator_step idx_iter debug chroms false trim
    {| readers := [r :: rd]; records := [prev]; is_min := [true];
       curr_chrom_idx := c; prev_pos_end := e |}
  = ([], Ok (StepYield
               {| readers := [rd]; records := [Some r]; is_min := [true];
                  curr_chrom_idx := ci;
                  prev_pos_end := ext_max (if (c =? ci)%nat then e else NegInf)
                                          (Fin (span_end trim r)) |})).
Proof.
  intros Hn Hci Hle Hclear. unfold RecordIterator_step.
  rewrite (advance_single chroms (r :: rd) prev c e rd (Some r) Hn), bind_nil_ok.
  cbn [records readers is_min curr_chrom_idx prev_pos_end all_none forallb
       bool_decide decide_rel length].
  replace (bool_decide (Some r = None)) with false
    by (symmetry; apply bool_decide_eq_false; discriminate).
  cbn [andb].
  rewrite (seek_single chroms trim r ci (length chroms) c e Hci Hle).
  2: { pose proof (index_of_lt _ _ _ Hci). lia. }
  cbn [scan_single min_idxs overlap curr_pos_end]. rewrite Hclear, mark_min_single.
  reflexivity.
Qed.

Lemma single_loop idx_iter debug chroms trim rd :
  forall fuel prev c e,
    single_ready chroms trim prev c e rd -> (length rd < fuel)%nat ->
    RecordIterator_loop idx_iter debug fuel chroms false trim
      {| readers := [rd]; records := [prev]; is_min := [true];
         curr_chrom_idx := c; prev_pos_end := e |}
    = ((fun r => Yield [Some r] [true]) <$> rd, Exhausted).
Proof.
  induction rd as [|r rd IH]; intros fuel prev c e (Hstream & [Hwf Hsorted] & Hprev) Hlt;
    (destruct fuel as [|fuel]; [cbn in Hlt; lia|]); cbn [RecordIterator_loop].
  - rewrite single_turn_end. reflexivity.
  - destruct (next_assert_order_sorted (r :: rd) prev chroms 0 Hstream)
      as (rd' & rc & Hn & Hstream').
    pose proof Hn as Hn'.
    apply next_assert_order_ok in Hn' as (_ & _ & [(Hnil & _)|(r0 & Heq & -> & Hin)]);
      [discriminate|].
    injection Heq as <- <-.
    destruct (index_of_elem _ _ Hin) as [ci Hci].
    apply Forall_cons in Hwf as [[_ Hspan] Hwf].
    apply Sorted_inv in Hsorted as [Hsorted Hhd].
    assert (Hfront : (c <= ci)%nat /\
              ext_leb (Fin (span_pos trim r)) (if (c =? ci)%nat then e else NegInf) = false /\
              ext_max (if (c =? ci)%nat then e else NegInf) (Fin (span_end trim r))
              = Fin (span_end trim r)).
    { destruct prev as [p|].
      - destruct Hprev as (Hp & -> & c0 & c' & Hc0 & Hc' & Hrel).
        rewrite Hp in Hc0. injection Hc0 as <-.
        rewrite Hci in Hc'. injection Hc' as <-.
        destruct Hrel as [Hltc|[-> Hgap]].
        + replace (c =? ci)%nat with false by (symmetry; apply Nat.eqb_neq; lia).
          split; [lia|]. split; reflexivity.
        + rewrite Nat.eqb_refl. split; [lia|]. cbn [ext_leb].
          split; [apply Z.leb_gt; lia|].
          unfold ext_max, ext_ltb. cbn [ext_leb].
          replace (span_end trim r <=? span_end trim p) with false
            by (symmetry; apply Z.leb_gt; lia).
          reflexivity.
      - destruct Hprev as [-> ->]. split; [lia|].
        destruct (0 =? ci)%nat; split; reflexivity. }
    destruct Hfront as (Hle & Hclear & Hmax).
    rewrite (single_turn_yield idx_iter debug chroms trim prev c e r rd ci Hn Hci Hle Hclear), Hmax.
    rewrite IH; [reflexivity| |cbn in Hlt; lia].
    split; [exact Hstream'|]. split; [split; assumption|].
    split; [exact Hci|]. split; [reflexivity|].
    destruct rd as [|r' rd]; [exact I|]. inversion Hhd. assumption.
Qed.

(** X17. One reader that is in order and whose records keep clear of
    each other (each on a later chromosome than its predecessor, or
    starting after it ends) is passed through as it is: the generator
    yields each record, alone in its group and marked, in the order of
    the reader, reports no overlap, and ends exhausted. With [verbose]
    it does so when [DebugPrintRecordLocations] returns and reports
    neither to [vcfw] nor as a warning. *)
Theorem RecordIterator_single_reader (idx_iter : SetOrder) debug chroms verbose trim
    reader :
  (verbose = true -> debug_returns debug) ->
  reader_sorted chroms reader -> reader_clear chroms trim reader ->
  RecordIterator idx_iter debug [reader] chroms verbose trim
  = ((fun r => Yield [Some r] [true]) <$> reader, Exhausted).
Proof.
  intros Hdbg Hsorted Hclear. unfold RecordIterator.
  assert (Hquiet :
    RecordIterator_loop idx_iter debug (RecordIterator_turns [reader]) chroms false trim
      (RecordIterator_init [reader])
    = ((fun r => Yield [Some r] [true]) <$> reader, Exhausted)); [|
    rewrite RecordIterator_loop_same; [exact Hquiet|];
    rewrite Hquiet; cbn [fst]; apply Forall_fmap, Forall_forall; intros r _;
    cbn [compose item_debug_quiet]; unfold RecordIterator_debug;
    destruct verbose; [|reflexivity];
    change (vcfrecords [Some r]) with (@Ok (list TRRecord) [r]);
    rewrite bind_lift_ok; apply Hdbg; reflexivity].
  change (RecordIterator_init [reader]) with
    {| readers := [reader]; records := [None]; is_min := [true];
       curr_chrom_idx := 0; prev_pos_end := NegInf |}.
  apply single_loop.
  - split; [apply stream_ok_sorted, Hsorted|]. split; [exact Hclear|]. auto.
  - unfold RecordIterator_turns. cbn [foldr length]. lia.
Qed.

(** ** The case of alleles *)

Lemma upper_ascii_idemp c : upper_ascii (upper_ascii c) = upper_ascii c.
Proof. destruct c as [[] [] [] [] [] [] [] []]; reflexivity. Qed.

Lemma upper_idemp s : upper (upper s) = upper s.
Proof.
  unfold upper. induction s as [|c s IH]; [reflexivity|].
  cbn [map_string]. rewrite upper_ascii_idemp, IH. reflexivity.
Qed.

Lemma record_at_upper cr i :
  record_at (upper_records cr) i
  = match record_at cr i with
    | Ok r => Ok (with_upper_alleles r)
    | Raise e => Raise e
    end.
Proof.
  unfold record_at, upper_records. rewrite list_lookup_fmap.
  destruct (cr !! i) as [[r|]|]; reflexivity.
Qed.

Lemma get_alts_upper trim r :
  get_alts trim (with_upper_alleles r) = upper <$> get_alts trim r.
Proof. destruct trim; reflexivity. Qed.

Lemma GetRefAllele_upper cr ml trim :
  GetRefAllele (upper_records cr) ml trim = GetRefAllele cr ml trim.
Proof.
  unfold GetRefAllele, GetRefAllele_refs, for_range. f_equal.
  apply for_from_ext. intros i s. destruct (default false (ml !! i)); [|reflexivity].
  rewrite record_at_upper. destruct (record_at cr i) as [r|e]; [|reflexivity].
  cbn [rbind with_upper_alleles vcfrecord_REF ref_allele].
  rewrite !upper_idemp. reflexivity.
Qed.

Lemma alts_fold_upper (l : list string) (acc : gset string) :
  foldl (fun alts item => alts ∪ {[ upper item ]}) acc (upper <$> l)
  = foldl (fun alts item => alts ∪ {[ upper item ]}) acc l.
Proof.
  revert acc. induction l as [|x l IH]; intros acc; [reflexivity|].
  cbn [fmap list_fmap foldl]. rewrite upper_idemp. apply IH.
Qed.

Lemma GetAltAlleles_mapping_upper out ralts :
  GetAltAlleles_mapping out (upper <$> ralts) = GetAltAlleles_mapping out ralts.
Proof.
  unfold GetAltAlleles_mapping. f_equal.
  assert (H : forall i (acc : list nat),
    for_enumerate i (upper <$> ralts) (fun _ ralt acc =>
       match index_of (upper ralt) out with
       | Some k => Ok (acc ++ [(k + 1)%nat])
       | None => Raise ValueError
       end) acc
    = for_enumerate i ralts (fun _ ralt acc =>
       match index_of (upper ralt) out with
       | Some k => Ok (acc ++ [(k + 1)%nat])
       | None => Raise ValueError
       end) acc).
  { induction ralts as [|x ralts IH]; intros i acc; [reflexivity|].
    cbn [fmap list_fmap for_enumerate]. rewrite upper_idemp.
    destruct (index_of (upper x) out); [|reflexivity]. cbn [rbind]. apply IH. }
  apply H.
Qed.

Lemma GetAltAlleles_upper set_iter pyfloat sort_floats cr ml vcftype trim :
  GetAltAlleles set_iter pyfloat sort_floats (upper_records cr) ml vcftype trim
  = GetAltAlleles set_iter pyfloat sort_floats cr ml vcftype trim.
Proof.
  unfold GetAltAlleles.
  assert (Ha : GetAltAlleles_alts (upper_records cr) ml trim
               = GetAltAlleles_alts cr ml trim).
  { unfold GetAltAlleles_alts, for_range. apply for_from_ext. intros i s.
    destruct (default false (ml !! i)); [|reflexivity].
    rewrite record_at_upper. destruct (record_at cr i) as [r|e]; [|reflexivity].
    cbn [rbind]. rewrite get_alts_upper, alts_fold_upper. reflexivity. }
  rewrite Ha. apply rbind_ext. intros alts. apply rbind_ext. intros out.
  f_equal. unfold for_range. apply for_from_ext. intros i s.
  destruct (default false (ml !! i)); [|reflexivity].
  rewrite record_at_upper. destruct (record_at cr i) as [r|e]; [|reflexivity].
  cbn [rbind]. rewrite get_alts_upper, GetAltAlleles_mapping_upper. reflexivity.
Qed.

Lemma GetInfoItem_loop_upper cr (ml : list bool) field i n
    (st : gset string * option TRRecord) :
  for_from i n (fun i st =>
       if default false (ml !! i) then
         r <~ record_at (upper_records cr) i ;;
         match info r !! field with
         | Some v => Ok (fst st ∪ {[ v ]}, Some r)
         | None => Raise ValueError
         end
       else Ok st) (fst st, option_map with_upper_alleles (snd st))
  = match for_from i n (fun i st =>
             if default false (ml !! i) then
               r <~ record_at cr i ;;
               match info r !! field with
               | Some v => Ok (fst st ∪ {[ v ]}, Some r)
               | None => Raise ValueError
               end
             else Ok st) st with
    | Ok st' => Ok (fst st', option_map with_upper_alleles (snd st'))
    | Raise e => Raise e
    end.
Proof.
  revert i st. induction n as [|n IH]; intros i st; simpl; [reflexivity|].
  destruct (default false (ml !! i)).
  - rewrite record_at_upper. destruct (record_at cr i) as [r|e]; simpl; [|reflexivity].
    destruct (info r !! field) as [v|]; [|reflexivity].
    exact (IH (S i) (fst st ∪ {[ v ]}, Some r)).
  - apply IH.
Qed.

Lemma GetInfoItem_upper cr ml field fail :
  GetInfoItem (upper_records cr) ml field fail = GetInfoItem cr ml field fail.
Proof.
  unfold GetInfoItem. destruct (negb fail); [reflexivity|].
  unfold for_range.
  pose proof (GetInfoItem_loop_upper cr ml field 0 (length ml) (∅, None)) as H.
  simpl in H. rewrite H. clear H.
  destruct (for_from 0 (length ml) _ (∅, None)) as [[vals a]|e]; [|reflexivity].
  rewrite !bind_lift_ok. simpl.
  destruct (size vals =? 1)%nat; [reflexivity|].
  destruct a as [r|]; reflexivity.
Qed.

Lemma MergeRecords_samples_upper num_samples cr ml alleles useformat format_type maps :
  MergeRecords_samples num_samples (upper_records cr) ml alleles useformat format_type maps
  = MergeRecords_samples num_samples cr ml alleles useformat format_type maps.
Proof.
  unfold MergeRecords_samples, forM_range. apply forM_from_ext. intros i s.
  destruct (default false (ml !! i)); [|reflexivity].
  rewrite record_at_upper. destruct (record_at cr i) as [r|e]; [|reflexivity].
  rewrite !bind_lift_ok. destruct s; reflexivity.
Qed.

(** X18. The merge does not look at the case of the letters of an
    allele: [MergeRecords] writes and reports the same when the
    references and alternates of the records, trimmed and untrimmed,
    are put in upper case beforehand. Records whose alleles differ in
    case only are therefore merged as records with equal alleles. *)
Theorem MergeRecords_ignores_case set_iter pyfloat sort_floats vcftype num_samples cr ml useinfo
    useformat format_type trim :
  MergeRecords set_iter pyfloat sort_floats vcftype num_samples (upper_records cr) ml useinfo
    useformat format_type trim
  = MergeRecords set_iter pyfloat sort_floats vcftype num_samples cr ml useinfo useformat
      format_type trim.
Proof.
  unfold MergeRecords. cbv zeta.
  destruct (filter _ (seq 0 (length ml))) as [|i0 use_ind]; [reflexivity|].
  rewrite record_at_upper. destruct (record_at cr i0) as [r0|e]; [|reflexivity].
  rewrite !bind_lift_ok, GetRefAllele_upper.
  apply bind_ext. intros [ref|]; [|reflexivity].
  rewrite GetAltAlleles_upper. apply bind_ext. intros am.
  assert (Hinfo : MergeRecords_info (upper_records cr) ml useinfo
                  = MergeRecords_info cr ml useinfo).
  { unfold MergeRecords_info. apply forM_enumerate_ext. intros i fr first.
    unfold MergeRecords_info_item. rewrite GetInfoItem_upper. reflexivity. }
  rewrite Hinfo, MergeRecords_samples_upper. reflexivity.
Qed.

(** ** The candidate group is complete *)

Lemma scan_record_complete chroms trim records curr prev j rec sc sc' :
  records !! j = Some rec ->
  scan_ok chroms trim records curr prev j sc ->
  scan_complete chroms trim records curr j sc ->
  RecordIterator_scan_record chroms trim curr prev j rec sc = Ok sc' ->
  scan_complete chroms trim records curr (S j) sc'.
Proof.
  intros Hrec (H1 & H2 & H3 & H4 & H5) [Hin Hall]. rewrite scan_record_eq.
  assert (Hkeep : forall ov,
    (forall r, rec = Some r -> in_scope chroms curr r ->
       min_pos sc = Fin (span_pos trim r) -> curr_pos_end sc = Fin (span_end trim r) ->
       False) ->
    scan_complete chroms trim records curr (S j)
      {| min_pos := min_pos sc; min_idxs := min_idxs sc; overlap := ov;
         curr_pos_end := curr_pos_end sc |}).
  { intros ov Hj. split; [exact Hin|]. cbn [min_pos min_idxs curr_pos_end].
    intros idx r Hlt Hr Hs Hp He. destruct (decide (idx = j)) as [->|Hne].
    - exfalso. rewrite Hrec in Hr. injection Hr as ->. eapply Hj; eauto.
    - apply (Hall idx r); [lia|assumption..]. }
  destruct rec as [r|].
  2: { intros [= <-]. destruct sc. apply Hkeep. intros r Hr. discriminate. }
  unfold chroms_index. destruct (index_of (chrom r) chroms) as [c|] eqn:Hc; [|discriminate].
  cbn [rbind]. destruct (Nat.ltb_spec curr c) as [Hout|Hscope].
  { intros [= <-]. destruct sc. apply Hkeep.
    intros r' [= <-] (c' & Hc' & Hle). rewrite Hc in Hc'. injection Hc' as <-. lia. }
  assert (Hscope_r : in_scope chroms curr r) by (exists c; auto).
  cbv zeta.
  destruct (ext_ltb (Fin (span_pos trim r)) (min_pos sc)) eqn:Hlt.
  { intros [= <-]. split; cbn [min_pos min_idxs curr_pos_end].
    - intros idxs idx [= <-] Hi. apply elem_of_singleton in Hi as ->. eauto.
    - intros idx r' Hlt' Hr Hs [= Hp] _. exists {[ j ]}. split; [reflexivity|].
      apply elem_of_singleton. destruct (decide (idx = j)) as [->|Hne]; [reflexivity|].
      exfalso. destruct (H4 idx r') as (m & Hm & Hle); [lia|assumption..|].
      rewrite Hm in Hlt. apply ext_ltb_Fin in Hlt. lia. }
  destruct (ext_eqb (Fin (span_pos trim r)) (min_pos sc)
            && ext_eqb (Fin (span_end trim r)) (curr_pos_end sc)) eqn:Heq.
  - destruct (min_idxs sc) as [s|] eqn:Hs; [|discriminate].
    intros [= <-]. split; cbn [min_pos min_idxs curr_pos_end].
    + intros idxs idx [= <-] Hi. apply elem_of_union in Hi as [Hi|Hi].
      * apply (Hin s idx eq_refl Hi).
      * apply elem_of_singleton in Hi as ->. eauto.
    + intros idx r' Hlt' Hr Hsc Hp He. exists (s ∪ {[ j ]}). split; [reflexivity|].
      apply elem_of_union. destruct (decide (idx = j)) as [->|Hne].
      * right. apply elem_of_singleton. reflexivity.
      * left. destruct (Hall idx r') as (idxs & Hidxs & Hi); [lia|assumption..|].
        injection Hidxs as <-. exact Hi.
  - intros [= <-]. apply Hkeep. intros r' [= <-] _ Hp He.
    rewrite Hp, He in Heq. cbn [ext_eqb] in Heq. rewrite !Z.eqb_refl in Heq.
    discriminate.
Qed.

Lemma scan_pass_complete chroms trim records curr prev sc sc' :
  scan_ok chroms trim records curr prev 0 sc ->
  scan_complete chroms trim records curr 0 sc ->
  RecordIterator_scan chroms trim (length records) records curr prev sc = Ok sc' ->
  scan_complete chroms trim records curr (length records) sc'.
Proof.
  intros H0 HC Hscan. unfold RecordIterator_scan, for_range in Hscan.
  apply (for_from_inv (fun j sc => scan_ok chroms trim records curr prev j sc /\
                                   scan_complete chroms trim records curr j sc)
           _ _ _ _ _) in Hscan; [exact (proj2 Hscan)| |split; assumption].
  intros j s s1 Hj [Hinv HCj]. unfold getitem.
  destruct (records !! j) as [rec|] eqn:Hrec; [|discriminate]. cbn [rbind].
  intros Hb. split.
  - eapply scan_record_preserves; eassumption.
  - eapply scan_record_complete; eassumption.
Qed.

Lemma scan_complete_restart chroms trim records curr' sc :
  min_idxs sc = None -> scan_complete chroms trim records curr' 0 sc.
Proof.
  intros Hnone. split.
  - intros idxs idx Hidxs. congruence.
  - intros idx r Hlt. lia.
Qed.

Lemma seek_complete chroms trim records fuel :
  forall curr prev sc sc' curr' prev',
    scan_ok chroms trim records curr prev 0 sc -> min_idxs sc = None ->
    RecordIterator_seek fuel chroms trim (length records) records curr prev sc
    = Some (Ok (sc', curr', prev')) ->
    scan_complete chroms trim records curr' (length records) sc'.
Proof.
  induction fuel as [|fuel IH]; intros curr prev sc sc' curr' prev' H0 Hnone;
    [discriminate|].
  cbn [RecordIterator_seek].
  destruct (RecordIterator_scan chroms trim (length records) records curr prev sc)
    as [sc1|e] eqn:Hscan; [|discriminate].
  pose proof (scan_pass_ok _ _ _ _ _ _ _ H0 Hscan) as H1.
  pose proof (scan_pass_complete _ _ _ _ _ _ _ H0
                (scan_complete_restart chroms trim records curr sc Hnone) Hscan) as HC.
  destruct (ext_eqb (min_pos sc1) PosInf) eqn:Hinf.
  - apply ext_eqb_eq in Hinf. apply IH.
    + eapply scan_ok_restart; eassumption.
    + destruct H1 as (H1 & _). apply H1, Hinf.
  - intros [= <- <- <-]. exact HC.
Qed.

(** X19. The candidate group of a turn is complete: it holds exactly
    the sources whose current record is in scope (on the chromosome
    being processed, or an earlier one of the list) and has the
    candidate span, and no record in scope starts before that span. So
    the records that the readers hold at one and the same locus are
    marked together, and are merged into one output record when the
    group is yielded. *)
Theorem RecordIterator_group_complete (idx_iter : SetOrder) debug chroms verbose trim
    st log1 st1 :
  cursor_lengths st -> records_known chroms (records st) ->
  RecordIterator_advance chroms st = (log1, Ok st1) ->
  all_none (records st1) = false ->
  exists sc cci ppe idxs,
    RecordIterator_seek (length chroms) chroms trim (length (readers st1))
      (records st1) (curr_chrom_idx st1) (prev_pos_end st1) scan_init
    = Some (Ok (sc, cci, ppe)) /\
    min_idxs sc = Some idxs /\
    (forall idx,
       idx ∈ idxs <->
       exists r, records st1 !! idx = Some (Some r) /\ in_scope chroms cci r /\
                 min_pos sc = Fin (span_pos trim r) /\
                 curr_pos_end sc = Fin (span_end trim r)) /\
    (forall idx r,
       records st1 !! idx = Some (Some r) -> in_scope chroms cci r ->
       exists m, min_pos sc = Fin m /\ m <= span_pos trim r) /\
    (forall idx,
       is_min (cursor_after st1 sc idxs cci ppe) !! idx = Some true <-> idx ∈ idxs) /\
    (RecordIterator_step idx_iter debug chroms false trim st
     = (log1, Ok (StepYield (cursor_after st1 sc idxs cci ppe))) \/
     exists log2,
       RecordIterator_step idx_iter debug chroms false trim st
       = (log1 ++ log2, Ok (StepSkip (cursor_after st1 sc idxs cci ppe)))) /\
    (let st' := cursor_after st1 sc idxs cci ppe in
     let dbg := RecordIterator_debug debug verbose (records st') (is_min st') in
     RecordIterator_step idx_iter debug chroms verbose trim st
     = (log1 ++ fst dbg,
        match snd dbg with
        | Ok _ => Ok (StepYield st')
        | Raise e => Raise e
        end) \/
     exists log2,
       RecordIterator_step idx_iter debug chroms verbose trim st
       = (log1 ++ log2, Ok (StepSkip st'))).
Proof.
  intros HL HK Hadv Hnone.
  destruct (RecordIterator_step_found_verbose idx_iter debug chroms verbose trim st log1
              st1 HL HK Hadv Hnone)
    as (sc' & cci' & ppe' & idxs' & Hseek' & _ & Hidxs' & _ & _ & Hstepv).
  destruct (RecordIterator_step_found idx_iter debug chroms trim st log1 st1 HL HK Hadv Hnone)
    as (sc & cci & ppe & idxs & Hseek & Hscan & Hidxs & _ & _ & Hstep).
  rewrite Hseek in Hseek'. injection Hseek' as <- <- <-.
  rewrite Hidxs in Hidxs'. injection Hidxs' as <-.
  destruct (RecordIterator_advance_ok chroms st log1 st1 HL Hadv) as (HL1 & _).
  pose proof HL1 as [HLrec HLmin].
  assert (HC : scan_complete chroms trim (records st1) cci (length (records st1)) sc).
  { eapply (seek_complete chroms trim (records st1) (length chroms)
              (curr_chrom_idx st1) (prev_pos_end st1) scan_init sc cci ppe).
    - apply scan_ok_init.
    - reflexivity.
    - rewrite HLrec. exact Hseek. }
  destruct HC as [Hin Hall]. destruct Hscan as (_ & _ & H3 & H4 & _).
  destruct (H3 idxs Hidxs) as [Hne Hmembers].
  exists sc, cci, ppe, idxs. split; [exact Hseek|]. split; [exact Hidxs|].
  split; [|split; [|split; [|split]]].
  - intros idx. split.
    + intros Hi. destruct (Hin idxs idx Hidxs Hi) as (r & Hr & Hs).
      destruct (Hmembers idx Hi) as (_ & r' & Hr' & Hp & He).
      rewrite Hr in Hr'. injection Hr' as <-. exists r. auto.
    + intros (r & Hr & Hs & Hp & He).
      destruct (Hall idx r) as (idxs' & Hidxs' & Hi);
        [eapply lookup_lt_Some, Hr|assumption..|].
      rewrite Hidxs in Hidxs'. injection Hidxs' as <-. exact Hi.
  - intros idx r Hr Hs. apply (H4 idx r); [eapply lookup_lt_Some, Hr|assumption..].
  - intros idx. cbn [cursor_after is_min]. rewrite mark_min_lookup. split.
    + case_decide as Hd; [intros _; apply Hd|].
      intros Hf. apply (RecordIterator_advance_flags chroms st log1 st1 HL Hadv) in Hf.
      discriminate.
    + intros Hi. rewrite decide_True; [reflexivity|]. split; [exact Hi|].
      destruct (Hmembers idx Hi) as (_ & r & Hr & _).
      rewrite HLmin, <- HLrec. eapply lookup_lt_Some, Hr.
  - destruct (overlap sc).
    + right. destruct Hstep as (log2 & _ & Hs). exists log2. exact Hs.
    + left. exact Hstep.
  - cbv zeta in Hstepv |- *. destruct (overlap sc).
    + right. destruct Hstepv as (log2 & _ & Hs). exists log2. exact Hs.
    + left. exact Hstepv.
Qed.

(** ** The columns of a merged line *)

Lemma MergeRecords_layout set_iter pyfloat sort_floats vcftype num_samples cr ml useinfo
    useformat format_type trim ref log :
  group_ok cr ml -> (exists i, ml !! i = Some true) ->
  (forall i r, (i, r) ∈ participants cr ml ->
     num_samples !! i = Some (length (genotypes r)) /\ record_no_tab r) ->
  GetRefAllele cr ml trim = Ok (Some ref) ->
  MergeRecords set_iter pyfloat sort_floats vcftype num_samples cr ml useinfo useformat
    format_type trim = (log, Ok tt) ->
  exists i0 r0 rest out maps first secs,
    participants cr ml = (i0, r0) :: rest /\
    GetAltAlleles set_iter pyfloat sort_floats cr ml vcftype false = Ok (out, maps) /\
    snd (MergeRecords_info cr ml useinfo) = Ok first /\
    log = fixed_columns r0 ref out
          ++ fst (MergeRecords_info cr ml useinfo)
          ++ [VcfWrite tab; VcfWrite (join ":" ("GT" :: useformat))]
          ++ concat secs ++ [VcfWrite newline] /\
    length secs = length ml /\
    (forall k sec, secs !! k = Some sec -> source_columns num_samples ml k sec).
Proof.
  intros Hok Hex Hrows Href HM.
  destruct (GetAltAlleles set_iter pyfloat sort_floats cr ml vcftype false) as [[out maps]|e] eqn:Ham.
  2: { destruct (MergeRecords_first set_iter pyfloat sort_floats vcftype num_samples cr ml
                   useinfo useformat format_type trim Hok Hex)
         as (i0 & r0 & rest0 & Hp & HM').
       rewrite HM', Href, bind_lift_ok, Ham in HM. discriminate. }
  destruct (MergeRecords_shape set_iter pyfloat sort_floats vcftype num_samples cr ml useinfo
              useformat format_type trim ref out maps Hok Hex Href Ham)
    as (i0 & r0 & rest0 & Hp & Hshape).
  rewrite Hshape, bind_pair in HM. cbn [fst snd] in HM.
  rewrite bind_pair in HM.
  destruct (MergeRecords_info cr ml useinfo) as [li [first|e]]; cbn [fst snd] in HM;
    [|discriminate].
  rewrite !bind_write, bind_pair in HM. cbn [fst snd] in HM.
  destruct (MergeRecords_samples num_samples cr ml (ref :: out) useformat
              format_type maps) as [ls [rest|e]] eqn:Hsamples;
    cbn [fst snd write] in HM; [|discriminate].
  apply (f_equal fst) in HM. cbn [fst] in HM. subst log.
  assert (Hmaps : Forall (Forall (fun s => count_tabs s = 0%nat)) maps).
  { destruct (GetAltAlleles_ok _ _ _ _ _ _ _ _ _ Hok Ham) as [_ HF].
    clear -HF. induction HF as [|ir m parts maps Hm HF IH]; constructor.
    - eapply GetAltAlleles_mapping_no_tab, Hm.
    - exact IH. }
  destruct (MergeRecords_samples_sections num_samples cr ml (ref :: out) useformat
              format_type maps ls rest Hok Hrows Hmaps Hsamples)
    as (secs & Hsecs_len & -> & Hsecs).
  exists i0, r0, rest0, out, maps, first, secs.
  split; [exact Hp|]. split; [reflexivity|]. split; [reflexivity|].
  split; [reflexivity|]. split; [exact Hsecs_len|exact Hsecs].
Qed.

Lemma upper_ascii_tab c :
  Ascii.eqb (upper_ascii c) (ascii_of_nat 9) = Ascii.eqb c (ascii_of_nat 9).
Proof. destruct c as [[] [] [] [] [] [] [] []]; reflexivity. Qed.

Lemma count_tabs_upper s : count_tabs (upper s) = count_tabs s.
Proof.
  unfold upper. induction s as [|c s IH]; [reflexivity|].
  cbn [map_string count_tabs]. rewrite upper_ascii_tab, IH. reflexivity.
Qed.

Lemma pretty_positive_no_tab (p : positive) : count_tabs (pretty p) = 0%nat.
Proof.
  unfold pretty, pretty_positive, pretty, pretty_N.
  destruct (decide _); [reflexivity|]. apply pretty_N_go_no_tab.
Qed.

Lemma str_Z_no_tab z : count_tabs (str_Z z) = 0%nat.
Proof.
  unfold str_Z. destruct z as [|p|p].
  - reflexivity.
  - apply pretty_positive_no_tab.
  - change (count_tabs ("-" +:+ pretty p) = 0%nat).
    rewrite count_tabs_app, pretty_positive_no_tab. reflexivity.
Qed.

Lemma GetRefAllele_first cr ml trim ref i0 r0 rest :
  group_ok cr ml -> participants cr ml = (i0, r0) :: rest ->
  GetRefAllele cr ml trim = Ok (Some ref) -> ref = ref_used trim r0.
Proof.
  intros Hok Hp. unfold GetRefAllele.
  rewrite GetRefAllele_refs_eq by assumption. rewrite Hp. cbn [rbind fmap list_fmap snd].
  destruct (negb _); [discriminate|]. cbn [head]. intros [= <-]. reflexivity.
Qed.

Lemma GetInfoItem_item cr ml field fail inf :
  group_ok cr ml ->
  snd (GetInfoItem cr ml field fail) = Ok (Some inf) ->
  exists i r v, (i, r) ∈ participants cr ml /\ info r !! field = Some v /\
                inf = field +:+ "=" +:+ v.
Proof.
  intros Hok. unfold GetInfoItem. destruct fail; cbn [negb]; [|discriminate].
  rewrite GetInfoItem_loop_eq by assumption.
  destruct (decide (Forall (fun ir => is_Some (info (snd ir) !! field))
                      (participants cr ml))) as [Hall|Hsome].
  - rewrite Forall_forall in Hall.
    destruct (fold_info_present field (participants cr ml) (∅, None))
      as (a & -> & _ & _).
    { intros i r Hin. apply (Hall (i, r) Hin). }
    rewrite bind_lift_ok. cbn [fst snd].
    destruct (size (∅ ∪ info_values field (participants cr ml)) =? 1)%nat.
    + destruct (elements (∅ ∪ info_values field (participants cr ml)))
        as [|v vs] eqn:Hel; [discriminate|].
      cbn [ret snd]. intros [= <-].
      assert (Hv : v ∈ (∅ ∪ info_values field (participants cr ml) : gset string)).
      { apply elem_of_elements. rewrite Hel. left. }
      apply elem_of_union in Hv as [Hv|Hv]; [apply not_elem_of_empty in Hv; contradiction|].
      unfold info_values in Hv.
      apply elem_of_list_to_set, list_elem_of_omap in Hv as ([i r] & Hin & Hinfo).
      exists i, r, v. auto.
    + destruct a; discriminate.
  - apply not_Forall_Exists in Hsome; [|intros ir; apply _].
    apply Exists_exists in Hsome as ([i r] & Hin & Hnone). cbn in Hnone.
    rewrite fold_info_missing; [discriminate|].
    exists i, r. split; [exact Hin|].
    destruct (info r !! field); [exfalso; apply Hnone; eauto|reflexivity].
Qed.

Lemma info_loop_no_tab cr ml useinfo i first0 first :
  group_ok cr ml ->
  (forall i r f v, (i, r) ∈ participants cr ml -> info r !! f = Some v ->
                   count_tabs v = 0%nat) ->
  Forall (fun fr : string * bool => count_tabs (fst fr) = 0%nat) useinfo ->
  snd (forM_enumerate i useinfo (fun _ fr first =>
         MergeRecords_info_item cr ml fr first) first0) = Ok first ->
  tabs_written (fst (forM_enumerate i useinfo (fun _ fr first =>
                       MergeRecords_info_item cr ml fr first) first0)) = 0%nat.
Proof.
  intros Hok Hvals. revert i first0.
  induction useinfo as [|fr useinfo IH]; intros i first0 Hfields; [reflexivity|].
  apply Forall_cons in Hfields as [Hfield Hfields].
  cbn [forM_enumerate]. rewrite bind_pair, info_item_run.
  pose proof (GetInfoItem_writes_nothing cr ml (fst fr) (snd fr)) as Hw.
  pose proof (GetInfoItem_item cr ml (fst fr) (snd fr)) as Hitem.
  destruct (GetInfoItem cr ml (fst fr) (snd fr)) as [lg [[inf|]|e]];
    cbn [fst snd] in *; [| |discriminate].
  - intros Hrest. rewrite !tabs_written_app, (IH (S i) false Hfields Hrest).
    destruct (Hitem inf Hok eq_refl) as (j & r & v & Hin & Hv & ->).
    unfold tabs_written at 1. rewrite Hw.
    assert (Hinf : count_tabs (fst fr +:+ "=" +:+ v) = 0%nat).
    { rewrite !count_tabs_app, Hfield, (Hvals j r (fst fr) v Hin Hv). reflexivity. }
    destruct first0; cbn [negb app]; rewrite ?tabs_written_cons_write, Hinf; reflexivity.
  - intros Hrest. rewrite tabs_written_app, (IH (S i) first0 Hfields Hrest).
    unfold tabs_written at 1. rewrite Hw. reflexivity.
Qed.

(** X20. A line that [MergeRecords] writes holds a fixed number of
    columns: the eight columns CHROM to INFO, the FORMAT column, and one
    column for each sample that the readers declare; that is, eight
    plus the sum of the declared sample counts tabs, and the end of
    line last. This holds when no field of the records, no name of an
    INFO field and no name of a FORMAT field holds a tab, and the
    declared sample count of a participating reader is the number of
    rows of its genotype array. *)
Theorem MergeRecords_line_columns set_iter pyfloat sort_floats vcftype num_samples cr ml useinfo
    useformat format_type trim ref log :
  (forall s, set_iter s ≡ₚ elements s) ->
  sort_floats_ok sort_floats ->
  group_ok cr ml -> (exists i, ml !! i = Some true) ->
  length num_samples = length ml ->
  (forall i r, (i, r) ∈ participants cr ml ->
     num_samples !! i = Some (length (genotypes r)) /\ record_plain r) ->
  Forall (fun fr : string * bool => count_tabs (fst fr) = 0%nat) useinfo ->
  Forall (fun f => count_tabs f = 0%nat) useformat ->
  GetRefAllele cr ml trim = Ok (Some ref) ->
  MergeRecords set_iter pyfloat sort_floats vcftype num_samples cr ml useinfo useformat
    format_type trim = (log, Ok tt) ->
  tabs_written log = (8 + sum_list num_samples)%nat /\
  last log = Some (VcfWrite newline).
Proof.
  intros Hperm Hsort Hok Hex Hlen Hrows Hinfo Hformat Href HM.
  destruct (MergeRecords_layout set_iter pyfloat sort_floats vcftype num_samples cr ml useinfo
              useformat format_type trim ref log Hok Hex) as
    (i0 & r0 & rest & out & maps & first & secs & Hp & Ham & Hfirst & -> & Hsl & Hsecs);
    [|exact Href|exact HM|].
  { intros i r Hin. destruct (Hrows i r Hin) as [Hn Hplain]. split; [exact Hn|].
    apply Hplain. }
  assert (Hr0 : (i0, r0) ∈ participants cr ml) by (rewrite Hp; left).
  destruct (Hrows i0 r0 Hr0) as [_ (Hchrom & Hid & HREF & Href0 & _)].
  assert (Hreftab : count_tabs ref = 0%nat).
  { rewrite (GetRefAllele_first cr ml trim ref i0 r0 rest Hok Hp Href).
    unfold ref_used. rewrite count_tabs_upper. destruct trim; assumption. }
  assert (Houttab : count_tabs (join "," out) = 0%nat).
  { rewrite count_tabs_join by reflexivity. apply sum_no_tab.
    destruct (GetAltAlleles_ok _ _ _ _ _ _ _ _ _ Hok Ham) as [Hout _].
    apply (GetAltAlleles_out_alts_perm _ _ _ _ _ _ Hperm) in Hout as Hpo;
      [|intros _; apply Hsort].
    apply Forall_forall. intros a Ha. rewrite Hpo in Ha.
    apply elem_of_elements, group_alts_spec in Ha as (i & r & alt & Hin & Halt & ->).
    rewrite count_tabs_upper.
    destruct (Hrows i r Hin) as [_ (_ & _ & _ & _ & Halts & _)].
    rewrite Forall_forall in Halts. apply Halts, Halt. }
  assert (Hfixed : tabs_written (fixed_columns r0 ref out) = 7%nat).
  { unfold fixed_columns. rewrite !tabs_written_app.
    destruct (0 <? length out)%nat;
      rewrite ?tabs_written_cons_write, ?Hchrom, ?Hid, ?Hreftab, ?Houttab, ?str_Z_no_tab;
      reflexivity. }
  assert (Hinfotab : tabs_written (fst (MergeRecords_info cr ml useinfo)) = 0%nat).
  { unfold MergeRecords_info in *.
    apply (info_loop_no_tab cr ml useinfo 0 true first Hok); [|exact Hinfo|exact Hfirst].
    intros i r f v Hin Hv.
    destruct (Hrows i r Hin) as [_ (_ & _ & _ & _ & _ & Hvals & _)]. eapply Hvals, Hv. }
  assert (Hfmttab : count_tabs (join ":" ("GT" :: useformat)) = 0%nat).
  { rewrite count_tabs_join by reflexivity. apply sum_no_tab.
    constructor; [reflexivity|exact Hformat]. }
  assert (Hsamples : tabs_written (concat secs) = sum_list num_samples).
  { apply tabs_written_sections.
    apply Forall2_same_length_lookup_2; [congruence|].
    intros k sec n Hk Hn. destruct (Hsecs k sec Hk) as (n' & Hn' & Htabs & _).
    congruence. }
  split.
  - rewrite !tabs_written_app, Hfixed, Hinfotab, Hsamples.
    assert (Hsep : tabs_written [VcfWrite tab; VcfWrite (join ":" ("GT" :: useformat))]
                   = 1%nat).
    { rewrite !tabs_written_cons_write, Hfmttab. reflexivity. }
    assert (Hnl : tabs_written [VcfWrite newline] = 0%nat) by reflexivity.
    rewrite Hsep, Hnl. lia.
  - rewrite !app_assoc. apply last_snoc.
Qed.

(** ** The further properties at the example inputs *)

Lemma RecordIterator_accounts_for_every_record_witness :
  sum_list_with item_records (fst (RecordIterator ascending example_debug example_overlap_readers ["chr1"] false false))
  = sum_list_with (fun rd : list TRRecord => length rd) example_overlap_readers.
Proof.
  apply (RecordIterator_accounts_for_every_record ascending example_debug
           example_overlap_readers ["chr1"] false false).
  - discriminate.
  - vm_compute. reflexivity.
Defined.

Lemma header_union_once_witness :
  times_written ("##source=HipSTR" +:+ newline)
    (fst (WriteMergedHeader elements example_GetSamples false "a.vcf,b.vcf"
            [example_reader_1; example_reader_2] "mergeSTR" hipstr)) = 1%nat.
Proof.
  apply (header_union_once elements example_GetSamples false "a.vcf,b.vcf"
           [example_reader_1; example_reader_2] "mergeSTR" hipstr
           example_reader_1 "source" example_reader_2 "##source=HipSTR").
  - intros s. reflexivity.
  - reflexivity.
  - apply contigs_agree_check. vm_compute. reflexivity.
  - left. reflexivity.
  - right. left.
  - vm_compute. repeat constructor.
Defined.

Lemma WriteMergedHeader_kept_fields_witness :
  [("START", true); ("END", true); ("DP", false)]
  = List.filter (fun fr => named_once (get_header_lines "info" example_reader_1) (fst fr))
                (INFOFIELDS hipstr).
Proof.
  refine (proj1 (WriteMergedHeader_kept_fields elements example_GetSamples false
                   "a.vcf,b.vcf" [example_reader_1; example_reader_2] "mergeSTR" hipstr
                   example_reader_1 [("START", true); ("END", true); ("DP", false)]
                   ["DP"] _ _)).
  - reflexivity.
  - vm_compute. reflexivity.
Defined.

Lemma WriteMergedHeader_contig_mismatch_witness :
  WriteMergedHeader elements example_GetSamples false "a.vcf,b.vcf"
    [example_reader_1; example_reader_other] "mergeSTR" hipstr
  = ([], Raise ValueError).
Proof.
  refine (proj1 (WriteMergedHeader_contig_mismatch elements example_float example_sort
                   example_GetSamples ascending example_debug false false false
                   "a.vcf,b.vcf" "mergeSTR"
                   [example_reader_1; example_reader_other] ["chr1"] hipstr
                   example_reader_1 example_reader_other _ _ _)).
  - reflexivity.
  - right. left.
  - vm_compute. discriminate.
Defined.

Lemma main_header_without_samples_witness :
  snd (WriteMergedHeader elements example_no_samples false "a.vcf,b.vcf"
         [example_reader_1; example_reader_2] "mergeSTR" hipstr)
  = Ok None.
Proof.
  refine (proj1 (main_header_without_samples elements example_float example_sort
                   example_no_samples ascending example_debug false
                   false false "a.vcf,b.vcf" "mergeSTR" example_reader_1
                   [example_reader_2] ["chr1"] hipstr _ _ _)).
  - apply contigs_agree_check. vm_compute. reflexivity.
  - reflexivity.
  - right. reflexivity.
Defined.

Lemma GetAltAlleles_never_fails_witness :
  exists out maps,
    GetAltAlleles elements example_float example_sort example_group [true; true] hipstr false
    = Ok (out, maps).
Proof.
  apply (GetAltAlleles_never_fails elements example_float example_sort example_group [true; true]
           hipstr false).
  - intros s. reflexivity.
  - group_of_two.
  - discriminate.
  - discriminate.
Defined.

Lemma GetAltAlleles_malformed_alternate_witness :
  GetAltAlleles elements example_float example_sort [Some example_short_alt; Some example_A]
    [true; true] eh false
  = Raise ValueError.
Proof.
  refine (proj1 (GetAltAlleles_malformed_alternate elements example_float example_sort
                   [Some example_short_alt; Some example_A] [true; true] eh
                   0%nat example_short_alt "<DEL>" _ _ _ _ _)).
  - intros s. reflexivity.
  - group_of_two.
  - apply participants_spec. split; reflexivity.
  - left.
  - left. split; [reflexivity|]. cbn. lia.
Defined.

Lemma GetAltAlleles_without_alternates_witness :
  GetAltAlleles elements example_float example_sort [Some example_no_alt; Some example_no_alt]
    [true; true] hipstr false
  = Ok ([], [["0"]; ["0"]]).
Proof.
  apply (GetAltAlleles_without_alternates elements example_float example_sort
           [Some example_no_alt; Some example_no_alt] [true; true] hipstr false).
  - intros s. reflexivity.
  - exact example_sort_ok.
  - group_of_two.
  - intros i r Hin. participant_cases Hin; reflexivity.
Defined.

Lemma MergeRecords_info_column_witness :
  text_written (fst (MergeRecords_info example_group [true; true]
                       [("START", false); ("END", true)]))
  = join ";" (info_items example_group [true; true] [("START", false); ("END", true)]).
Proof.
  refine (proj1 (MergeRecords_info_column example_group [true; true]
                   [("START", false); ("END", true)] false _)).
  vm_compute. reflexivity.
Defined.

Lemma WriteSampleData_columns_witness :
  exists secs,
    fst (WriteSampleData example_A ["TCTG"; "TCTGTCTG"] [] [] ["0"; "1"]) = concat secs /\
    Forall2 (sample_column ["0"; "1"] []) (genotypes example_A) secs.
Proof.
  refine (proj1 (WriteSampleData_columns example_A ["TCTG"; "TCTGTCTG"] [] []
                   ["0"; "1"] _ _)).
  vm_compute. reflexivity.
Defined.

Lemma WriteSampleData_half_call_witness :
  VcfWrite ("0" +:+ "/" +:+ "2")
  ∈ fst (WriteSampleData example_half_call ["TCTG"; "TCTGTCTG"; "TCTGTCTGTCTG"] [] []
           ["0"; "1"; "2"]).
Proof.
  apply (WriteSampleData_half_call example_half_call
           ["TCTG"; "TCTGTCTG"; "TCTGTCTGTCTG"] [] [] ["0"; "1"; "2"] _
           0%nat 0 false "0" "2").
  - vm_compute. reflexivity.
  - reflexivity.
  - lia.
  - reflexivity.
  - reflexivity.
Defined.

Lemma RecordIterator_single_reader_witness :
  RecordIterator ascending example_debug [[example_left; example_later]] ["chr1"]
    true false
  = ([Yield [Some example_left] [true]; Yield [Some example_later] [true]], Exhausted).
Proof.
  apply (RecordIterator_single_reader ascending example_debug ["chr1"] true false
           [example_left; example_later]).
  - intros _ l is_min. reflexivity.
  - exists [(0%nat, 10); (0%nat, 200)]. split.
    + repeat constructor.
    + repeat constructor.
  - split.
    + repeat constructor; cbn; lia.
    + repeat constructor. exists 0%nat, 0%nat.
      split; [reflexivity|]. split; [reflexivity|]. right. split; [reflexivity|].
      cbn. lia.
Defined.

Lemma RecordIterator_group_complete_witness :
  exists sc idxs, min_idxs sc = Some idxs /\ 1%nat ∈ idxs.
Proof.
  destruct (RecordIterator_group_complete ascending example_debug ["chr1"] false false
              example_overlap_turned [] example_overlap_retried)
    as (sc & cci & ppe & idxs & Hseek & Hmin & Hiff & _).
  - split; reflexivity.
  - intros idx r H. destruct idx as [|[|idx]]; cbn in H; try discriminate H;
      injection H as <-; apply list_elem_of_here.
  - vm_compute. reflexivity.
  - reflexivity.
  - exists sc, idxs. split; [exact Hmin|].
    vm_compute in Hseek. injection Hseek as <- <- <-.
    apply Hiff. exists example_right. split; [reflexivity|].
    split; [exists 0%nat; split; [reflexivity|lia]|]. split; reflexivity.
Defined.

Lemma example_record_plain c p e r alts fields :
  count_tabs c = 0%nat -> count_tabs r = 0%nat ->
  Forall (fun a => count_tabs a = 0%nat) alts ->
  Forall (fun fv : string * string => count_tabs (snd fv) = 0%nat) fields ->
  record_plain (example_record c p e r alts fields).
Proof.
  intros Hc Hr Halts Hfields. unfold record_plain, example_record. cbn.
  repeat split; try assumption.
  - intros f v Hv. apply elem_of_list_to_map_2 in Hv.
    rewrite Forall_forall in Hfields. apply (Hfields (f, v) Hv).
  - intros fmt arr Hf. cbn in Hf. rewrite lookup_empty in Hf. discriminate.
Qed.

Lemma MergeRecords_line_columns_witness :
  tabs_written (fst (MergeRecords elements example_float example_sort hipstr [1%nat; 1%nat]
                       example_group [true; true] [("END", true)] [] [] false))
  = (8 + sum_list [1%nat; 1%nat])%nat.
Proof.
  refine (proj1 (MergeRecords_line_columns elements example_float example_sort hipstr [1%nat; 1%nat]
                   example_group [true; true] [("END", true)] [] [] false "TCTG"
                   _ _ _ _ _ _ _ _ _ _ _)).
  - intros s. reflexivity.
  - exact example_sort_ok.
  - group_of_two.
  - exists 0%nat. reflexivity.
  - reflexivity.
  - intros i r Hin. apply participants_spec in Hin as [Hm Hr].
    destruct i as [|[|i]]; cbn in Hr; try discriminate Hr; injection Hr as <-;
      (split; [reflexivity|]);
      apply example_record_plain; try reflexivity; repeat constructor.
  - repeat constructor.
  - constructor.
  - vm_compute. reflexivity.
  - vm_compute. reflexivity.
Defined.

(** ** The order of the groups yielded *)

Lemma order_le_trans a b c : order_le a b -> order_le b c -> order_le a c.
Proof.
  unfold order_le, order_lt. destruct a as [a1 a2], b as [b1 b2], c as [c1 c2].
  cbn [fst snd]. rewrite !orb_false_iff, !andb_false_iff.
  rewrite !Nat.ltb_ge, !Nat.eqb_neq, !Z.ltb_ge. lia.
Qed.

Lemma order_le_refl a : order_le a a.
Proof.
  unfold order_le, order_lt. rewrite Nat.ltb_irrefl, Z.ltb_irrefl, andb_false_r.
  reflexivity.
Qed.

Lemma bound_le_trans lower a b : bound_le lower a -> order_le a b -> bound_le lower b.
Proof. destruct lower as [k0|]; [apply order_le_trans|auto]. Qed.

Lemma next_assert_order_keys chroms idx reader p l rd r :
  _next_assert_order reader (Some p) chroms idx = (l, Ok (rd, Some r)) ->
  forall kp, order_key chroms p = Some kp ->
  exists k, order_key chroms r = Some k /\ order_le kp k.
Proof.
  unfold _next_assert_order. destruct reader as [|next_rec reader']; [discriminate|].
  destruct (bool_decide (chrom next_rec ∈ chroms)) eqn:Hin; cbn [negb].
  2: { rewrite !bind_WARNING. discriminate. }
  apply bool_decide_eq_true in Hin.
  destruct (chroms_index_known chroms _ Hin) as (ni & Hni & Hni').
  rewrite Hni, bind_lift_ok. unfold chroms_index, order_key.
  destruct (index_of (chrom p) chroms) as [ri|] eqn:Hri;
    [|rewrite bind_lift_raise; discriminate].
  rewrite bind_lift_ok.
  destruct (order_lt (ni, pos next_rec) (ri, pos p)) eqn:Hlt.
  { rewrite bind_WARNING. discriminate. }
  intros [= _ _ <-] kp [= <-]. rewrite Hni'. eexists. split; [reflexivity|exact Hlt].
Qed.

Lemma next_assert_order_first chroms idx reader l rd r :
  _next_assert_order reader None chroms idx = (l, Ok (rd, Some r)) ->
  exists k, order_key chroms r = Some k.
Proof.
  intros Hn. apply next_assert_order_ok in Hn as (_ & _ & [(_ & _ & H)|(r0 & _ & H & Hin)]);
    [discriminate|]. injection H as <-.
  destruct (index_of_elem _ _ Hin) as [c Hc]. unfold order_key. rewrite Hc. eauto.
Qed.

Lemma cursor_above_advance chroms lower st log st1 :
  cursor_lengths st -> cursor_above chroms lower st ->
  RecordIterator_advance chroms st = (log, Ok st1) ->
  (forall idx r, records st1 !! idx = Some (Some r) ->
     exists k, order_key chroms r = Some k /\ bound_le lower k) /\
  curr_chrom_idx st1 = from_option fst 0%nat lower.
Proof.
  intros HL (Hrec & Hcurr & Hnone) Hadv.
  destruct (RecordIterator_advance_ok chroms st log st1 HL Hadv)
    as (HL1 & Hlen & Hc & _ & Hslots).
  split; [|congruence].
  intros idx r Hr.
  assert (Hlt : (idx < length (readers st))%nat).
  { destruct HL1 as [HL1 _]. rewrite <- Hlen, <- HL1. eapply lookup_lt_Some, Hr. }
  destruct (slot_at_lt st idx HL Hlt) as [s0 Hs0].
  destruct (Hslots idx s0 Hs0) as (s1 & Hs1 & Hrel).
  apply slot_at_Some in Hs1 as (_ & Hrec1 & _). rewrite Hr in Hrec1.
  apply slot_at_Some in Hs0 as (_ & Hrec0 & Hf0).
  unfold advanced in Hrel. destruct (snd s0) eqn:Hflag.
  - destruct Hrel as (l & Hn & _).
    destruct (fst s1) as [rd' rc'] eqn:Hfs. cbn [snd] in Hrec1. injection Hrec1 as <-.
    destruct (snd (fst s0)) as [p|] eqn:Hp.
    + destruct (Hrec idx p Hrec0) as (kp & Hkp & Hb).
      destruct (next_assert_order_keys chroms idx _ p l rd' r Hn kp Hkp) as (k & Hk & Hle).
      exists k. split; [exact Hk|]. eapply bound_le_trans; eassumption.
    + destruct (next_assert_order_first chroms idx _ l rd' r Hn) as [k Hk].
      exists k. split; [exact Hk|]. rewrite (Hnone idx Hf0 Hrec0). exact I.
  - subst s1. rewrite <- Hrec1 in Hrec0. apply (Hrec idx r Hrec0).
Qed.

Lemma seek_lower chroms trim records fuel :
  forall curr prev sc sc' cci ppe,
    scan_ok chroms trim records curr prev 0 sc ->
    RecordIterator_seek fuel chroms trim (length records) records curr prev sc
    = Some (Ok (sc', cci, ppe)) ->
    (forall idx r, records !! idx = Some (Some r) ->
       exists c, index_of (chrom r) chroms = Some c /\ (curr <= c)%nat) ->
    forall idx r, records !! idx = Some (Some r) ->
      exists c, index_of (chrom r) chroms = Some c /\ (cci <= c)%nat.
Proof.
  induction fuel as [|fuel IH]; intros curr prev sc sc' cci ppe H0; [discriminate|].
  cbn [RecordIterator_seek].
  destruct (RecordIterator_scan chroms trim (length records) records curr prev sc)
    as [sc1|e] eqn:Hscan; [|discriminate].
  pose proof (scan_pass_ok _ _ _ _ _ _ _ H0 Hscan) as H1.
  destruct (ext_eqb (min_pos sc1) PosInf) eqn:Hinf.
  - apply ext_eqb_eq in Hinf. intros Hseek Hall.
    eapply IH; [eapply scan_ok_restart; eassumption|exact Hseek|].
    intros idx r Hr. destruct (Hall idx r Hr) as (c & Hc & Hle).
    exists c. split; [exact Hc|].
    destruct (Nat.eq_dec c curr) as [->|Hne]; [|lia]. exfalso.
    destruct H1 as (_ & _ & _ & H4 & _).
    destruct (H4 idx r) as (m & Hm & _);
      [eapply lookup_lt_Some, Hr|exact Hr|exists curr; auto|congruence].
  - intros [= <- <- <-] Hall. exact Hall.
Qed.

Lemma order_le_fst a b : order_le a b -> (fst a <= fst b)%nat.
Proof.
  unfold order_le, order_lt. rewrite orb_false_iff, Nat.ltb_ge. tauto.
Qed.

Lemma yielded_Log log : yielded (Log <$> log) = [].
Proof. induction log as [|e log IH]; [reflexivity|exact IH]. Qed.

Lemma yielded_app l1 l2 : yielded (l1 ++ l2) = yielded l1 ++ yielded l2.
Proof. apply omap_app. Qed.

Lemma RecordIterator_turn_order_quiet (idx_iter : SetOrder) debug chroms lower st :
  cursor_ok chroms st -> cursor_above chroms lower st ->
  (exists log e,
     RecordIterator_step idx_iter debug chroms false false st = (log, Raise e)) \/
  (exists log,
     RecordIterator_step idx_iter debug chroms false false st = (log, Ok StepStop)) \/
  (exists st' m,
     cursor_ok chroms st' /\
     cursor_above chroms (Some (curr_chrom_idx st', m)) st' /\
     bound_le lower (curr_chrom_idx st', m) /\
     group_key chroms (records st', is_min st') (curr_chrom_idx st', m) /\
     ((exists log, RecordIterator_step idx_iter debug chroms false false st
                   = (log, Ok (StepSkip st'))) \/
      (exists log, RecordIterator_step idx_iter debug chroms false false st
                   = (log, Ok (StepYield st'))))).
Proof.
  intros Hok Habove. pose proof Hok as (HL & HK & HE & HM).
  destruct (RecordIterator_advance chroms st) as [log1 [st1|e]] eqn:Hadv.
  2: { left. exists log1, e. unfold RecordIterator_step. rewrite Hadv. reflexivity. }
  right. pose proof (RecordIterator_advance_log chroms st log1 st1 HL Hadv) as ->.
  destruct (all_none (records st1)) eqn:Hnone.
  { left. exists []. unfold RecordIterator_step.
    rewrite Hadv, bind_nil_ok, Hnone. reflexivity. }
  right.
  destruct (RecordIterator_step_found idx_iter debug chroms false st [] st1 HL HK Hadv Hnone)
    as (sc & cci & ppe & idxs & Hseek & Hscan & Hidxs & _ & _ & Hstep).
  destruct (RecordIterator_advance_ok chroms st [] st1 HL Hadv) as (HL1 & Hlen & _).
  pose proof (RecordIterator_advance_flags chroms st [] st1 HL Hadv) as Hflags.
  destruct (cursor_above_advance chroms lower st [] st1 HL Habove Hadv)
    as [Hrec1 Hcurr1].
  pose proof HL1 as [HLrec HLmin].
  rewrite <- HLrec in Hseek.
  assert (Hlow : forall idx r, records st1 !! idx = Some (Some r) ->
            exists c, index_of (chrom r) chroms = Some c /\ (cci <= c)%nat).
  { apply (seek_lower chroms false (records st1) (length chroms)
             (curr_chrom_idx st1) (prev_pos_end st1) scan_init sc cci ppe
             (scan_ok_init _ _ _ _ _) Hseek).
    intros idx r Hr. destruct (Hrec1 idx r Hr) as (k & Hk & Hb).
    unfold order_key in Hk. destruct (index_of (chrom r) chroms) as [c|]; [|discriminate].
    injection Hk as <-. exists c. split; [reflexivity|].
    rewrite Hcurr1. destruct lower as [k0|]; cbn [from_option]; [|lia].
    apply order_le_fst in Hb. exact Hb. }
  pose proof (seek_complete chroms false (records st1) (length chroms)
                (curr_chrom_idx st1) (prev_pos_end st1) scan_init sc cci ppe
                (scan_ok_init _ _ _ _ _) eq_refl Hseek) as [Hscope _].
  pose proof Hscan as (_ & _ & H3 & H4 & _).
  destruct (H3 idxs Hidxs) as [Hne Hmembers].
  assert (Hmem : forall i, i ∈ idxs -> exists r, records st1 !! i = Some (Some r)).
  { intros i Hi. destruct (Hmembers i Hi) as (_ & r & Hr & _). eauto. }
  assert (Hmem' : forall idx, idx ∈ idxs ->
            exists r, records st1 !! idx = Some (Some r) /\
                      min_pos sc = Fin (span_pos false r) /\
                      curr_pos_end sc = Fin (span_end false r)).
  { intros idx Hi. destruct (Hmembers idx Hi) as (_ & r & Hr). eauto. }
  pose proof (cursor_after_ok chroms st [] st1 sc idxs cci ppe Hok Hadv Hne Hmem)
    as Hok'.
  destruct (cursor_after_group chroms false st1 sc idxs cci ppe HL1 Hflags Hne
              Hmem' Hok') as [Hgroup Hmark].
  pose proof Hne as Hne0. apply set_choose_L in Hne0 as [idx0 Hin0].
  destruct (Hmembers idx0 Hin0) as (_ & r0 & Hr0 & Hmin0 & _).
  cbn [span_pos] in Hmin0.
  assert (Hkey : forall idx r, idx ∈ idxs -> records st1 !! idx = Some (Some r) ->
            order_key chroms r = Some (cci, pos r0)).
  { intros idx r Hi Hr.
    destruct (Hmembers idx Hi) as (_ & r' & Hr' & Hmin & _).
    rewrite Hr in Hr'. injection Hr' as <-. cbn [span_pos] in Hmin.
    rewrite Hmin0 in Hmin. injection Hmin as Hpos.
    destruct (Hscope idxs idx Hidxs Hi) as (r' & Hr' & c & Hc & Hle).
    rewrite Hr in Hr'. injection Hr' as <-.
    destruct (Hlow idx r Hr) as (c' & Hc' & Hge).
    rewrite Hc in Hc'. injection Hc' as <-.
    unfold order_key. rewrite Hc. f_equal. f_equal; [lia|congruence]. }
  exists (cursor_after st1 sc idxs cci ppe), (pos r0).
  cbn [cursor_after curr_chrom_idx records is_min].
  split; [exact Hok'|]. split; [|split; [|split]].
  - split; [|split]; cbn [cursor_after curr_chrom_idx records is_min from_option fst].
    + intros idx r Hr. destruct (Hlow idx r Hr) as (c & Hc & Hge).
      exists (c, pos r). unfold order_key. rewrite Hc. split; [reflexivity|].
      cbn [bound_le]. unfold order_le, order_lt. cbn [fst snd].
      apply orb_false_iff. split; [apply Nat.ltb_ge; exact Hge|].
      apply andb_false_iff.
      destruct (Nat.eq_dec c cci) as [->|Hne']; [|left; apply Nat.eqb_neq; exact Hne'].
      right. apply Z.ltb_ge.
      destruct (H4 idx r) as (m & Hm & Hle);
        [eapply lookup_lt_Some, Hr|exact Hr|exists cci; auto|].
      rewrite Hmin0 in Hm. injection Hm as <-. exact Hle.
    + reflexivity.
    + intros idx Hf Hr. apply Hmark in Hf. destruct (Hmem idx Hf) as [r Hr'].
      cbn [cursor_after records] in Hr. congruence.
  - destruct (Hrec1 idx0 r0 Hr0) as (k & Hk & Hb).
    rewrite (Hkey idx0 r0 Hin0 Hr0) in Hk. injection Hk as <-. exact Hb.
  - split; cbn [fst snd].
    + intros Hnil.
      assert (Hp : (idx0, r0) ∈ participants (records st1) (mark_min idxs (is_min st1))).
      { apply participants_spec. split; [apply Hmark, Hin0|exact Hr0]. }
      rewrite Hnil in Hp. inversion Hp.
    + intros [i r] Hp. apply participants_spec in Hp as [Hf Hr]. cbn [snd].
      apply (Hkey i r); [apply Hmark, Hf|exact Hr].
  - destruct (overlap sc).
    + left. destruct Hstep as (log2 & _ & Hs). exists log2. exact Hs.
    + right. eexists. exact Hstep.
Qed.

Lemma RecordIterator_turn_order (idx_iter : SetOrder) debug chroms verbose lower st :
  cursor_ok chroms st -> cursor_above chroms lower st ->
  (exists log e,
     RecordIterator_step idx_iter debug chroms verbose false st = (log, Raise e)) \/
  (exists log,
     RecordIterator_step idx_iter debug chroms verbose false st = (log, Ok StepStop)) \/
  (exists st' m,
     cursor_ok chroms st' /\
     cursor_above chroms (Some (curr_chrom_idx st', m)) st' /\
     bound_le lower (curr_chrom_idx st', m) /\
     group_key chroms (records st', is_min st') (curr_chrom_idx st', m) /\
     ((exists log, RecordIterator_step idx_iter debug chroms verbose false st
                   = (log, Ok (StepSkip st'))) \/
      (exists log, RecordIterator_step idx_iter debug chroms verbose false st
                   = (log, Ok (StepYield st'))))).
Proof.
  intros Hok Habove. rewrite (RecordIterator_step_verbose idx_iter debug chroms verbose).
  destruct (RecordIterator_turn_order_quiet idx_iter debug chroms lower st Hok Habove)
    as [(log & e & ->)|[(log & ->)|
        (st' & m & Hok' & Habove' & Hb & Hkey & [(log & ->)|(log & ->)])]].
  - left. eauto.
  - right. left. eauto.
  - right. right. exists st', m. repeat (split; [assumption|]). left. eauto.
  - destruct (snd (RecordIterator_debug debug verbose (records st') (is_min st')))
      as [[]|e] eqn:Hdbg.
    + right. right. exists st', m. repeat (split; [assumption|]). right. eauto.
    + left. eauto.
Qed.

Lemma RecordIterator_loop_order (idx_iter : SetOrder) debug chroms verbose fuel :
  forall st lower,
    cursor_ok chroms st -> cursor_above chroms lower st ->
    exists keys,
      Forall2 (group_key chroms)
              (yielded (fst (RecordIterator_loop idx_iter debug fuel chroms verbose
                               false st))) keys /\
      StronglySorted order_le keys /\
      Forall (bound_le lower) keys.
Proof.
  induction fuel as [|fuel IH]; intros st lower Hok Habove.
  { exists []. repeat constructor. }
  cbn [RecordIterator_loop].
  destruct (RecordIterator_turn_order idx_iter debug chroms verbose lower st Hok Habove)
    as [(log & e & ->)|[(log & ->)|
        (st' & m & Hok' & Habove' & Hb & Hkey & Hstep)]].
  - exists []. cbn [fst]. rewrite yielded_Log. repeat constructor.
  - exists []. cbn [fst]. rewrite yielded_Log. repeat constructor.
  - destruct (IH st' _ Hok' Habove') as (keys & Hkeys & Hsorted & Hall).
    cbn [bound_le] in Hall.
    assert (Hall' : Forall (bound_le lower) keys).
    { eapply Forall_impl; [exact Hall|]. intros k Hk.
      eapply bound_le_trans; eassumption. }
    destruct Hstep as [(log & ->)|(log & ->)];
      destruct (RecordIterator_loop idx_iter debug fuel chroms verbose false st')
        as [items fin];
      cbn [fst] in *.
    + exists keys. rewrite yielded_app, yielded_Log. cbn [app].
      split; [exact Hkeys|]. split; [exact Hsorted|exact Hall'].
    + exists ((curr_chrom_idx st', m) :: keys).
      rewrite yielded_app, yielded_Log. cbn [app].
      split; [|split].
      * change (yielded (Yield (records st') (is_min st') :: items))
          with ((records st', is_min st') :: yielded items).
        constructor; [exact Hkey|exact Hkeys].
      * constructor; [exact Hsorted|exact Hall].
      * constructor; [exact Hb|exact Hall'].
Qed.

Lemma cursor_above_init chroms readers :
  cursor_above chroms None (RecordIterator_init readers).
Proof.
  unfold cursor_above, RecordIterator_init. cbn. split; [|split].
  - intros idx r H. apply lookup_replicate in H as [H _]. discriminate.
  - reflexivity.
  - reflexivity.
Qed.

(** X21. Without trimming, the groups come out in the order of the
    chromosome list and, on one chromosome, of the position: every
    group that the generator yields has a key (the index of a
    chromosome and a position) that all its records to merge share, and
    the keys of the groups, in the order in which they are yielded,
    never go down. So the records that [MergeRecords] writes are
    sorted, whatever the readers hold. *)
Theorem RecordIterator_yields_in_order (idx_iter : SetOrder) debug readers chroms verbose :
  exists keys,
    Forall2 (group_key chroms)
            (yielded (fst (RecordIterator idx_iter debug readers chroms verbose false)))
            keys /\
    StronglySorted order_le keys.
Proof.
  unfold RecordIterator.
  destruct (RecordIterator_loop_order idx_iter debug chroms verbose
              (RecordIterator_turns readers)
              (RecordIterator_init readers) None
              (RecordIterator_init_ok chroms readers)
              (cursor_above_init chroms readers))
    as (keys & Hkeys & Hsorted & _).
  exists keys. split; assumption.
Qed.
